(** * Syzygy tablebase probing (src/syzygy/tbprobe.cpp): a shallow embedding

    The development follows the source file from the leaves up: fixed-width
    integers and memory reads, the Huffman-pair decoder, the header parser
    [set_sizes], the DTZ value remap, the position encoder [probe_table], the
    table registry and, last, the recursive probe routines.  What the
    theorems are stated with (the invariant of the symbol dictionary, the
    game value the capture search computes, the mirror of a position) comes
    after the code it speaks of. *)

From Stdlib Require Import ZArith Lia Bool Ascii String.
From stdpp Require Import base option list sorting.

Local Open Scope Z_scope.

(** ** Fixed-width integers

    C++ integers are modelled as [Z] with the wrap-around written out:
    [uN] reduces to an unsigned N-bit value, [s32] to a two's complement
    [int]. *)

Definition u8  (x : Z) : Z := x mod 2 ^ 8.
Definition u16 (x : Z) : Z := x mod 2 ^ 16.
Definition u32 (x : Z) : Z := x mod 2 ^ 32.
Definition u64 (x : Z) : Z := x mod 2 ^ 64.
Definition s32 (x : Z) : Z := (x + 2 ^ 31) mod 2 ^ 32 - 2 ^ 31.

(** [x << k] and [x >> k] on [uint64_t].  C++ leaves the shift undefined
    unless [0 <= k < 64]; the results below are only used in that range. *)
Definition shl64 (x k : Z) : Z := u64 (Z.shiftl x k).
Definition shr64 (x k : Z) : Z := Z.shiftr x k.

(** ** Memory

    A mapped table file is read through raw pointers.  Memory is a
    byte-addressed function and a pointer is an address. *)

Definition Mem := Z -> Z.

Definition load8 (m : Mem) (a : Z) : Z := u8 (m a).

Inductive Endian := BigEndian | LittleEndian.

(** [number<T, LE>(addr)] with [size = sizeof(T)]: the value stored at
    [addr] in the given byte order, whatever the byte order of the host. *)
Fixpoint number (size : nat) (LE : Endian) (m : Mem) (addr : Z) : Z :=
  match size with
  | O => 0
  | S k =>
      match LE with
      | LittleEndian => load8 m addr + 2 ^ 8 * number k LE m (addr + 1)
      | BigEndian => load8 m addr * 2 ^ (8 * Z.of_nat k) + number k LE m (addr + 1)
      end
  end.

(** A [std::vector] read by index: outside the vector the access is
    undefined in C++ and the model stops with [None]. *)
Definition vec_get (v : list Z) (i : Z) : option Z :=
  if i <? 0 then None else v !! Z.to_nat i.

(** [v.resize(n)]: keeps the first [n] elements and pads with zeros. *)
Definition vec_resize (n : nat) (v : list Z) : list Z :=
  take n v ++ replicate (n - length v) 0.

(** ** PairsData *)

Record PairsData := mkPairsData {
  blocksize : Z;
  idxbits : Z;
  num_indices : Z;
  real_num_blocks : Z;
  num_blocks : Z;
  max_len : Z;
  min_len : Z;
  offset : Z;            (* uint16_t*  *)
  sympat : Z;            (* uint8_t*   *)
  indextable : Z;        (* uint8_t*   *)
  sizetable : Z;         (* uint16_t*  *)
  data : Z;              (* uint8_t*   *)
  base : list Z;         (* std::vector<uint64_t> *)
  symlen : list Z;       (* std::vector<uint8_t>  *)
  pieces : list Z;       (* Piece[TBPIECES]       *)
  factor : list Z;       (* uint64_t[TBPIECES]    *)
  norm : list Z          (* uint8_t[TBPIECES]     *)
}.

(** [new PairsData()]: every scalar zero, both vectors empty. *)
Definition PairsData_new : PairsData :=
  mkPairsData 0 0 0 0 0 0 0 0 0 0 0 0 [] [] (replicate 6 0) (replicate 6 0) (replicate 6 0).

(** ** The Huffman-pair decoder *)

(** The children stored in the 3-byte [sympat] entry of symbol [s]. *)
Definition sympat_s1 (m : Mem) (sp s : Z) : Z :=
  let w := sp + 3 * s in
  Z.lor (Z.shiftl (Z.land (load8 m (w + 1)) 15) 8) (load8 m w).

Definition sympat_s2 (m : Mem) (sp s : Z) : Z :=
  let w := sp + 3 * s in
  Z.lor (Z.shiftl (load8 m (w + 2)) 4) (Z.shiftr (load8 m (w + 1)) 4).

(** [d->sizetable[block]] *)
Definition sizetable_at (m : Mem) (d : PairsData) (block : Z) : Z :=
  number 2 LittleEndian m (sizetable d + 2 * block).

(** [while (litidx < 0) litidx += d->sizetable[--block] + 1;] *)
Fixpoint block_backward (fuel : nat) (m : Mem) (d : PairsData)
    (litidx block : Z) : option (Z * Z) :=
  if litidx <? 0 then
    match fuel with
    | O => None
    | S f =>
        let block' := u32 (block - 1) in
        block_backward f m d (s32 (litidx + (sizetable_at m d block' + 1))) block'
    end
  else Some (litidx, block).

(** [while (litidx > d->sizetable[block]) litidx -= d->sizetable[block++] + 1;] *)
Fixpoint block_forward (fuel : nat) (m : Mem) (d : PairsData)
    (litidx block : Z) : option (Z * Z) :=
  if litidx >? sizetable_at m d block then
    match fuel with
    | O => None
    | S f =>
        block_forward f m d (s32 (litidx - (sizetable_at m d block + 1)))
                      (u32 (block + 1))
    end
  else Some (litidx, block).

(** [while (code < d->base[l - d->min_len]) ++l;] *)
Fixpoint code_length (fuel : nat) (d : PairsData) (code l : Z) : option Z :=
  b ← vec_get (base d) (l - min_len d);
  if code <? b then
    match fuel with
    | O => None
    | S f => code_length f d code (l + 1)
    end
  else Some l.

(** The [for (;;)] loop: decodes symbols until the one that covers
    [litidx]; returns that symbol and what is left of [litidx]. *)
Fixpoint decode_symbol (fuel : nat) (m : Mem) (d : PairsData)
    (code litidx bitcnt ptr : Z) : option (Z * Z) :=
  match fuel with
  | O => None
  | S f =>
      l ← code_length fuel d code (min_len d);
      b ← vec_get (base d) (l - min_len d);
      let sym := number 2 LittleEndian m (offset d + 2 * l) in
      let sym := s32 (sym + s32 (shr64 (u64 (code - b)) (64 - l))) in
      sl ← vec_get (symlen d) sym;
      if litidx <? sl + 1 then Some (sym, litidx)
      else
        let litidx := s32 (litidx - (sl + 1)) in
        let code := shl64 code l in
        let bitcnt := s32 (bitcnt + l) in
        if bitcnt >=? 32 then
          let bitcnt := bitcnt - 32 in
          let code := Z.lor code (shl64 (number 4 BigEndian m ptr) bitcnt) in
          decode_symbol f m d code litidx bitcnt (ptr + 4)
        else decode_symbol f m d code litidx bitcnt ptr
  end.

(** [while (d->symlen[sym] != 0)]: descends the pair dictionary to a leaf. *)
Fixpoint expand_symbol (fuel : nat) (m : Mem) (d : PairsData)
    (sym litidx : Z) : option Z :=
  sl ← vec_get (symlen d) sym;
  if sl =? 0 then Some sym
  else
    match fuel with
    | O => None
    | S f =>
        let s1 := sympat_s1 m (sympat d) sym in
        sl1 ← vec_get (symlen d) s1;
        if litidx <? sl1 + 1 then expand_symbol f m d s1 litidx
        else expand_symbol f m d (sympat_s2 m (sympat d) sym)
                           (s32 (litidx - (sl1 + 1)))
    end.

Definition decompress_pairs (fuel : nat) (m : Mem) (d : PairsData)
    (idx : Z) : option Z :=
  if idxbits d =? 0 then Some (min_len d)
  else
    let blockidx := u32 (shr64 idx (idxbits d)) in
    let litidx :=
      s32 (u64 (Z.land idx (u64 (shl64 1 (idxbits d) - 1))
                - shl64 1 (idxbits d - 1))) in
    let row := indextable d + u32 (6 * blockidx) in
    let block := number 4 LittleEndian m row in
    let litidx :=
      s32 (litidx + number 2 LittleEndian m (row + 4)) in
    '(litidx, block) ← block_backward fuel m d litidx block;
    '(litidx, block) ← block_forward fuel m d litidx block;
    let ptr := data d + u32 (Z.shiftl block (blocksize d)) in
    let code := number 8 BigEndian m ptr in
    '(sym, litidx) ← decode_symbol fuel m d code litidx 0 (ptr + 8);
    sym ← expand_symbol fuel m d sym litidx;
    Some (load8 m (sympat d + 3 * sym)).

(** ** The compressed-stream header parser *)

Definition vec_set (v : list Z) (i x : Z) : option (list Z) :=
  if (0 <=? i) && (i <? Z.of_nat (length v)) then Some (<[Z.to_nat i := x]> v)
  else None.

Definition with_symlen (d : PairsData) (v : list Z) : PairsData :=
  mkPairsData (blocksize d) (idxbits d) (num_indices d) (real_num_blocks d)
    (num_blocks d) (max_len d) (min_len d) (offset d) (sympat d)
    (indextable d) (sizetable d) (data d) (base d) v
    (pieces d) (factor d) (norm d).

Definition with_min_len (d : PairsData) (x : Z) : PairsData :=
  mkPairsData (blocksize d) (idxbits d) (num_indices d) (real_num_blocks d)
    (num_blocks d) (max_len d) x (offset d) (sympat d)
    (indextable d) (sizetable d) (data d) (base d) (symlen d)
    (pieces d) (factor d) (norm d).

(** [calc_symlen(d, s, tmp)]: the recursion follows the pair dictionary and
    is not structural, hence the fuel; a dictionary with a cycle makes the
    source recurse for ever and the model run out of fuel. *)
Fixpoint calc_symlen (fuel : nat) (m : Mem) (d : PairsData) (s : Z)
    (tmp : list Z) : option (PairsData * list Z) :=
  match fuel with
  | O => None
  | S f =>
      let s2 := sympat_s2 m (sympat d) s in
      '(d, tmp) ←
        (if s2 =? 4095 then
           v ← vec_set (symlen d) s 0;
           Some (with_symlen d v, tmp)
         else
           let s1 := sympat_s1 m (sympat d) s in
           t1 ← vec_get tmp s1;
           '(d, tmp) ← (if t1 =? 0 then calc_symlen f m d s1 tmp else Some (d, tmp));
           t2 ← vec_get tmp s2;
           '(d, tmp) ← (if t2 =? 0 then calc_symlen f m d s2 tmp else Some (d, tmp));
           l1 ← vec_get (symlen d) s1;
           l2 ← vec_get (symlen d) s2;
           v ← vec_set (symlen d) s (u8 (l1 + l2 + 1));
           Some (with_symlen d v, tmp));
      tmp ← vec_set tmp s 1;
      Some (d, tmp)
  end.

(** [for (size_t i = 0; i < d->symlen.size(); ++i) if (!tmp[i]) calc_symlen(d, i, tmp);]
    with [count] iterations left, starting at [i]. *)
Fixpoint symlen_loop (fuel : nat) (m : Mem) (count : nat) (i : Z)
    (d : PairsData) (tmp : list Z) : option (PairsData * list Z) :=
  match count with
  | O => Some (d, tmp)
  | S c =>
      t ← vec_get tmp i;
      '(d, tmp) ← (if t =? 0 then calc_symlen fuel m d i tmp else Some (d, tmp));
      symlen_loop fuel m c (i + 1) d tmp
  end.

(** [for (int i = d->base.size() - 2; i >= 0; --i) d->base[i] = ...;]
    with [k] iterations left, the next one at index [k - 1]; [off] is
    [d->offset] before it is moved back by [min_len]. *)
Fixpoint base_halve (m : Mem) (off : Z) (k : nat) (b : list Z) : list Z :=
  match k with
  | O => b
  | S i =>
      let next := default 0 (b !! S i) in
      let v := u64 (next + number 2 LittleEndian m (off + 2 * Z.of_nat i)
                         - number 2 LittleEndian m (off + 2 * (Z.of_nat i + 1))) / 2 in
      base_halve m off i (<[i := v]> b)
  end.

(** [for (size_t i = 0; i < d->base.size(); ++i) d->base[i] <<= (64 - d->min_len) - i;] *)
Definition base_shift (minlen : Z) (b : list Z) : list Z :=
  imap (fun i x => shl64 x (64 - minlen - Z.of_nat i)) b.

Definition set_sizes (fuel : nat) (m : Mem) (d : PairsData) (data0 tb_size : Z)
    : option (PairsData * Z) :=
  if negb (Z.land (load8 m data0) 128 =? 0) then
    Some (with_min_len d (load8 m (data0 + 1)), data0 + 2)
  else
    let blocksize' := load8 m (data0 + 1) in
    let idxbits' := load8 m (data0 + 2) in
    let num_indices' :=
      s32 (shr64 (u64 (tb_size + shl64 1 idxbits' - 1)) idxbits') in
    let num_blocks0 := number 1 LittleEndian m (data0 + 3) in
    let real_num_blocks' := s32 (number 4 LittleEndian m (data0 + 4)) in
    let num_blocks' := s32 (num_blocks0 + real_num_blocks') in
    let max_len' := load8 m (data0 + 8) in
    let min_len' := load8 m (data0 + 9) in
    let off := data0 + 10 in
    let size := max_len' - min_len' + 1 in
    if size <? 0 then None       (* resize past max_size() throws *)
    else
      let n := Z.to_nat size in
      let base' := base_shift min_len' (base_halve m off (n - 1) (vec_resize n (base d))) in
      let data1 := off + 2 * Z.of_nat (length base') in
      let symlen' := vec_resize (Z.to_nat (number 2 LittleEndian m data1)) (symlen d) in
      let sympat' := data1 + 2 in
      let d1 :=
        mkPairsData blocksize' idxbits' num_indices' real_num_blocks'
          num_blocks' max_len' min_len' (off - 2 * min_len') sympat'
          (indextable d) (sizetable d) (data d) base' symlen'
          (pieces d) (factor d) (norm d) in
      let len := length symlen' in
      '(d2, _) ← symlen_loop fuel m len 0 d1 (replicate len 0);
      Some (d2, sympat' + 3 * Z.of_nat len + Z.land (Z.of_nat len) 1).

(** ** Specification predicates for the symbol lengths *)

(** What [calc_symlen] establishes for one symbol [s] of the dictionary at
    [sp]: a leaf has length 0, a pair the sum of its children plus one, as
    stored in a [uint8_t]. *)
Definition sym_ok (m : Mem) (sp : Z) (sl : list Z) (s : Z) : Prop :=
  let s1 := sympat_s1 m sp s in
  let s2 := sympat_s2 m sp s in
  (s2 = 4095 -> vec_get sl s = Some 0) /\
  (s2 <> 4095 ->
   exists l1 l2, vec_get sl s1 = Some l1 /\ vec_get sl s2 = Some l2 /\
                 vec_get sl s = Some (u8 (l1 + l2 + 1))).

(** [tmp[s]] is set. *)
Definition sym_done (tmp : list Z) (s : Z) : Prop :=
  exists t, vec_get tmp s = Some t /\ t <> 0.

(** The loop invariant of [calc_symlen]: a symbol marked in [tmp] has its
    final length, and its children are marked too. *)
Definition symlen_inv (m : Mem) (sp : Z) (sl tmp : list Z) : Prop :=
  length tmp = length sl /\
  forall s, sym_done tmp s ->
    sym_ok m sp sl s /\
    (sympat_s2 m sp s <> 4095 ->
     sym_done tmp (sympat_s1 m sp s) /\ sym_done tmp (sympat_s2 m sp s)).

(** Claim C9 read literally, with the sums taken in the integers. *)
Definition symlen_claim_as_stated (m : Mem) (d : PairsData) : Prop :=
  forall s, 0 <= s < Z.of_nat (length (symlen d)) ->
    let s1 := sympat_s1 m (sympat d) s in
    let s2 := sympat_s2 m (sympat d) s in
    (vec_get (symlen d) s = Some 0 <-> s2 = 4095) /\
    (s2 <> 4095 ->
     exists l1 l2, vec_get (symlen d) s1 = Some l1 /\
                   vec_get (symlen d) s2 = Some l2 /\
                   vec_get (symlen d) s = Some (l1 + l2 + 1)).

(** Memory holding the bytes [l] from address 0 on. *)
Definition mem_of_bytes (l : list Z) : Mem :=
  fun a => if a <? 0 then 0 else default 0 (l !! Z.to_nat a).

(** ** Concrete headers

    A header with code lengths 1..3: two symbols of length 3 (codes 000 and
    001), one of length 2 (01) and one of length 1 (1); four leaf symbols. *)
Definition huff_header : list Z :=
  [ 0; 6; 4; 0;  1; 0; 0; 0;  3; 1;     (* flags, blocksize, idxbits, counts, max_len, min_len *)
    3; 0;  2; 0;  0; 0;                 (* offset[0..2] *)
    4; 0;                               (* four symbols *)
    7; 240; 255;  8; 240; 255;          (* leaves: value, then second child 0xFFF *)
    9; 240; 255;  10; 240; 255 ].

(** A dictionary whose symbol 9 expands to 257 leaves: symbols 1..8 double
    their predecessor, symbol 9 is the pair (8, 0). *)
Definition wrap_header : list Z :=
  [ 0; 6; 4; 0;  1; 0; 0; 0;  1; 1;
    0; 0;
    10; 0;
    7; 240; 255;
    0;   0; 0;   1;  16; 0;   2;  32; 0;   3;  48; 0;
    4;  64; 0;   5;  80; 0;   6;  96; 0;   7; 112; 0;
    8;   0; 0 ].

Definition parse_header (bytes : list Z) : option (PairsData * Z) :=
  set_sizes 16 (mem_of_bytes bytes) PairsData_new 0 1000.

Definition huff_pairs : PairsData :=
  Eval vm_compute in default PairsData_new (fst <$> parse_header huff_header).

Definition wrap_pairs : PairsData :=
  Eval vm_compute in default PairsData_new (fst <$> parse_header wrap_header).

(** The header of a single-value table: bit 0x80 set, then the value. *)
Definition single_header : list Z := [ 128; 3 ].

Definition single_pairs : PairsData :=
  Eval vm_compute in default PairsData_new (fst <$> parse_header single_header).

(** ** Squares, pieces and positions

    Modelled from the spec: the enumerations of [types.h], which is not part
    of the sources.  The probing code fixes them by the way it uses them:
    the piece codes by [PieceToChar = " PNBRQK  pnbrqk"] and
    [flipColor = 8], the squares by the flips [^ 7] (files) and [^ 070]
    (ranks). *)

Definition WHITE : Z := 0.
Definition BLACK : Z := 1.

Definition PAWN : Z := 1.
Definition KNIGHT : Z := 2.
Definition BISHOP : Z := 3.
Definition ROOK : Z := 4.
Definition QUEEN : Z := 5.
Definition KING : Z := 6.

Definition NO_PIECE : Z := 0.
Definition make_piece (c pt : Z) : Z := Z.lor (Z.shiftl c 3) pt.
Definition type_of_piece (pc : Z) : Z := Z.land pc 7.
Definition color_of (pc : Z) : Z := Z.shiftr pc 3.

Definition file_of (s : Z) : Z := Z.land s 7.
Definition rank_of (s : Z) : Z := Z.shiftr s 3.
Definition FILE_D : Z := 3.
Definition RANK_4 : Z := 3.
Definition SQ_NONE : Z := 64.

(** The part of [Position] and of its [StateInfo] the probing code reads.
    A bitboard is kept as the list of its squares in increasing order, the
    order in which [pop_lsb] hands them out. *)
Record Position := mkPosition {
  board : list Z;          (* Piece board[SQUARE_NB] *)
  sideToMove : Z;
  materialKey : Z;         (* st->materialKey *)
  epSquare : Z;            (* st->epSquare *)
  rule50 : Z;              (* st->rule50 *)
  checkersBB : Z           (* st->checkersBB *)
}.

Definition piece_on (pos : Position) (s : Z) : Z :=
  default NO_PIECE (board pos !! Z.to_nat s).

Definition squares_with (pos : Position) (p : Z -> bool) : list Z :=
  filter (fun s => p (piece_on pos s) = true) (seqZ 0 64).

(** [pos.pieces()] *)
Definition pieces_all (pos : Position) : list Z :=
  squares_with pos (fun pc => negb (pc =? NO_PIECE)).

(** [pos.pieces(c, pt)] *)
Definition pieces_of (pos : Position) (c pt : Z) : list Z :=
  squares_with pos (fun pc => pc =? make_piece c pt).

(** [pos.pieces(pt)] *)
Definition pieces_of_type (pos : Position) (pt : Z) : list Z :=
  squares_with pos (fun pc => negb (pc =? NO_PIECE) && (type_of_piece pc =? pt)).

(** ** Table entries *)

Record WDLPieceItem := mkWDLPieceItem {
  wdl_hasUniquePieces : bool;
  wdl_piece_precomp : option PairsData       (* PairsData*, None = nullptr *)
}.

Record WDLEntry := mkWDLEntry {
  ready : bool;
  wdl_baseAddress : Z;                       (* 0 = nullptr *)
  wdl_mapping : Z;
  wdl_key : Z;
  wdl_pieceCount : Z;
  wdl_symmetric : bool;
  wdl_hasPawns : bool;
  wdl_piece : list WDLPieceItem;             (* piece[2] *)
  wdl_pawnCount : list Z;                    (* pawn.pawnCount[2] *)
  wdl_pawn_file : list (list (option PairsData))   (* pawn.file[2][4].precomp *)
}.

Record DTZPieceItem := mkDTZPieceItem {
  dtz_hasUniquePieces : bool;
  dtz_piece_precomp : option PairsData;
  dtz_piece_flags : Z;
  dtz_piece_map_idx : list Z;                (* uint16_t map_idx[4] *)
  dtz_piece_map : Z                          (* uint8_t* *)
}.

Record DTZPawnFile := mkDTZPawnFile {
  dtz_file_precomp : option PairsData;
  dtz_file_flags : Z;
  dtz_file_map_idx : list Z
}.

Record DTZEntry := mkDTZEntry {
  dtz_baseAddress : Z;
  dtz_mapping : Z;
  dtz_key : Z;
  dtz_key2 : Z;
  dtz_pieceCount : Z;
  dtz_symmetric : bool;
  dtz_hasPawns : bool;
  dtz_piece : DTZPieceItem;
  dtz_pawnCount : list Z;
  dtz_pawn_file : list DTZPawnFile;          (* pawn.file[4] *)
  dtz_pawn_map : Z
}.

(** [enum Flag { STM = 1, Mapped = 2, WinPlies = 4, LossPlies = 8 }] *)
Definition Flag_STM : Z := 1.
Definition Flag_Mapped : Z := 2.
Definition Flag_WinPlies : Z := 4.
Definition Flag_LossPlies : Z := 8.

Definition WDLLoss : Z := -2.
Definition WDLCursedLoss : Z := -1.
Definition WDLDraw : Z := 0.
Definition WDLCursedWin : Z := 1.
Definition WDLWin : Z := 2.

Definition dtz_file_at (e : DTZEntry) (f : Z) : DTZPawnFile :=
  default (mkDTZPawnFile None 0 []) (dtz_pawn_file e !! Z.to_nat f).

Definition dtz_flags (e : DTZEntry) (f : Z) : Z :=
  if dtz_hasPawns e then dtz_file_flags (dtz_file_at e f)
  else dtz_piece_flags (dtz_piece e).

(** [check_dtz_stm], the general template and its [DTZEntry] specialization. *)
Definition check_dtz_stm_any {Entry : Type} (entry : Entry) (f stm : Z) : bool := true.

Definition check_dtz_stm_DTZ (entry : DTZEntry) (f stm : Z) : bool :=
  let flags := dtz_flags entry f in
  (Z.land flags Flag_STM =? stm) || (dtz_symmetric entry && negb (dtz_hasPawns entry)).

(** [map_score], the general template and its [DTZEntry] specialization.
    The result is [None] where the source indexes [WDLMap] or [map_idx]
    outside the array. *)
Definition map_score_any {Entry : Type} (m : Mem) (entry : Entry) (f value wdl : Z)
    : option Z :=
  Some (value - 2).

Definition WDLMap : list Z := [1; 3; 0; 2; 0].

Definition map_score_DTZ (m : Mem) (entry : DTZEntry) (f value wdl : Z) : option Z :=
  let flags := dtz_flags entry f in
  let map := if dtz_hasPawns entry then dtz_pawn_map entry
             else dtz_piece_map (dtz_piece entry) in
  let idx := if dtz_hasPawns entry then dtz_file_map_idx (dtz_file_at entry f)
             else dtz_piece_map_idx (dtz_piece entry) in
  value ←
    (if negb (Z.land flags Flag_Mapped =? 0) then
       w ← vec_get WDLMap (wdl + 2);
       i ← vec_get idx w;
       Some (load8 m (map + (i + value)))
     else Some value);
  if ((wdl =? WDLWin) && (Z.land flags Flag_WinPlies =? 0))
     || ((wdl =? WDLLoss) && (Z.land flags Flag_LossPlies =? 0))
     || (wdl =? WDLCursedWin)
     || (wdl =? WDLCursedLoss)
  then Some (s32 (value * 2))
  else Some value.

(** What [probe_table] needs of its [Entry] template parameter: the common
    fields, the [item] accessors and the two specialized helpers. *)
Class TBEntry (Entry : Type) := {
  symmetric : Entry -> bool;
  key : Entry -> Z;
  hasPawns : Entry -> bool;
  pawnCount : Entry -> Z -> Z;                             (* entry->pawn.pawnCount[i] *)
  piece_precomp : Entry -> Z -> option PairsData;          (* item(entry->piece, stm, 0).precomp *)
  piece_hasUniquePieces : Entry -> Z -> bool;              (* item(entry->piece, stm, 0).hasUniquePieces *)
  pawn_precomp : Entry -> Z -> Z -> option PairsData;      (* item(entry->pawn, stm, f).precomp *)
  is_DTZEntry : bool;                                      (* std::is_same<Entry, DTZEntry>::value *)
  check_dtz_stm : Entry -> Z -> Z -> bool;
  map_score : Mem -> Entry -> Z -> Z -> Z -> option Z
}.

Definition wdl_piece_at (e : WDLEntry) (stm : Z) : WDLPieceItem :=
  default (mkWDLPieceItem false None) (wdl_piece e !! Z.to_nat stm).

#[global] Instance WDLEntry_TBEntry : TBEntry WDLEntry := {
  symmetric := wdl_symmetric;
  key := wdl_key;
  hasPawns := wdl_hasPawns;
  pawnCount e i := default 0 (wdl_pawnCount e !! Z.to_nat i);
  piece_precomp e stm := wdl_piece_precomp (wdl_piece_at e stm);
  piece_hasUniquePieces e stm := wdl_hasUniquePieces (wdl_piece_at e stm);
  pawn_precomp e stm f :=
    default None (default [] (wdl_pawn_file e !! Z.to_nat stm) !! Z.to_nat f);
  is_DTZEntry := false;
  check_dtz_stm := check_dtz_stm_any;
  map_score := map_score_any
}.

#[global] Instance DTZEntry_TBEntry : TBEntry DTZEntry := {
  symmetric := dtz_symmetric;
  key := dtz_key;
  hasPawns := dtz_hasPawns;
  pawnCount e i := default 0 (dtz_pawnCount e !! Z.to_nat i);
  piece_precomp e stm := dtz_piece_precomp (dtz_piece e);
  piece_hasUniquePieces e stm := dtz_hasUniquePieces (dtz_piece e);
  pawn_precomp e stm f := dtz_file_precomp (dtz_file_at e f);
  is_DTZEntry := true;
  check_dtz_stm := check_dtz_stm_DTZ;
  map_score := map_score_DTZ
}.

(** ** Static tables *)

Definition Flap_table : list Z :=
  [ 0;  0;  0;  0;  0;  0;  0;  0;
    0;  6; 12; 18; 18; 12;  6;  0;
    1;  7; 13; 19; 19; 13;  7;  1;
    2;  8; 14; 20; 20; 14;  8;  2;
    3;  9; 15; 21; 21; 15;  9;  3;
    4; 10; 16; 22; 22; 16; 10;  4;
    5; 11; 17; 23; 23; 17; 11;  5;
    0;  0;  0;  0;  0;  0;  0;  0 ].

Definition Ptwist_table : list Z :=
  [  0;  0;  0;  0;  0;  0;  0;  0;
    47; 35; 23; 11; 10; 22; 34; 46;
    45; 33; 21;  9;  8; 20; 32; 44;
    43; 31; 19;  7;  6; 18; 30; 42;
    41; 29; 17;  5;  4; 16; 28; 40;
    39; 27; 15;  3;  2; 14; 26; 38;
    37; 25; 13;  1;  0; 12; 24; 36;
     0;  0;  0;  0;  0;  0;  0;  0 ].

Definition Invflap_table : list Z :=
  [  8; 16; 24; 32; 40; 48;
     9; 17; 25; 33; 41; 49;
    10; 18; 26; 34; 42; 50;
    11; 19; 27; 35; 43; 51 ].

(** A read of a global array; outside the array the source reads whatever
    lies there, the model 0. *)
Definition table_at (t : list Z) (i : Z) : Z :=
  if i <? 0 then 0 else default 0 (t !! Z.to_nat i).

Definition Flap (s : Z) : Z := table_at Flap_table s.
Definition Ptwist (s : Z) : Z := table_at Ptwist_table s.
Definition Invflap (k : Z) : Z := table_at Invflap_table k.

Definition off_A1H8 (sq : Z) : Z := rank_of sq - file_of sq.

(** [Binomial[k][n]] as [Tablebases::init] fills it by Pascal's triangle;
    the entries it does not write stay 0. *)
Fixpoint Binomial_fill (k n : nat) : Z :=
  match n with
  | O => match k with O => 1 | S _ => 0 end
  | S n' =>
      if (k <? 6)%nat && (k <=? n)%nat then
        match k with O => 0 | S k' => Binomial_fill k' n' end
        + (if (k <? n)%nat then Binomial_fill k n' else 0)
      else 0
  end.

Definition Binomial (k n : Z) : Z :=
  if (0 <=? k) && (k <? 6) && (0 <=? n) && (n <? 64)
  then Binomial_fill (Z.to_nat k) (Z.to_nat n) else 0.

(** The inner loop of the [Pawnidx] fill: [Pawnidx[i][k] = s; s += ...]
    for the [k] of one file; returns the row and the final [s]. *)
Fixpoint Pawnidx_fill (i : Z) (ks : list Z) (s : Z) : list Z * Z :=
  match ks with
  | [] => ([], s)
  | k :: ks' =>
      let '(row, s') := Pawnidx_fill i ks' (s + Binomial i (Ptwist (Invflap k))) in
      (s :: row, s')
  end.

Definition Pawnidx (i k : Z) : Z :=
  table_at (fst (Pawnidx_fill i (seqZ (6 * (k / 6)) 6) 0)) (k mod 6).

Definition Pfactor (i f : Z) : Z :=
  snd (Pawnidx_fill i (seqZ (6 * f) 6) 0).

(** [MapB1H1H7]: the squares below the a1-h8 diagonal, numbered in order. *)
Fixpoint number_squares (p : Z -> bool) (sqs : list Z) (code : Z) (t : list Z)
    : list Z * Z :=
  match sqs with
  | [] => (t, code)
  | s :: sqs' =>
      if p s then number_squares p sqs' (code + 1) (<[Z.to_nat s := code]> t)
      else number_squares p sqs' code t
  end.

Definition MapB1H1H7_table : list Z :=
  Eval vm_compute in
  fst (number_squares (fun s => off_A1H8 s <? 0) (seqZ 0 64) 0 (replicate 64 0)).

(** [MapA1D1D4]: first the squares of the triangle below the diagonal, then
    those on the diagonal. *)
Definition MapA1D1D4_table : list Z :=
  Eval vm_compute in
  let below s := (off_A1H8 s <? 0) && (file_of s <=? FILE_D) && (rank_of s <=? RANK_4) in
  let diagonal s := negb (below s) && (off_A1H8 s =? 0) && (file_of s <=? FILE_D) in
  let '(t, code) := number_squares below (seqZ 0 64) 0 (replicate 64 0) in
  fst (number_squares diagonal (seqZ 0 64) code t).

Definition MapB1H1H7 (s : Z) : Z := table_at MapB1H1H7_table s.
Definition MapA1D1D4 (s : Z) : Z := table_at MapA1D1D4_table s.

(** Modelled from the spec: [(StepAttacksBB[KING][s1] | s1) & s2] of
    [bitboard.h], which is not part of the sources: [s2] is [s1] or a king's
    step away from it (the "illegal position" of two kings). *)
Definition king_zone (s1 s2 : Z) : bool :=
  (Z.abs (file_of s1 - file_of s2) <=? 1) && (Z.abs (rank_of s1 - rank_of s2) <=? 1).

(** The [KK_idx] fill for one first king [(idx, s1)]: walks [s2], numbers
    the legal pairs and sets aside those with both kings on the diagonal. *)
Fixpoint KK_fill_row (idx s1 : Z) (s2s : list Z) (code : Z) (row : list Z)
    (both : list (Z * Z)) : Z * list Z * list (Z * Z) :=
  match s2s with
  | [] => (code, row, both)
  | s2 :: rest =>
      if king_zone s1 s2 then
        KK_fill_row idx s1 rest code (<[Z.to_nat s2 := -1]> row) both
      else if (off_A1H8 s1 =? 0) && (off_A1H8 s2 >? 0) then
        KK_fill_row idx s1 rest code (<[Z.to_nat s2 := -1]> row) both
      else if (off_A1H8 s1 =? 0) && (off_A1H8 s2 =? 0) then
        KK_fill_row idx s1 rest code row (both ++ [(idx, s2)])
      else
        KK_fill_row idx s1 rest (code + 1) (<[Z.to_nat s2 := code]> row) both
  end.

Fixpoint KK_fill (firsts : list (Z * Z)) (code : Z) (t : list (list Z))
    (both : list (Z * Z)) : Z * list (list Z) * list (Z * Z) :=
  match firsts with
  | [] => (code, t, both)
  | (idx, s1) :: rest =>
      let row := default [] (t !! Z.to_nat idx) in
      let '(code, row, both) := KK_fill_row idx s1 (seqZ 0 64) code row both in
      KK_fill rest code (<[Z.to_nat idx := row]> t) both
  end.

Fixpoint KK_fill_diagonal (both : list (Z * Z)) (code : Z) (t : list (list Z))
    : list (list Z) :=
  match both with
  | [] => t
  | (idx, s2) :: rest =>
      let row := default [] (t !! Z.to_nat idx) in
      KK_fill_diagonal rest (code + 1) (<[Z.to_nat idx := <[Z.to_nat s2 := code]> row]> t)
  end.

Definition KK_idx_table : list (list Z) :=
  Eval vm_compute in
  let firsts :=
    idx ← seqZ 0 10;
    s1 ← seqZ 0 64;
    if (idx =? MapA1D1D4 s1) && (negb (idx =? 0) || (s1 =? 1)) then [(idx, s1)] else [] in
  let '(code, t, both) := KK_fill firsts 0 (replicate 10 (replicate 64 0)) [] in
  KK_fill_diagonal both code t.

Definition KK_idx (i s : Z) : Z :=
  if i <? 0 then 0 else table_at (default [] (KK_idx_table !! Z.to_nat i)) s.

(** ** The position encoder *)

(** [std::sort(first, last, lt)].  The standard leaves the order of
    equivalent elements open; the model keeps it (insertion sort, which is
    what libstdc++ runs on ranges this short). *)
Fixpoint sort_insert (lt : Z -> Z -> bool) (x : Z) (l : list Z) : list Z :=
  match l with
  | [] => [x]
  | y :: l' => if lt y x then y :: sort_insert lt x l' else x :: y :: l'
  end.

Definition sort_by (lt : Z -> Z -> bool) (l : list Z) : list Z :=
  foldr (sort_insert lt) [] l.

(** [std::sort(a + first, a + last, lt)] inside an array. *)
Definition sort_range (lt : Z -> Z -> bool) (first last : nat) (a : list Z) : list Z :=
  take first a ++ sort_by lt (take (last - first) (drop first a)) ++ drop last a.

(** [squares[i]]; the source's array has [TBPIECES] slots and reading one
    that was not written is not modelled (it yields 0). *)
Definition sq_at (squares : list Z) (i : nat) : Z := default 0 (squares !! i).

Definition swap_at (a : list Z) (i j : nat) : list Z :=
  <[i := sq_at a j]> (<[j := sq_at a i]> a).

(** The first [j >= i] with [pieces[j] == pc], looking at [count] slots. *)
Fixpoint find_piece (pc : Z) (pieces : list Z) (j count : nat) : option nat :=
  match count with
  | O => None
  | S c => if sq_at pieces j =? pc then Some j else find_piece pc pieces (S j) c
  end.

(** [for (i = leadPawnsCnt; i < size; ++i) for (j = i; j < size; ++j)
     if (precomp->pieces[i] == pieces[j]) { swap; swap; break; }]
    with [count = size - i] iterations of the outer loop left. *)
Fixpoint reorder_pieces (want : list Z) (i count : nat) (squares pcs : list Z)
    : list Z * list Z :=
  match count with
  | O => (squares, pcs)
  | S c =>
      match find_piece (sq_at want i) pcs i count with
      | Some j => reorder_pieces want (S i) c (swap_at squares i j) (swap_at pcs i j)
      | None => reorder_pieces want (S i) c squares pcs
      end
  end.

(** The diagonal loop: finds the first square off the a1-h8 diagonal and,
    if it lies above it and is one of the leading pieces, mirrors it and
    every later square. *)
Fixpoint diagonal_flip (limit : nat) (i : nat) (done rest : list Z) : list Z :=
  match rest with
  | [] => done
  | s :: rest' =>
      if off_A1H8 s =? 0 then diagonal_flip limit (S i) (done ++ [s]) rest'
      else if (off_A1H8 s >? 0) && (i <? limit)%nat then
        done ++ map (fun q => Z.land (Z.lor (Z.shiftr q 3) (Z.shiftl q 3)) 63) rest
      else done ++ rest
  end.

(** The index of up to three leading pieces of a pawnless table. *)
Definition encode_pieces (hasUniquePieces : bool) (squares : list Z) : Z * nat :=
  let sq := sq_at squares in
  if hasUniquePieces then
    let adjust1 := Z.b2z (sq 1%nat >? sq 0%nat) in
    let adjust2 := Z.b2z (sq 2%nat >? sq 0%nat) + Z.b2z (sq 2%nat >? sq 1%nat) in
    let idx :=
      if negb (off_A1H8 (sq 0%nat) =? 0) then
        MapA1D1D4 (sq 0%nat) * 63 * 62 + (sq 1%nat - adjust1) * 62 + sq 2%nat - adjust2
      else if negb (off_A1H8 (sq 1%nat) =? 0) then
        6 * 63 * 62 + rank_of (sq 0%nat) * 28 * 62 + MapB1H1H7 (sq 1%nat) * 62
        + sq 2%nat - adjust2
      else if negb (off_A1H8 (sq 2%nat) =? 0) then
        6 * 63 * 62 + 4 * 28 * 62 + rank_of (sq 0%nat) * 7 * 28
        + (rank_of (sq 1%nat) - adjust1) * 28 + MapB1H1H7 (sq 2%nat)
      else
        6 * 63 * 62 + 4 * 28 * 62 + 4 * 7 * 28 + rank_of (sq 0%nat) * 7 * 6
        + (rank_of (sq 1%nat) - adjust1) * 6 + (rank_of (sq 2%nat) - adjust2)
    in (u64 idx, 3%nat)
  else (u64 (KK_idx (MapA1D1D4 (sq 0%nat)) (sq 1%nat)), 2%nat).

(** The index of the leading pawns, [squares[1 .. leadPawnsCnt)] already
    sorted by [Ptwist]. *)
Fixpoint encode_pawns (squares : list Z) (i count : nat) (idx : Z) : Z :=
  match count with
  | O => idx
  | S c => encode_pawns squares (S i) c
             (u64 (idx + Binomial (Z.of_nat i) (Ptwist (sq_at squares i))))
  end.

(** The sum over one group [squares[next .. end)], already sorted. *)
Fixpoint encode_group (squares : list Z) (next i count : nat) (pawns : bool) (s : Z) : Z :=
  match count with
  | O => s
  | S c =>
      let adjust :=
        foldr (fun q n => n + Z.b2z (sq_at squares i >? q)) 0 (take next squares) in
      let n := sq_at squares i - adjust - (if pawns then 8 else 0) in
      encode_group squares next (S i) c pawns
        (u64 (s + Binomial (Z.of_nat (i - next + 1)) n))
  end.

(** [encode_remaining]: the [while (next < size)] loop. *)
Fixpoint encode_remaining (fuel : nat) (precomp : PairsData) (size : nat)
    (remainingPawns : Z) (next : nat) (squares : list Z) (idx : Z) : option Z :=
  if (next <? size)%nat then
    match fuel with
    | O => None
    | S f =>
        let len := if negb (remainingPawns =? 0) then remainingPawns
                   else table_at (norm precomp) (Z.of_nat next) in
        let last := (next + Z.to_nat len)%nat in
        let squares := sort_range Z.ltb next last squares in
        let s := encode_group squares next next (last - next)
                              (negb (remainingPawns =? 0)) 0 in
        encode_remaining f precomp size 0 last squares
          (u64 (idx + u64 (s * table_at (factor precomp) (Z.of_nat next))))
    end
  else Some idx.

(** The first lines of [probe_table]: does the position have to be
    mirrored (colours switched, squares flipped top to bottom) to match the
    stored table, and which side is then to move. *)
Definition probe_flip {Entry : Type} `{TBEntry Entry} (pos : Position) (entry : Entry) : Z :=
  if symmetric entry then sideToMove pos
  else Z.b2z (negb (materialKey pos =? key entry)).

Definition probe_stm {Entry : Type} `{TBEntry Entry} (pos : Position) (entry : Entry) : Z :=
  if symmetric entry then WHITE
  else Z.lxor (Z.b2z (negb (materialKey pos =? key entry))) (sideToMove pos).

(** [leadPawns]: the pawns of the leading colour, none for a pawnless
    table. *)
Definition probe_leadPawns {Entry : Type} `{TBEntry Entry} (pos : Position) (entry : Entry)
    : option (list Z) :=
  if hasPawns entry then
    d0 ← pawn_precomp entry 0 0;
    let pc := Z.lxor (table_at (pieces d0) 0) (probe_flip pos entry * 8) in
    Some (pieces_of pos (color_of pc) PAWN)
  else Some [].

(** [squares[0 .. leadPawnsCnt)] after the sort by [Flap]. *)
Definition probe_lead_squares {Entry : Type} `{TBEntry Entry} (pos : Position)
    (entry : Entry) (lead : list Z) : list Z :=
  sort_by (fun i j => Flap i <? Flap j)
          (map (fun s => Z.lxor s (probe_flip pos entry * 56)) lead).

Definition probe_tbFile {Entry : Type} `{TBEntry Entry} (entry : Entry) (squares : list Z) : Z :=
  if hasPawns entry then
    let f := file_of (sq_at squares 0) in
    if f >? FILE_D then file_of (Z.lxor (sq_at squares 0) 7) else f
  else 0.

(** [precomp], still a pointer. *)
Definition probe_precomp {Entry : Type} `{TBEntry Entry} (entry : Entry) (stm tbFile : Z)
    : option PairsData :=
  if hasPawns entry then pawn_precomp entry stm tbFile else piece_precomp entry stm.

(** "Now we are ready to get all the position pieces (but the lead pawns)":
    the squares and pieces arrays after the second fill loop.  The slots of
    the pieces array that belong to the lead pawns are never written nor
    read; the model puts 0 there. *)
Definition probe_others (pos : Position) (lead : list Z) : list Z :=
  filter (fun s => s ∉ lead) (pieces_all pos).

Definition probe_fill {Entry : Type} `{TBEntry Entry} (pos : Position) (entry : Entry)
    (lead squares : list Z) : list Z * list Z :=
  let flipColor := probe_flip pos entry * 8 in
  let flipSquares := probe_flip pos entry * 56 in
  let others := probe_others pos lead in
  (squares ++ map (fun s => Z.lxor s flipSquares) others,
   replicate (length lead) 0 ++ map (fun s => Z.lxor (piece_on pos s) flipColor) others).

(** From the reordering loop to the end of [encode_remaining]: the index
    in the table of the pieces on [squares]. *)
Definition encode_position {Entry : Type} `{TBEntry Entry} (fuel : nat) (entry : Entry)
    (stm : Z) (precomp : PairsData) (leadPawnsCnt : nat) (squares pcs : list Z) : option Z :=
  let size := length squares in
  let '(squares, pcs) :=
    reorder_pieces (pieces precomp) leadPawnsCnt (size - leadPawnsCnt) squares pcs in
  let squares :=
    if file_of (sq_at squares 0) >? FILE_D
    then map (fun s => Z.lxor s 7) squares else squares in
  let '(idx, next, squares) :=
    if hasPawns entry then
      let squares :=
        sort_range (fun i j => Ptwist i >? Ptwist j) 1 leadPawnsCnt squares in
      let idx := u64 (Pawnidx (Z.of_nat leadPawnsCnt - 1) (Flap (sq_at squares 0))) in
      (encode_pawns squares 1 (leadPawnsCnt - 1) idx, leadPawnsCnt, squares)
    else
      let squares :=
        if rank_of (sq_at squares 0) >? RANK_4
        then map (fun s => Z.lxor s 56) squares else squares in
      let hasUniquePieces := piece_hasUniquePieces entry stm in
      let squares :=
        diagonal_flip (if hasUniquePieces then 3 else 2) 0 [] squares in
      let '(idx, next) := encode_pieces hasUniquePieces squares in
      (idx, next, squares) in
  let idx := u64 (idx * table_at (factor precomp) 0) in
  let remainingPawns := if hasPawns entry then pawnCount entry 1 else 0 in
  encode_remaining fuel precomp size remainingPawns next squares idx.

(** From "Now we are ready to get all the position pieces" to the end of
    [encode_remaining]: the index of the position in the table. *)
Definition probe_index {Entry : Type} `{TBEntry Entry} (fuel : nat) (pos : Position)
    (entry : Entry) (stm : Z) (precomp : PairsData) (lead squares : list Z) : option Z :=
  let '(squares, pcs) := probe_fill pos entry lead squares in
  encode_position fuel entry stm precomp (length lead) squares pcs.

(** [probe_table<Entry>(pos, entry, wdl, success)]: the value read from the
    table (converted to [uint64_t] as the return type asks) and what is
    left in [*success]. *)
Definition probe_table {Entry : Type} `{TBEntry Entry} (fuel : nat) (m : Mem)
    (pos : Position) (entry : Entry) (wdl : Z) (success : Z) : option (Z * Z) :=
  let stm := probe_stm pos entry in
  lead ← probe_leadPawns pos entry;
  let squares := probe_lead_squares pos entry lead in
  let tbFile := probe_tbFile entry squares in
  let precomp := probe_precomp entry stm tbFile in
  if is_DTZEntry && negb (check_dtz_stm entry tbFile stm) then Some (0, -1)
  else
    precomp ← precomp;
    idx ← probe_index fuel pos entry stm precomp lead squares;
    value ← decompress_pairs fuel m precomp idx;
    score ← map_score m entry tbFile value wdl;
    Some (u64 score, success).

(** ** Concrete positions and entries *)

Definition board_of (l : list (Z * Z)) : list Z :=
  foldr (fun '(s, pc) b => <[Z.to_nat s := pc]> b) (replicate 64 NO_PIECE) l.

(** White: Ke1, Qd1; Black: Ke8; White to move.  The material keys are
    hashes computed by the host; here they are stand-ins. *)
Definition key_KQvK : Z := 1001.
Definition key_KvKQ : Z := 1002.

Definition pos_KQvK : Position :=
  mkPosition (board_of [(4, 6); (3, 5); (60, 14)]) WHITE key_KQvK SQ_NONE 0 0.

(** A one-value bucket for K, Q, k (all results equal to [value]). *)
Definition const_pairs (value : Z) : PairsData :=
  mkPairsData 0 0 0 0 0 0 value 0 0 0 0 0 [] []
    [6; 5; 14; 0; 0; 0] [1; 0; 0; 0; 0; 0] [3; 0; 0; 0; 0; 0].

(** A KQvK DTZ table stored for the side given by [stm_flag]. *)
Definition dtz_KQvK (flags : Z) : DTZEntry :=
  mkDTZEntry 4096 0 key_KQvK key_KvKQ 3 false false
    (mkDTZPieceItem true (Some (const_pairs 5)) flags [0; 0; 0; 0] 0)
    [0; 0] [] 0.

(** A mapped DTZ bucket: [map] at address 100, the four ranges at
    [map_idx = 1, 4, 7, 10]. *)
Definition dtz_mapped (flags : Z) : DTZEntry :=
  mkDTZEntry 4096 0 key_KQvK key_KvKQ 3 false false
    (mkDTZPieceItem true (Some (const_pairs 1)) flags [1; 4; 7; 10] 100)
    [0; 0] [] 0.

Definition map_bytes : Mem :=
  fun a => if (100 <=? a) && (a <? 113) then a - 100 + 20 else 0.

(** ** The host: board, move generator, files

    The probing routines call into the engine ([position.h], [movegen.h],
    [types.h]) and into the file loader.  None of that is decided here; it
    is an interface the routines are parameterised by. *)

Inductive GenType := CAPTURES | QUIETS | EVASIONS | NON_EVASIONS.
Inductive MoveType := NORMAL | PROMOTION | ENPASSANT | CASTLING.

Definition MoveType_eqb (a b : MoveType) : bool :=
  match a, b with
  | NORMAL, NORMAL | PROMOTION, PROMOTION | ENPASSANT, ENPASSANT
  | CASTLING, CASTLING => true
  | _, _ => false
  end.

Class Host := {
  (** the address space the table files are mapped into *)
  host_mem : Mem;
  (** [generate<T>(pos, stack)]: the moves it appends *)
  generate : GenType -> Position -> list Z;
  (** [type_of(m)], [to_sq(m)] *)
  type_of_move : Z -> MoveType;
  to_sq : Z -> Z;
  (** [pos.capture(m)], [pos.legal(m, CheckInfo(pos).pinned)], [pos.moved_piece(m)] *)
  capture : Position -> Z -> bool;
  legal : Position -> Z -> bool;
  moved_piece : Position -> Z -> Z;
  (** the position after [pos.do_move(m, st, pos.gives_check(m, ci))];
      [pos.undo_move(m)] brings the old one back *)
  do_move : Position -> Z -> Position;
  (** [entry->init(fname)]: maps the file and parses its header; the entry
      as it is left, and whether the file was found and sound *)
  WDLEntry_init : WDLEntry -> string -> WDLEntry * bool;
  DTZEntry_init : DTZEntry -> string -> DTZEntry * bool;
  (** [TBFile(fname).is_open()]: the file is found on [TBPaths] *)
  file_exists : string -> bool;
  (** [Position().set(code, c, &st)]: the position set up from a piece
      code such as KQPKRP, the first king's side given colour [c] *)
  Position_set : string -> Z -> Position
}.

(** ** The registry *)

(** [HashTable]: [1 << TBHASHBITS] buckets of [HSHMAX] entries; [ptr] is
    the place of the entry in [WDLTable], [None] for [nullptr]. *)
Definition TBHASHBITS : Z := 10.
Definition HSHMAX : nat := 5.

Record HashEntry := mkHashEntry { hash_key : Z; hash_ptr : option nat }.

Definition HashTable := list (list HashEntry).

(** [clear()] *)
Definition HashTable_clear : HashTable :=
  replicate (Z.to_nat (2 ^ TBHASHBITS)) (replicate HSHMAX (mkHashEntry 0 None)).

Definition hash_bucket (t : HashTable) (k : Z) : list HashEntry :=
  default [] (t !! Z.to_nat (Z.shiftr k (64 - TBHASHBITS))).

(** [operator[](key)] *)
Fixpoint HashTable_find (bucket : list HashEntry) (k : Z) : option nat :=
  match bucket with
  | [] => None
  | e :: rest => if hash_key e =? k then hash_ptr e else HashTable_find rest k
  end.

Definition HashTable_lookup (t : HashTable) (k : Z) : option nat :=
  HashTable_find (take HSHMAX (hash_bucket t k)) k.

(** [insert(key, ptr)]; [None] when the bucket is full ([exit(1)]). *)
Fixpoint HashTable_put (bucket : list HashEntry) (k : Z) (ptr : nat)
    : option (list HashEntry) :=
  match bucket with
  | [] => None
  | e :: rest =>
      if match hash_ptr e with None => true | Some _ => hash_key e =? k end
      then Some (mkHashEntry k (Some ptr) :: rest)
      else b ← HashTable_put rest k ptr; Some (e :: b)
  end.

Definition HashTable_insert (t : HashTable) (k : Z) (ptr : nat) : option HashTable :=
  b ← HashTable_put (hash_bucket t k) k ptr;
  Some (<[Z.to_nat (Z.shiftr k (64 - TBHASHBITS)) := b]> t).

(** What the probing routines read and write besides the position: the
    [int* success] they all share, the two tables and the hash.  [calls]
    is a ghost counter, one tick per call of a probing routine; it lets a
    theorem say that no further probe took place. *)
Record TB := mkTB {
  success : Z;
  MaxCardinality : Z;
  WDLTable : list WDLEntry;
  WDLHash : HashTable;
  DTZTable : list DTZEntry;
  calls : nat
}.

Definition set_success (v : Z) (st : TB) : TB :=
  mkTB v (MaxCardinality st) (WDLTable st) (WDLHash st) (DTZTable st) (calls st).

Definition set_WDLTable (t : list WDLEntry) (st : TB) : TB :=
  mkTB (success st) (MaxCardinality st) t (WDLHash st) (DTZTable st) (calls st).

Definition set_DTZTable (t : list DTZEntry) (st : TB) : TB :=
  mkTB (success st) (MaxCardinality st) (WDLTable st) (WDLHash st) t (calls st).

Definition tick (st : TB) : TB :=
  mkTB (success st) (MaxCardinality st) (WDLTable st) (WDLHash st) (DTZTable st)
       (S (calls st)).

(** [file_name(pos, mirror)] *)
Definition PieceToChar : list ascii :=
  list_ascii_of_string " PNBRQK  pnbrqk".

Definition piece_char (pt : Z) : ascii :=
  nth (Z.to_nat pt) PieceToChar " "%char.

Definition piece_run (pos : Position) (c pt : Z) : string :=
  string_of_list_ascii (repeat (piece_char pt) (length (pieces_of pos c pt))).

Definition side_name (pos : Position) (c : Z) : string :=
  foldr (fun pt s => String.append (piece_run pos c pt) s) EmptyString
        [KING; QUEEN; ROOK; BISHOP; KNIGHT; PAWN].

Definition file_name (pos : Position) (mirror : bool) : string :=
  let w := side_name pos WHITE in
  let b := side_name pos BLACK in
  if mirror then String.append b (String "v" w) else String.append w (String "v" b).

(** [wdlCode.erase(wdlCode.find('v'), 1)] *)
Fixpoint erase_v (s : string) : string :=
  match s with
  | EmptyString => EmptyString
  | String c rest => if Ascii.eqb c "v" then rest else String c (erase_v rest)
  end.

Definition set_ready (b : bool) (e : WDLEntry) : WDLEntry :=
  mkWDLEntry b (wdl_baseAddress e) (wdl_mapping e) (wdl_key e) (wdl_pieceCount e)
    (wdl_symmetric e) (wdl_hasPawns e) (wdl_piece e) (wdl_pawnCount e)
    (wdl_pawn_file e).

(** [WDLEntry::WDLEntry(pos, keys)] *)
Definition WDLEntry_new (pos : Position) (kw kb : Z) : WDLEntry :=
  let count c pt := Z.of_nat (length (pieces_of pos c pt)) in
  let hasPawns := negb (bool_decide (pieces_of_type pos PAWN = [])) in
  let c :=
    (count BLACK PAWN =? 0)
    || (negb (count WHITE PAWN =? 0) && (count BLACK PAWN >=? count WHITE PAWN)) in
  let unique :=
    existsb (fun c => existsb (fun pt => count c pt =? 1)
                              [PAWN; KNIGHT; BISHOP; ROOK; QUEEN])
            [WHITE; BLACK] in
  mkWDLEntry false 0 0 kw (Z.of_nat (length (pieces_all pos))) (kw =? kb) hasPawns
    (if hasPawns then replicate 2 (mkWDLPieceItem false None)
     else replicate 2 (mkWDLPieceItem unique None))
    (if hasPawns
     then [count (if c then WHITE else BLACK) PAWN; count (if c then BLACK else WHITE) PAWN]
     else [0; 0])
    (replicate 2 (replicate 4 None)).

(** [code.find('K', 1)]: the place of the second king. *)
Fixpoint find_K (s : string) (i : nat) : nat :=
  match s with
  | EmptyString => i
  | String c rest => if Ascii.eqb c "K" then i else find_K rest (S i)
  end.

(** The name [HashTable::insert(pieces)] builds from the piece types:
    the code (KQK, ...) and the file (KQvK.rtbw). *)
Definition material_code (pcs : list Z) : string :=
  string_of_list_ascii (map piece_char pcs).

Definition material_file (pcs : list Z) : string :=
  let chars := map piece_char pcs in
  let bk := S (find_K (string_of_list_ascii (drop 1 chars)) 0) in
  String.append (string_of_list_ascii (take bk chars))
    (String "v" (String.append (string_of_list_ascii (drop bk chars)) ".rtbw")).

(** [HashTable::insert(pieces)]: registers the table of one material
    combination if its WDL file is there; [None] stands for [exit(1)]. *)
Definition register_table `{Host} (pcs : list Z) (st : TB) : option TB :=
  let code := material_code pcs in
  if negb (file_exists (material_file pcs)) then Some st
  else
    let kw := materialKey (Position_set code WHITE) in
    let kb := materialKey (Position_set code BLACK) in
    let ptr := length (WDLTable st) in
    let table := WDLTable st ++ [WDLEntry_new (Position_set code WHITE) kw kb] in
    h ← HashTable_insert (WDLHash st) kw ptr;
    h ← HashTable_insert h kb ptr;
    Some (mkTB (success st) (Z.max (MaxCardinality st) (Z.of_nat (length pcs)))
               table h (DTZTable st) (calls st)).

(** The state [Tablebases::init] starts from: everything cleared. *)
Definition TB_clear : TB := mkTB 0 0 [] HashTable_clear [] 0.

(** [probe_wdl_table(pos, success)].  The lock and the memory orders have
    no part in a sequential model. *)
Definition probe_wdl_table `{Host} (tfuel : nat) (pos : Position) (st : TB)
    : option (Z * TB) :=
  let st := tick st in
  let k := materialKey pos in
  if bool_decide (pieces_all pos = pieces_of_type pos KING) then Some (WDLDraw, st)
  else
    match HashTable_lookup (WDLHash st) k with
    | None => Some (WDLDraw, set_success 0 st)
    | Some ptr =>
        entry ← WDLTable st !! ptr;
        let loaded :=
          if ready entry then (entry, true)
          else
            let fname := String.append (file_name pos (negb (wdl_key entry =? k))) ".rtbw" in
            let '(entry, ok) := WDLEntry_init entry fname in
            (if ok then set_ready true entry else entry, ok) in
        let '(entry, ok) := loaded in
        let st := set_WDLTable (<[ptr := entry]> (WDLTable st)) st in
        if negb ok then Some (WDLDraw, set_success 0 st)
        else
          '(v, _) ← probe_table tfuel host_mem pos entry WDLDraw (success st);
          Some (s32 v, st)
    end.

(** [DTZEntry::DTZEntry(wdl, wdlKeys)] *)
Definition DTZEntry_new (wdl : WDLEntry) (k k2 : Z) : DTZEntry :=
  mkDTZEntry 0 0 k k2 (wdl_pieceCount wdl) (wdl_symmetric wdl) (wdl_hasPawns wdl)
    (mkDTZPieceItem
       (if wdl_hasPawns wdl then false else wdl_hasUniquePieces (wdl_piece_at wdl 0))
       None 0 [0; 0; 0; 0] 0)
    (if wdl_hasPawns wdl then wdl_pawnCount wdl else [0; 0])
    (replicate 4 (mkDTZPawnFile None 0 [0; 0; 0; 0])) 0.

Definition dtz_matches (k : Z) (e : DTZEntry) : bool :=
  (dtz_key e =? k) || (dtz_key2 e =? k).

(** [DTZTable.front().key != key && DTZTable.front().key2 != key].  On an
    empty list [front()] is undefined; the model takes it that nothing there
    matches the key. *)
Definition front_differs (k : Z) (t : list DTZEntry) : bool :=
  match t with
  | [] => true
  | e :: _ => negb (dtz_matches k e)
  end.

(** The MRU loop: the first entry that matches is spliced to the front. *)
Fixpoint splice_front (k : Z) (seen rest : list DTZEntry) : list DTZEntry :=
  match rest with
  | [] => seen
  | e :: rest' =>
      if dtz_matches k e then e :: seen ++ rest'
      else splice_front k (seen ++ [e]) rest'
  end.

(** [pop_back()] *)
Definition pop_back (t : list DTZEntry) : list DTZEntry :=
  take (length t - 1) t.

(** [probe_dtz_table(pos, wdl, success)] *)
Definition probe_dtz_table `{Host} (tfuel : nat) (pos : Position) (wdl : Z) (st : TB)
    : option (Z * TB) :=
  let st := tick st in
  let k := materialKey pos in
  let found :=
    if front_differs k (DTZTable st) then
      let st := set_DTZTable (splice_front k [] (DTZTable st)) st in
      if front_differs k (DTZTable st) then
        match HashTable_lookup (WDLHash st) k with
        | None => inr (0, set_success 0 st)
        | Some ptr =>
            match WDLTable st !! ptr with
            | None => inl None
            | Some wdlEntry =>
                let wdlCode := file_name pos (negb (wdl_key wdlEntry =? k)) in
                let fname := String.append wdlCode ".rtbz" in
                let wdlCode := erase_v wdlCode in
                let fresh :=
                  DTZEntry_new wdlEntry (materialKey (Position_set wdlCode WHITE))
                                        (materialKey (Position_set wdlCode BLACK)) in
                let '(e, ok) := DTZEntry_init fresh fname in
                let st := set_DTZTable (e :: DTZTable st) st in
                if negb ok then inr (0, set_success 0 st)
                else if (64 <? length (DTZTable st))%nat
                     then inl (Some (set_DTZTable (pop_back (DTZTable st)) st))
                     else inl (Some st)
            end
        end
      else inl (Some st)
    else inl (Some st) in
  match found with
  | inr r => Some r
  | inl None => None
  | inl (Some st) =>
      front ← head (DTZTable st);
      if dtz_baseAddress front =? 0 then Some (0, set_success 0 st)
      else
        '(v, s) ← probe_table tfuel host_mem pos front wdl (success st);
        Some (s32 v, set_success s st)
  end.

(** ** The recursive probes *)

(** How a loop of the source ends: by a [return] from the enclosing
    function, or by running to its end with its loop variable. *)
Inductive Flow (A : Type) :=
  | Return (value : Z) (st : TB)
  | Continue (acc : A) (st : TB).
Arguments Return {A} value st.
Arguments Continue {A} acc st.

(** A probing routine as the others call it. *)
Definition Probe := Position -> TB -> option (Z * TB).
Definition ProbeAB := Position -> Z -> Z -> TB -> option (Z * TB).

(** [add_underprom_caps(pos, stack, end)] *)
Definition add_underprom_caps `{Host} (pos : Position) (stack : list Z) : list Z :=
  stack ++
  (move ← stack;
   if MoveType_eqb (type_of_move move) PROMOTION
      && negb (piece_on pos (to_sq move) =? NO_PIECE)
   then [move - Z.shiftl 1 12; move - Z.shiftl 2 12; move - Z.shiftl 3 12]
   else []).

(** [generate<CAPTURES>] or, in check, [generate<EVASIONS>]. *)
Definition generate_captures `{Host} (pos : Position) : list Z :=
  if checkersBB pos =? 0 then generate CAPTURES pos else generate EVASIONS pos.

Definition generate_all `{Host} (pos : Position) : list Z :=
  if checkersBB pos =? 0 then generate NON_EVASIONS pos else generate EVASIONS pos.

(** The capture loop of [probe_ab]. *)
Fixpoint ab_loop `{Host} (rec : ProbeAB) (pos : Position) (moves : list Z)
    (alpha beta : Z) (st : TB) : option (Flow Z) :=
  match moves with
  | [] => Some (Continue alpha st)
  | move :: rest =>
      if negb (capture pos move)
         || MoveType_eqb (type_of_move move) ENPASSANT
         || negb (legal pos move)
      then ab_loop rec pos rest alpha beta st
      else
        '(v, st) ← rec (do_move pos move) (- beta) (- alpha) st;
        let value := - v in
        if success st =? 0 then Some (Return WDLDraw st)
        else if value >? alpha then
          if value >=? beta then Some (Return value (set_success 2 st))
          else ab_loop rec pos rest value beta st
        else ab_loop rec pos rest alpha beta st
  end.

(** What [probe_ab] does once the capture loop has run to its end. *)
Definition ab_table `{Host} (tfuel : nat) (pos : Position) (alpha : Z) (st : TB)
    : option (Z * TB) :=
  '(value, st) ← probe_wdl_table tfuel pos st;
  if success st =? 0 then Some (WDLDraw, st)
  else if alpha >=? value then Some (alpha, set_success (1 + Z.b2z (alpha >? 0)) st)
  else Some (value, set_success 1 st).

(** [probe_ab(pos, alpha, beta, success)], the recursive call given. *)
Definition probe_ab_with `{Host} (rec : ProbeAB) (tfuel : nat) (pos : Position)
    (alpha beta : Z) (st : TB) : option (Z * TB) :=
  let st := tick st in
  let stack :=
    if checkersBB pos =? 0 then add_underprom_caps pos (generate CAPTURES pos)
    else generate EVASIONS pos in
  flow ← ab_loop rec pos stack alpha beta st;
  match flow with
  | Return value st => Some (value, st)
  | Continue alpha st => ab_table tfuel pos alpha st
  end.

(** The recursion goes through captures; [fuel] bounds its depth. *)
Fixpoint probe_ab `{Host} (fuel tfuel : nat) (pos : Position) (alpha beta : Z)
    (st : TB) : option (Z * TB) :=
  match fuel with
  | O => None
  | S f => probe_ab_with (probe_ab f tfuel) tfuel pos alpha beta st
  end.

(** The loop of [probe_dtz_no_ep] over the pawn moves of a won position. *)
Fixpoint pawn_loop `{Host} (ab : ProbeAB) (pos : Position) (moves : list Z)
    (wdl : Z) (st : TB) : option (Flow unit) :=
  match moves with
  | [] => Some (Continue tt st)
  | move :: rest =>
      if negb (type_of_piece (moved_piece pos move) =? PAWN)
         || capture pos move
         || negb (legal pos move)
      then pawn_loop ab pos rest wdl st
      else
        '(r, st) ← ab (do_move pos move) WDLLoss (- wdl + WDLCursedWin) st;
        let v := - r in
        if success st =? 0 then Some (Return 0 st)
        else if v =? wdl then Some (Return (if v =? WDLWin then 1 else 101) st)
        else pawn_loop ab pos rest wdl st
  end.

(** The loop over the quiet piece moves of a won position. *)
Fixpoint win_loop `{Host} (dtz : Probe) (pos : Position) (moves : list Z)
    (best : Z) (st : TB) : option (Flow Z) :=
  match moves with
  | [] => Some (Continue best st)
  | move :: rest =>
      if capture pos move
         || (type_of_piece (moved_piece pos move) =? PAWN)
         || negb (legal pos move)
      then win_loop dtz pos rest best st
      else
        '(r, st) ← dtz (do_move pos move) st;
        let v := - r in
        if success st =? 0 then Some (Return 0 st)
        else if (v >? 0) && (v + 1 <? best) then win_loop dtz pos rest (v + 1) st
        else win_loop dtz pos rest best st
  end.

(** The loop over all moves of a lost position. *)
Fixpoint loss_loop `{Host} (ab : ProbeAB) (dtz : Probe) (pos : Position)
    (moves : list Z) (wdl best : Z) (st : TB) : option (Flow Z) :=
  match moves with
  | [] => Some (Continue best st)
  | move :: rest =>
      if negb (legal pos move) then loss_loop ab dtz pos rest wdl best st
      else
        let next := do_move pos move in
        '(v, st) ←
          (if rule50 next =? 0 then
             if wdl =? -2 then Some (-1, st)
             else
               '(r, st) ← ab next WDLCursedWin WDLWin st;
               Some (if r =? 2 then 0 else -101, st)
           else
             '(r, st) ← dtz next st;
             Some (- r - 1, st));
        if success st =? 0 then Some (Return 0 st)
        else if v <? best then loss_loop ab dtz pos rest wdl v st
        else loss_loop ab dtz pos rest wdl best st
  end.

(** [probe_dtz_no_ep] from the call of [probe_dtz_table] on. *)
Definition dtz_table_phase `{Host} (ab : ProbeAB) (dtz : Probe) (tfuel : nat)
    (pos : Position) (wdl : Z) (stack : list Z) (st : TB) : option (Z * TB) :=
  '(r, st) ← probe_dtz_table tfuel pos wdl st;
  let dtz_value := 1 + r in
  if success st >=? 0 then
    let dtz_value := if negb (Z.land wdl 1 =? 0) then dtz_value + 100 else dtz_value in
    Some (if wdl >=? 0 then dtz_value else - dtz_value, st)
  else if wdl >? 0 then
    flow ← win_loop dtz pos stack 65535 st;
    match flow with
    | Return v st => Some (v, st)
    | Continue best st => Some (best, st)
    end
  else
    flow ← loss_loop ab dtz pos (generate_all pos) wdl (-1) st;
    match flow with
    | Return v st => Some (v, st)
    | Continue best st => Some (best, st)
    end.

(** [probe_dtz_no_ep(pos, success)], its callees given. *)
Definition probe_dtz_no_ep_with `{Host} (ab : ProbeAB) (dtz : Probe) (tfuel : nat)
    (pos : Position) (st : TB) : option (Z * TB) :=
  let st := tick st in
  '(wdl, st) ← ab pos WDLLoss WDLWin st;
  if success st =? 0 then Some (0, st)
  else if wdl =? WDLDraw then Some (0, st)
  else if success st =? 2 then Some (if wdl =? WDLWin then 1 else 101, st)
  else if wdl >? 0 then
    let stack := generate_all pos in
    flow ← pawn_loop ab pos stack wdl st;
    match flow with
    | Return v st => Some (v, st)
    | Continue _ st => dtz_table_phase ab dtz tfuel pos wdl stack st
    end
  else dtz_table_phase ab dtz tfuel pos wdl [] st.

(** The en passant loop shared by [probe_dtz] and [probe_wdl]: the best
    value of a legal en passant capture, from [v1 = -3]. *)
Fixpoint ep_loop `{Host} (ab : ProbeAB) (pos : Position) (moves : list Z)
    (v1 : Z) (st : TB) : option (Flow Z) :=
  match moves with
  | [] => Some (Continue v1 st)
  | move :: rest =>
      if negb (MoveType_eqb (type_of_move move) ENPASSANT) || negb (legal pos move)
      then ep_loop ab pos rest v1 st
      else
        '(r, st) ← ab (do_move pos move) WDLLoss WDLWin st;
        let v0 := - r in
        if success st =? 0 then Some (Return 0 st)
        else if v0 >? v1 then ep_loop ab pos rest v0 st
        else ep_loop ab pos rest v1 st
  end.

(** "Check whether there is at least one legal non-ep move": the two loops
    leave [moves == end] exactly when this is [false]. *)
Definition has_legal_non_ep `{Host} (pos : Position) (stack : list Z) : bool :=
  existsb (fun move => negb (MoveType_eqb (type_of_move move) ENPASSANT)
                       && legal pos move) stack
  || ((checkersBB pos =? 0) && existsb (legal pos) (generate QUIETS pos)).

Definition wdl_to_dtz : list Z := [-1; -101; 0; 101; 1].

(** How [probe_dtz] combines the value [v] without en passant with the
    best en passant value [v1]. *)
Definition dtz_ep_combine `{Host} (pos : Position) (stack : list Z) (v v1 : Z) : Z :=
  if v1 >? -3 then
    let v1 := table_at wdl_to_dtz (v1 + 2) in
    if v <? -100 then (if v1 >=? 0 then v1 else v)
    else if v <? 0 then (if (v1 >=? 0) || (v1 <? -100) then v1 else v)
    else if v >? 100 then (if v1 >? 0 then v1 else v)
    else if v >? 0 then (if v1 =? 1 then v1 else v)
    else if v1 >=? 0 then v1
    else if has_legal_non_ep pos stack then v else v1
  else v.

(** [probe_dtz(pos, success)], its callees given. *)
Definition probe_dtz_with `{Host} (ab : ProbeAB) (no_ep : Probe) (pos : Position)
    (st : TB) : option (Z * TB) :=
  let st := set_success 1 (tick st) in
  '(v, st) ← no_ep pos st;
  if epSquare pos =? SQ_NONE then Some (v, st)
  else if success st =? 0 then Some (0, st)
  else
    let stack := generate_captures pos in
    flow ← ep_loop ab pos stack (-3) st;
    match flow with
    | Return r st => Some (r, st)
    | Continue v1 st => Some (dtz_ep_combine pos stack v v1, st)
    end.

(** The mutual recursion of [probe_dtz] and [probe_dtz_no_ep] goes through
    the quiet moves and nothing in the code bounds it; [fuel] does. *)
Fixpoint probe_dtz `{Host} (fuel tfuel : nat) (pos : Position) (st : TB)
    : option (Z * TB) :=
  match fuel with
  | O => None
  | S f =>
      probe_dtz_with (probe_ab fuel tfuel)
        (probe_dtz_no_ep_with (probe_ab fuel tfuel) (probe_dtz f tfuel) tfuel)
        pos st
  end.

Definition probe_dtz_no_ep `{Host} (fuel tfuel : nat) (pos : Position) (st : TB)
    : option (Z * TB) :=
  probe_dtz_no_ep_with (probe_ab fuel tfuel) (probe_dtz (fuel - 1) tfuel) tfuel pos st.

(** How [probe_wdl] combines [v] with the best en passant value [v1]. *)
Definition wdl_ep_combine `{Host} (pos : Position) (stack : list Z) (v v1 : Z) : Z :=
  if v1 >? -3 then
    if v1 >=? v then v1
    else if v =? 0 then (if has_legal_non_ep pos stack then v else v1)
    else v
  else v.

(** [Tablebases::probe_wdl(pos, success)] *)
Definition probe_wdl_with `{Host} (ab : ProbeAB) (pos : Position) (st : TB)
    : option (Z * TB) :=
  let st := set_success 1 (tick st) in
  '(v, st) ← ab pos WDLLoss WDLWin st;
  if epSquare pos =? SQ_NONE then Some (v, st)
  else if success st =? 0 then Some (WDLDraw, st)
  else
    let stack := generate_captures pos in
    flow ← ep_loop ab pos stack (-3) st;
    match flow with
    | Return r st => Some (r, st)
    | Continue v1 st => Some (wdl_ep_combine pos stack v v1, st)
    end.

Definition probe_wdl `{Host} (fuel tfuel : nat) (pos : Position) (st : TB)
    : option (Z * TB) :=
  probe_wdl_with (probe_ab fuel tfuel) pos st.

(** ** A small host for worked examples

    A stand-in for the engine, enough to run the probing routines on
    concrete positions: material keys are a hash of the piece counts, the
    move generator offers the applicable moves of a fixed repertoire, and
    every table file that is there holds one value per side to move (a win
    for the side with the first king, a loss for the other). *)

Definition toy_key (b : list Z) : Z :=
  u64 (foldr (fun pc acc => if pc =? NO_PIECE then acc else acc + 16 ^ pc) 0 b
       * 11400714819323198485).

Definition toy_position (b : list Z) (stm : Z) : Position :=
  mkPosition b stm (toy_key b) SQ_NONE 0 0.

Definition toy_piece_type (c : ascii) : Z :=
  if Ascii.eqb c "K" then KING else if Ascii.eqb c "Q" then QUEEN
  else if Ascii.eqb c "R" then ROOK else if Ascii.eqb c "B" then BISHOP
  else if Ascii.eqb c "N" then KNIGHT else if Ascii.eqb c "P" then PAWN
  else NO_PIECE.

(** The first side on rank 1 in colour [c], the second on rank 8 in the
    other colour, White to move. *)
Definition toy_Position_set (code : string) (c : Z) : Position :=
  let chars := list_ascii_of_string code in
  let bk := S (find_K (string_of_list_ascii (drop 1 chars)) 0) in
  let first := imap (fun i ch => (Z.of_nat i, make_piece c (toy_piece_type ch)))
                    (take bk chars) in
  let second := imap (fun i ch => (56 + Z.of_nat i, make_piece (1 - c) (toy_piece_type ch)))
                     (drop bk chars) in
  toy_position (board_of (first ++ second)) WHITE.

Definition toy_from_sq (m : Z) : Z := Z.land (Z.shiftr m 6) 63.
Definition toy_to_sq (m : Z) : Z := Z.land m 63.

Definition toy_type_of_move (m : Z) : MoveType :=
  match Z.shiftr m 14 with
  | 1 => PROMOTION
  | 2 => ENPASSANT
  | 3 => CASTLING
  | _ => NORMAL
  end.

Definition toy_capture (pos : Position) (m : Z) : bool :=
  negb (piece_on pos (toy_to_sq m) =? NO_PIECE).

Definition toy_do_move (pos : Position) (m : Z) : Position :=
  let pc := piece_on pos (toy_from_sq m) in
  let b := <[Z.to_nat (toy_to_sq m) := pc]> (<[Z.to_nat (toy_from_sq m) := NO_PIECE]> (board pos)) in
  mkPosition b (1 - sideToMove pos) (toy_key b) SQ_NONE
    (if toy_capture pos m || (type_of_piece pc =? PAWN) then 0 else rule50 pos + 1) 0.

Definition toy_generate (repertoire : list Z) (T : GenType) (pos : Position) : list Z :=
  filter (fun m =>
            let pc := piece_on pos (toy_from_sq m) in
            (negb (pc =? NO_PIECE) && (color_of pc =? sideToMove pos)
             && match T with
                | CAPTURES => toy_capture pos m
                | QUIETS => negb (toy_capture pos m)
                | _ => true
                end) = true)
         repertoire.

Fixpoint find_char (ch : ascii) (l : list ascii) : nat :=
  match l with
  | [] => O
  | c :: rest => if Ascii.eqb c ch then O else S (find_char ch rest)
  end.

(** The piece codes of the table of file [fname] (KQvK.rtbw, ...), in the
    order of the name, padded to [TBPIECES]. *)
Definition toy_table_pieces (fname : string) : list Z :=
  let chars := list_ascii_of_string fname in
  let white := take (find_char "v" chars) chars in
  let rest := drop (S (find_char "v" chars)) chars in
  let black := take (find_char "." rest) rest in
  take 6 (map (fun ch => make_piece WHITE (toy_piece_type ch)) white
          ++ map (fun ch => make_piece BLACK (toy_piece_type ch)) black
          ++ replicate 6 0).

Definition toy_pairs (fname : string) (value : Z) : PairsData :=
  mkPairsData 0 0 0 0 0 0 value 0 0 0 0 0 [] []
    (toy_table_pieces fname) (replicate 6 1) (replicate 6 1).

Definition toy_WDLEntry_init (files : list string) (e : WDLEntry) (fname : string)
    : WDLEntry * bool :=
  if existsb (String.eqb fname) files then
    (mkWDLEntry (ready e) 4096 0 (wdl_key e) (wdl_pieceCount e) (wdl_symmetric e)
       (wdl_hasPawns e)
       [mkWDLPieceItem (wdl_hasUniquePieces (wdl_piece_at e 0)) (Some (toy_pairs fname 4));
        mkWDLPieceItem (wdl_hasUniquePieces (wdl_piece_at e 1)) (Some (toy_pairs fname 0))]
       (wdl_pawnCount e)
       [replicate 4 (Some (toy_pairs fname 4)); replicate 4 (Some (toy_pairs fname 0))],
     true)
  else (e, false).

Definition toy_DTZEntry_init (files : list string) (e : DTZEntry) (fname : string)
    : DTZEntry * bool :=
  if existsb (String.eqb fname) files then
    (mkDTZEntry 8192 0 (dtz_key e) (dtz_key2 e) (dtz_pieceCount e) (dtz_symmetric e)
       (dtz_hasPawns e)
       (mkDTZPieceItem (dtz_hasUniquePieces (dtz_piece e)) (Some (toy_pairs fname 1))
          0 [0; 0; 0; 0] 0)
       (dtz_pawnCount e)
       (replicate 4 (mkDTZPawnFile (Some (toy_pairs fname 1)) 0 [0; 0; 0; 0])) 0,
     true)
  else (e, false).

Definition toy_host (files : list string) (repertoire : list Z) : Host := {|
  host_mem := fun _ => 0;
  generate := toy_generate repertoire;
  type_of_move := toy_type_of_move;
  to_sq := toy_to_sq;
  capture := toy_capture;
  legal := fun _ _ => true;
  moved_piece := fun pos m => piece_on pos (toy_from_sq m);
  do_move := toy_do_move;
  WDLEntry_init := toy_WDLEntry_init files;
  DTZEntry_init := toy_DTZEntry_init files;
  file_exists := fun fname => existsb (String.eqb fname) files;
  Position_set := toy_Position_set
|}.

(** [Tablebases::init] for the material combinations [materials]; a full
    hash bucket ([exit(1)]) leaves the state as it was. *)
Definition register_all `{Host} (materials : list (list Z)) : TB :=
  foldl (fun st pcs => default st (register_table pcs st)) TB_clear materials.

(** The material combinations [Tablebases::init] goes through, in its
    order: the nested loops over [p1 >= p2 >= ...]. *)
Definition init_materials : list (list Z) :=
  let upto p := seqZ PAWN p in
  p1 ← upto QUEEN;
  [KING; p1; KING] ::
  (p2 ← upto p1;
   [[KING; p1; p2; KING]; [KING; p1; KING; p2]]
   ++ (p3 ← upto QUEEN; [[KING; p1; p2; KING; p3]])
   ++ (p3 ← upto p2;
       [KING; p1; p2; p3; KING] ::
       (p4 ← upto p3; [[KING; p1; p2; p3; p4; KING]])
       ++ (p4 ← upto QUEEN; [[KING; p1; p2; p3; KING; p4]]))
   ++ (p3 ← upto p1;
       p4 ← upto (if p1 =? p3 then p2 else p3);
       [[KING; p1; p2; KING; p3; p4]])).

(** [Tablebases::init(paths)] from the point where the registry is
    filled. *)
Definition Tablebases_init `{Host} : TB := register_all init_materials.

(** ** Worked examples

    White: Kc3, Qd1; Black: Ka8, Rd8; White to move and Qd1xd8 on offer.
    Only the KQvK table is installed. *)
Definition Qd1xd8 : Z := 3 * 64 + 59.

Definition host_KQvK : Host := toy_host ["KQvK.rtbw"%string] [Qd1xd8].

Definition tb_KQvK : TB := @register_all host_KQvK [[KING; QUEEN; KING]].

Definition pos_KQvKR : Position :=
  toy_position (board_of [(18, 6); (3, 5); (56, 14); (59, 12)]) WHITE.

(** The same position with the rook gone: KQvK, Black to move. *)
Definition pos_KQvK_btm : Position :=
  toy_position (board_of [(18, 6); (59, 5); (56, 14)]) BLACK.

(** White: Kc3, Rd1; Black: Ka8; no table for this material. *)
Definition pos_KRvK : Position :=
  toy_position (board_of [(18, 6); (3, 4); (56, 14)]) WHITE.

(** ** Specification of [probe_ab] *)

(** The captures [probe_ab] recurses over: the generated moves that are
    captures, not en passant, and legal. *)
Definition ab_candidate `{Host} (pos : Position) (move : Z) : bool :=
  capture pos move
  && negb (MoveType_eqb (type_of_move move) ENPASSANT)
  && legal pos move.

Definition ab_stack `{Host} (pos : Position) : list Z :=
  if checkersBB pos =? 0 then add_underprom_caps pos (generate CAPTURES pos)
  else generate EVASIONS pos.

Definition ab_captures `{Host} (pos : Position) : list Z :=
  filter (fun move => ab_candidate pos move = true) (ab_stack pos).

(** [ab_scan ok rec pos beta caps alpha st alpha' st']: searching the
    captures [caps] one after the other with the bounds negated, none of
    them reaching [beta], raises [alpha] to [alpha'] and takes the state
    from [st] to [st']; [ok] is what is asked of the state each child
    leaves. *)
Inductive ab_scan `{Host} (ok : TB -> Prop) (rec : ProbeAB) (pos : Position) (beta : Z)
    : list Z -> Z -> TB -> Z -> TB -> Prop :=
  | ab_scan_nil alpha st : ab_scan ok rec pos beta [] alpha st alpha st
  | ab_scan_cons move rest alpha st v st1 alpha' st' :
      rec (do_move pos move) (- beta) (- alpha) st = Some (v, st1) ->
      ok st1 ->
      - v < beta ->
      ab_scan ok rec pos beta rest (Z.max alpha (- v)) st1 alpha' st' ->
      ab_scan ok rec pos beta (move :: rest) alpha st alpha' st'.

(** Claim C3 as it is stated: whatever the children and the table report
    in [*success], either some capture reaches [beta] and its value is
    returned with [*success = 2], or the maximum of the raised [alpha] and
    the table value is returned with [*success] 2 or 1. *)
Definition probe_ab_claim_as_stated `{Host} (fuel tfuel : nat) (pos : Position)
    (alpha beta : Z) (st : TB) : Prop :=
  let rec := probe_ab fuel tfuel in
  (exists pre move post a st1 v st2,
     ab_captures pos = pre ++ move :: post /\
     ab_scan (fun _ => True) rec pos beta pre alpha (tick st) a st1 /\
     rec (do_move pos move) (- beta) (- a) st1 = Some (v, st2) /\
     beta <= - v /\
     probe_ab (S fuel) tfuel pos alpha beta st = Some (- v, set_success 2 st2))
  \/
  (exists a st1 wdl st2,
     ab_scan (fun _ => True) rec pos beta (ab_captures pos) alpha (tick st) a st1 /\
     probe_wdl_table tfuel pos st1 = Some (wdl, st2) /\
     probe_ab (S fuel) tfuel pos alpha beta st
     = Some (Z.max a wdl,
             set_success (if (a >=? wdl) && (a >? 0) then 2 else 1) st2)).

Definition st_KQvK : TB := set_success 1 tb_KQvK.

(** The state after [probe_ab] has searched the position that follows
    Qd1xd8 (the KQvK table is loaded on the way). *)
Definition st_KQvK_loaded : TB :=
  Eval vm_compute in
  default TB_clear
    (snd <$> @probe_ab host_KQvK 1 8 (toy_do_move pos_KQvKR Qd1xd8) (-2) 2
               (tick st_KQvK)).

(** The state in which the first [probe_ab] call of [probe_dtz_no_ep]
    leaves the search of [pos_KQvKR]. *)
Definition st_KQvKR_searched : TB :=
  Eval vm_compute in
  default TB_clear
    (snd <$> @probe_ab host_KQvK 2 8 pos_KQvKR WDLLoss WDLWin (tick st_KQvK)).

(** ** The moves the other loops recurse over *)

(** Legal pawn moves that capture nothing. *)
Definition pawn_candidate `{Host} (pos : Position) (move : Z) : bool :=
  (type_of_piece (moved_piece pos move) =? PAWN)
  && negb (capture pos move) && legal pos move.

(** Legal piece moves that capture nothing. *)
Definition win_candidate `{Host} (pos : Position) (move : Z) : bool :=
  negb (capture pos move)
  && negb (type_of_piece (moved_piece pos move) =? PAWN) && legal pos move.

(** Legal en passant captures. *)
Definition ep_candidate `{Host} (pos : Position) (move : Z) : bool :=
  MoveType_eqb (type_of_move move) ENPASSANT && legal pos move.

(** What of a loop is still to run after a prefix of its moves. *)
Definition after_prefix {A} (run : A -> TB -> option (Flow A)) (flow : Flow A)
    : option (Flow A) :=
  match flow with
  | Return v st => Some (Return v st)
  | Continue acc st => run acc st
  end.

(** The state the failed probe of the (missing) KRvK table leaves. *)
Definition st_KRvK_failed : TB :=
  Eval vm_compute in
  default TB_clear (snd <$> @probe_wdl_table host_KQvK 8 pos_KRvK (tick st_KQvK)).

(** ** The DTZ list under probes that find no file

    Every WDL file is installed and no DTZ file is. *)
Definition host_wdl_only : Host := toy_host (map material_file init_materials) [].

Definition tb_wdl_only : TB :=
  Eval vm_compute in @Tablebases_init host_wdl_only.

(** White Kh1 and the pieces [extras] on e2, f2, h2, e3; Black Ka8; White
    to move. *)
Definition pos_with (extras : list Z) : Position :=
  toy_position
    (board_of ((7, 6) :: (56, 14) :: zip [12; 13; 15; 20] extras)) WHITE.

(** Positions of 65 different materials: White has the king and one to
    four further pieces. *)
Definition positions_65 : list Position :=
  take 65
    (map pos_with
       (extras ← [[1]; [2]; [3]; [4]; [5]];
        extras :: (p ← seqZ 1 (default 0 (last extras));
                   [p :: extras] ++ (q ← seqZ 1 p; [q :: p :: extras]
                                     ++ (r ← seqZ 1 q; [[r; q; p] ++ extras]))))).

(** [probe_dtz_table] for each position in turn, from [*success = 1]. *)
Definition dtz_probe_each `{Host} (tfuel : nat) (ps : list Position) (st : TB) : option TB :=
  foldl (fun st pos => st ← st; snd <$> probe_dtz_table tfuel pos WDLWin (set_success 1 st))
        (Some st) ps.

(** ** Mirrored positions

    The mirror of a position: every square flipped top to bottom and
    every piece given to the other side. *)
Definition flip_piece (pc : Z) : Z :=
  if pc =? NO_PIECE then NO_PIECE else Z.lxor pc 8.

Definition mirror_board (b : list Z) : list Z :=
  map (fun s => flip_piece (default NO_PIECE (b !! Z.to_nat (Z.lxor s 56)))) (seqZ 0 64).

(** The codes of the twelve pieces. *)
Definition is_piece (pc : Z) : bool :=
  ((1 <=? pc) && (pc <=? 6)) || ((9 <=? pc) && (pc <=? 14)).

(** Every square is empty or holds a piece, and no pawn stands on the
    first or on the eighth rank. *)
Definition board_ok (pos : Position) : Prop :=
  forall s, 0 <= s < 64 ->
    (piece_on pos s = NO_PIECE \/ is_piece (piece_on pos s) = true)
    /\ (type_of_piece (piece_on pos s) = PAWN -> 8 <= s < 56).

(** What stands behind slot [i] of an array once the element found
    [length l1] slots further on was swapped into slot [i]: [l1] is what
    lay before the element found, slot [i] included, [l2] what lay after. *)
Definition swapped_rest {A} (l1 l2 : list A) : list A :=
  match l1 with
  | [] => l2
  | q :: l1' => l1' ++ q :: l2
  end.

(** The order in which [Flap] and, at equal [Flap], the square decide. *)
Definition flap_le (x y : Z) : Prop :=
  Flap x < Flap y \/ (Flap x = Flap y /\ x <= y).

(** The groups [encode_remaining] walks from [next] on: [ns] lists their
    lengths up to [size]. *)
Fixpoint groups_match (precomp : PairsData) (size : nat) (remainingPawns : Z)
    (next : nat) (ns : list nat) : Prop :=
  match ns with
  | [] => (size <= next)%nat
  | n :: ns' =>
      (next < size)%nat
      /\ n = Z.to_nat (if negb (remainingPawns =? 0) then remainingPawns
                       else table_at (norm precomp) (Z.of_nat next))
      /\ groups_match precomp size 0 (next + n) ns'
  end.

(** Two arrays that hold, group by group, the same squares. *)
Fixpoint blocks_equiv (ns : list nat) (a b : list Z) : Prop :=
  match ns with
  | [] => a = b
  | n :: ns' => take n a ≡ₚ take n b /\ blocks_equiv ns' (drop n a) (drop n b)
  end.

(** Two arrays with the same first [k] squares and, group by group, the
    same squares behind them. *)
Definition agree (k : nat) (ns : list nat) (a b : list Z) : Prop :=
  take k a = take k b /\ blocks_equiv ns (drop k a) (drop k b).

(** The pieces [want] of a table bucket are laid out in groups of lengths
    [ns], one group for each kind of piece [reps]. *)
Definition grouped (want : list Z) (ns : list nat) (reps : list Z) : Prop :=
  length reps = length ns /\ NoDup reps
  /\ want = concat (zip_with (fun n r => replicate n r) ns reps).

(** A bucket fits a position seen through [flip]: past the [leadPawnsCnt]
    lead pawns its piece list names the pieces of the position, the
    leading pieces of a pawnless table each stand alone, and the groups of
    [norm] are the runs of equal pieces. *)
Definition bucket_fits {Entry : Type} `{TBEntry Entry} (entry : Entry) (stm : Z)
    (precomp : PairsData) (leadPawnsCnt : nat) (pcs : list Z) : Prop :=
  let n := length pcs in
  let want := take n (drop leadPawnsCnt (pieces precomp)) in
  let limit := if hasPawns entry then 0%nat
               else if piece_hasUniquePieces entry stm then 3%nat else 2%nat in
  let remainingPawns := if hasPawns entry then pawnCount entry 1 else 0 in
  (if hasPawns entry then (0 < leadPawnsCnt)%nat else leadPawnsCnt = 0%nat)
  /\ pcs ≡ₚ want
  /\ exists ns reps,
       groups_match precomp (leadPawnsCnt + n) remainingPawns (leadPawnsCnt + limit) ns
       /\ grouped want (replicate limit 1%nat ++ ns) reps.

(** The bucket [probe_table] picks for [pos] fits it. *)
Definition table_fits {Entry : Type} `{TBEntry Entry} (pos : Position) (entry : Entry)
    : Prop :=
  (hasPawns entry = true ->
     exists d0, pawn_precomp entry 0 0 = Some d0
                /\ type_of_piece (table_at (pieces d0) 0) = PAWN
                /\ 0 <= table_at (pieces d0) 0 < 16)
  /\ forall lead precomp,
       probe_leadPawns pos entry = Some lead ->
       probe_precomp entry (probe_stm pos entry)
         (probe_tbFile entry (probe_lead_squares pos entry lead)) = Some precomp ->
       bucket_fits entry (probe_stm pos entry) precomp (length lead)
         (map (fun s => Z.lxor (piece_on pos s) (probe_flip pos entry * 8))
              (probe_others pos lead)).

(** ** The search of [probe_wdl] as a game value *)

(** The legal en passant captures the loop of [probe_wdl] tries. *)
Definition ep_moves `{Host} (pos : Position) : list Z :=
  filter (fun move => ep_candidate pos move = true) (generate_captures pos).

(** The positions a search started at [pos] can come to: by legal
    captures, en passant or not. *)
Inductive searched `{Host} (pos : Position) : Position -> Prop :=
  | searched_root : searched pos pos
  | searched_capture q move :
      searched pos q -> move ∈ ab_captures q -> searched pos (do_move q move)
  | searched_ep q move :
      searched pos q -> move ∈ ep_moves q -> searched pos (do_move q move).

(** What the WDL table on file says of a position, whatever [*success]
    and the call counter are: the value [probe_wdl_table] reads when the
    tables are [table], found through [hash]. *)
Definition table_value `{Host} (tfuel : nat) (hash : HashTable) (table : list WDLEntry)
    (pos : Position) : Z :=
  if bool_decide (pieces_all pos = pieces_of_type pos KING) then WDLDraw
  else
    default WDLDraw
      (ptr ← HashTable_lookup hash (materialKey pos);
       entry ← table !! ptr;
       '(v, _) ← probe_table tfuel host_mem pos entry WDLDraw 1;
       Some (s32 v)).

(** The table of the position is registered, loaded and answers. *)
Definition table_ready `{Host} (tfuel : nat) (hash : HashTable) (table : list WDLEntry)
    (pos : Position) : Prop :=
  pieces_all pos = pieces_of_type pos KING
  \/ exists ptr entry,
       HashTable_lookup hash (materialKey pos) = Some ptr
       /\ table !! ptr = Some entry
       /\ ready entry = true
       /\ is_Some (probe_table tfuel host_mem pos entry WDLDraw 1).

(** The value of a position when both sides may only capture or stop and
    take the table's word: the better of the table value and of what the
    captures lead to, [fuel] captures deep. *)
Fixpoint wdl_minimax `{Host} (tv : Position -> Z) (fuel : nat) (pos : Position) : Z :=
  match fuel with
  | O => tv pos
  | S f =>
      foldr Z.max (tv pos)
        (map (fun move => - wdl_minimax tv f (do_move pos move)) (ab_captures pos))
  end.

(** The best a capture does against the bound [alpha]. *)
Definition ab_best `{Host} (tv : Position -> Z) (fuel : nat) (pos : Position)
    (alpha : Z) : Z :=
  foldr Z.max alpha
    (map (fun move => - wdl_minimax tv fuel (do_move pos move)) (ab_captures pos)).

(** What [probe_ab] returns in the window [(alpha, beta)], and what it
    leaves in [*success]. *)
Definition ab_result `{Host} (tv : Position -> Z) (fuel : nat) (pos : Position)
    (alpha beta : Z) : Z :=
  let best := ab_best tv fuel pos alpha in
  if beta <=? best then beta else Z.max best (tv pos).

Definition ab_success `{Host} (tv : Position -> Z) (fuel : nat) (pos : Position)
    (alpha beta : Z) : Z :=
  let best := ab_best tv fuel pos alpha in
  if beta <=? best then 2
  else if best >=? tv pos then 1 + Z.b2z (best >? 0) else 1.

(** The best en passant capture, from [v1 = -3]. *)
Definition ep_best `{Host} (tv : Position -> Z) (fuel : nat) (pos : Position) : Z :=
  foldr Z.max (-3)
    (map (fun move => - ab_result tv fuel (do_move pos move) WDLLoss WDLWin) (ep_moves pos)).

(** What [probe_wdl] returns. *)
Definition wdl_result `{Host} (tv : Position -> Z) (fuel : nat) (pos : Position) : Z :=
  let v := ab_result tv fuel pos WDLLoss WDLWin in
  if epSquare pos =? SQ_NONE then v
  else wdl_ep_combine pos (generate_captures pos) v (ep_best tv fuel pos).

(** What the search needs of a position it comes to: its table is ready
    and each capture takes a piece off the board. *)
Definition search_ok `{Host} (tfuel : nat) (hash : HashTable) (table : list WDLEntry)
    (pos : Position) : Prop :=
  table_ready tfuel hash table pos
  /\ forall move, move ∈ ab_captures pos \/ move ∈ ep_moves pos ->
       (length (pieces_all (do_move pos move)) < length (pieces_all pos))%nat.

(** The entry as [probe_wdl_table] leaves it when it probes it for [pos]:
    a ready entry as it is, another one as [init] makes it from the file
    named after the position; none when [init] fails. *)
Definition wdl_loaded `{Host} (pos : Position) (entry : WDLEntry) : option WDLEntry :=
  if ready entry then Some entry
  else
    let fname :=
      String.append (file_name pos (negb (wdl_key entry =? materialKey pos))) ".rtbw" in
    let '(entry', ok) := WDLEntry_init entry fname in
    if ok then Some (set_ready true entry') else None.

(** The table of the position is available: the entry its key leads to in
    [table] is loaded, or loads when it is probed for the position, and
    [loaded] holds it as it is then. *)
Definition table_loads `{Host} (hash : HashTable) (table loaded : list WDLEntry)
    (pos : Position) : Prop :=
  pieces_all pos = pieces_of_type pos KING
  \/ exists ptr entry0 entry,
       HashTable_lookup hash (materialKey pos) = Some ptr
       /\ table !! ptr = Some entry0
       /\ loaded !! ptr = Some entry
       /\ wdl_loaded pos entry0 = Some entry.

(** The tables of [st] on the way from [table] to [loaded]: each entry is
    still as in [table] or already as in [loaded]. *)
Definition tables_between (hash : HashTable) (table loaded : list WDLEntry) (st : TB)
    : Prop :=
  WDLHash st = hash
  /\ forall ptr, WDLTable st !! ptr = table !! ptr \/ WDLTable st !! ptr = loaded !! ptr.

(** In every state that keeps [Inv] the table probe of [pos] answers
    [tv pos], keeps [Inv] and leaves [*success] as it was. *)
Definition table_answers `{Host} (tfuel : nat) (tv : Position -> Z) (Inv : TB -> Prop)
    (pos : Position) : Prop :=
  forall st, Inv st ->
    exists st', probe_wdl_table tfuel pos st = Some (tv pos, st')
                /\ Inv st' /\ success st' = success st.

(** ** A host that treats both sides alike

    [mirror] is the position with the board turned upside down and the
    colours switched, [mirror_move] the same move seen from the other
    side. *)

(** The moves the search of a position looks at. *)
Definition moves_seen `{Host} (pos : Position) : list Z :=
  ab_stack pos ++ generate_captures pos ++ generate QUIETS pos.

Record mirrored `{Host} (mirror : Position -> Position) (mirror_move : Z -> Z)
    (tfuel : nat) (hash : HashTable) (table : list WDLEntry) (pos : Position) : Prop := {
  (** the position *)
  mirrored_board : board (mirror pos) = mirror_board (board pos);
  mirrored_board_ok : board_ok pos;
  mirrored_side : sideToMove pos = WHITE \/ sideToMove pos = BLACK;
  mirrored_sideToMove : sideToMove (mirror pos) = 1 - sideToMove pos;
  mirrored_checkers : (checkersBB (mirror pos) =? 0) = (checkersBB pos =? 0);
  mirrored_epSquare : (epSquare (mirror pos) =? SQ_NONE) = (epSquare pos =? SQ_NONE);
  (** the moves: the same, in whatever order *)
  mirrored_generate :
    forall T, generate T (mirror pos) ≡ₚ map mirror_move (generate T pos);
  mirrored_promotion :
    forall move, move ∈ generate CAPTURES pos ->
      0 <= to_sq move < 64
      /\ to_sq (mirror_move move) = Z.lxor (to_sq move) 56
      /\ type_of_move (mirror_move move) = type_of_move move
      /\ Forall (fun k => mirror_move (move - Z.shiftl k 12)
                          = mirror_move move - Z.shiftl k 12) [1; 2; 3];
  mirrored_moves :
    forall move, move ∈ moves_seen pos ->
      type_of_move (mirror_move move) = type_of_move move
      /\ capture (mirror pos) (mirror_move move) = capture pos move
      /\ legal (mirror pos) (mirror_move move) = legal pos move
      /\ do_move (mirror pos) (mirror_move move) = mirror (do_move pos move);
  mirrored_shrinks :
    forall move, move ∈ ab_captures pos \/ move ∈ ep_moves pos ->
      (length (pieces_all (do_move pos move)) < length (pieces_all pos))%nat;
  (** the table: one entry for the position and its mirror, fit for the
      position *)
  mirrored_table :
    pieces_all pos = pieces_of_type pos KING
    \/ exists ptr entry,
         HashTable_lookup hash (materialKey pos) = Some ptr
         /\ HashTable_lookup hash (materialKey (mirror pos)) = Some ptr
         /\ table !! ptr = Some entry
         /\ ready entry = true
         /\ (wdl_symmetric entry = true
             \/ (materialKey pos =? wdl_key entry)
                = negb (materialKey (mirror pos) =? wdl_key entry))
         /\ table_fits pos entry
         /\ is_Some (probe_table tfuel host_mem pos entry WDLDraw 1)
}.

(** [board_ok], checked square by square. *)
Definition board_check (pos : Position) : bool :=
  forallb (fun s =>
             let pc := piece_on pos s in
             ((pc =? NO_PIECE) || is_piece pc)
             && implb (type_of_piece pc =? PAWN) ((8 <=? s) && (s <? 56)))
          (seqZ 0 64).

(** ** The small host seen from the other side *)

Definition toy_mirror (pos : Position) : Position :=
  let b := mirror_board (board pos) in
  mkPosition b (1 - sideToMove pos) (toy_key b)
    (if epSquare pos =? SQ_NONE then SQ_NONE else Z.lxor (epSquare pos) 56)
    (rule50 pos) (checkersBB pos).

(** Both squares of the move flipped. *)
Definition toy_mirror_move (m : Z) : Z := Z.lxor m (56 * 64 + 56).

(** White: Kc3, Rd1; Black: Ka8, Rd8; White to move, Rd1xd8 on offer
    and, for the other side, Rd8xd1.  The KRvKR and KRvK tables are
    installed and loaded. *)
Definition Rd1xd8 : Z := 3 * 64 + 59.

Definition host_KRvKR : Host :=
  toy_host ["KRvKR.rtbw"; "KRvK.rtbw"]%string [Rd1xd8; toy_mirror_move Rd1xd8].

Definition tb_KRvKR : TB :=
  @register_all host_KRvKR [[KING; ROOK; KING]; [KING; ROOK; KING; ROOK]].

Definition pos_KRvKR : Position :=
  toy_position (board_of [(18, 6); (3, 4); (56, 14); (59, 12)]) WHITE.

(** The rook on e1 instead: no capture on offer. *)
Definition pos_KRvKR_e1 : Position :=
  toy_position (board_of [(18, 6); (4, 4); (56, 14); (59, 12)]) WHITE.

(** After Rd1xd8. *)
Definition pos_KRvK_d8 : Position :=
  Eval vm_compute in toy_do_move pos_KRvKR Rd1xd8.

Definition st_KRvKR : TB :=
  Eval vm_compute in
  default TB_clear
    (st ← snd <$> @probe_wdl_table host_KRvKR 8 pos_KRvKR (set_success 1 tb_KRvKR);
     snd <$> @probe_wdl_table host_KRvKR 8 pos_KRvK_d8 st).

(** White: Kc3, Rd1, Na5; Black: Ka8, Rd8, Nh1; White to move.  The rook
    can take the rook or the knight; the move generator lists the moves in
    the order of its repertoire, so the mirrored position gets the two
    mirrored captures in the other order.  Only the KRNvKN table is
    installed, the table after RxN (KRNvKR) is not. *)
Definition Rd1xh1 : Z := 3 * 64 + 7.

Definition host_KRNvKN : Host :=
  toy_host ["KRNvKN.rtbw"]%string
    [Rd1xd8; Rd1xh1; toy_mirror_move Rd1xh1; toy_mirror_move Rd1xd8].

Definition tb_KRNvKN : TB :=
  @register_all host_KRNvKN [[KING; ROOK; KNIGHT; KING; KNIGHT]].

Definition pos_KRNvKRN : Position :=
  toy_position
    (board_of [(18, 6); (3, 4); (32, 2); (56, 14); (59, 12); (7, 10)]) WHITE.

(** The same position with the three tables of its search installed:
    KRNvKRN for the position, KRNvKN after RxR, KRNvKR after RxN.  The
    registry is as [Tablebases::init] leaves it, no table loaded. *)
Definition host_KRNvKRN : Host :=
  toy_host ["KRNvKN.rtbw"; "KRNvKR.rtbw"; "KRNvKRN.rtbw"]%string
    [Rd1xd8; Rd1xh1; toy_mirror_move Rd1xh1; toy_mirror_move Rd1xd8].

Definition tb_KRNvKRN : TB :=
  @register_all host_KRNvKRN
    [[KING; ROOK; KNIGHT; KING; KNIGHT]; [KING; ROOK; KNIGHT; KING; ROOK];
     [KING; ROOK; KNIGHT; KING; ROOK; KNIGHT]].

(** After Rd1xd8 and after Rd1xh1. *)
Definition pos_KRNvKN_d8 : Position :=
  Eval vm_compute in toy_do_move pos_KRNvKRN Rd1xd8.

Definition pos_KRNvKR_h1 : Position :=
  Eval vm_compute in toy_do_move pos_KRNvKRN Rd1xh1.

(** The registry once each of the three tables was probed. *)
Definition st_KRNvKRN : TB :=
  Eval vm_compute in
  foldl (fun st q =>
           default st (snd <$> @probe_wdl_table host_KRNvKRN 8 q (set_success 1 st)))
        tb_KRNvKRN [pos_KRNvKRN; pos_KRNvKN_d8; pos_KRNvKR_h1].

(** Claim C1 as it is stated: when the material is symmetric (the key of
    the position and the key of its mirror are equal), [probe_wdl] returns
    the same score for both, whatever tables are there. *)
Definition probe_wdl_mirror_claim_as_stated `{Host} (mirror : Position -> Position)
    (fuel tfuel : nat) (pos : Position) (st : TB) : Prop :=
  materialKey (mirror pos) = materialKey pos ->
  fst <$> probe_wdl fuel tfuel (mirror pos) st = fst <$> probe_wdl fuel tfuel pos st.

(** ** Invariants of the registry *)

(** A bucket as [clear()] and [insert] leave it: [HSHMAX] entries, the
    ones written so far in front, the cleared ones behind them. *)
Definition bucket_ok (b : list HashEntry) : Prop :=
  exists filled : list HashEntry,
    b = filled ++ replicate (HSHMAX - length filled) (mkHashEntry 0 None)
    /\ (length filled <= HSHMAX)%nat
    /\ Forall (fun e => hash_ptr e <> None) filled.

Definition HashTable_ok (t : HashTable) : Prop :=
  length t = Z.to_nat (2 ^ TBHASHBITS) /\ Forall bucket_ok t.

(** A [Key] is a [uint64_t]. *)
Definition is_key (k : Z) : Prop := 0 <= k < 2 ^ 64.

(** Five keys of one bucket: the bucket of the keys below [2 ^ 54] is full. *)
Definition hash_five : HashTable :=
  foldl (fun t k => default t (HashTable_insert t k (Z.to_nat k))) HashTable_clear
        [1; 2; 3; 4; 5].

(** The registry as [Tablebases::init] and the probes keep it: the hash in
    shape, and no pointer of it past the end of [WDLTable]. *)
Definition registry_ok (st : TB) : Prop :=
  HashTable_ok (WDLHash st)
  /\ forall k ptr, HashTable_lookup (WDLHash st) k = Some ptr ->
                   (ptr < length (WDLTable st))%nat.

(** ** What the pair dictionary stands for

    The bytes a symbol of the dictionary at [sp] expands to: a symbol
    whose second child is 0xFFF is one byte, the first of its entry; any
    other symbol is the bytes of its first child followed by those of its
    second.  [fuel] bounds the depth of the expansion. *)
Fixpoint symbol_bytes (fuel : nat) (m : Mem) (sp s : Z) : option (list Z) :=
  match fuel with
  | O => None
  | S f =>
      if sympat_s2 m sp s =? 4095 then Some [load8 m (sp + 3 * s)]
      else
        l1 ← symbol_bytes f m sp (sympat_s1 m sp s);
        l2 ← symbol_bytes f m sp (sympat_s2 m sp s);
        Some (l1 ++ l2)
  end.

(** ** A worked example with a DTZ file

    The KQvK tables, WDL and DTZ, are installed; White: Kc3, Qd8; Black:
    Ka8. *)
Definition host_KQvK_dtz : Host := toy_host ["KQvK.rtbw"; "KQvK.rtbz"]%string [].

Definition tb_KQvK_dtz : TB :=
  set_success 1 (@register_all host_KQvK_dtz [[KING; QUEEN; KING]]).

Definition pos_KQvK_wtm : Position :=
  toy_position (board_of [(18, 6); (59, 5); (56, 14)]) WHITE.

(** The state after the WDL table, and after the DTZ table, has been
    probed for it. *)
Definition st_KQvK_wdl_probed : TB :=
  Eval vm_compute in
  default TB_clear (snd <$> @probe_wdl_table host_KQvK_dtz 8 pos_KQvK_wtm tb_KQvK_dtz).

Definition st_KQvK_dtz_probed : TB :=
  Eval vm_compute in
  default TB_clear
    (snd <$> @probe_dtz_table host_KQvK_dtz 8 pos_KQvK_wtm WDLWin tb_KQvK_dtz).

(** ** The root probes

    Modelled from the spec: [Search::RootMove] of [search.h] and the
    [Value] constants of [types.h], which are not part of the sources.  Of
    a root move the probing code reads [pv[0]] and writes [score]; the
    constants it only names, so they are left open. *)
Record RootMove := mkRootMove { pv : list Z; score : Z }.

Record Values := mkValues {
  VALUE_MATE : Z;
  VALUE_DRAW : Z;
  MAX_PLY : Z;
  PawnValueEg : Z
}.

Definition WDL_to_value (c : Values) : list Z :=
  [ - VALUE_MATE c + MAX_PLY c + 1;
    VALUE_DRAW c - 2;
    VALUE_DRAW c;
    VALUE_DRAW c + 2;
    VALUE_MATE c - MAX_PLY c - 1 ].

(** The loop "Probe each move" of [root_probe_wdl]: [done] are the root
    moves behind it, their scores written, [todo] the ones ahead.  [inl]
    is the early [return false], with the root moves as they are left;
    [inr] the end of the loop, with [best]. *)
Fixpoint wdl_moves_loop `{Host} (probe : Probe) (pos : Position)
    (done todo : list RootMove) (best : Z) (st : TB)
    : option (list RootMove * TB + list RootMove * Z * TB) :=
  match todo with
  | [] => Some (inr (done, best, st))
  | rm :: rest =>
      move ← head (pv rm);
      '(v, st) ← probe (do_move pos move) st;
      let v := - v in
      if success st =? 0 then Some (inl (done ++ rm :: rest, st))
      else
        wdl_moves_loop probe pos (done ++ [mkRootMove (pv rm) v]) rest
                       (if v >? best then v else best) st
  end.

(** [Tablebases::root_probe_wdl(pos, rootMoves, score)]: what it returns,
    the root moves and the score as it leaves them. *)
Definition root_probe_wdl `{Host} (c : Values) (fuel tfuel : nat) (pos : Position)
    (rootMoves : list RootMove) (score0 : Z) (st : TB)
    : option (bool * list RootMove * Z * TB) :=
  '(wdl, st) ← probe_wdl fuel tfuel pos st;
  if success st =? 0 then Some (false, rootMoves, score0, st)
  else
    score1 ← vec_get (WDL_to_value c) (wdl + 2);
    r ← wdl_moves_loop (probe_wdl fuel tfuel) pos [] rootMoves WDLLoss st;
    match r with
    | inl (rootMoves, st) => Some (false, rootMoves, score1, st)
    | inr (rootMoves, best, st) =>
        Some (true, filter (fun rm => score rm = best) rootMoves, score1, st)
    end.

(** The move a root move stands for. *)
Definition root_move (rm : RootMove) : Z := default 0 (head (pv rm)).

(** The KRvKR example at the root: Rd1xd8 and the quiet Rd1-e1 (which the
    example host does not generate, but can play). *)
Definition Rd1e1 : Z := 3 * 64 + 4.

Definition rootMoves_KRvKR : list RootMove :=
  [mkRootMove [Rd1e1] 0; mkRootMove [Rd1xd8] 0].

(** Sample values for the examples. *)
Definition values_SF : Values := mkValues 32000 0 128 258.

(** The state [root_probe_wdl] leaves at the root of the example. *)
Definition st_KRvKR_root : TB :=
  Eval vm_compute in
  default TB_clear
    ((fun r => snd r)
       <$> @root_probe_wdl host_KRvKR values_SF 8 8 pos_KRvKR rootMoves_KRvKR 0 st_KRvKR).

(** White: Kc3, pawns a2, b2; Black: Ka8, pawn h7; White to move. *)
Definition pos_KPPvKP : Position :=
  toy_position (board_of [(18, 6); (8, 1); (9, 1); (56, 14); (55, 9)]) WHITE.

(** ** DTZ values

    [min_len] holds a byte, as [set_sizes] reads it; an entry is sound when
    that is so for each of its [PairsData]. *)
Definition pairs_byte (d : option PairsData) : bool :=
  match d with
  | None => true
  | Some d => (0 <=? min_len d) && (min_len d <? 256)
  end.

Definition dtz_entry_ok (e : DTZEntry) : bool :=
  pairs_byte (dtz_piece_precomp (dtz_piece e))
  && forallb (fun f => pairs_byte (dtz_file_precomp f)) (dtz_pawn_file e).

(** The state [probe_dtz_no_ep] leaves in the KQvK example. *)
Definition st_KQvK_dtz_no_ep : TB :=
  Eval vm_compute in
  default TB_clear
    (snd <$> @probe_dtz_no_ep host_KQvK_dtz 2 8 pos_KQvK_wtm tb_KQvK_dtz).

(** The entry of the KRvKR table in the example, loaded. *)
Definition entry_KRvKR : WDLEntry :=
  Eval vm_compute in
  default (WDLEntry_new pos_KRvKR_e1 0 0)
    (ptr ← HashTable_lookup (WDLHash st_KRvKR) (materialKey pos_KRvKR_e1);
     WDLTable st_KRvKR !! ptr).

(** ** The layout of a table: [set_norms] and [set_factors] *)

Definition with_norm (d : PairsData) (v : list Z) : PairsData :=
  mkPairsData (blocksize d) (idxbits d) (num_indices d) (real_num_blocks d)
    (num_blocks d) (max_len d) (min_len d) (offset d) (sympat d)
    (indextable d) (sizetable d) (data d) (base d) (symlen d)
    (pieces d) (factor d) v.

Definition with_factor (d : PairsData) (v : list Z) : PairsData :=
  mkPairsData (blocksize d) (idxbits d) (num_indices d) (real_num_blocks d)
    (num_blocks d) (max_len d) (min_len d) (offset d) (sympat d)
    (indextable d) (sizetable d) (data d) (base d) (symlen d)
    (pieces d) v (norm d).

(** [for (int j = i; j < num && p->pieces[j] == p->pieces[i]; ++j)]: how
    often the body runs, with [count = num - j] slots left. *)
Fixpoint norm_run (pcs : list Z) (pc : Z) (j : Z) (count : nat) : Z :=
  match count with
  | O => 0
  | S c => if table_at pcs j =? pc then 1 + norm_run pcs pc (j + 1) c else 0
  end.

(** [for (int i = ...; i < num; i += p->norm[i])]: a [norm[i]] that
    stays 0 makes the source loop for ever and the model run out of fuel;
    a write outside [norm] is undefined and the model stops. *)
Fixpoint set_norms_loop (fuel : nat) (d : PairsData) (num i : Z) : option PairsData :=
  if i <? num then
    match fuel with
    | O => None
    | S f =>
        n0 ← vec_get (norm d) i;
        let n := u8 (n0 + norm_run (pieces d) (table_at (pieces d) i) i (Z.to_nat (num - i))) in
        v ← vec_set (norm d) i n;
        set_norms_loop f (with_norm d v) num (i + n)
    end
  else Some d.

(** [set_norms(p, num, pawns)] *)
Definition set_norms (fuel : nat) (d : PairsData) (num : Z) (pawns : list Z)
    : option PairsData :=
  let p0 := table_at pawns 0 in
  let p1 := table_at pawns 1 in
  v ← vec_set (norm d) 0 p0;
  v ← (if negb (p1 =? 0) then vec_set v p0 p1 else Some v);
  set_norms_loop fuel (with_norm d v) num (p0 + p1).

(** [get_pfactor], for a table without pawns and for one with. *)
Definition get_pfactor_piece (hasUniquePieces : bool) : Z :=
  if hasUniquePieces then 31332 else 462.

Definition get_pfactor_pawn (d : PairsData) (f : Z) : Z :=
  Pfactor (table_at (norm d) 0 - 1) f.

(** The loop of [set_factors]; [pfactor] is [get_pfactor(p, f)], which
    the loop does not change. *)
Fixpoint set_factors_loop (fuel : nat) (pfactor : Z) (d : PairsData)
    (num order0 order1 k i n size : Z) : option (PairsData * Z) :=
  if (i <? num) || (k =? order0) || (k =? order1) then
    match fuel with
    | O => None
    | S f =>
        if k =? order0 then
          v ← vec_set (factor d) 0 size;
          set_factors_loop f pfactor (with_factor d v) num order0 order1
            (k + 1) i n (u64 (size * pfactor))
        else if k =? order1 then
          v ← vec_set (factor d) (table_at (norm d) 0) size;
          set_factors_loop f pfactor (with_factor d v) num order0 order1
            (k + 1) i n
            (u64 (size * Binomial (table_at (norm d) (table_at (norm d) 0))
                                  (48 - table_at (norm d) 0)))
        else
          v ← vec_set (factor d) i size;
          set_factors_loop f pfactor (with_factor d v) num order0 order1
            (k + 1) (i + table_at (norm d) i) (n - table_at (norm d) i)
            (u64 (size * Binomial (table_at (norm d) i) n))
    end
  else Some (d, size).

(** [set_factors(p, num, order, f)]: the entry with its factors, and the
    size of the table. *)
Definition set_factors (fuel : nat) (pfactor : Z) (d : PairsData) (num : Z)
    (order : list Z) : option (PairsData * Z) :=
  let order0 := table_at order 0 in
  let order1 := table_at order 1 in
  let i := table_at (norm d) 0 in
  let i := if order1 <? 15 then i + table_at (norm d) i else i in
  set_factors_loop fuel pfactor d num order0 order1 0 i (64 - i) 1.

(** The slots at which the groups of a table start, from slot [i] on:
    [i], [i + norm[i]], ... below [num]. *)
Fixpoint group_starts (fuel : nat) (nm : list Z) (num i : Z) : list Z :=
  match fuel with
  | O => []
  | S f => if i <? num then i :: group_starts f nm num (i + table_at nm i) else []
  end.

(** The pieces of KRRvKB in table order, and the table laid out for them. *)
Definition pairs_KRRvKB : PairsData :=
  mkPairsData 0 0 0 0 0 0 0 0 0 0 0 0 [] [] [6; 14; 11; 4; 4; 0]
    (replicate 6 0) (replicate 6 0).

(** Slot [i] starts a maximal run of [norm[i]] equal pieces below [num]. *)
Definition maximal_run (pcs nm : list Z) (num i : Z) : Prop :=
  let n := table_at nm i in
  1 <= n /\ i + n <= num
  /\ (forall t, 0 <= t < n -> table_at pcs (i + t) = table_at pcs i)
  /\ (i + n < num -> table_at pcs (i + n) <> table_at pcs i).

(** The places of the mixed-radix index of a table: the slot of [factor]
    and the radix of the leading group, of the pawns of the second side
    when [order[1] < 0xF], and of each further group. *)
Definition factor_slots (pfactor : Z) (nm : list Z) (order1 : Z) (starts : list Z)
    : list (Z * Z) :=
  (0, pfactor)
  :: (if order1 <? 15
      then [(table_at nm 0,
             Binomial (table_at nm (table_at nm 0)) (48 - table_at nm 0))]
      else [])
  ++ map (fun i => (i, Binomial (table_at nm i) (64 - i))) starts.

Definition radix_product (slots : list (Z * Z)) : Z :=
  foldr (fun sr acc => snd sr * acc) 1 slots.

(** The index the digits [dig] make with the factors [fac]. *)
Definition index_of (dig : Z -> Z) (fac : list Z) (slots : list (Z * Z)) : Z :=
  foldr (fun sr acc => dig (fst sr) * table_at fac (fst sr) + acc) 0 slots.

(** [gs] are the slots at which the groups start from slot [i] on: each
    group starts where the one before it ends, and the last ends at [num]
    or behind it. *)
Fixpoint group_chain (nm : list Z) (num i : Z) (gs : list Z) : Prop :=
  match gs with
  | [] => num <= i
  | g :: gs' => g = i /\ i < num /\ group_chain nm num (i + table_at nm i) gs'
  end.

(** The KRRvKB table laid out: [norm] as [set_norms] leaves it. *)
Definition normed_KRRvKB : PairsData :=
  Eval vm_compute in default PairsData_new (set_norms 8 pairs_KRRvKB 5 [3; 0]).

(** The slots [set_factors] has still to visit: the leading group if [p0],
    the second pawn group if [p1], and the groups starting at [gs]. *)
Definition pending_slots (pfactor : Z) (nm : list Z) (p0 p1 : bool) (gs : list Z)
    : list (Z * Z) :=
  (if p0 then [(0, pfactor)] else [])
  ++ (if p1 then [(table_at nm 0,
                   Binomial (table_at nm (table_at nm 0)) (48 - table_at nm 0))] else [])
  ++ map (fun i => (i, Binomial (table_at nm i) (64 - i))) gs.

(** * Theorems *)

(** ** Vectors *)

Lemma vec_get_Some (v : list Z) (i x : Z) :
  vec_get v i = Some x -> 0 <= i < Z.of_nat (length v) /\ v !! Z.to_nat i = Some x.
Proof.
  unfold vec_get. destruct (Z.ltb_spec i 0); [discriminate|].
  intros H'. split; [|exact H'].
  apply lookup_lt_Some in H'. lia.
Qed.

Lemma vec_get_nat (v : list Z) (i : nat) : vec_get v (Z.of_nat i) = v !! i.
Proof.
  unfold vec_get. destruct (Z.ltb_spec (Z.of_nat i) 0); [lia|].
  by rewrite Nat2Z.id.
Qed.

Lemma vec_resize_length (n : nat) (v : list Z) : length (vec_resize n v) = n.
Proof. unfold vec_resize. rewrite length_app, length_take, length_replicate. lia. Qed.

Lemma vec_resize_nil (n : nat) : vec_resize n [] = replicate n 0.
Proof. unfold vec_resize. rewrite take_nil. simpl. f_equal. lia. Qed.

(** ** The single-value table: claim C10 *)

Lemma set_sizes_single_value fuel m d data0 tb_size :
  Z.land (load8 m data0) 128 <> 0 ->
  set_sizes fuel m d data0 tb_size
  = Some (with_min_len d (load8 m (data0 + 1)), data0 + 2).
Proof.
  intros H. unfold set_sizes.
  destruct (Z.eqb_spec (Z.land (load8 m data0) 128) 0); [contradiction|done].
Qed.

(** C10: for a [PairsData] whose [idxbits] is 0, [decompress_pairs] returns
    [min_len] for every index, whatever the fuel, and whatever the memory
    holds: no table and no block is read. *)
Theorem decompress_pairs_single_value (fuel : nat) (m : Mem) (d : PairsData) (idx : Z) :
  idxbits d = 0 -> decompress_pairs fuel m d idx = Some (min_len d).
Proof. intros H. unfold decompress_pairs. by rewrite H. Qed.

(** ** The base array: claim C8 *)

Lemma base_halve_length m off k b : length (base_halve m off k b) = length b.
Proof.
  revert b. induction k as [|i IH]; intros b; simpl; [done|].
  by rewrite IH, length_insert.
Qed.

Lemma base_halve_ge m off k b (j : nat) :
  (k <= j)%nat -> base_halve m off k b !! j = b !! j.
Proof.
  revert b. induction k as [|i IH]; intros b Hj; simpl; [done|].
  rewrite IH by lia. apply list_lookup_insert_ne. lia.
Qed.

Lemma base_halve_lt m off k b (i : nat) :
  (k < length b)%nat -> (i < k)%nat ->
  exists nx,
    base_halve m off k b !! S i = Some nx /\
    base_halve m off k b !! i
    = Some (u64 (nx + number 2 LittleEndian m (off + 2 * Z.of_nat i)
                    - number 2 LittleEndian m (off + 2 * (Z.of_nat i + 1))) / 2).
Proof.
  revert b. induction k as [|k IH]; intros b Hk Hi; [lia|].
  simpl. destruct (decide (i = k)) as [->|Hne].
  - destruct (lookup_lt_is_Some_2 b (S k) Hk) as [nx Hnx].
    exists nx. rewrite !base_halve_ge by lia.
    rewrite list_lookup_insert_ne by lia.
    rewrite list_lookup_insert_eq by lia.
    by rewrite Hnx.
  - apply IH; [rewrite length_insert|]; lia.
Qed.

Lemma base_shift_lookup minlen b (i : nat) :
  base_shift minlen b !! i = (fun x => shl64 x (64 - minlen - Z.of_nat i)) <$> b !! i.
Proof. unfold base_shift. apply list_lookup_imap. Qed.

Lemma u64_range x : 0 <= u64 x < 2 ^ 64.
Proof. unfold u64. apply Z.mod_pos_bound. lia. Qed.

Lemma shl64_mod x k :
  0 <= k <= 64 -> shl64 x k = (x mod 2 ^ (64 - k)) * 2 ^ k.
Proof.
  intros Hk. unfold shl64, u64. rewrite Z.shiftl_mul_pow2 by lia.
  replace (2 ^ 64) with (2 ^ (64 - k) * 2 ^ k)
    by (rewrite <- Z.pow_add_r by lia; f_equal; lia).
  apply Z.mul_mod_distr_r; apply Z.pow_nonzero || idtac; lia.
Qed.

Lemma shr64_shl64 x k :
  0 <= k <= 64 -> shr64 (shl64 x k) k = x mod 2 ^ (64 - k).
Proof.
  intros Hk. rewrite shl64_mod by done. unfold shr64.
  rewrite Z.shiftr_div_pow2 by lia. apply Z.div_mul. lia.
Qed.

Lemma half_mod x k : 0 <= k -> (x / 2) mod 2 ^ k = (x mod 2 ^ (k + 1)) / 2.
Proof.
  intros Hk. rewrite Z.pow_add_r, Z.pow_1_r by lia.
  rewrite Z.mul_comm. rewrite Z.rem_mul_r by lia.
  rewrite Z.mul_comm, Z.div_add by lia.
  rewrite (Z.div_small (x mod 2) 2) by (apply Z.mod_pos_bound; lia).
  lia.
Qed.

Lemma u64_mod_small x k : 0 <= k <= 64 -> u64 x mod 2 ^ k = x mod 2 ^ k.
Proof.
  intros Hk. unfold u64. apply Z.mod_mod_divide.
  exists (2 ^ (64 - k)). rewrite <- Z.pow_add_r by lia. f_equal. lia.
Qed.

(** One step of the recurrence may start from the stored (shifted) entry:
    the bits lost by the left shift of [base[i+1]] are exactly those that
    do not reach [base[i]]. *)
Lemma base_step_shifted u a b s :
  0 <= s < 63 ->
  shl64 (u64 (shr64 (shl64 u (s - 0)) s + a - b) / 2) (s + 1)
  = shl64 (u64 (u + a - b) / 2) (s + 1).
Proof.
  intros Hs. rewrite Z.sub_0_r, shr64_shl64 by lia.
  rewrite !(shl64_mod _ (s + 1)) by lia. f_equal.
  replace (64 - (s + 1)) with (64 - s - 1) by lia.
  rewrite !half_mod by lia. f_equal.
  replace (64 - s - 1 + 1) with (64 - s) by lia.
  rewrite !u64_mod_small by lia.
  rewrite <- Z.add_sub_assoc, Zplus_mod_idemp_l. f_equal. lia.
Qed.

Lemma vec_set_Some (v : list Z) (i x : Z) (v' : list Z) :
  vec_set v i x = Some v' ->
  0 <= i < Z.of_nat (length v) /\ v' = <[Z.to_nat i := x]> v.
Proof.
  unfold vec_set. destruct (Z.leb_spec 0 i), (Z.ltb_spec i (Z.of_nat (length v)));
    simpl; intros [= <-]; auto.
Qed.

Lemma vec_get_set (v : list Z) (i x : Z) (v' : list Z) (j : Z) :
  vec_set v i x = Some v' ->
  vec_get v' j = if decide (j = i) then Some x else vec_get v j.
Proof.
  intros [Hi ->]%vec_set_Some. unfold vec_get.
  destruct (Z.ltb_spec j 0); [by case_decide; [lia|]|].
  case_decide as Hji.
  - subst j. apply list_lookup_insert_eq. lia.
  - apply list_lookup_insert_ne. lia.
Qed.

Lemma vec_set_length (v : list Z) (i x : Z) (v' : list Z) :
  vec_set v i x = Some v' -> length v' = length v.
Proof. intros [_ ->]%vec_set_Some. apply length_insert. Qed.

Lemma vec_set_same (v : list Z) (i x : Z) (v' : list Z) :
  vec_set v i x = Some v' -> vec_get v i = Some x -> v' = v.
Proof.
  intros [_ ->]%vec_set_Some [_ H]%vec_get_Some. by apply list_insert_id.
Qed.

(** ** The symbol lengths: claim C9 *)

Lemma sym_done_dec (tmp : list Z) (s : Z) : sym_done tmp s \/ ~ sym_done tmp s.
Proof.
  unfold sym_done. destruct (vec_get tmp s) as [t|] eqn:E.
  - destruct (decide (t = 0)) as [->|Hne].
    + right. intros (t & [= <-] & Ht). done.
    + left. eauto.
  - right. intros (t & [=] & _).
Qed.

(** The two writes that end [calc_symlen]: [symlen[s] = v; tmp[s] = 1],
    where [v] is the value the invariant prescribes for [s]. *)
Lemma symlen_write_step m sp sl tmp s v sl' tmp' :
  symlen_inv m sp sl tmp ->
  vec_set sl s v = Some sl' ->
  vec_set tmp s 1 = Some tmp' ->
  (sympat_s2 m sp s = 4095 -> v = 0) ->
  (sympat_s2 m sp s <> 4095 ->
   sym_done tmp (sympat_s1 m sp s) /\ sym_done tmp (sympat_s2 m sp s) /\
   exists l1 l2, vec_get sl (sympat_s1 m sp s) = Some l1 /\
                 vec_get sl (sympat_s2 m sp s) = Some l2 /\
                 v = u8 (l1 + l2 + 1)) ->
  symlen_inv m sp sl' tmp' /\ sym_done tmp' s /\
  (forall t, sym_done tmp t -> sym_done tmp' t).
Proof.
  intros [Hlen Hinv] Hsl Htmp Hleaf Hpair.
  assert (Hmono : forall t, sym_done tmp t -> sym_done tmp' t).
  { intros t (x & Hx & Hx0). unfold sym_done.
    rewrite (vec_get_set _ _ _ _ _ Htmp). case_decide; eauto. }
  assert (Hs : sym_done tmp' s).
  { exists 1. rewrite (vec_get_set _ _ _ _ _ Htmp). by rewrite decide_True. }
  split; [|done].
  split; [by rewrite (vec_set_length _ _ _ _ Htmp), (vec_set_length _ _ _ _ Hsl)|].
  destruct (sym_done_dec tmp s) as [Hdone|Hnot].
  - (* [s] was already marked: the write stores the value it already had *)
    destruct (Hinv s Hdone) as [[Hok1 Hok2] Hch].
    assert (vec_get sl s = Some v) as Hv.
    { destruct (decide (sympat_s2 m sp s = 4095)) as [E|E].
      - rewrite (Hleaf E). auto.
      - destruct (Hpair E) as (_ & _ & l1 & l2 & H1 & H2 & ->).
        destruct (Hok2 E) as (l1' & l2' & H1' & H2' & ->). congruence. }
    rewrite (vec_set_same _ _ _ _ Hsl Hv).
    intros t (x & Hx & Hx0). rewrite (vec_get_set _ _ _ _ _ Htmp) in Hx.
    case_decide as Hts.
    + subst t. destruct (Hinv s Hdone) as [? Hc]. split; [done|].
      intros E. destruct (Hc E). auto.
    + destruct (Hinv t) as [? Hc]; [by exists x|]. split; [done|].
      intros E. destruct (Hc E). auto.
  - (* [s] was not marked: no marked symbol reads [symlen[s]] *)
    assert (Hkeep : forall t, sym_done tmp t -> vec_get sl' t = vec_get sl t).
    { intros t Ht. rewrite (vec_get_set _ _ _ _ _ Hsl).
      case_decide; [by subst|done]. }
    intros t (x & Hx & Hx0). rewrite (vec_get_set _ _ _ _ _ Htmp) in Hx.
    case_decide as Hts.
    + subst t. split.
      * split.
        -- intros E. rewrite (vec_get_set _ _ _ _ _ Hsl), decide_True by done.
           by rewrite (Hleaf E).
        -- intros E. destruct (Hpair E) as (D1 & D2 & l1 & l2 & H1 & H2 & ->).
           exists l1, l2. rewrite !Hkeep by done.
           rewrite (vec_get_set _ _ _ _ s Hsl), decide_True by done. auto.
      * intros E. destruct (Hpair E) as (D1 & D2 & _). auto.
    + assert (Ht : sym_done tmp t) by (by exists x).
      destruct (Hinv t Ht) as [[Hok1 Hok2] Hc]. split.
      * split.
        -- intros E. rewrite Hkeep by done. auto.
        -- intros E. destruct (Hc E) as [D1 D2].
           destruct (Hok2 E) as (l1 & l2 & H1 & H2 & H3).
           exists l1, l2. rewrite !Hkeep by done. auto.
      * intros E. destruct (Hc E). auto.
Qed.

Lemma with_symlen_twice d v w : with_symlen (with_symlen d v) w = with_symlen d w.
Proof. done. Qed.

Lemma with_symlen_self d : with_symlen d (symlen d) = d.
Proof. by destruct d. Qed.

Lemma calc_symlen_inv fuel : forall m d s tmp d' tmp',
  calc_symlen fuel m d s tmp = Some (d', tmp') ->
  symlen_inv m (sympat d) (symlen d) tmp ->
  d' = with_symlen d (symlen d') /\
  symlen_inv m (sympat d) (symlen d') tmp' /\
  sym_done tmp' s /\
  (forall t, sym_done tmp t -> sym_done tmp' t) /\
  length tmp' = length tmp.
Proof.
  induction fuel as [|f IH]; intros m d s tmp d' tmp' Hrun Hinv; [done|].
  (* a child is computed unless it is already marked *)
  assert (Hchild : forall d0 tmp0 c t d1 tmp1,
    vec_get tmp0 c = Some t ->
    (if t =? 0 then calc_symlen f m d0 c tmp0 else Some (d0, tmp0)) = Some (d1, tmp1) ->
    symlen_inv m (sympat d0) (symlen d0) tmp0 ->
    d1 = with_symlen d0 (symlen d1) /\
    symlen_inv m (sympat d0) (symlen d1) tmp1 /\
    sym_done tmp1 c /\
    (forall t, sym_done tmp0 t -> sym_done tmp1 t) /\
    length tmp1 = length tmp0).
  { intros d0 tmp0 c t d1 tmp1 Ht Hc Hi.
    destruct (Z.eqb_spec t 0) as [->|Hne]; [by eapply IH|].
    injection Hc as <- <-. rewrite with_symlen_self.
    split; [done|]. split; [done|]. split; [by exists t|done]. }
  pose proof vec_set_length as Hlen.
  simpl in Hrun.
  apply bind_Some in Hrun as ([d1 tmp1] & Hbody & Hrun).
  apply bind_Some in Hrun as (tmp2 & Htmp & [= <- <-]).
  destruct (Z.eqb_spec (sympat_s2 m (sympat d) s) 4095) as [Eleaf|Epair].
  - apply bind_Some in Hbody as (v & Hv & [= <- <-]).
    destruct (symlen_write_step m (sympat d) (symlen d) tmp s 0 v tmp2)
      as (Hi & Hs & Hmono); try done.
    simpl. eauto 10.
  - apply bind_Some in Hbody as (t1 & Ht1 & Hbody).
    apply bind_Some in Hbody as ([da tmpa] & Hca & Hbody).
    apply bind_Some in Hbody as (t2 & Ht2 & Hbody).
    apply bind_Some in Hbody as ([db tmpb] & Hcb & Hbody).
    apply bind_Some in Hbody as (l1 & Hl1 & Hbody).
    apply bind_Some in Hbody as (l2 & Hl2 & Hbody).
    apply bind_Some in Hbody as (v & Hv & [= <- <-]).
    destruct (Hchild _ _ _ _ _ _ Ht1 Hca Hinv) as (Ea & Hia & Hda & Hma & Hla).
    assert (sympat da = sympat d) as Espa by (by rewrite Ea).
    rewrite <- Espa in Hia.
    destruct (Hchild _ _ _ _ _ _ Ht2 Hcb Hia) as (Eb & Hib & Hdb & Hmb & Hlb).
    assert (sympat db = sympat d) as Espb by (by rewrite Eb, <- Espa).
    rewrite Espa in Hib.
    destruct (symlen_write_step m (sympat d) (symlen db) tmpb s
                (u8 (l1 + l2 + 1)) v tmp2) as (Hi & Hs & Hmono); try done.
    + intros _. eauto 10.
    + simpl. split; [by rewrite Eb, Ea|]. split; [done|]. split; [done|].
      split; [auto|]. rewrite (Hlen _ _ _ _ Htmp). congruence.
Qed.

Lemma symlen_loop_inv fuel m : forall count i d tmp d' tmp',
  symlen_loop fuel m count i d tmp = Some (d', tmp') ->
  symlen_inv m (sympat d) (symlen d) tmp ->
  (forall j, 0 <= j < i -> sym_done tmp j) ->
  d' = with_symlen d (symlen d') /\
  symlen_inv m (sympat d) (symlen d') tmp' /\
  (forall j, 0 <= j < i + Z.of_nat count -> sym_done tmp' j) /\
  length tmp' = length tmp.
Proof.
  induction count as [|c IH]; intros i d tmp d' tmp' Hrun Hinv Hpre.
  - injection Hrun as <- <-. rewrite with_symlen_self.
    split; [done|]. split; [done|]. split; [|done].
    intros j Hj. apply Hpre. lia.
  - simpl in Hrun.
    apply bind_Some in Hrun as (t & Ht & Hrun).
    apply bind_Some in Hrun as ([d1 tmp1] & Hstep & Hrun).
    assert (d1 = with_symlen d (symlen d1) /\
            symlen_inv m (sympat d) (symlen d1) tmp1 /\
            sym_done tmp1 i /\
            (forall t, sym_done tmp t -> sym_done tmp1 t) /\
            length tmp1 = length tmp) as (E1 & Hi1 & Hd1 & Hm1 & Hl1).
    { destruct (Z.eqb_spec t 0) as [->|Hne]; [by eapply calc_symlen_inv|].
      injection Hstep as <- <-. rewrite with_symlen_self.
      split; [done|]. split; [done|]. split; [by exists t|done]. }
    assert (sympat d1 = sympat d) as Esp by (by rewrite E1).
    rewrite <- Esp in Hi1.
    destruct (IH _ _ _ _ _ Hrun Hi1) as (E2 & Hi2 & Hd2 & Hl2).
    { intros j Hj. destruct (decide (j = i)) as [->|]; [done|].
      apply Hm1, Hpre. lia. }
    rewrite Esp in Hi2.
    split; [by rewrite E2, E1|]. split; [done|].
    split; [|congruence].
    intros j Hj. apply Hd2. lia.
Qed.

(** What a successful [set_sizes] leaves behind for a header whose first
    byte has bit 0x80 clear. *)
Lemma set_sizes_parsed fuel m d data0 tb_size d' data' :
  Z.land (load8 m data0) 128 = 0 ->
  set_sizes fuel m d data0 tb_size = Some (d', data') ->
  let minl := load8 m (data0 + 9) in
  let maxl := load8 m (data0 + 8) in
  let n := Z.to_nat (maxl - minl + 1) in
  0 <= maxl - minl + 1 /\
  min_len d' = minl /\ max_len d' = maxl /\
  base d' = base_shift minl (base_halve m (data0 + 10) (n - 1) (vec_resize n (base d))) /\
  (forall s, 0 <= s < Z.of_nat (length (symlen d')) ->
             sym_ok m (sympat d') (symlen d') s).
Proof.
  intros Hflag Hrun minl maxl n. unfold set_sizes in Hrun.
  rewrite Hflag, Z.eqb_refl in Hrun. cbv beta zeta iota delta [negb] in Hrun.
  fold minl maxl in Hrun.
  destruct (Z.ltb_spec (maxl - minl + 1) 0) as [|Hsize]; [done|].
  fold n in Hrun.
  apply bind_Some in Hrun as ([d2 tmp2] & Hloop & [= <- <-]).
  match type of Hloop with
  | symlen_loop _ _ _ _ ?x _ = _ => set (d1 := x) in *
  end.
  eapply symlen_loop_inv in Hloop as (E & [Hlen Hinv] & Hdone & Hl).
  - split; [done|]. split; [by rewrite E|]. split; [by rewrite E|].
    split; [by rewrite E|]. intros s Hs.
    replace (sympat d2) with (sympat d1) by (by rewrite E).
    apply Hinv. apply Hdone.
    rewrite Hlen, length_replicate in Hl. lia.
  - split; [by rewrite length_replicate|].
    intros s (t & Ht & Ht0). apply vec_get_Some in Ht as [_ Ht].
    apply lookup_replicate in Ht as [-> _]. done.
  - intros j Hj. lia.
Qed.

(** C8: after [set_sizes] has parsed a header (bit 0x80 of its first byte
    clear, [1 <= min_len <= max_len <= 64], the base vector empty on entry
    as [new PairsData()] leaves it), the last entry of [base] is 0 and every
    entry [i] below it is
    [((base[i+1] >> (64 - min_len - (i+1))) + offset[i] - offset[i+1]) / 2
     << (64 - min_len - i)]
    in 64-bit unsigned arithmetic, where [offset[i]] is the little-endian
    16-bit value at byte [10 + 2 * i] of the header. *)
Theorem set_sizes_base_recurrence fuel m d data0 tb_size d' data' :
  Z.land (load8 m data0) 128 = 0 ->
  base d = [] ->
  set_sizes fuel m d data0 tb_size = Some (d', data') ->
  1 <= min_len d' -> min_len d' <= max_len d' -> max_len d' <= 64 ->
  let n := max_len d' - min_len d' in
  let off i := number 2 LittleEndian m (data0 + 10 + 2 * i) in
  vec_get (base d') n = Some 0 /\
  forall i, 0 <= i < n ->
    exists next,
      vec_get (base d') (i + 1) = Some next /\
      vec_get (base d') i
      = Some (shl64 (u64 (shr64 next (64 - min_len d' - (i + 1)) + off i - off (i + 1)) / 2)
                    (64 - min_len d' - i)).
Proof.
  intros Hflag Hbase Hrun Hmin Hle Hmax n off.
  destruct (set_sizes_parsed _ _ _ _ _ _ _ Hflag Hrun) as (Hsize & Emin & Emax & Eb & _).
  rewrite <- Emin, <- Emax in Eb. fold n in Eb.
  rewrite Hbase, vec_resize_nil in Eb.
  set (k := Z.to_nat n) in *.
  replace (Z.to_nat (n + 1)) with (S k) in Eb by lia.
  replace (S k - 1)%nat with k in Eb by lia.
  set (U := base_halve m (data0 + 10) k (replicate (S k) 0)) in *.
  assert (HU : length U = S k) by (unfold U; by rewrite base_halve_length, length_replicate).
  assert (Hn : n = Z.of_nat k) by lia.
  split.
  - rewrite Hn, vec_get_nat, Eb, base_shift_lookup.
    unfold U. rewrite base_halve_ge by lia.
    rewrite lookup_replicate_2 by lia. simpl. f_equal.
    unfold shl64. by rewrite Z.shiftl_0_l.
  - intros i Hi.
    destruct (base_halve_lt m (data0 + 10) k (replicate (S k) 0) (Z.to_nat i))
      as (nx & H1 & H0); [rewrite length_replicate; lia|lia|].
    fold U in H1, H0.
    exists (shl64 nx (64 - min_len d' - (i + 1))). split.
    + replace (i + 1) with (Z.of_nat (S (Z.to_nat i))) at 1 by lia.
      rewrite vec_get_nat, Eb, base_shift_lookup, H1. simpl.
      do 2 f_equal. lia.
    + replace i with (Z.of_nat (Z.to_nat i)) at 1 by lia.
      rewrite vec_get_nat, Eb, base_shift_lookup, H0. simpl. f_equal.
      rewrite Z2Nat.id by lia.
      replace (data0 + 10 + 2 * i) with (data0 + 10 + 2 * i) by done.
      unfold off.
      replace (2 * (i + 1)) with (2 * (i + 1)) by done.
      set (a := number 2 LittleEndian m (data0 + 10 + 2 * i)).
      set (b := number 2 LittleEndian m (data0 + 10 + 2 * (i + 1))).
      set (s := 64 - min_len d' - (i + 1)).
      replace (64 - min_len d' - i) with (s + 1) by (unfold s; lia).
      symmetry.
      pose proof (base_step_shifted nx a b s) as Hstep.
      rewrite Z.sub_0_r in Hstep. apply Hstep. unfold s. lia.
Qed.

Example huff_pairs_base : base huff_pairs = [2 ^ 63; 2 ^ 62; 0].
Proof. reflexivity. Qed.

Example wrap_pairs_symlen : symlen wrap_pairs = [0; 1; 3; 7; 15; 31; 63; 127; 255; 0].
Proof. reflexivity. Qed.

Example single_pairs_fields : idxbits single_pairs = 0 /\ min_len single_pairs = 3.
Proof. split; reflexivity. Qed.

Lemma sym_ok_range m sp sl s x :
  sym_ok m sp sl s -> vec_get sl s = Some x -> 0 <= x < 256.
Proof.
  intros [Hleaf Hpair] Hx.
  destruct (decide (sympat_s2 m sp s = 4095)) as [E|E].
  - rewrite (Hleaf E) in Hx. injection Hx as <-. lia.
  - destruct (Hpair E) as (l1 & l2 & _ & _ & H). rewrite H in Hx.
    injection Hx as <-. unfold u8. apply Z.mod_pos_bound. lia.
Qed.

(** C9 (amended): after [set_sizes] has parsed a header, every symbol [s]
    whose second child field is 0xFFF has [symlen[s] = 0], and every other
    symbol has [symlen[s] = (symlen[s1] + symlen[s2] + 1) mod 256], the sum
    being stored in a [uint8_t]; as long as that sum stays below 256 it is
    stored exactly and is not 0. *)
Theorem set_sizes_symlen fuel m d data0 tb_size d' data' :
  Z.land (load8 m data0) 128 = 0 ->
  set_sizes fuel m d data0 tb_size = Some (d', data') ->
  forall s, 0 <= s < Z.of_nat (length (symlen d')) ->
    let s1 := sympat_s1 m (sympat d') s in
    let s2 := sympat_s2 m (sympat d') s in
    (s2 = 4095 -> vec_get (symlen d') s = Some 0) /\
    (s2 <> 4095 ->
     exists l1 l2,
       vec_get (symlen d') s1 = Some l1 /\ vec_get (symlen d') s2 = Some l2 /\
       0 <= l1 < 256 /\ 0 <= l2 < 256 /\
       vec_get (symlen d') s = Some ((l1 + l2 + 1) mod 256) /\
       (l1 + l2 + 1 < 256 ->
        vec_get (symlen d') s = Some (l1 + l2 + 1) /\
        vec_get (symlen d') s <> Some 0)).
Proof.
  intros Hflag Hrun s Hs s1 s2.
  destruct (set_sizes_parsed _ _ _ _ _ _ _ Hflag Hrun) as (_ & _ & _ & _ & Hok).
  destruct (Hok s Hs) as [Hleaf Hpair]. split; [done|].
  intros E. destruct (Hpair E) as (l1 & l2 & H1 & H2 & H3).
  fold s1 in H1. fold s2 in H2.
  assert (0 <= l1 < 256) as R1.
  { eapply sym_ok_range; [|exact H1]. apply Hok. by apply vec_get_Some in H1 as [? _]. }
  assert (0 <= l2 < 256) as R2.
  { eapply sym_ok_range; [|exact H2]. apply Hok. by apply vec_get_Some in H2 as [? _]. }
  exists l1, l2. do 4 (split; [done|]). split; [done|].
  intros Hsmall. rewrite H3. unfold u8. rewrite Z.mod_small by lia.
  split; [done|]. intros [=]. lia.
Qed.

Lemma set_sizes_symlen_witness :
  parse_header wrap_header = Some (wrap_pairs, 44) /\
  (sympat_s2 (mem_of_bytes wrap_header) (sympat wrap_pairs) 9 <> 4095 ->
   exists l1 l2,
     vec_get (symlen wrap_pairs) (sympat_s1 (mem_of_bytes wrap_header) (sympat wrap_pairs) 9) = Some l1 /\
     vec_get (symlen wrap_pairs) (sympat_s2 (mem_of_bytes wrap_header) (sympat wrap_pairs) 9) = Some l2 /\
     0 <= l1 < 256 /\ 0 <= l2 < 256 /\
     vec_get (symlen wrap_pairs) 9 = Some ((l1 + l2 + 1) mod 256) /\
     (l1 + l2 + 1 < 256 ->
      vec_get (symlen wrap_pairs) 9 = Some (l1 + l2 + 1) /\
      vec_get (symlen wrap_pairs) 9 <> Some 0)).
Proof.
  split; [reflexivity|].
  apply (set_sizes_symlen 16 (mem_of_bytes wrap_header) PairsData_new 0 1000
           wrap_pairs 44); [reflexivity|reflexivity|simpl; lia].
Defined.

(** C9 (counterexample): in the dictionary of [wrap_header] symbol 9 is the
    pair (8, 0) with [symlen[8] = 255]; its length 256 is stored as 0, so
    [symlen[9] = 0] although its second child is not 0xFFF. *)
Lemma set_sizes_symlen_wraps :
  parse_header wrap_header = Some (wrap_pairs, 44) /\
  vec_get (symlen wrap_pairs) 9 = Some 0 /\
  sympat_s1 (mem_of_bytes wrap_header) (sympat wrap_pairs) 9 = 8 /\
  sympat_s2 (mem_of_bytes wrap_header) (sympat wrap_pairs) 9 = 0 /\
  vec_get (symlen wrap_pairs) 8 = Some 255 /\
  vec_get (symlen wrap_pairs) 0 = Some 0 /\
  ~ symlen_claim_as_stated (mem_of_bytes wrap_header) wrap_pairs.
Proof.
  do 6 (split; [reflexivity|]).
  intros H. destruct (H 9) as [[H1 _] _]; [simpl; lia|].
  specialize (H1 eq_refl). vm_compute in H1. discriminate.
Qed.

Lemma set_sizes_base_recurrence_witness :
  parse_header huff_header = Some (huff_pairs, 30) /\
  vec_get (base huff_pairs) (max_len huff_pairs - min_len huff_pairs) = Some 0 /\
  forall i, 0 <= i < max_len huff_pairs - min_len huff_pairs ->
    exists next,
      vec_get (base huff_pairs) (i + 1) = Some next /\
      vec_get (base huff_pairs) i
      = Some (shl64 (u64 (shr64 next (64 - min_len huff_pairs - (i + 1))
                          + number 2 LittleEndian (mem_of_bytes huff_header) (0 + 10 + 2 * i)
                          - number 2 LittleEndian (mem_of_bytes huff_header) (0 + 10 + 2 * (i + 1))) / 2)
                    (64 - min_len huff_pairs - i)).
Proof.
  split; [reflexivity|].
  apply (set_sizes_base_recurrence 16 (mem_of_bytes huff_header) PairsData_new 0 1000
           huff_pairs 30); [reflexivity|reflexivity|reflexivity|simpl; lia..].
Defined.

Lemma decompress_pairs_single_value_witness :
  idxbits single_pairs = 0 /\
  decompress_pairs 0 (mem_of_bytes single_header) single_pairs 123456
  = Some (min_len single_pairs).
Proof.
  split; [reflexivity|].
  apply (decompress_pairs_single_value 0 (mem_of_bytes single_header) single_pairs 123456).
  reflexivity.
Defined.

(** ** The DTZ value remap: claim C2 *)

Lemma s32_small x : - 2 ^ 31 <= x < 2 ^ 31 -> s32 x = x.
Proof. intros H. unfold s32. rewrite Z.mod_small; lia. Qed.

Lemma load8_range m a : 0 <= load8 m a < 256.
Proof. unfold load8, u8. apply Z.mod_pos_bound. lia. Qed.

(** C2: for a DTZ bucket with [flags], [map] and [map_idx], a raw byte
    [raw] and a WDL score in [-2 .. 2]: with the [Mapped] bit set the value
    is [map[map_idx[WDLMap[wdl + 2]] + raw]] with
    [WDLMap = [1; 3; 0; 2; 0]], otherwise [raw]; and [map_score] returns
    twice that value exactly when ([wdl] is a win and [WinPlies] is clear)
    or ([wdl] is a loss and [LossPlies] is clear) or [wdl] is a cursed win
    or a cursed loss, and the value itself otherwise. *)
Theorem map_score_DTZ_spec (m : Mem) (entry : DTZEntry) (f raw wdl : Z) (w i : Z) :
  -2 <= wdl <= 2 -> 0 <= raw < 256 ->
  let flags := dtz_flags entry f in
  let map := if dtz_hasPawns entry then dtz_pawn_map entry
             else dtz_piece_map (dtz_piece entry) in
  let map_idx := if dtz_hasPawns entry then dtz_file_map_idx (dtz_file_at entry f)
                 else dtz_piece_map_idx (dtz_piece entry) in
  nth_error [1; 3; 0; 2; 0] (Z.to_nat (wdl + 2)) = Some w ->
  vec_get map_idx w = Some i ->
  let value := if Z.land flags Flag_Mapped =? 0 then raw else load8 m (map + (i + raw)) in
  let doubled :=
    (wdl = WDLWin /\ Z.land flags Flag_WinPlies = 0) \/
    (wdl = WDLLoss /\ Z.land flags Flag_LossPlies = 0) \/
    wdl = WDLCursedWin \/ wdl = WDLCursedLoss in
  (doubled -> map_score_DTZ m entry f raw wdl = Some (2 * value)) /\
  (~ doubled -> map_score_DTZ m entry f raw wdl = Some value).
Proof.
  intros Hwdl Hraw flags map map_idx Hw Hi value doubled.
  assert (Hmap : vec_get WDLMap (wdl + 2) = Some w).
  { assert (wdl = -2 \/ wdl = -1 \/ wdl = 0 \/ wdl = 1 \/ wdl = 2) as Hcases by lia.
    destruct Hcases as [->|[->|[->|[->| ->]]]]; injection Hw as <-; reflexivity. }
  assert (Hrun : map_score_DTZ m entry f raw wdl
                 = if ((wdl =? WDLWin) && (Z.land flags Flag_WinPlies =? 0))
                      || ((wdl =? WDLLoss) && (Z.land flags Flag_LossPlies =? 0))
                      || (wdl =? WDLCursedWin) || (wdl =? WDLCursedLoss)
                   then Some (2 * value) else Some value).
  { unfold map_score_DTZ. fold flags map map_idx. subst value.
    pose proof (load8_range m (map + (i + raw))) as Hbyte.
    destruct (Z.land flags Flag_Mapped =? 0); simpl.
    - destruct (_ || _); [|done]. f_equal. rewrite s32_small; lia.
    - rewrite Hmap. simpl. rewrite Hi. simpl.
      destruct (_ || _); [|done]. f_equal. rewrite s32_small; lia. }
  rewrite Hrun. unfold doubled, WDLWin, WDLLoss, WDLCursedWin, WDLCursedLoss.
  split.
  - intros Hd.
    destruct (Z.eqb_spec wdl 2), (Z.eqb_spec wdl (-2)), (Z.eqb_spec wdl 1),
      (Z.eqb_spec wdl (-1)), (Z.eqb_spec (Z.land flags Flag_WinPlies) 0),
      (Z.eqb_spec (Z.land flags Flag_LossPlies) 0); simpl; try done; lia.
  - intros Hd.
    destruct (Z.eqb_spec wdl 2), (Z.eqb_spec wdl (-2)), (Z.eqb_spec wdl 1),
      (Z.eqb_spec wdl (-1)), (Z.eqb_spec (Z.land flags Flag_WinPlies) 0),
      (Z.eqb_spec (Z.land flags Flag_LossPlies) 0); simpl; try done;
      exfalso; apply Hd; auto.
Qed.

Lemma map_score_DTZ_spec_witness :
  map_score_DTZ map_bytes (dtz_mapped 2) 0 1 2 = Some (2 * 22) /\
  map_score_DTZ map_bytes (dtz_mapped 6) 0 1 2 = Some 22.
Proof.
  split.
  - apply (map_score_DTZ_spec map_bytes (dtz_mapped 2) 0 1 2 0 1);
      [lia|lia|reflexivity|reflexivity|]. left. split; reflexivity.
  - apply (map_score_DTZ_spec map_bytes (dtz_mapped 6) 0 1 2 0 1);
      [lia|lia|reflexivity|reflexivity|].
    intros [[_ H]|[[H _]|[H|H]]]; discriminate H.
Defined.

(** ** The DTZ side check: claim C6 *)

(** C6: a DTZ probe of a loaded bucket compares the [STM] bit of the
    bucket's flags with the canonical side to move [stm]; if they differ
    and the entry is not both symmetric and pawnless, [probe_table] sets
    [*success] to -1 and returns 0, whatever the memory holds or the fuel
    is (nothing is decoded); otherwise it goes on to index the position,
    decode the value and remap it, and leaves [*success] alone. *)
Theorem probe_table_dtz_side (fuel : nat) (m : Mem) (pos : Position)
    (entry : DTZEntry) (wdl success : Z) (lead : list Z) (precomp : PairsData) :
  probe_leadPawns pos entry = Some lead ->
  let stm := probe_stm pos entry in
  let squares := probe_lead_squares pos entry lead in
  let tbFile := probe_tbFile entry squares in
  probe_precomp entry stm tbFile = Some precomp ->
  let wrong_side :=
    negb (Z.land (dtz_flags entry tbFile) Flag_STM =? stm)
    && negb (dtz_symmetric entry && negb (dtz_hasPawns entry)) in
  probe_table fuel m pos entry wdl success
  = if wrong_side then Some (0, -1)
    else
      idx ← probe_index fuel pos entry stm precomp lead squares;
      value ← decompress_pairs fuel m precomp idx;
      score ← map_score_DTZ m entry tbFile value wdl;
      Some (u64 score, success).
Proof.
  intros Hlead stm squares tbFile Hprecomp wrong_side.
  unfold probe_table. rewrite Hlead. simpl.
  fold stm squares tbFile. rewrite Hprecomp.
  unfold check_dtz_stm_DTZ. subst wrong_side.
  rewrite negb_orb. by destruct (_ && _).
Qed.

Lemma probe_table_dtz_side_witness :
  probe_table 0 map_bytes pos_KQvK (dtz_KQvK 1) WDLWin 1 = Some (0, -1) /\
  probe_table 8 map_bytes pos_KQvK (dtz_KQvK 0) WDLWin 1 = Some (10, 1).
Proof.
  split.
  - apply (probe_table_dtz_side 0 map_bytes pos_KQvK (dtz_KQvK 1) WDLWin 1 []
             (const_pairs 5)); reflexivity.
  - apply (probe_table_dtz_side 8 map_bytes pos_KQvK (dtz_KQvK 0) WDLWin 1 []
             (const_pairs 5)); reflexivity.
Defined.

(** ** The capture search [probe_ab]: claim C3 *)

Section ProbeAB.
Context `{Host}.

Lemma ab_skip_candidate pos move :
  negb (capture pos move) || MoveType_eqb (type_of_move move) ENPASSANT
  || negb (legal pos move) = negb (ab_candidate pos move).
Proof.
  unfold ab_candidate.
  by destruct (capture pos move), (MoveType_eqb _ _), (legal pos move).
Qed.

Lemma ab_loop_skip rec pos move rest alpha beta st :
  ab_candidate pos move = false ->
  ab_loop rec pos (move :: rest) alpha beta st = ab_loop rec pos rest alpha beta st.
Proof. intros Hc. simpl. by rewrite ab_skip_candidate, Hc. Qed.

Lemma ab_loop_step rec pos move rest alpha beta st :
  ab_candidate pos move = true ->
  ab_loop rec pos (move :: rest) alpha beta st
  = '(v, st) ← rec (do_move pos move) (- beta) (- alpha) st;
    if success st =? 0 then Some (Return WDLDraw st)
    else if - v >? alpha then
      if - v >=? beta then Some (Return (- v) (set_success 2 st))
      else ab_loop rec pos rest (- v) beta st
    else ab_loop rec pos rest alpha beta st.
Proof. intros Hc. simpl. by rewrite ab_skip_candidate, Hc. Qed.

(** The loop only looks at the candidates. *)
Lemma ab_loop_filter rec pos moves alpha beta st :
  ab_loop rec pos moves alpha beta st
  = ab_loop rec pos (filter (fun move => ab_candidate pos move = true) moves) alpha beta st.
Proof.
  revert alpha st. induction moves as [|move rest IH]; intros alpha st; [done|].
  destruct (ab_candidate pos move) eqn:Hc.
  - rewrite filter_cons_True by done. rewrite !ab_loop_step by done.
    destruct (rec _ _ _ _) as [[v st1]|]; [simpl|done].
    by repeat case_match.
  - rewrite filter_cons_False by (by rewrite Hc). by rewrite ab_loop_skip.
Qed.

(** A scan without cut-off is a run of the loop through a prefix. *)
Lemma ab_loop_scan rec pos beta pre : forall alpha st a st1 rest,
  alpha < beta ->
  Forall (fun move => ab_candidate pos move = true) pre ->
  ab_scan (fun s => success s <> 0) rec pos beta pre alpha st a st1 ->
  a < beta /\
  ab_loop rec pos (pre ++ rest) alpha beta st = ab_loop rec pos rest a beta st1.
Proof.
  induction pre as [|move pre IH]; intros alpha st a st1 rest Hab Hcand Hscan.
  - inversion Hscan; subst. done.
  - inversion Hscan as [|? ? ? ? v st' ? ? Hrec Hok Hlt Hrest]; subst.
    apply Forall_cons in Hcand as [Hc Hcand].
    destruct (IH (Z.max alpha (- v)) st' a st1 rest) as [Ha Hloop]; [lia|done|done|].
    split; [done|].
    rewrite <- app_comm_cons, ab_loop_step by done. rewrite Hrec. simpl.
    destruct (Z.eqb_spec (success st') 0); [done|].
    destruct (Z.gtb_spec (- v) alpha).
    + destruct (Z.geb_spec (- v) beta); [lia|].
      rewrite <- Hloop. f_equal. lia.
    + rewrite <- Hloop. f_equal. lia.
Qed.

Lemma ab_captures_candidates pos :
  Forall (fun move => ab_candidate pos move = true) (ab_captures pos).
Proof. apply Forall_forall. intros move Hin. by apply list_elem_of_filter in Hin as [? _]. Qed.

(** C3 (amended): for bounds [alpha < beta], as long as no child probe and
    no table probe leaves [*success] at 0, [probe_ab] searches the legal
    non-en-passant captures in turn with the bounds negated; when one of
    them yields a value [>= beta], that value is returned at once with
    [*success = 2]; when none does, the result is the maximum of the raised
    [alpha] and the table's WDL value, with [*success = 2] if the raised
    [alpha] is at least the table value and positive, and 1 otherwise. *)
Theorem probe_ab_spec (fuel tfuel : nat) (pos : Position) (alpha beta : Z) (st : TB) :
  alpha < beta ->
  let rec := probe_ab fuel tfuel in
  let ok := fun s => success s <> 0 in
  (forall pre move post a st1 v st2,
     ab_captures pos = pre ++ move :: post ->
     ab_scan ok rec pos beta pre alpha (tick st) a st1 ->
     rec (do_move pos move) (- beta) (- a) st1 = Some (v, st2) ->
     ok st2 ->
     beta <= - v ->
     probe_ab (S fuel) tfuel pos alpha beta st = Some (- v, set_success 2 st2))
  /\
  (forall a st1 wdl st2,
     ab_scan ok rec pos beta (ab_captures pos) alpha (tick st) a st1 ->
     probe_wdl_table tfuel pos st1 = Some (wdl, st2) ->
     ok st2 ->
     probe_ab (S fuel) tfuel pos alpha beta st
     = Some (Z.max a wdl,
             set_success (if (a >=? wdl) && (a >? 0) then 2 else 1) st2)).
Proof.
  intros Hab rec ok.
  assert (Hrun : probe_ab (S fuel) tfuel pos alpha beta st
                 = flow ← ab_loop rec pos (ab_captures pos) alpha beta (tick st);
                   match flow with
                   | Return value st => Some (value, st)
                   | Continue alpha st => ab_table tfuel pos alpha st
                   end).
  { simpl. unfold probe_ab_with. fold rec. by rewrite ab_loop_filter. }
  pose proof (ab_captures_candidates pos) as Hcand.
  split.
  - intros pre move post a st1 v st2 Hsplit Hscan Hrec Hok Hcut.
    rewrite Hrun, Hsplit. rewrite Hsplit in Hcand.
    apply Forall_app in Hcand as [Hpre Hpost].
    apply Forall_cons in Hpost as [Hc _].
    destruct (ab_loop_scan rec pos beta pre alpha (tick st) a st1 (move :: post))
      as [Ha ->]; [done..|].
    rewrite ab_loop_step by done. rewrite Hrec. simpl.
    destruct (Z.eqb_spec (success st2) 0); [done|].
    destruct (Z.gtb_spec (- v) a); [|lia].
    destruct (Z.geb_spec (- v) beta); [done|lia].
  - intros a st1 wdl st2 Hscan Htable Hok.
    rewrite Hrun.
    destruct (ab_loop_scan rec pos beta (ab_captures pos) alpha (tick st) a st1 [])
      as [Ha Hloop]; [done..|].
    rewrite app_nil_r in Hloop. rewrite Hloop. simpl.
    unfold ab_table. rewrite Htable. simpl.
    destruct (Z.eqb_spec (success st2) 0); [done|].
    destruct (Z.geb_spec a wdl); simpl.
    + rewrite Z.max_l by lia. by destruct (a >? 0).
    + by rewrite Z.max_r by lia.
Qed.

End ProbeAB.

Lemma probe_ab_spec_witness :
  @probe_ab host_KQvK 2 8 pos_KQvKR (-2) 2 st_KQvK
  = Some (- -2, set_success 2 st_KQvK_loaded).
Proof.
  apply (proj1 (@probe_ab_spec host_KQvK 1 8 pos_KQvKR (-2) 2 st_KQvK ltac:(lia))
           [] Qd1xd8 [] (-2) (tick st_KQvK) (-2) st_KQvK_loaded).
  - reflexivity.
  - constructor.
  - vm_compute. reflexivity.
  - vm_compute. discriminate.
  - lia.
Defined.

(** C3 (counterexample): White Kc3, Rd1 against Ka8 with no KRvK table
    installed, searched with [alpha = 1], [beta = 2].  There is no
    capture, the table probe fails, and [probe_ab] returns [WDLDraw] with
    [*success = 0]: neither the maximum of [alpha] and the table value nor
    a [*success] of 1 or 2. *)
Lemma probe_ab_table_missing :
  (exists st', @probe_ab host_KQvK 1 8 pos_KRvK 1 2 st_KQvK = Some (WDLDraw, st')
               /\ success st' = 0) /\
  ~ @probe_ab_claim_as_stated host_KQvK 0 8 pos_KRvK 1 2 st_KQvK.
Proof.
  assert (Ecaps : @ab_captures host_KQvK pos_KRvK = []) by (vm_compute; reflexivity).
  split.
  - eexists. split; [vm_compute; reflexivity|reflexivity].
  - intros [(pre & move & post & a & st1 & v & st2 & Hsplit & _)
           |(a & st1 & wdl & st2 & Hscan & Htable & Hres)].
    + rewrite Ecaps in Hsplit. by destruct pre.
    + rewrite Ecaps in Hscan. inversion Hscan; subst.
      apply (f_equal (fmap fst)) in Htable, Hres.
      vm_compute in Htable. injection Htable as <-.
      vm_compute in Hres. discriminate Hres.
Qed.

(** ** A zeroing move is available: claim C4 *)

Section ProbeDTZ.
Context `{Host}.

Lemma ab_loop_success2 rec pos moves : forall alpha beta st v st',
  ab_loop rec pos moves alpha beta st = Some (Return v st') ->
  success st' = 2 -> beta <= v.
Proof.
  induction moves as [|move rest IH]; intros alpha beta st v st' Hrun Hs; [done|].
  destruct (ab_candidate pos move) eqn:Hc.
  - rewrite ab_loop_step in Hrun by done.
    apply bind_Some in Hrun as ([r st1] & _ & Hrun). simpl in Hrun.
    destruct (Z.eqb_spec (success st1) 0) as [E|_].
    { injection Hrun as <- <-. lia. }
    destruct (- r >? alpha); [|by eapply IH].
    destruct (Z.geb_spec (- r) beta); [|by eapply IH].
    injection Hrun as <- <-. done.
  - rewrite ab_loop_skip in Hrun by done. by eapply IH.
Qed.

(** [probe_ab] leaves [*success = 2] only with a value that reaches [beta]
    or is positive. *)
Lemma probe_ab_success2 fuel tfuel pos alpha beta st v st' :
  probe_ab fuel tfuel pos alpha beta st = Some (v, st') ->
  success st' = 2 -> beta <= v \/ 0 < v.
Proof.
  destruct fuel as [|f]; [done|]. simpl. unfold probe_ab_with.
  intros Hrun Hs. apply bind_Some in Hrun as (flow & Hloop & Hrun).
  destruct flow as [r s|a s].
  - injection Hrun as <- <-. left. by eapply ab_loop_success2.
  - unfold ab_table in Hrun.
    apply bind_Some in Hrun as ([w s'] & _ & Hrun). simpl in Hrun.
    destruct (Z.eqb_spec (success s') 0) as [E|_].
    + injection Hrun as <- <-. lia.
    + destruct (a >=? w).
      * injection Hrun as <- <-. simpl in Hs. right.
        destruct (Z.gtb_spec a 0); simpl in Hs; lia.
      * injection Hrun as <- <-. simpl in Hs. lia.
Qed.

(** C4: when the first [probe_ab] call of [probe_dtz_no_ep] leaves
    [*success = 2], [probe_dtz_no_ep] returns at once, with 1 for a win,
    101 for a cursed win, -1 for a loss and -101 for a cursed loss: the
    sign of the WDL score, and 1 or 101 as the score is true or cursed. *)
Theorem probe_dtz_no_ep_zeroing (fuel tfuel : nat) (pos : Position) (st : TB)
    (wdl : Z) (st1 : TB) :
  probe_ab fuel tfuel pos WDLLoss WDLWin (tick st) = Some (wdl, st1) ->
  success st1 = 2 ->
  exists dtz,
    probe_dtz_no_ep fuel tfuel pos st = Some (dtz, st1) /\
    (wdl = WDLWin -> dtz = 1) /\
    (wdl = WDLCursedWin -> dtz = 101) /\
    (wdl = WDLLoss -> dtz = -1) /\
    (wdl = WDLCursedLoss -> dtz = -101).
Proof.
  intros Hab Hs.
  assert (0 < wdl) as Hpos.
  { destruct (probe_ab_success2 _ _ _ _ _ _ _ _ Hab Hs); unfold WDLWin in *; lia. }
  exists (if wdl =? WDLWin then 1 else 101). split.
  - unfold probe_dtz_no_ep, probe_dtz_no_ep_with. rewrite Hab. simpl.
    rewrite Hs. simpl.
    destruct (Z.eqb_spec wdl WDLDraw); [unfold WDLDraw in *; lia|done].
  - unfold WDLWin, WDLCursedWin, WDLLoss, WDLCursedLoss.
    repeat split; intros ->; try done; lia.
Qed.

End ProbeDTZ.

Lemma probe_dtz_no_ep_zeroing_witness :
  success st_KQvKR_searched = 2 /\
  exists dtz,
    @probe_dtz_no_ep host_KQvK 2 8 pos_KQvKR st_KQvK
    = Some (dtz, st_KQvKR_searched) /\
    (2 = WDLWin -> dtz = 1) /\
    (2 = WDLCursedWin -> dtz = 101) /\
    (2 = WDLLoss -> dtz = -1) /\
    (2 = WDLCursedLoss -> dtz = -101).
Proof.
  split; [reflexivity|].
  apply (@probe_dtz_no_ep_zeroing host_KQvK 2 8 pos_KQvKR st_KQvK 2
           st_KQvKR_searched).
  - vm_compute. reflexivity.
  - reflexivity.
Defined.

(** ** Failure is passed up at once: claim C7 *)

Section ShortCircuit.
Context `{Host}.

(** Runs a loop through the prefix it is known to get through. *)
Ltac past_prefix := cbn [mbind option_bind after_prefix].

Lemma ab_loop_app rec pos beta pre rest : forall alpha st,
  ab_loop rec pos (pre ++ rest) alpha beta st
  = flow ← ab_loop rec pos pre alpha beta st;
    after_prefix (fun a s => ab_loop rec pos rest a beta s) flow.
Proof.
  induction pre as [|move pre IH]; intros alpha st; [done|].
  rewrite <- app_comm_cons. simpl.
  destruct (_ || _); [apply IH|].
  destruct (rec _ _ _ _) as [[v st1]|]; [simpl|done].
  repeat case_match; try done; apply IH.
Qed.

Lemma pawn_loop_app ab pos wdl pre rest : forall st,
  pawn_loop ab pos (pre ++ rest) wdl st
  = flow ← pawn_loop ab pos pre wdl st;
    after_prefix (fun _ s => pawn_loop ab pos rest wdl s) flow.
Proof.
  induction pre as [|move pre IH]; intros st; [done|].
  rewrite <- app_comm_cons. simpl.
  destruct (_ || _); [apply IH|].
  destruct (ab _ _ _ _) as [[v st1]|]; [simpl|done].
  repeat case_match; try done; apply IH.
Qed.

Lemma win_loop_app dtz pos pre rest : forall best st,
  win_loop dtz pos (pre ++ rest) best st
  = flow ← win_loop dtz pos pre best st;
    after_prefix (fun b s => win_loop dtz pos rest b s) flow.
Proof.
  induction pre as [|move pre IH]; intros best st; [done|].
  rewrite <- app_comm_cons. simpl.
  destruct (_ || _); [apply IH|].
  destruct (dtz _ _) as [[v st1]|]; [simpl|done].
  repeat case_match; try done; apply IH.
Qed.

Lemma loss_loop_app ab dtz pos wdl pre rest : forall best st,
  loss_loop ab dtz pos (pre ++ rest) wdl best st
  = flow ← loss_loop ab dtz pos pre wdl best st;
    after_prefix (fun b s => loss_loop ab dtz pos rest wdl b s) flow.
Proof.
  induction pre as [|move pre IH]; intros best st; [done|].
  rewrite <- app_comm_cons. simpl.
  destruct (negb _); [apply IH|].
  match goal with
  | |- context [mbind _ ?c] => destruct c as [[v st1]|]; [simpl|done]
  end.
  repeat case_match; try done; apply IH.
Qed.

Lemma ep_loop_app ab pos pre rest : forall v1 st,
  ep_loop ab pos (pre ++ rest) v1 st
  = flow ← ep_loop ab pos pre v1 st;
    after_prefix (fun v s => ep_loop ab pos rest v s) flow.
Proof.
  induction pre as [|move pre IH]; intros v1 st; [done|].
  rewrite <- app_comm_cons. simpl.
  destruct (_ || _); [apply IH|].
  destruct (ab _ _ _ _) as [[v st1]|]; [simpl|done].
  repeat case_match; try done; apply IH.
Qed.

Lemma pawn_loop_step ab pos move rest wdl st :
  pawn_candidate pos move = true ->
  pawn_loop ab pos (move :: rest) wdl st
  = '(r, st) ← ab (do_move pos move) WDLLoss (- wdl + WDLCursedWin) st;
    if success st =? 0 then Some (Return 0 st)
    else if - r =? wdl then Some (Return (if - r =? WDLWin then 1 else 101) st)
    else pawn_loop ab pos rest wdl st.
Proof.
  unfold pawn_candidate. intros Hc. simpl.
  destruct (_ =? PAWN), (capture pos move), (legal pos move); done.
Qed.

Lemma win_loop_step dtz pos move rest best st :
  win_candidate pos move = true ->
  win_loop dtz pos (move :: rest) best st
  = '(r, st) ← dtz (do_move pos move) st;
    if success st =? 0 then Some (Return 0 st)
    else if (- r >? 0) && (- r + 1 <? best) then win_loop dtz pos rest (- r + 1) st
    else win_loop dtz pos rest best st.
Proof.
  unfold win_candidate. intros Hc. simpl.
  destruct (capture pos move), (_ =? PAWN), (legal pos move); done.
Qed.

Lemma ep_loop_step ab pos move rest v1 st :
  ep_candidate pos move = true ->
  ep_loop ab pos (move :: rest) v1 st
  = '(r, st) ← ab (do_move pos move) WDLLoss WDLWin st;
    if success st =? 0 then Some (Return 0 st)
    else if - r >? v1 then ep_loop ab pos rest (- r) st
    else ep_loop ab pos rest v1 st.
Proof.
  unfold ep_candidate. intros Hc. simpl.
  destruct (MoveType_eqb _ _), (legal pos move); done.
Qed.

(** *** [probe_ab] *)

Lemma probe_ab_child_fails rec tfuel pos alpha beta st pre move post a st0 v st1 :
  ab_stack pos = pre ++ move :: post ->
  ab_loop rec pos pre alpha beta (tick st) = Some (Continue a st0) ->
  ab_candidate pos move = true ->
  rec (do_move pos move) (- beta) (- a) st0 = Some (v, st1) ->
  success st1 = 0 ->
  probe_ab_with rec tfuel pos alpha beta st = Some (WDLDraw, st1).
Proof.
  intros Hsplit Hpre Hc Hrec Hs. unfold probe_ab_with. fold (ab_stack pos).
  rewrite Hsplit, ab_loop_app, Hpre. past_prefix.
  rewrite ab_loop_step by done. rewrite Hrec. simpl. by rewrite Hs.
Qed.

Lemma probe_ab_table_fails rec tfuel pos alpha beta st a st0 v st1 :
  ab_loop rec pos (ab_stack pos) alpha beta (tick st) = Some (Continue a st0) ->
  probe_wdl_table tfuel pos st0 = Some (v, st1) ->
  success st1 = 0 ->
  probe_ab_with rec tfuel pos alpha beta st = Some (WDLDraw, st1).
Proof.
  intros Hloop Htable Hs. unfold probe_ab_with. fold (ab_stack pos).
  rewrite Hloop. simpl. unfold ab_table. rewrite Htable. simpl. by rewrite Hs.
Qed.

(** *** [probe_dtz_no_ep] *)

Lemma no_ep_first_probe_fails ab dtz tfuel pos st wdl st1 :
  ab pos WDLLoss WDLWin (tick st) = Some (wdl, st1) ->
  success st1 = 0 ->
  probe_dtz_no_ep_with ab dtz tfuel pos st = Some (0, st1).
Proof.
  intros Hab Hs. unfold probe_dtz_no_ep_with. rewrite Hab. simpl. by rewrite Hs.
Qed.

(** How [probe_dtz_no_ep] gets past its first lines with a win. *)
Lemma no_ep_win ab dtz tfuel pos st wdl st0 :
  ab pos WDLLoss WDLWin (tick st) = Some (wdl, st0) ->
  success st0 <> 0 -> success st0 <> 2 -> 0 < wdl ->
  probe_dtz_no_ep_with ab dtz tfuel pos st
  = flow ← pawn_loop ab pos (generate_all pos) wdl st0;
    match flow with
    | Return v st => Some (v, st)
    | Continue _ st => dtz_table_phase ab dtz tfuel pos wdl (generate_all pos) st
    end.
Proof.
  intros Hab H0 H2 Hpos. unfold probe_dtz_no_ep_with. rewrite Hab. simpl.
  destruct (Z.eqb_spec (success st0) 0); [done|].
  destruct (Z.eqb_spec wdl WDLDraw); [unfold WDLDraw in *; lia|].
  destruct (Z.eqb_spec (success st0) 2); [done|].
  destruct (Z.gtb_spec wdl 0); [done|lia].
Qed.

(** ... and with a loss. *)
Lemma no_ep_loss ab dtz tfuel pos st wdl st0 :
  ab pos WDLLoss WDLWin (tick st) = Some (wdl, st0) ->
  success st0 <> 0 -> success st0 <> 2 -> wdl < 0 ->
  probe_dtz_no_ep_with ab dtz tfuel pos st
  = dtz_table_phase ab dtz tfuel pos wdl [] st0.
Proof.
  intros Hab H0 H2 Hneg. unfold probe_dtz_no_ep_with. rewrite Hab. simpl.
  destruct (Z.eqb_spec (success st0) 0); [done|].
  destruct (Z.eqb_spec wdl WDLDraw); [unfold WDLDraw in *; lia|].
  destruct (Z.eqb_spec (success st0) 2); [done|].
  destruct (Z.gtb_spec wdl 0); [lia|done].
Qed.

Lemma no_ep_pawn_move_fails ab dtz tfuel pos st wdl st0 pre move post st0' r st1 :
  ab pos WDLLoss WDLWin (tick st) = Some (wdl, st0) ->
  success st0 <> 0 -> success st0 <> 2 -> 0 < wdl ->
  generate_all pos = pre ++ move :: post ->
  pawn_loop ab pos pre wdl st0 = Some (Continue tt st0') ->
  pawn_candidate pos move = true ->
  ab (do_move pos move) WDLLoss (- wdl + WDLCursedWin) st0' = Some (r, st1) ->
  success st1 = 0 ->
  probe_dtz_no_ep_with ab dtz tfuel pos st = Some (0, st1).
Proof.
  intros Hab H0 H2 Hpos Hsplit Hpre Hc Hrec Hs.
  rewrite (no_ep_win _ _ _ _ _ _ _ Hab H0 H2 Hpos).
  rewrite Hsplit at 1. rewrite pawn_loop_app, Hpre. past_prefix.
  rewrite pawn_loop_step by done. rewrite Hrec. simpl. by rewrite Hs.
Qed.

Lemma dtz_table_fails ab dtz tfuel pos wdl stack st r st1 :
  probe_dtz_table tfuel pos wdl st = Some (r, st1) ->
  success st1 = 0 ->
  exists v, dtz_table_phase ab dtz tfuel pos wdl stack st = Some (v, st1).
Proof.
  intros Htable Hs. unfold dtz_table_phase. rewrite Htable. simpl.
  rewrite Hs. simpl. eauto.
Qed.

Lemma no_ep_quiet_move_fails ab dtz tfuel pos wdl stack st r st0 pre move post
    best st0' r' st1 :
  probe_dtz_table tfuel pos wdl st = Some (r, st0) ->
  success st0 < 0 -> 0 < wdl ->
  stack = pre ++ move :: post ->
  win_loop dtz pos pre 65535 st0 = Some (Continue best st0') ->
  win_candidate pos move = true ->
  dtz (do_move pos move) st0' = Some (r', st1) ->
  success st1 = 0 ->
  dtz_table_phase ab dtz tfuel pos wdl stack st = Some (0, st1).
Proof.
  intros Htable Hneg Hpos -> Hpre Hc Hrec Hs.
  unfold dtz_table_phase. rewrite Htable. simpl.
  destruct (Z.geb_spec (success st0) 0); [lia|].
  destruct (Z.gtb_spec wdl 0); [|lia].
  rewrite win_loop_app, Hpre. past_prefix.
  rewrite win_loop_step by done. rewrite Hrec. simpl. by rewrite Hs.
Qed.

Lemma no_ep_reply_fails ab dtz tfuel pos wdl stack st r st0 pre move post
    best st0' r' st1 :
  probe_dtz_table tfuel pos wdl st = Some (r, st0) ->
  success st0 < 0 -> wdl <= 0 ->
  generate_all pos = pre ++ move :: post ->
  loss_loop ab dtz pos pre wdl (-1) st0 = Some (Continue best st0') ->
  legal pos move = true ->
  (if rule50 (do_move pos move) =? 0
   then wdl <> -2 /\ ab (do_move pos move) WDLCursedWin WDLWin st0' = Some (r', st1)
   else dtz (do_move pos move) st0' = Some (r', st1)) ->
  success st1 = 0 ->
  dtz_table_phase ab dtz tfuel pos wdl stack st = Some (0, st1).
Proof.
  intros Htable Hneg Hpos Hsplit Hpre Hc Hrec Hs.
  unfold dtz_table_phase. rewrite Htable. simpl.
  destruct (Z.geb_spec (success st0) 0); [lia|].
  destruct (Z.gtb_spec wdl 0); [lia|].
  rewrite Hsplit, loss_loop_app, Hpre. past_prefix.
  cbn [loss_loop]. rewrite Hc. cbn [negb].
  destruct (rule50 (do_move pos move) =? 0).
  - destruct Hrec as [Hwdl Hrec].
    destruct (Z.eqb_spec wdl (-2)); [done|].
    rewrite Hrec. simpl. by rewrite Hs.
  - rewrite Hrec. simpl. by rewrite Hs.
Qed.

(** *** [probe_dtz] and [probe_wdl] *)

Lemma probe_dtz_no_ep_fails ab no_ep pos st v st1 :
  no_ep pos (set_success 1 (tick st)) = Some (v, st1) ->
  success st1 = 0 ->
  exists v', probe_dtz_with ab no_ep pos st = Some (v', st1).
Proof.
  intros Hrec Hs. unfold probe_dtz_with. rewrite Hrec. simpl.
  destruct (epSquare pos =? SQ_NONE); [eauto|]. rewrite Hs. simpl. eauto.
Qed.

Lemma probe_dtz_ep_fails ab no_ep pos st v st0 pre move post v1 st0' r st1 :
  no_ep pos (set_success 1 (tick st)) = Some (v, st0) ->
  epSquare pos <> SQ_NONE -> success st0 <> 0 ->
  generate_captures pos = pre ++ move :: post ->
  ep_loop ab pos pre (-3) st0 = Some (Continue v1 st0') ->
  ep_candidate pos move = true ->
  ab (do_move pos move) WDLLoss WDLWin st0' = Some (r, st1) ->
  success st1 = 0 ->
  probe_dtz_with ab no_ep pos st = Some (0, st1).
Proof.
  intros Hrec Hep H0 Hsplit Hpre Hc Hab Hs.
  unfold probe_dtz_with. rewrite Hrec. simpl.
  destruct (Z.eqb_spec (epSquare pos) SQ_NONE); [done|].
  destruct (Z.eqb_spec (success st0) 0); [done|].
  rewrite Hsplit, ep_loop_app, Hpre. past_prefix.
  rewrite ep_loop_step by done. rewrite Hab. simpl. by rewrite Hs.
Qed.

Lemma probe_wdl_search_fails ab pos st v st1 :
  ab pos WDLLoss WDLWin (set_success 1 (tick st)) = Some (v, st1) ->
  success st1 = 0 ->
  exists v', probe_wdl_with ab pos st = Some (v', st1).
Proof.
  intros Hrec Hs. unfold probe_wdl_with. rewrite Hrec. simpl.
  destruct (epSquare pos =? SQ_NONE); [eauto|]. rewrite Hs. simpl. eauto.
Qed.

Lemma probe_wdl_ep_fails ab pos st v st0 pre move post v1 st0' r st1 :
  ab pos WDLLoss WDLWin (set_success 1 (tick st)) = Some (v, st0) ->
  epSquare pos <> SQ_NONE -> success st0 <> 0 ->
  generate_captures pos = pre ++ move :: post ->
  ep_loop ab pos pre (-3) st0 = Some (Continue v1 st0') ->
  ep_candidate pos move = true ->
  ab (do_move pos move) WDLLoss WDLWin st0' = Some (r, st1) ->
  success st1 = 0 ->
  probe_wdl_with ab pos st = Some (WDLDraw, st1).
Proof.
  intros Hrec Hep H0 Hsplit Hpre Hc Hab Hs.
  unfold probe_wdl_with. rewrite Hrec. simpl.
  destruct (Z.eqb_spec (epSquare pos) SQ_NONE); [done|].
  destruct (Z.eqb_spec (success st0) 0); [done|].
  rewrite Hsplit, ep_loop_app, Hpre. past_prefix.
  rewrite ep_loop_step by done. rewrite Hab. simpl. by rewrite Hs.
Qed.

(** C7: in [probe_ab], [probe_dtz_no_ep], [probe_dtz] and [probe_wdl],
    whenever a call of a child probe or of a table probe comes back with
    [*success = 0], at whatever iteration of whatever loop, the enclosing
    routine returns at once: its result state is the very state [st1] the
    failed call left, so [*success] is still 0 and the ghost counter
    [calls] has not moved (no further table probe, no further recursion,
    no second try), and its value is a dummy (0, or for the failed DTZ
    table probe what the arithmetic makes of 0). *)
Theorem failure_short_circuits (ab rec : ProbeAB) (dtz no_ep : Probe)
    (tfuel : nat) (pos : Position) (st st0 st0' st1 : TB)
    (alpha beta a wdl v r r' v1 best : Z) (pre post stack : list Z) (move : Z) :
  success st1 = 0 ->
  (* probe_ab: a capture's child probe fails *)
  (ab_stack pos = pre ++ move :: post ->
   ab_loop rec pos pre alpha beta (tick st) = Some (Continue a st0) ->
   ab_candidate pos move = true ->
   rec (do_move pos move) (- beta) (- a) st0 = Some (v, st1) ->
   probe_ab_with rec tfuel pos alpha beta st = Some (WDLDraw, st1)) /\
  (* probe_ab: the table probe fails *)
  (ab_loop rec pos (ab_stack pos) alpha beta (tick st) = Some (Continue a st0) ->
   probe_wdl_table tfuel pos st0 = Some (v, st1) ->
   probe_ab_with rec tfuel pos alpha beta st = Some (WDLDraw, st1)) /\
  (* probe_dtz_no_ep: the first probe_ab fails *)
  (ab pos WDLLoss WDLWin (tick st) = Some (wdl, st1) ->
   probe_dtz_no_ep_with ab dtz tfuel pos st = Some (0, st1)) /\
  (* probe_dtz_no_ep: the probe after a pawn move fails *)
  (ab pos WDLLoss WDLWin (tick st) = Some (wdl, st0) ->
   success st0 <> 0 -> success st0 <> 2 -> 0 < wdl ->
   generate_all pos = pre ++ move :: post ->
   pawn_loop ab pos pre wdl st0 = Some (Continue tt st0') ->
   pawn_candidate pos move = true ->
   ab (do_move pos move) WDLLoss (- wdl + WDLCursedWin) st0' = Some (r, st1) ->
   probe_dtz_no_ep_with ab dtz tfuel pos st = Some (0, st1)) /\
  (* probe_dtz_no_ep: the DTZ table probe fails *)
  (probe_dtz_table tfuel pos wdl st = Some (r, st1) ->
   exists dummy, dtz_table_phase ab dtz tfuel pos wdl stack st = Some (dummy, st1)) /\
  (* probe_dtz_no_ep: probe_dtz after a quiet move of the winning side fails *)
  (probe_dtz_table tfuel pos wdl st = Some (r, st0) ->
   success st0 < 0 -> 0 < wdl ->
   stack = pre ++ move :: post ->
   win_loop dtz pos pre 65535 st0 = Some (Continue best st0') ->
   win_candidate pos move = true ->
   dtz (do_move pos move) st0' = Some (r', st1) ->
   dtz_table_phase ab dtz tfuel pos wdl stack st = Some (0, st1)) /\
  (* probe_dtz_no_ep: the probe after a move of the losing side fails *)
  (probe_dtz_table tfuel pos wdl st = Some (r, st0) ->
   success st0 < 0 -> wdl <= 0 ->
   generate_all pos = pre ++ move :: post ->
   loss_loop ab dtz pos pre wdl (-1) st0 = Some (Continue best st0') ->
   legal pos move = true ->
   (if rule50 (do_move pos move) =? 0
    then wdl <> -2 /\ ab (do_move pos move) WDLCursedWin WDLWin st0' = Some (r', st1)
    else dtz (do_move pos move) st0' = Some (r', st1)) ->
   dtz_table_phase ab dtz tfuel pos wdl stack st = Some (0, st1)) /\
  (* probe_dtz: probe_dtz_no_ep fails *)
  (no_ep pos (set_success 1 (tick st)) = Some (v, st1) ->
   exists dummy, probe_dtz_with ab no_ep pos st = Some (dummy, st1)) /\
  (* probe_dtz: the probe after an en passant capture fails *)
  (no_ep pos (set_success 1 (tick st)) = Some (v, st0) ->
   epSquare pos <> SQ_NONE -> success st0 <> 0 ->
   generate_captures pos = pre ++ move :: post ->
   ep_loop ab pos pre (-3) st0 = Some (Continue v1 st0') ->
   ep_candidate pos move = true ->
   ab (do_move pos move) WDLLoss WDLWin st0' = Some (r, st1) ->
   probe_dtz_with ab no_ep pos st = Some (0, st1)) /\
  (* probe_wdl: probe_ab fails *)
  (ab pos WDLLoss WDLWin (set_success 1 (tick st)) = Some (v, st1) ->
   exists dummy, probe_wdl_with ab pos st = Some (dummy, st1)) /\
  (* probe_wdl: the probe after an en passant capture fails *)
  (ab pos WDLLoss WDLWin (set_success 1 (tick st)) = Some (v, st0) ->
   epSquare pos <> SQ_NONE -> success st0 <> 0 ->
   generate_captures pos = pre ++ move :: post ->
   ep_loop ab pos pre (-3) st0 = Some (Continue v1 st0') ->
   ep_candidate pos move = true ->
   ab (do_move pos move) WDLLoss WDLWin st0' = Some (r, st1) ->
   probe_wdl_with ab pos st = Some (WDLDraw, st1)).
Proof.
  intros Hs. repeat split; intros.
  - by eapply probe_ab_child_fails.
  - by eapply probe_ab_table_fails.
  - by eapply no_ep_first_probe_fails.
  - by eapply no_ep_pawn_move_fails.
  - by eapply dtz_table_fails.
  - by eapply no_ep_quiet_move_fails.
  - by eapply no_ep_reply_fails.
  - by eapply probe_dtz_no_ep_fails.
  - by eapply probe_dtz_ep_fails.
  - by eapply probe_wdl_search_fails.
  - by eapply probe_wdl_ep_fails.
Qed.

End ShortCircuit.

Lemma failure_short_circuits_witness :
  success st_KRvK_failed = 0 /\
  @probe_ab host_KQvK 1 8 pos_KRvK WDLLoss WDLWin st_KQvK
  = Some (WDLDraw, st_KRvK_failed) /\
  calls st_KRvK_failed = S (S (calls st_KQvK)).
Proof.
  split; [reflexivity|]. split; [|reflexivity].
  pose proof (@failure_short_circuits host_KQvK
                (@probe_ab host_KQvK 1 8) (@probe_ab host_KQvK 0 8)
                (@probe_dtz host_KQvK 0 8) (@probe_dtz host_KQvK 0 8)
                8 pos_KRvK st_KQvK (tick st_KQvK) (tick st_KQvK) st_KRvK_failed
                WDLLoss WDLWin WDLLoss 0 0 0 0 0 0 [] [] [] 0 eq_refl)
    as (_ & Htable & _).
  apply Htable.
  - reflexivity.
  - vm_compute. reflexivity.
Defined.

(** ** The DTZ list: claim C5 *)

Lemma splice_front_length k rest : forall seen,
  length (splice_front k seen rest) = (length seen + length rest)%nat.
Proof.
  induction rest as [|e rest IH]; intros seen; simpl; [lia|].
  destruct (dtz_matches k e).
  - simpl. rewrite length_app. lia.
  - rewrite IH, length_app. simpl. lia.
Qed.

Lemma pop_back_length t : length (pop_back t) = (length t - 1)%nat.
Proof. unfold pop_back. rewrite length_take. lia. Qed.

(** Where the file is found, the list is trimmed: a probe whose [init]
    succeeds keeps a list of at most 64 entries at most that long. *)
Lemma probe_dtz_table_trims `{Host} tfuel pos wdl st r st' :
  (forall e fname, snd (DTZEntry_init e fname) = true) ->
  (length (DTZTable st) <= 64)%nat ->
  probe_dtz_table tfuel pos wdl st = Some (r, st') ->
  (length (DTZTable st') <= 64)%nat.
Proof.
  intros Hinit Hlen. unfold probe_dtz_table.
  set (k := materialKey pos).
  assert (Hsplice : length (splice_front k [] (DTZTable (tick st))) = length (DTZTable st)).
  { by rewrite splice_front_length. }
  assert (Hend : forall s : TB,
    (length (DTZTable s) <= 64)%nat ->
    (front ← head (DTZTable s);
     if dtz_baseAddress front =? 0 then Some (0, set_success 0 s)
     else '(v, s0) ← probe_table tfuel host_mem pos front wdl (success s);
          Some (s32 v, set_success s0 s)) = Some (r, st') ->
    (length (DTZTable st') <= 64)%nat).
  { intros s Hs Hrun. apply bind_Some in Hrun as (front & _ & Hrun).
    destruct (dtz_baseAddress front =? 0); [by injection Hrun as <- <-|].
    apply bind_Some in Hrun as ([v s0] & _ & [= <- <-]). done. }
  destruct (front_differs k (DTZTable (tick st))); [|by apply Hend].
  cbn [DTZTable set_DTZTable].
  destruct (front_differs k (splice_front k [] (DTZTable (tick st))));
    [|apply Hend; simpl; simpl in Hsplice; lia].
  cbn [WDLHash WDLTable set_DTZTable].
  destruct (HashTable_lookup _ k) as [ptr|]; [|intros [= <- <-]; simpl in *; lia].
  destruct (_ !! ptr) as [wdlEntry|]; [|done].
  match goal with
  | |- context [DTZEntry_init ?x ?f] =>
      pose proof (Hinit x f) as Hok; destruct (DTZEntry_init x f) as [e ok]
  end.
  simpl in Hok. subst ok.
  cbn [negb DTZTable set_DTZTable].
  destruct (Nat.ltb_spec 64 (length (e :: splice_front k [] (DTZTable (tick st))))) as [Hbig|Hsmall].
  - apply Hend. cbn [DTZTable set_DTZTable]. rewrite pop_back_length.
    simpl in *. lia.
  - apply Hend. done.
Qed.

(** C5 (the code at the failing input): with every WDL file installed and
    no DTZ file, probing 65 positions of 65 different materials leaves 65
    entries in the DTZ list: the entry of a probe whose [init] fails is
    kept, and the early [return] that follows skips the trimming. *)
Lemma dtz_list_outgrows_64 :
  length positions_65 = 65%nat /\
  length (DTZTable tb_wdl_only) = 0%nat /\
  (fun st => (length (DTZTable st),
              forallb (fun e => dtz_baseAddress e =? 0) (DTZTable st)))
    <$> @dtz_probe_each host_wdl_only 8 positions_65 tb_wdl_only
  = Some (65%nat, true).
Proof.
  split; [reflexivity|]. split; [reflexivity|].
  vm_compute. reflexivity.
Qed.

(** ** The encoder does not depend on the order the pieces are met in *)

(** *** Sorting *)

Lemma sort_insert_perm (lt : Z -> Z -> bool) (x : Z) (l : list Z) :
  sort_insert lt x l ≡ₚ x :: l.
Proof.
  induction l as [|y l IH]; simpl; [done|].
  destruct (lt y x); [|done].
  rewrite IH. apply Permutation_swap.
Qed.

Lemma sort_by_perm (lt : Z -> Z -> bool) (l : list Z) : sort_by lt l ≡ₚ l.
Proof.
  induction l as [|x l IH]; simpl; [done|].
  rewrite sort_insert_perm. by f_equiv.
Qed.

Lemma sort_by_length (lt : Z -> Z -> bool) (l : list Z) :
  length (sort_by lt l) = length l.
Proof. by rewrite sort_by_perm. Qed.

Section SortedInsert.
Variable lt : Z -> Z -> bool.
Variable R : relation Z.
Hypothesis R_total_lt : forall x y, lt y x = true -> R y x.

Lemma sort_insert_sorted (x : Z) (l : list Z) :
  Forall (fun y => lt y x = false -> R x y) l ->
  Sorted R l -> Sorted R (sort_insert lt x l).
Proof.
  induction l as [|y l IH]; intros Hx Hs; simpl.
  - by repeat constructor.
  - apply Forall_cons in Hx as [Hy Hx].
    apply Sorted_inv in Hs as [Hs Hhd].
    destruct (lt y x) eqn:E.
    + constructor; [by apply IH|].
      destruct l as [|z l]; simpl.
      * constructor. by apply R_total_lt.
      * destruct (lt z x); constructor; [by inversion Hhd|by apply R_total_lt].
    + constructor; [by constructor|]. constructor. by apply Hy.
Qed.

Lemma sort_by_sorted (l : list Z) :
  StronglySorted (fun x y => lt y x = false -> R x y) l ->
  Sorted R (sort_by lt l).
Proof.
  induction 1 as [|x l Hl IH Hx]; simpl; [constructor|].
  apply sort_insert_sorted; [|done].
  rewrite Forall_forall in Hx |- *.
  intros y Hy. apply Hx. by rewrite <- (sort_by_perm lt l).
Qed.
End SortedInsert.

(** Sorting by [<] forgets the order the elements came in. *)
Lemma sort_by_ltb_perm (l l' : list Z) :
  l ≡ₚ l' -> sort_by Z.ltb l = sort_by Z.ltb l'.
Proof.
  intros Hp.
  assert (Hs : forall k, Sorted Z.le (sort_by Z.ltb k)).
  { intros k. apply (sort_by_sorted Z.ltb Z.le).
    - intros x y Hxy. apply Z.ltb_lt in Hxy. lia.
    - induction k as [|x k IH]; constructor; [done|].
      apply Forall_forall. intros y _ Hyx. apply Z.ltb_ge in Hyx. lia. }
  apply (Sorted_unique Z.le); [apply Hs..|].
  by rewrite !sort_by_perm.
Qed.

(** *** Squares *)

Lemma squares_forall (P : Z -> bool) :
  forallb P (seqZ 0 64) = true -> forall s, 0 <= s < 64 -> P s = true.
Proof.
  intros HP s Hs. rewrite forallb_forall in HP. apply HP.
  apply list_elem_of_In, elem_of_seqZ. lia.
Qed.

Lemma squares_forall2 (P : Z -> Z -> bool) :
  forallb (fun s => forallb (P s) (seqZ 0 64)) (seqZ 0 64) = true ->
  forall s t, 0 <= s < 64 -> 0 <= t < 64 -> P s t = true.
Proof.
  intros HP s t Hs Ht.
  apply (squares_forall (P s)); [|done].
  by apply (squares_forall (fun s => forallb (P s) (seqZ 0 64))).
Qed.

Lemma flip_rank_range (s : Z) : 0 <= s < 64 -> 0 <= Z.lxor s 56 < 64.
Proof.
  intros Hs.
  pose proof (squares_forall (fun s => (0 <=? Z.lxor s 56) && (Z.lxor s 56 <? 64))
                eq_refl s Hs) as H.
  apply andb_true_iff in H as [H1 H2]. lia.
Qed.

Lemma flip_rank_twice (s : Z) : Z.lxor (Z.lxor s 56) 56 = s.
Proof. by rewrite Z.lxor_assoc, Z.lxor_nilpotent, Z.lxor_0_r. Qed.

Lemma flip_rank_inj (s t : Z) : Z.lxor s 56 = Z.lxor t 56 -> s = t.
Proof. intros H. by rewrite <- (flip_rank_twice s), H, flip_rank_twice. Qed.

(** Flipping by [flip * 56] after the board was mirrored is flipping by
    [(1 - flip) * 56] before. *)
Lemma flip_squares_mirror (flip s : Z) :
  flip = 0 \/ flip = 1 ->
  Z.lxor (Z.lxor s 56) ((1 - flip) * 56) = Z.lxor s (flip * 56).
Proof.
  intros [-> | ->]; simpl.
  - by rewrite flip_rank_twice, Z.lxor_0_r.
  - by rewrite Z.lxor_0_r.
Qed.

Lemma flip_color_mirror (flip pc : Z) :
  flip = 0 \/ flip = 1 ->
  Z.lxor (Z.lxor pc 8) ((1 - flip) * 8) = Z.lxor pc (flip * 8).
Proof.
  intros [-> | ->]; simpl.
  - by rewrite Z.lxor_assoc, Z.lxor_nilpotent, !Z.lxor_0_r.
  - by rewrite Z.lxor_0_r.
Qed.

(** Among the squares a pawn can stand on, two have the same [Flap] only
    on the same rank, in files that mirror each other. *)
Lemma Flap_tie (s t : Z) :
  8 <= s < 56 -> 8 <= t < 56 -> Flap s = Flap t ->
  rank_of s = rank_of t.
Proof.
  intros Hs Ht HF.
  pose proof (squares_forall2
    (fun s t => implb ((8 <=? s) && (s <? 56) && (8 <=? t) && (t <? 56)
                       && (Flap s =? Flap t))
                      (rank_of s =? rank_of t)) eq_refl s t) as H.
  rewrite implb_true_iff, !andb_true_iff in H.
  apply Z.eqb_eq, H; [lia..|].
  repeat split; lia.
Qed.

Lemma same_rank_flip (flip s t : Z) :
  flip = 0 \/ flip = 1 -> 0 <= s < 64 -> 0 <= t < 64 ->
  rank_of (Z.lxor s (flip * 56)) = rank_of (Z.lxor t (flip * 56)) ->
  s < t -> Z.lxor s (flip * 56) < Z.lxor t (flip * 56).
Proof.
  intros Hf Hs Ht Hr Hlt.
  pose proof (squares_forall2
    (fun s t => forallb (fun flip =>
       implb ((rank_of (Z.lxor s (flip * 56)) =? rank_of (Z.lxor t (flip * 56)))
              && (s <? t))
             (Z.lxor s (flip * 56) <? Z.lxor t (flip * 56))) [0; 1]) eq_refl s t Hs Ht) as H.
  simpl in H. rewrite !andb_true_iff, !implb_true_iff, !andb_true_iff in H.
  destruct H as (H0 & H1 & _).
  destruct Hf as [-> | ->]; apply Z.ltb_lt; [apply H0|apply H1];
    (split; [by apply Z.eqb_eq|by apply Z.ltb_lt]).
Qed.

Lemma pawn_square_flip (flip s : Z) :
  flip = 0 \/ flip = 1 -> 8 <= s < 56 -> 8 <= Z.lxor s (flip * 56) < 56.
Proof.
  intros Hf Hs.
  assert (Hs' : 0 <= s < 64) by lia.
  pose proof (squares_forall
    (fun s => implb ((8 <=? s) && (s <? 56))
                    ((8 <=? Z.lxor s 56) && (Z.lxor s 56 <? 56))) eq_refl s Hs') as H.
  rewrite implb_true_iff, !andb_true_iff in H.
  destruct Hf as [-> | ->]; [by rewrite Z.lxor_0_r|].
  change (1 * 56) with 56. lia.
Qed.

#[local] Instance flap_le_trans : Transitive flap_le.
Proof. intros x y z. unfold flap_le. lia. Qed.

#[local] Instance flap_le_antisymm : AntiSymm (=) flap_le.
Proof. intros x y. unfold flap_le. lia. Qed.

(** The lead pawns, flipped, sort to the same array whichever way the
    board was walked. *)
Lemma sort_by_Flap_sorted (flip : Z) (l : list Z) :
  flip = 0 \/ flip = 1 ->
  StronglySorted Z.lt l -> Forall (fun s => 8 <= s < 56) l ->
  Sorted flap_le
    (sort_by (fun i j => Flap i <? Flap j) (map (fun s => Z.lxor s (flip * 56)) l)).
Proof.
  intros Hf Hs Hl.
  apply (sort_by_sorted (fun i j => Flap i <? Flap j) flap_le).
  { intros x y Hxy. apply Z.ltb_lt in Hxy. by left. }
  induction Hs as [|x l Hs IH Hx]; simpl; [constructor|].
  apply Forall_cons in Hl as [Hx8 Hl].
  constructor; [by apply IH|].
  apply Forall_fmap, Forall_forall. intros y Hy. simpl. intros Hyx.
  apply Z.ltb_ge in Hyx.
  rewrite Forall_forall in Hx, Hl. specialize (Hx y Hy). specialize (Hl y Hy).
  destruct (Z.eq_dec (Flap (Z.lxor x (flip * 56))) (Flap (Z.lxor y (flip * 56))))
    as [He|Hne]; [|left; lia].
  right. split; [done|].
  apply Z.lt_le_incl, same_rank_flip; [done|lia|lia| |done].
  apply Flap_tie; [by apply pawn_square_flip..|done].
Qed.

(** *** The reordering loop *)

Lemma find_piece_found (pc : Z) (l1 l2 pre : list Z) :
  pc ∉ l1 ->
  find_piece pc (pre ++ l1 ++ pc :: l2) (length pre) (length (l1 ++ pc :: l2))
  = Some (length pre + length l1)%nat.
Proof.
  revert pre. induction l1 as [|y l1 IH]; intros pre Hpc; simpl.
  - unfold sq_at. rewrite list_lookup_middle by done. simpl.
    rewrite Z.eqb_refl. f_equal. lia.
  - apply not_elem_of_cons in Hpc as [Hne Hpc].
    unfold sq_at at 1. rewrite list_lookup_middle by done. simpl.
    destruct (Z.eqb_spec y pc) as [->|_]; [done|].
    specialize (IH (pre ++ [y]) Hpc).
    rewrite <- app_assoc, length_app in IH. simpl in IH.
    rewrite Nat.add_1_r in IH. rewrite IH. f_equal. lia.
Qed.

Lemma swap_at_found {A} (f : A -> Z) (pre : list Z) (o1 o2 : list A) (p : A) :
  swap_at (pre ++ map f (o1 ++ p :: o2)) (length pre) (length pre + length o1)
  = pre ++ f p :: map f (swapped_rest o1 o2).
Proof.
  unfold swap_at, sq_at.
  destruct o1 as [|q o1]; simpl.
  - rewrite Nat.add_0_r, list_lookup_middle by done. simpl.
    by rewrite !(list_insert_id (pre ++ f p :: map f o2))
      by (by apply list_lookup_middle).
  - rewrite (list_lookup_middle pre _ (f q) (length pre)) by done. simpl.
    rewrite lookup_app_r by lia.
    replace (length pre + S (length o1) - length pre)%nat with (S (length o1)) by lia.
    simpl. rewrite !map_app. simpl.
    rewrite list_lookup_middle by (by rewrite length_map).
    simpl.
    rewrite (insert_app_r pre _ (S (length o1))). simpl.
    rewrite (insert_app_r_alt (map f o1)) by (rewrite length_map; lia).
    rewrite length_map, Nat.sub_diag. simpl.
    rewrite (insert_app_r_alt pre) by lia.
    by rewrite Nat.sub_diag.
Qed.

Lemma swapped_rest_perm {A} (o1 o2 : list A) (p : A) :
  p :: swapped_rest o1 o2 ≡ₚ o1 ++ p :: o2.
Proof.
  destruct o1 as [|q o1]; simpl; [done|].
  rewrite <- !Permutation_middle. apply Permutation_swap.
Qed.

(** The loop puts the pieces in the order of [want]: the slots behind the
    lead pawns end up holding a rearrangement [final] of the pieces met,
    piece for piece as [want] lists them. *)
Lemma reorder_pieces_spec (want : list Z) (n : nat) :
  forall (others : list (Z * Z)) (psq ppc : list Z),
    length others = n -> length psq = length ppc ->
    map snd others ≡ₚ take n (drop (length psq) want) ->
    exists final,
      final ≡ₚ others
      /\ map snd final = take n (drop (length psq) want)
      /\ reorder_pieces want (length psq) n (psq ++ map fst others) (ppc ++ map snd others)
         = (psq ++ map fst final, ppc ++ map snd final).
Proof.
  induction n as [|c IH]; intros others psq ppc Hn Hlen Hperm.
  - destruct others; [|done]. exists []. by rewrite take_0.
  - destruct (drop (length psq) want) as [|w rest] eqn:Hdrop.
    { rewrite take_nil in Hperm. apply Permutation_nil_r in Hperm.
      destruct others; done. }
    assert (Hrest : drop (S (length psq)) want = rest).
    { replace (S (length psq)) with (length psq + 1)%nat by lia.
      rewrite <- drop_drop, Hdrop. done. }
    simpl in Hperm.
    assert (Hin : w ∈ map snd others).
    { rewrite Hperm. left. }
    apply list_elem_of_split_l in Hin as (l1 & l2 & Hsplit & Hnot).
    apply fmap_app_inv in Hsplit as (o1 & o2' & Ho1 & Ho2 & ->).
    symmetry in Ho2. apply fmap_cons_inv in Ho2 as (p & o2 & Hp & Ho2 & ->).
    subst l1 l2 w.
    assert (Hwant : sq_at want (length psq) = snd p).
    { unfold sq_at. rewrite <- (Nat.add_0_r (length psq)), <- lookup_drop, Hdrop. done. }
    assert (Hfind : find_piece (snd p) (ppc ++ map snd (o1 ++ p :: o2)) (length psq) (S c)
                    = Some (length psq + length o1)%nat).
    { rewrite Hlen, map_app. cbn [map].
      replace (S c) with (length (map snd o1 ++ snd p :: map snd o2)).
      2:{ rewrite <- Hn, !length_app. simpl. by rewrite !length_map. }
      rewrite find_piece_found by done. by rewrite length_map. }
    assert (Hsw : swap_at (ppc ++ map snd (o1 ++ p :: o2)) (length psq)
                    (length psq + length o1)
                  = ppc ++ snd p :: map snd (swapped_rest o1 o2)).
    { rewrite Hlen. apply swap_at_found. }
    cbn [reorder_pieces]. rewrite Hwant, Hfind, Hsw, (swap_at_found fst psq o1 o2 p).
    destruct (IH (swapped_rest o1 o2) (psq ++ [fst p]) (ppc ++ [snd p]))
      as (final & Hfp & Hfs & Hrun).
    { pose proof (Permutation_length (swapped_rest_perm o1 o2 p)) as Hl.
      simpl in Hl. rewrite Hn in Hl. lia. }
    { rewrite !length_app. simpl. lia. }
    { rewrite length_app. simpl. rewrite Nat.add_1_r, Hrest.
      apply (Permutation_cons_inv (a := snd p)).
      rewrite <- Hperm.
      change (snd p :: map snd (swapped_rest o1 o2))
        with (map snd (p :: swapped_rest o1 o2)).
      by rewrite swapped_rest_perm. }
    rewrite length_app in Hfs, Hrun. simpl in Hfs, Hrun.
    rewrite Nat.add_1_r in Hfs, Hrun. rewrite Hrest in Hfs.
    exists (p :: final). split; [|split].
    + by rewrite Hfp, swapped_rest_perm.
    + simpl. by rewrite Hfs.
    + rewrite <- !app_assoc in Hrun. simpl in Hrun. exact Hrun.
Qed.

(** *** Arrays that agree group by group *)

Lemma blocks_equiv_map (g : Z -> Z) (ns : list nat) (a b : list Z) :
  blocks_equiv ns a b -> blocks_equiv ns (map g a) (map g b).
Proof.
  revert a b. induction ns as [|n ns IH]; intros a b; simpl.
  - by intros ->.
  - intros [Ht Hd]. split.
    + change (take n (g <$> a) ≡ₚ take n (g <$> b)).
      rewrite <- !fmap_take. by f_equiv.
    + change (blocks_equiv ns (drop n (g <$> a)) (drop n (g <$> b))).
      rewrite <- !fmap_drop. by apply IH.
Qed.

(** Groups of one square are slots in which the arrays agree. *)
Lemma blocks_equiv_singles (k : nat) (ns : list nat) (a b : list Z) :
  blocks_equiv (replicate k 1%nat ++ ns) a b ->
  take k a = take k b /\ blocks_equiv ns (drop k a) (drop k b).
Proof.
  revert a b. induction k as [|k IH]; intros a b; simpl.
  - by rewrite !drop_0.
  - intros [Ht Hd]. apply IH in Hd as [Hd1 Hd2].
    rewrite !drop_drop in Hd2. split; [|done].
    destruct a as [|x a], b as [|y b]; simpl in *.
    + done.
    + by apply Permutation_nil_l in Ht.
    + by apply Permutation_nil_r in Ht.
    + apply Permutation_singleton_l in Ht. rewrite !drop_0 in Hd1. congruence.
Qed.

Lemma elem_of_concat_replicate (ns : list nat) (reps : list Z) (x : Z) :
  x ∈ concat (zip_with (fun n r => replicate n r) ns reps) -> x ∈ reps.
Proof.
  revert reps. induction ns as [|n ns IH]; intros [|r reps]; simpl; try by inversion 1.
  rewrite elem_of_app. intros [H|H].
  - apply elem_of_replicate in H as [-> _]. left.
  - right. by apply IH.
Qed.

Lemma filter_block (final : list (Z * Z)) (n : nat) (r : Z) (rest : list Z) :
  map snd final = replicate n r ++ rest -> r ∉ rest ->
  filter (fun p => snd p = r) final = take n final
  /\ filter (fun p => snd p <> r) final = drop n final.
Proof.
  revert final. induction n as [|n IH]; intros final Hsnd Hr; simpl in *.
  - rewrite drop_0. rewrite take_0.
    assert (Hall : Forall (fun p => snd p <> r) final).
    { apply Forall_forall. intros p Hp Heq. apply Hr. rewrite <- Hsnd, <- Heq.
      apply list_elem_of_fmap. by exists p. }
    clear Hsnd. induction Hall as [|p final Hp _ IH']; [done|].
    destruct IH' as [IH1 IH2].
    rewrite filter_cons_False by (intros ?; by apply Hp).
    rewrite filter_cons_True by done. by rewrite IH1, IH2.
  - destruct final as [|p final]; [done|]. simpl in Hsnd.
    injection Hsnd as Hp Hsnd. destruct (IH final Hsnd Hr) as [IH1 IH2].
    rewrite filter_cons_True by done.
    rewrite filter_cons_False by (intros H; by apply H).
    simpl. by rewrite IH1, IH2.
Qed.

(** Two rearrangements of the same pieces that both follow the order of
    the piece list hold the same squares in each group. *)
Lemma grouped_blocks_equiv (ns : list nat) :
  forall (reps : list Z) (final final' : list (Z * Z)),
    length reps = length ns -> NoDup reps ->
    final ≡ₚ final' ->
    map snd final = concat (zip_with (fun n r => replicate n r) ns reps) ->
    map snd final' = concat (zip_with (fun n r => replicate n r) ns reps) ->
    blocks_equiv ns (map fst final) (map fst final').
Proof.
  induction ns as [|n ns IH]; intros reps final final' Hlen Hnd Hp Hs Hs'.
  - simpl in *. destruct final, final'; done.
  - destruct reps as [|r reps]; [done|]. simpl in *.
    apply NoDup_cons in Hnd as [Hr Hnd].
    assert (Hr' : r ∉ concat (zip_with (fun n r => replicate n r) ns reps)).
    { intros H. by apply Hr, (elem_of_concat_replicate ns). }
    destruct (filter_block final n r _ Hs Hr') as [Hf1 Hf2].
    destruct (filter_block final' n r _ Hs' Hr') as [Hf1' Hf2'].
    split.
    + change (take n (fst <$> final) ≡ₚ take n (fst <$> final')).
      rewrite <- !fmap_take, <- Hf1, <- Hf1'. by rewrite Hp.
    + change (blocks_equiv ns (drop n (fst <$> final)) (drop n (fst <$> final'))).
      rewrite <- !fmap_drop. apply (IH reps); [lia|done| | |].
      * by rewrite <- Hf2, <- Hf2', Hp.
      * change (snd <$> drop n final = concat (zip_with (fun n r => replicate n r) ns reps)).
        rewrite fmap_drop. change (snd <$> final) with (map snd final).
        rewrite Hs. by rewrite drop_app_length' by (by rewrite length_replicate).
      * change (snd <$> drop n final' = concat (zip_with (fun n r => replicate n r) ns reps)).
        rewrite fmap_drop. change (snd <$> final') with (map snd final').
        rewrite Hs'. by rewrite drop_app_length' by (by rewrite length_replicate).
Qed.

(** *** The diagonal flip *)

Lemma diagonal_flip_done (limit : nat) (rest : list Z) :
  forall (i : nat) (done : list Z),
    diagonal_flip limit i done rest = done ++ diagonal_flip limit i [] rest.
Proof.
  induction rest as [|s rest IH]; intros i done; simpl.
  - by rewrite app_nil_r.
  - destruct (off_A1H8 s =? 0).
    + rewrite (IH (S i) (done ++ [s])), (IH (S i) [s]). by rewrite <- app_assoc.
    + by destruct ((off_A1H8 s >? 0) && (i <? limit)%nat).
Qed.

Lemma diagonal_flip_past (limit : nat) (rest : list Z) :
  forall (i : nat), (limit <= i)%nat -> diagonal_flip limit i [] rest = rest.
Proof.
  induction rest as [|s rest IH]; intros i Hi; simpl; [done|].
  destruct (off_A1H8 s =? 0).
  - rewrite diagonal_flip_done, IH by lia. done.
  - destruct (Nat.ltb_spec i limit); [lia|]. by rewrite andb_false_r.
Qed.

Lemma diagonal_flip_equiv (limit : nat) (ns : list nat) (k : nat) :
  forall (i : nat) (a b : list Z),
    (limit <= i + k)%nat ->
    take k a = take k b -> blocks_equiv ns (drop k a) (drop k b) ->
    take k (diagonal_flip limit i [] a) = take k (diagonal_flip limit i [] b)
    /\ blocks_equiv ns (drop k (diagonal_flip limit i [] a))
                       (drop k (diagonal_flip limit i [] b)).
Proof.
  induction k as [|k IH]; intros i a b Hi Ht Hd.
  - by rewrite !diagonal_flip_past by lia.
  - destruct a as [|x a], b as [|y b]; try done.
    simpl in Ht, Hd. injection Ht as <- Ht.
    cbn [diagonal_flip].
    destruct (off_A1H8 x =? 0).
    + rewrite (diagonal_flip_done limit a), (diagonal_flip_done limit b). simpl.
      destruct (IH (S i) a b) as [IH1 IH2]; [lia|done..|].
      by rewrite IH1.
    + destruct ((off_A1H8 x >? 0) && (i <? limit)%nat).
      * set (g := fun q => Z.land (Z.lor (Z.shiftr q 3) (Z.shiftl q 3)) 63).
        simpl. split.
        -- change (g x :: take k (g <$> a) = g x :: take k (g <$> b)).
           by rewrite <- !fmap_take, Ht.
        -- change (blocks_equiv ns (drop k (g <$> a)) (drop k (g <$> b))).
           rewrite <- !fmap_drop. by apply blocks_equiv_map.
      * simpl. by rewrite Ht.
Qed.

(** *** The remaining groups *)

Lemma sq_at_take (last i : nat) (a b : list Z) :
  (i < last)%nat -> take last a = take last b -> sq_at a i = sq_at b i.
Proof.
  intros Hi Ht. unfold sq_at.
  by rewrite <- (lookup_take_lt a last i), <- (lookup_take_lt b last i), Ht by done.
Qed.

Lemma take_take_le (n last : nat) (a b : list Z) :
  (n <= last)%nat -> take last a = take last b -> take n a = take n b.
Proof.
  intros Hn Ht.
  rewrite <- (Nat.min_l n last), <- !take_take, Ht by done. done.
Qed.

Lemma encode_group_take (last next : nat) (pawns : bool) (a b : list Z) :
  (next <= last)%nat -> take last a = take last b ->
  forall (count i : nat) (s : Z),
    (i + count <= last)%nat ->
    encode_group a next i count pawns s = encode_group b next i count pawns s.
Proof.
  intros Hnext Ht. induction count as [|c IH]; intros i s Hi; simpl; [done|].
  rewrite (sq_at_take last i a b) by (done || lia).
  rewrite (take_take_le next last a b) by done.
  apply IH. lia.
Qed.

Lemma sort_range_length (lt : Z -> Z -> bool) (first last : nat) (a : list Z) :
  (first <= last)%nat -> length (sort_range lt first last a) = length a.
Proof.
  intros H. unfold sort_range.
  rewrite !length_app, sort_by_length, !length_take, !length_drop. lia.
Qed.

Lemma sort_range_take (lt : Z -> Z -> bool) (first last : nat) (a : list Z) :
  (first <= last)%nat ->
  take last (sort_range lt first last a)
  = take first a ++ sort_by lt (take (last - first) (drop first a)).
Proof.
  intros H. unfold sort_range.
  destruct (Nat.le_gt_cases last (length a)) as [Hl|Hl].
  - rewrite app_assoc, take_app_length'; [done|].
    rewrite length_app, sort_by_length, !length_take, !length_drop. lia.
  - rewrite (drop_ge a last) by lia. rewrite app_nil_r.
    apply take_ge. rewrite length_app, sort_by_length, !length_take, !length_drop. lia.
Qed.

Lemma sort_range_drop (lt : Z -> Z -> bool) (first last : nat) (a : list Z) :
  (first <= last)%nat ->
  drop last (sort_range lt first last a) = drop last a.
Proof.
  intros H. unfold sort_range.
  destruct (Nat.le_gt_cases last (length a)) as [Hl|Hl].
  - rewrite app_assoc, drop_app_length'; [done|].
    rewrite length_app, sort_by_length, !length_take, !length_drop. lia.
  - rewrite (drop_ge a last) by lia. rewrite app_nil_r.
    apply drop_ge. rewrite length_app, sort_by_length, !length_take, !length_drop. lia.
Qed.

(** [encode_remaining] sorts each group before it reads it, so two arrays
    that agree before [next] and group by group from there on give the same
    index. *)
Lemma encode_remaining_equiv (precomp : PairsData) (size : nat) (fuel : nat) :
  forall (ns : list nat) (remainingPawns : Z) (next : nat) (a b : list Z) (idx : Z),
    groups_match precomp size remainingPawns next ns ->
    take next a = take next b ->
    blocks_equiv ns (drop next a) (drop next b) ->
    encode_remaining fuel precomp size remainingPawns next a idx
    = encode_remaining fuel precomp size remainingPawns next b idx.
Proof.
  induction fuel as [|f IH]; intros ns rp next a b idx Hg Ht Hd.
  - done.
  - cbn [encode_remaining].
    destruct (Nat.ltb_spec next size) as [Hlt|Hge]; [|done].
    destruct ns as [|n ns]; simpl in Hg; [lia|].
    destruct Hg as (_ & Hn & Hg). destruct Hd as [Hd1 Hd2].
    set (len := if negb (rp =? 0) then rp else table_at (norm precomp) (Z.of_nat next)) in *.
    rewrite <- Hn.
    assert (Htake : take (next + n) (sort_range Z.ltb next (next + n) a)
                    = take (next + n) (sort_range Z.ltb next (next + n) b)).
    { rewrite !sort_range_take by lia.
      replace (next + n - next)%nat with n by lia.
      by rewrite Ht, (sort_by_ltb_perm _ _ Hd1). }
    rewrite (encode_group_take (next + n) next _ _ _ ltac:(lia) Htake) by lia.
    apply (IH ns); [done|done|].
    rewrite !sort_range_drop by lia.
    by rewrite <- !drop_drop.
Qed.

(** *** The index of a position *)

Lemma agree_map (g : Z -> Z) (k : nat) (ns : list nat) (a b : list Z) :
  agree k ns a b -> agree k ns (map g a) (map g b).
Proof.
  intros [Ht Hd]. split.
  - change (take k (g <$> a) = take k (g <$> b)). by rewrite <- !fmap_take, Ht.
  - change (blocks_equiv ns (drop k (g <$> a)) (drop k (g <$> b))).
    rewrite <- !fmap_drop. by apply blocks_equiv_map.
Qed.

Lemma agree_sq_at (k : nat) (ns : list nat) (a b : list Z) (i : nat) :
  agree k ns a b -> (i < k)%nat -> sq_at a i = sq_at b i.
Proof. intros [Ht _] Hi. by apply (sq_at_take k). Qed.

Lemma agree_if (c : bool) (g : Z -> Z) (k : nat) (ns : list nat) (a b : list Z) :
  agree k ns a b ->
  agree k ns (if c then map g a else a) (if c then map g b else b).
Proof. destruct c; [apply agree_map|done]. Qed.

Lemma agree_sort_range (lt : Z -> Z -> bool) (k : nat) (ns : list nat) (a b : list Z) :
  (1 <= k)%nat -> agree k ns a b ->
  agree k ns (sort_range lt 1 k a) (sort_range lt 1 k b).
Proof.
  intros Hk [Ht Hd]. split.
  - rewrite !sort_range_take by done.
    rewrite (take_take_le 1 k a b) by done.
    rewrite !take_drop_commute.
    replace (1 + (k - 1))%nat with k by lia. by rewrite Ht.
  - by rewrite !sort_range_drop by done.
Qed.

Lemma encode_pawns_take (last : nat) (a b : list Z) :
  take last a = take last b ->
  forall (count i : nat) (idx : Z),
    (i + count <= last)%nat ->
    encode_pawns a i count idx = encode_pawns b i count idx.
Proof.
  intros Ht. induction count as [|c IH]; intros i idx Hi; simpl; [done|].
  rewrite (sq_at_take last i a b) by (done || lia).
  apply IH. lia.
Qed.

Lemma encode_pieces_agree (hasUniquePieces : bool) (ns : list nat) (a b : list Z) :
  agree (if hasUniquePieces then 3 else 2) ns a b ->
  encode_pieces hasUniquePieces a = encode_pieces hasUniquePieces b.
Proof.
  intros Hag. unfold encode_pieces.
  destruct hasUniquePieces.
  - by rewrite (agree_sq_at _ _ _ _ 0 Hag), (agree_sq_at _ _ _ _ 1 Hag),
      (agree_sq_at _ _ _ _ 2 Hag) by lia.
  - by rewrite (agree_sq_at _ _ _ _ 0 Hag), (agree_sq_at _ _ _ _ 1 Hag) by lia.
Qed.

(** The index does not depend on the order in which the pieces behind
    the lead pawns were written to the arrays. *)
Lemma encode_position_perm {Entry : Type} `{TBEntry Entry} (fuel : nat) (entry : Entry)
    (stm : Z) (precomp : PairsData) (lead : list Z) (others others' : list (Z * Z)) :
  others ≡ₚ others' ->
  bucket_fits entry stm precomp (length lead) (map snd others) ->
  encode_position fuel entry stm precomp (length lead)
    (lead ++ map fst others') (replicate (length lead) 0 ++ map snd others')
  = encode_position fuel entry stm precomp (length lead)
      (lead ++ map fst others) (replicate (length lead) 0 ++ map snd others).
Proof.
  intros Hperm (Hlead & Hwant & ns & reps & Hg & Hlen & Hnd & Hgrp).
  rewrite length_map in Hwant, Hg, Hgrp.
  set (n := length others) in *.
  set (limit := if hasPawns entry then 0%nat
                else if piece_hasUniquePieces entry stm then 3%nat else 2%nat) in *.
  assert (Hn' : length others' = n) by (by rewrite <- Hperm).
  destruct (reorder_pieces_spec (pieces precomp) n others lead
              (replicate (length lead) 0)) as (final & Hfp & Hfs & Hrun);
    [done|by rewrite length_replicate|done|].
  destruct (reorder_pieces_spec (pieces precomp) n others' lead
              (replicate (length lead) 0)) as (final' & Hfp' & Hfs' & Hrun');
    [done|by rewrite length_replicate| |].
  { change (snd <$> others' ≡ₚ take n (drop (length lead) (pieces precomp))).
    rewrite <- Hperm. exact Hwant. }
  unfold encode_position.
  rewrite !length_app, !length_map, Hn'. fold n.
  replace (length lead + n - length lead)%nat with n by lia.
  rewrite Hrun, Hrun'.
  assert (Hag : agree (length lead + limit) ns
                  (lead ++ map fst final') (lead ++ map fst final)).
  { assert (Hb : blocks_equiv (replicate limit 1%nat ++ ns)
                   (map fst final') (map fst final)).
    { apply (grouped_blocks_equiv _ reps); [done|done| |by rewrite Hfs', Hgrp
                                                     |by rewrite Hfs, Hgrp].
      by rewrite Hfp, Hfp'. }
    apply blocks_equiv_singles in Hb as [Hb1 Hb2].
    split.
    - rewrite !take_app_ge by lia.
      replace (length lead + limit - length lead)%nat with limit by lia.
      by rewrite Hb1.
    - rewrite !drop_app_ge by lia.
      by replace (length lead + limit - length lead)%nat with limit by lia. }
  assert (Hpos : (0 < length lead + limit)%nat).
  { subst limit. destruct (hasPawns entry); [lia|].
    destruct (piece_hasUniquePieces entry stm); lia. }
  rewrite (agree_sq_at _ _ _ _ 0 Hag Hpos).
  pose proof (agree_if (file_of (sq_at (lead ++ map fst final) 0) >? FILE_D)
                (fun s => Z.lxor s 7) _ _ _ _ Hag) as Hag1.
  set (a1 := if file_of _ >? FILE_D then map _ (lead ++ map fst final') else _) in *.
  set (b1 := if file_of _ >? FILE_D then map _ (lead ++ map fst final) else _) in *.
  clearbody a1 b1.
  subst limit. destruct (hasPawns entry).
  - rewrite Nat.add_0_r in Hag1, Hg.
    pose proof (agree_sort_range (fun i j => Ptwist i >? Ptwist j) (length lead)
                  ns a1 b1 ltac:(lia) Hag1) as Hag2.
    rewrite (agree_sq_at _ _ _ _ 0 Hag2) by lia.
    rewrite (encode_pawns_take (length lead) _ _ (proj1 Hag2)) by lia.
    destruct Hag2 as [Ht Hd].
    by apply (encode_remaining_equiv _ _ _ ns).
  - rewrite Hlead in *. simpl in Hag1, Hg.
    rewrite (agree_sq_at _ _ _ _ 0 Hag1) by (destruct (piece_hasUniquePieces entry stm); lia).
    pose proof (agree_if (rank_of (sq_at b1 0) >? RANK_4)
                  (fun s => Z.lxor s 56) _ _ _ _ Hag1) as Hag2.
    set (a2 := if rank_of _ >? RANK_4 then map _ a1 else _) in *.
    set (b2 := if rank_of _ >? RANK_4 then map _ b1 else _) in *.
    clearbody a2 b2.
    destruct Hag2 as [Ht Hd].
    pose proof (diagonal_flip_equiv
                  (if piece_hasUniquePieces entry stm then 3 else 2)%nat ns
                  (if piece_hasUniquePieces entry stm then 3 else 2)%nat
                  0%nat a2 b2 ltac:(lia) Ht Hd) as Hag3.
    rewrite (encode_pieces_agree _ ns _ _ Hag3).
    destruct (encode_pieces _ _) as [idx next] eqn:Henc.
    assert (next = if piece_hasUniquePieces entry stm then 3%nat else 2%nat) as ->.
    { unfold encode_pieces in Henc.
      destruct (piece_hasUniquePieces entry stm); by injection Henc. }
    destruct Hag3 as [Ht3 Hd3].
    by apply (encode_remaining_equiv _ _ _ ns).
Qed.

(** *** The two ways round the board *)

Lemma range_forall (n : Z) (P : Z -> bool) :
  forallb P (seqZ 0 n) = true -> forall s, 0 <= s < n -> P s = true.
Proof.
  intros HP s Hs. rewrite forallb_forall in HP. apply HP.
  apply list_elem_of_In, elem_of_seqZ. lia.
Qed.

Lemma piece_on_mirror (pos pos' : Position) (s : Z) :
  board pos' = mirror_board (board pos) -> 0 <= s < 64 ->
  piece_on pos' s = flip_piece (piece_on pos (Z.lxor s 56)).
Proof.
  intros Hb Hs. unfold piece_on. rewrite Hb. unfold mirror_board.
  change (map ?f ?l) with (f <$> l).
  rewrite list_lookup_fmap, lookup_seqZ_lt by lia. simpl.
  by rewrite Z2Nat.id by lia.
Qed.

Lemma strongly_sorted_filter {A} (R : relation A) (P : A -> Prop)
    `{!forall x, Decision (P x)} (l : list A) :
  StronglySorted R l -> StronglySorted R (filter P l).
Proof.
  induction 1 as [|x l Hl IH Hx]; [constructor|].
  rewrite filter_cons. case_decide; [|done].
  constructor; [done|].
  rewrite Forall_forall in Hx |- *. intros y Hy.
  apply Hx. by apply list_elem_of_filter in Hy as [_ Hy].
Qed.

Lemma strongly_sorted_seqZ (m : Z) (n : nat) :
  StronglySorted Z.lt (seqZ m (Z.of_nat n)).
Proof.
  revert m. induction n as [|n IH]; intros m.
  - constructor.
  - rewrite seqZ_cons by lia.
    replace (Z.pred (Z.of_nat (S n))) with (Z.of_nat n) by lia.
    constructor; [apply IH|].
    apply Forall_forall. intros y Hy. apply elem_of_seqZ in Hy. lia.
Qed.

Lemma squares_with_sorted (pos : Position) (p : Z -> bool) :
  StronglySorted Z.lt (squares_with pos p).
Proof. apply strongly_sorted_filter, (strongly_sorted_seqZ 0 64). Qed.

Lemma elem_of_squares_with (pos : Position) (p : Z -> bool) (s : Z) :
  s ∈ squares_with pos p <-> p (piece_on pos s) = true /\ 0 <= s < 64.
Proof.
  unfold squares_with. rewrite list_elem_of_filter, elem_of_seqZ. intuition lia.
Qed.

Lemma NoDup_squares_with (pos : Position) (p : Z -> bool) : NoDup (squares_with pos p).
Proof. apply NoDup_filter, NoDup_seqZ. Qed.

Lemma NoDup_flip_rank (l : list Z) :
  NoDup l -> NoDup (map (fun s => Z.lxor s 56) l).
Proof.
  intros Hl. apply (NoDup_fmap_2_strong (fun s => Z.lxor s 56)); [|done].
  intros x y _ _. apply flip_rank_inj.
Qed.

(** The squares of the mirrored board that hold what [p'] asks for are
    the flipped squares of the board that hold what [p] asks for. *)
Lemma squares_with_mirror (pos pos' : Position) (p p' : Z -> bool) :
  board pos' = mirror_board (board pos) ->
  (forall s, 0 <= s < 64 -> p' (flip_piece (piece_on pos s)) = p (piece_on pos s)) ->
  squares_with pos' p' ≡ₚ map (fun s => Z.lxor s 56) (squares_with pos p).
Proof.
  intros Hb Hp.
  apply NoDup_Permutation;
    [apply NoDup_squares_with|apply NoDup_flip_rank, NoDup_squares_with|].
  intros x. rewrite elem_of_squares_with.
  change (map ?f ?l) with (f <$> l). rewrite list_elem_of_fmap.
  split.
  - intros [Hx Hr]. exists (Z.lxor x 56). rewrite flip_rank_twice. split; [done|].
    apply elem_of_squares_with. split; [|by apply flip_rank_range].
    rewrite (piece_on_mirror pos pos') in Hx by done.
    by rewrite <- Hp by (by apply flip_rank_range).
  - intros (y & -> & Hy). apply elem_of_squares_with in Hy as [Hy Hr].
    split; [|by apply flip_rank_range].
    rewrite (piece_on_mirror pos pos') by (done || by apply flip_rank_range).
    by rewrite flip_rank_twice, Hp.
Qed.

Lemma flip_piece_occupied (pc : Z) :
  pc = NO_PIECE \/ is_piece pc = true ->
  negb (flip_piece pc =? NO_PIECE) = negb (pc =? NO_PIECE).
Proof.
  intros Hpc.
  assert (Hr : 0 <= pc < 16) by (unfold is_piece, NO_PIECE in Hpc; lia).
  pose proof (range_forall 16
    (fun pc => implb ((pc =? NO_PIECE) || is_piece pc)
                 (Bool.eqb (negb (flip_piece pc =? NO_PIECE)) (negb (pc =? NO_PIECE))))
    eq_refl pc Hr) as H.
  rewrite implb_true_iff, orb_true_iff, Z.eqb_eq in H.
  by apply eqb_prop, H.
Qed.

Lemma flip_piece_is (pc mp : Z) :
  pc = NO_PIECE \/ is_piece pc = true -> mp = 1 \/ mp = 9 ->
  (flip_piece pc =? Z.lxor mp 8) = (pc =? mp).
Proof.
  intros Hpc Hmp.
  assert (Hr : 0 <= pc < 16) by (unfold is_piece, NO_PIECE in Hpc; lia).
  pose proof (range_forall 16
    (fun pc => implb ((pc =? NO_PIECE) || is_piece pc)
                 (Bool.eqb (flip_piece pc =? Z.lxor 1 8) (pc =? 1)
                  && Bool.eqb (flip_piece pc =? Z.lxor 9 8) (pc =? 9)))
    eq_refl pc Hr) as H.
  rewrite implb_true_iff, orb_true_iff, Z.eqb_eq, andb_true_iff in H.
  destruct (H Hpc) as [H1 H9].
  destruct Hmp as [-> | ->]; by apply eqb_prop.
Qed.

Lemma flip_piece_xor (pc : Z) :
  pc <> NO_PIECE -> flip_piece pc = Z.lxor pc 8.
Proof. intros H. unfold flip_piece. by destruct (Z.eqb_spec pc NO_PIECE). Qed.

Lemma pieces_all_mirror (pos pos' : Position) :
  board pos' = mirror_board (board pos) -> board_ok pos ->
  pieces_all pos' ≡ₚ map (fun s => Z.lxor s 56) (pieces_all pos).
Proof.
  intros Hb Hok. apply squares_with_mirror; [done|].
  intros s Hs. apply flip_piece_occupied, Hok, Hs.
Qed.

Lemma pieces_of_mirror (pos pos' : Position) (mp : Z) :
  board pos' = mirror_board (board pos) -> board_ok pos -> mp = 1 \/ mp = 9 ->
  squares_with pos' (fun pc => pc =? Z.lxor mp 8)
  ≡ₚ map (fun s => Z.lxor s 56) (squares_with pos (fun pc => pc =? mp)).
Proof.
  intros Hb Hok Hmp. apply squares_with_mirror; [done|].
  intros s Hs. apply flip_piece_is; [apply Hok, Hs|done].
Qed.

Lemma probe_others_mirror (pos pos' : Position) (lead lead' : list Z) :
  board pos' = mirror_board (board pos) -> board_ok pos ->
  lead' ≡ₚ map (fun s => Z.lxor s 56) lead ->
  probe_others pos' lead' ≡ₚ map (fun s => Z.lxor s 56) (probe_others pos lead).
Proof.
  intros Hb Hok Hlead. unfold probe_others.
  apply NoDup_Permutation.
  - apply NoDup_filter, NoDup_squares_with.
  - apply NoDup_flip_rank, NoDup_filter, NoDup_squares_with.
  - intros x. change (map ?f ?l) with (f <$> l).
    rewrite list_elem_of_filter, list_elem_of_fmap, (pieces_all_mirror pos pos') by done.
    rewrite Hlead. change (map ?f ?l) with (f <$> l). rewrite !list_elem_of_fmap.
    split.
    + intros [Hx (y & -> & Hy)]. exists y. split; [done|].
      apply list_elem_of_filter. split; [|done].
      intros Hin. apply Hx. by exists y.
    + intros (y & -> & Hy). apply list_elem_of_filter in Hy as [Hn Hy].
      split; [|by exists y].
      intros (z & Hz & Hin). apply flip_rank_inj in Hz as <-. done.
Qed.

Lemma lead_pawn_code (pc0 flip : Z) :
  type_of_piece pc0 = PAWN -> 0 <= pc0 < 16 -> flip = 0 \/ flip = 1 ->
  let mp := make_piece (color_of (Z.lxor pc0 (flip * 8))) PAWN in
  (mp = 1 \/ mp = 9)
  /\ make_piece (color_of (Z.lxor pc0 ((1 - flip) * 8))) PAWN = Z.lxor mp 8.
Proof.
  intros Ht Hr Hf.
  pose proof (range_forall 16
    (fun pc0 => implb (type_of_piece pc0 =? PAWN) ((pc0 =? 1) || (pc0 =? 9)))
    eq_refl pc0 Hr) as H.
  rewrite implb_true_iff, orb_true_iff, !Z.eqb_eq in H.
  destruct (H Ht) as [-> | ->], Hf as [-> | ->]; vm_compute; auto.
Qed.

(** The lead pawns of the mirrored position are the lead pawns of the
    position, flipped. *)
Lemma probe_leadPawns_mirror {Entry : Type} `{TBEntry Entry} (pos pos' : Position)
    (entry : Entry) :
  board pos' = mirror_board (board pos) -> board_ok pos ->
  probe_flip pos entry = 0 \/ probe_flip pos entry = 1 ->
  probe_flip pos' entry = 1 - probe_flip pos entry ->
  table_fits pos entry ->
  match probe_leadPawns pos entry with
  | Some lead =>
      exists lead', probe_leadPawns pos' entry = Some lead'
        /\ lead' ≡ₚ map (fun s => Z.lxor s 56) lead
        /\ StronglySorted Z.lt lead /\ StronglySorted Z.lt lead'
        /\ Forall (fun s => 8 <= s < 56) lead
  | None => probe_leadPawns pos' entry = None
  end.
Proof.
  intros Hb Hok Hf Hf' [Hfit _]. unfold probe_leadPawns.
  destruct (hasPawns entry) eqn:Hpawns.
  - destruct (Hfit eq_refl) as (d0 & -> & Ht & Hr). simpl.
    destruct (lead_pawn_code _ _ Ht Hr Hf) as [Hmp Hmp'].
    eexists. split; [done|].
    unfold pieces_of. rewrite Hf', Hmp'.
    split; [by apply pieces_of_mirror|].
    split; [apply squares_with_sorted|]. split; [apply squares_with_sorted|].
    apply Forall_forall. intros s Hs.
    apply elem_of_squares_with in Hs as [Hs Hr'].
    apply Z.eqb_eq in Hs. apply (Hok s Hr'). rewrite Hs.
    destruct Hmp as [-> | ->]; done.
  - exists []. repeat split; constructor.
Qed.

Lemma probe_lead_squares_mirror {Entry : Type} `{TBEntry Entry} (pos pos' : Position)
    (entry : Entry) (lead lead' : list Z) :
  probe_flip pos entry = 0 \/ probe_flip pos entry = 1 ->
  probe_flip pos' entry = 1 - probe_flip pos entry ->
  lead' ≡ₚ map (fun s => Z.lxor s 56) lead ->
  StronglySorted Z.lt lead -> StronglySorted Z.lt lead' ->
  Forall (fun s => 8 <= s < 56) lead ->
  probe_lead_squares pos' entry lead' = probe_lead_squares pos entry lead.
Proof.
  intros Hf Hf' Hp Hs Hs' Hr. unfold probe_lead_squares.
  assert (Hr' : Forall (fun s => 8 <= s < 56) lead').
  { rewrite Hp. apply Forall_fmap. eapply Forall_impl; [exact Hr|].
    intros s Hs0. simpl. by apply (pawn_square_flip 1); [right|]. }
  assert (Hf1 : probe_flip pos' entry = 0 \/ probe_flip pos' entry = 1) by lia.
  apply (Sorted_unique flap_le).
  - by apply sort_by_Flap_sorted.
  - by apply sort_by_Flap_sorted.
  - rewrite !sort_by_perm, Hp.
    change (map ?f ?l) with (f <$> l). rewrite <- list_fmap_compose.
    apply reflexive_eq, list_fmap_ext. intros i s _. simpl.
    rewrite Hf'. by apply flip_squares_mirror.
Qed.

(** What the second fill loop writes for the mirrored position is what
    it writes for the position, in another order. *)
Lemma probe_fill_mirror {Entry : Type} `{TBEntry Entry} (pos pos' : Position)
    (entry : Entry) (lead lead' squares : list Z) :
  board pos' = mirror_board (board pos) -> board_ok pos ->
  probe_flip pos entry = 0 \/ probe_flip pos entry = 1 ->
  probe_flip pos' entry = 1 - probe_flip pos entry ->
  lead' ≡ₚ map (fun s => Z.lxor s 56) lead ->
  exists others others',
    others ≡ₚ others'
    /\ map snd others
       = map (fun s => Z.lxor (piece_on pos s) (probe_flip pos entry * 8))
             (probe_others pos lead)
    /\ probe_fill pos entry lead squares
       = (squares ++ map fst others, replicate (length lead) 0 ++ map snd others)
    /\ probe_fill pos' entry lead' squares
       = (squares ++ map fst others', replicate (length lead) 0 ++ map snd others').
Proof.
  intros Hb Hok Hf Hf' Hp.
  set (g := fun s => (Z.lxor s (probe_flip pos entry * 56),
                      Z.lxor (piece_on pos s) (probe_flip pos entry * 8))).
  set (g' := fun s => (Z.lxor s (probe_flip pos' entry * 56),
                       Z.lxor (piece_on pos' s) (probe_flip pos' entry * 8))).
  exists (map g (probe_others pos lead)), (map g' (probe_others pos' lead')).
  split; [|split; [|split]].
  - rewrite (probe_others_mirror pos pos' lead lead') by done.
    change (map ?f ?l) with (f <$> l). rewrite <- list_fmap_compose.
    apply reflexive_eq, list_fmap_ext. intros i s Hs. simpl.
    apply list_elem_of_lookup_2 in Hs.
    apply list_elem_of_filter in Hs as [_ Hs].
    apply elem_of_squares_with in Hs as [Hocc Hr].
    unfold g, g'. rewrite Hf'.
    rewrite flip_squares_mirror by done.
    rewrite (piece_on_mirror pos pos') by (done || by apply flip_rank_range).
    rewrite flip_rank_twice, flip_piece_xor.
    + by rewrite flip_color_mirror.
    + intros H0. by rewrite H0 in Hocc.
  - by rewrite map_map.
  - unfold probe_fill. by rewrite !map_map.
  - unfold probe_fill. rewrite !map_map.
    replace (length lead') with (length lead); [done|].
    by rewrite Hp, length_map.
Qed.

(** Probing a table for a position and for its mirror reads the same
    value: the mirror changes the order in which the board is walked and
    nothing else. *)
Lemma probe_table_mirror {Entry : Type} `{TBEntry Entry} (fuel : nat) (m : Mem)
    (pos pos' : Position) (entry : Entry) (wdl success : Z) :
  board pos' = mirror_board (board pos) -> board_ok pos ->
  probe_flip pos entry = 0 \/ probe_flip pos entry = 1 ->
  probe_flip pos' entry = 1 - probe_flip pos entry ->
  probe_stm pos' entry = probe_stm pos entry ->
  table_fits pos entry ->
  probe_table fuel m pos' entry wdl success = probe_table fuel m pos entry wdl success.
Proof.
  intros Hb Hok Hf Hf' Hstm Hfit.
  pose proof (probe_leadPawns_mirror pos pos' entry Hb Hok Hf Hf' Hfit) as Hlead.
  unfold probe_table. rewrite Hstm.
  destruct (probe_leadPawns pos entry) as [lead|] eqn:Hl; [|by rewrite Hlead].
  destruct Hlead as (lead' & -> & Hp & Hs & Hs' & Hr). simpl.
  rewrite (probe_lead_squares_mirror pos pos' entry lead lead') by done.
  set (squares := probe_lead_squares pos entry lead).
  destruct (is_DTZEntry && _); [done|].
  destruct (probe_precomp entry _ _) as [precomp|] eqn:Hpre; [|done]. simpl.
  destruct Hfit as [_ Hfit]. specialize (Hfit lead precomp Hl Hpre).
  destruct (probe_fill_mirror pos pos' entry lead lead' squares Hb Hok Hf Hf' Hp)
    as (others & others' & Hperm & Hsnd & Hfill & Hfill').
  unfold probe_index. rewrite Hfill, Hfill'.
  assert (Hlen : length lead = length squares).
  { unfold squares, probe_lead_squares. by rewrite sort_by_length, length_map. }
  replace (length lead') with (length lead) by (by rewrite Hp, length_map).
  rewrite Hlen in Hfit |- *. rewrite <- Hsnd in Hfit.
  by rewrite (encode_position_perm fuel entry _ precomp squares others others').
Qed.

(** ** The search of [probe_wdl] computes a game value *)

Lemma foldr_max_le_base (a : Z) (l : list Z) : a <= foldr Z.max a l.
Proof. induction l as [|x l IH]; simpl; lia. Qed.

Lemma foldr_max_absorb (a x : Z) (l : list Z) :
  a <= x -> Z.max x (foldr Z.max a l) = foldr Z.max x l.
Proof. intros Hax. induction l as [|y l IH]; simpl; lia. Qed.

Lemma foldr_max_swap (a t : Z) (l : list Z) :
  Z.max (foldr Z.max a l) t = Z.max (foldr Z.max t l) a.
Proof. induction l as [|y l IH]; simpl; lia. Qed.

Lemma foldr_max_ge (b a t : Z) (l : list Z) :
  a < b -> b <= foldr Z.max a l -> b <= foldr Z.max t l.
Proof. intros Hab. induction l as [|y l IH]; simpl; lia. Qed.

Lemma foldr_max_perm (a : Z) (l l' : list Z) :
  l ≡ₚ l' -> foldr Z.max a l = foldr Z.max a l'.
Proof.
  intros Hp. apply (foldr_permutation (=) Z.max a); [|done].
  intros j1 a1 j2 a2 b _ _ _. lia.
Qed.

Lemma searched_trans `{Host} (pos q r : Position) :
  searched pos q -> searched q r -> searched pos r.
Proof.
  intros Hpq Hqr. induction Hqr as [|r move _ IH Hin|r move _ IH Hin]; [done|..].
  - by apply searched_capture.
  - by apply searched_ep.
Qed.

Lemma ep_loop_skip `{Host} (ab : ProbeAB) (pos : Position) (move : Z) (rest : list Z)
    (v1 : Z) (st : TB) :
  ep_candidate pos move = false ->
  ep_loop ab pos (move :: rest) v1 st = ep_loop ab pos rest v1 st.
Proof.
  unfold ep_candidate. intros Hc. simpl.
  by destruct (MoveType_eqb _ _), (legal pos move).
Qed.

Lemma ep_loop_filter `{Host} (ab : ProbeAB) (pos : Position) (moves : list Z) :
  forall (v1 : Z) (st : TB),
    ep_loop ab pos moves v1 st
    = ep_loop ab pos (filter (fun move => ep_candidate pos move = true) moves) v1 st.
Proof.
  induction moves as [|move rest IH]; intros v1 st; [done|].
  destruct (ep_candidate pos move) eqn:Hc.
  - rewrite filter_cons_True by done. rewrite !ep_loop_step by done.
    destruct (ab _ _ _ _) as [[v st1]|]; [simpl|done].
    by repeat case_match.
  - rewrite filter_cons_False by (by rewrite Hc). by rewrite ep_loop_skip.
Qed.

Lemma ep_moves_candidates `{Host} (pos : Position) :
  Forall (fun move => ep_candidate pos move = true) (ep_moves pos).
Proof. apply Forall_forall. intros move Hin. by apply list_elem_of_filter in Hin as [? _]. Qed.

Lemma probe_table_success {Entry : Type} `{TBEntry Entry} (fuel : nat) (m : Mem)
    (pos : Position) (entry : Entry) (wdl s s' : Z) :
  fst <$> probe_table fuel m pos entry wdl s = fst <$> probe_table fuel m pos entry wdl s'.
Proof.
  unfold probe_table.
  destruct (probe_leadPawns pos entry); [simpl|done].
  destruct (is_DTZEntry && _); [done|].
  destruct (probe_precomp _ _ _); [simpl|done].
  destruct (probe_index _ _ _ _ _ _ _); [simpl|done].
  destruct (decompress_pairs _ _ _ _); [simpl|done].
  by destruct (map_score _ _ _ _ _).
Qed.

(** *** The search under an invariant of the tables

    The search reads the tables through [probe_wdl_table] only.  Whatever
    the tables are and however the probes change them, as long as an
    invariant [Inv] of the state is kept and every probe on the way answers
    with the value [tv] of its position, [probe_ab] and [probe_wdl] compute
    the game value of [tv]. *)
Section SearchInv.
Context `{Host} (tfuel : nat) (tv : Position -> Z) (Inv : TB -> Prop).
Hypothesis Inv_tick : forall st, Inv st -> Inv (tick st).
Hypothesis Inv_success : forall s st, Inv st -> Inv (set_success s st).

(** [probe_ab]'s result in a window against the value of the position:
    at most [alpha] it is [alpha], at least [beta] it is at least [beta],
    in between it is the value. *)
Lemma ab_result_bounds (f : nat) (pos : Position) (alpha beta : Z) :
  alpha < beta ->
  let W := wdl_minimax tv (S f) pos in
  let r := ab_result tv f pos alpha beta in
  (W <= alpha -> r = alpha) /\ (beta <= W -> beta <= r)
  /\ (alpha < W < beta -> r = W).
Proof.
  intros Hab. cbv zeta. unfold ab_result, ab_best. cbn [wdl_minimax].
  set (vals := map _ (ab_captures pos)).
  pose proof (foldr_max_swap alpha (tv pos) vals) as Hswap.
  pose proof (foldr_max_le_base alpha vals) as Hbase.
  destruct (Z.leb_spec beta (foldr Z.max alpha vals)) as [Hcut|Hno].
  - pose proof (foldr_max_ge beta alpha (tv pos) vals Hab Hcut). lia.
  - lia.
Qed.

Lemma ab_success_either (f : nat) (pos : Position) (alpha beta : Z) :
  ab_success tv f pos alpha beta = 1 \/ ab_success tv f pos alpha beta = 2.
Proof.
  unfold ab_success.
  destruct (_ <=? _); [by right|].
  destruct (_ >=? _); [|by left].
  destruct (_ >? 0); simpl; auto.
Qed.

(** The capture loop, each child answering as [ab_result_bounds] says. *)
Lemma ab_loop_minimax (rec : ProbeAB) (pos : Position) (beta : Z) (Wc : Z -> Z)
    (caps : list Z) :
  Forall (fun move => ab_candidate pos move = true) caps ->
  (forall move a st, move ∈ caps -> a < beta -> success st <> 0 -> Inv st ->
     exists r st',
       rec (do_move pos move) (- beta) (- a) st = Some (r, st')
       /\ success st' <> 0 /\ Inv st'
       /\ (Wc move <= - beta -> r = - beta)
       /\ (- a <= Wc move -> - a <= r)
       /\ (- beta < Wc move < - a -> r = Wc move)) ->
  forall a st, a < beta -> success st <> 0 -> Inv st ->
    let best := foldr Z.max a (map (fun move => - Wc move) caps) in
    exists st',
      success st' <> 0 /\ Inv st'
      /\ ab_loop rec pos caps a beta st
         = Some (if beta <=? best then Return beta (set_success 2 st')
                 else Continue best st').
Proof.
  intros Hcand Hrec.
  induction caps as [|move rest IH]; intros a st Hab Hs Hinv; simpl foldr.
  - exists st. destruct (Z.leb_spec beta a); [lia|]. done.
  - apply Forall_cons in Hcand as [Hc Hcand].
    rewrite ab_loop_step by done.
    destruct (Hrec move a st) as (r & st1 & -> & Hs1 & Hinv1 & Hlo & Hhi & Hmid);
      [left|done..|].
    simpl.
    destruct (Z.eqb_spec (success st1) 0) as [|_]; [done|].
    assert (IH' : forall a', a' < beta ->
              exists st',
                success st' <> 0 /\ Inv st'
                /\ ab_loop rec pos rest a' beta st1
                   = Some (if beta <=? foldr Z.max a' (map (fun move => - Wc move) rest)
                           then Return beta (set_success 2 st')
                           else Continue (foldr Z.max a' (map (fun move => - Wc move) rest))
                                  st')).
    { intros a' Ha'. apply IH; [done| |done..].
      intros m a0 st0 Hin. apply Hrec. by right. }
    set (tail := foldr Z.max a (map (fun move => - Wc move) rest)).
    pose proof (foldr_max_le_base a (map (fun move => - Wc move) rest)) as Hbase.
    fold tail in Hbase.
    destruct (Z_le_gt_dec (Wc move) (- beta)) as [Hcut|Hnocut].
    + (* the capture reaches beta *)
      rewrite (Hlo Hcut). replace (- - beta) with beta by lia.
      destruct (Z.gtb_spec beta a); [|lia].
      destruct (Z.geb_spec beta beta); [|lia].
      exists st1. destruct (Z.leb_spec beta (Z.max (- Wc move) tail)); [done|lia].
    + destruct (Z_le_gt_dec (- a) (Wc move)) as [Hlow|Hin].
      * (* the capture does not raise alpha *)
        specialize (Hhi Hlow).
        destruct (Z.gtb_spec (- r) a); [lia|].
        replace (Z.max (- Wc move) tail) with tail by lia.
        by apply IH'.
      * (* the capture raises alpha to its value *)
        rewrite Hmid by lia.
        destruct (Z.gtb_spec (- Wc move) a); [|lia].
        destruct (Z.geb_spec (- Wc move) beta); [lia|].
        unfold tail. rewrite foldr_max_absorb by lia.
        apply IH'. lia.
Qed.

(** One call of [probe_ab], the calls it makes answering as
    [ab_result_bounds] says. *)
Lemma probe_ab_step (f : nat) (pos : Position) (alpha beta : Z) (st : TB) :
  (forall move a st, move ∈ ab_captures pos -> a < beta -> success st <> 0 -> Inv st ->
     exists r st',
       probe_ab f tfuel (do_move pos move) (- beta) (- a) st = Some (r, st')
       /\ success st' <> 0 /\ Inv st'
       /\ (wdl_minimax tv f (do_move pos move) <= - beta -> r = - beta)
       /\ (- a <= wdl_minimax tv f (do_move pos move) -> - a <= r)
       /\ (- beta < wdl_minimax tv f (do_move pos move) < - a ->
           r = wdl_minimax tv f (do_move pos move))) ->
  alpha < beta -> table_answers tfuel tv Inv pos ->
  success st <> 0 -> Inv st ->
  exists st',
    probe_ab (S f) tfuel pos alpha beta st = Some (ab_result tv f pos alpha beta, st')
    /\ success st' = ab_success tv f pos alpha beta
    /\ Inv st'.
Proof.
  intros Hrec Hab Hanswers Hs Hinv.
  cbn [probe_ab]. unfold probe_ab_with.
  rewrite ab_loop_filter.
  change (filter _ _) with (ab_captures pos).
  destruct (ab_loop_minimax (probe_ab f tfuel) pos beta
              (fun move => wdl_minimax tv f (do_move pos move)) (ab_captures pos)
              (ab_captures_candidates pos) Hrec alpha (tick st) Hab Hs (Inv_tick _ Hinv))
    as (st1 & Hs1 & Hinv1 & ->).
  simpl. unfold ab_result, ab_success, ab_best.
  set (best := foldr Z.max alpha _).
  destruct (Z.leb_spec beta best) as [Hcut|Hno].
  - exists (set_success 2 st1). split; [done|]. split; [done|]. by apply Inv_success.
  - unfold ab_table.
    destruct (Hanswers st1 Hinv1) as (st2 & -> & Hinv2 & Hs2). simpl.
    rewrite Hs2.
    destruct (Z.eqb_spec (success st1) 0) as [|_]; [done|].
    destruct (Z.geb_spec best (tv pos)).
    + eexists. split; [f_equal; f_equal; lia|]. split; [done|]. by apply Inv_success.
    + eexists. split; [f_equal; f_equal; lia|]. split; [done|]. by apply Inv_success.
Qed.

(** [probe_ab] returns [ab_result]: with enough fuel for the captures
    there can be, and every table probe on the way answering. *)
Lemma probe_ab_answers (f : nat) :
  forall (pos : Position) (alpha beta : Z) (st : TB),
    alpha < beta -> (length (pieces_all pos) <= f)%nat ->
    (forall q, searched pos q ->
       table_answers tfuel tv Inv q
       /\ forall move, move ∈ ab_captures q \/ move ∈ ep_moves q ->
            (length (pieces_all (do_move q move)) < length (pieces_all q))%nat) ->
    success st <> 0 -> Inv st ->
    exists st',
      probe_ab (S f) tfuel pos alpha beta st = Some (ab_result tv f pos alpha beta, st')
      /\ success st' = ab_success tv f pos alpha beta
      /\ Inv st'.
Proof.
  induction f as [|f IH]; intros pos alpha beta st Hab Hcount Hok Hs Hinv.
  - apply probe_ab_step; [|done|apply Hok; constructor|done..].
    intros move a st0 Hin.
    destruct (Hok pos (searched_root pos)) as [_ Hshrink].
    specialize (Hshrink move (or_introl Hin)). lia.
  - apply probe_ab_step; [|done|apply Hok; constructor|done..].
    intros move a st0 Hin Ha Hs0 Hinv0.
    destruct (Hok pos (searched_root pos)) as [_ Hshrink].
    specialize (Hshrink move (or_introl Hin)).
    destruct (IH (do_move pos move) (- beta) (- a) st0) as (st' & -> & Hs' & Hinv');
      [lia|lia| |done..|].
    { intros q Hq. apply Hok. apply (searched_trans _ (do_move pos move)); [|done].
      by apply searched_capture; [constructor|]. }
    eexists _, st'. split; [done|].
    split; [destruct (ab_success_either f (do_move pos move) (- beta) (- a)); lia|].
    split; [done|].
    apply (ab_result_bounds f (do_move pos move) (- beta) (- a)). lia.
Qed.

(** The en passant loop keeps the best of the values its captures get. *)
Lemma ep_loop_best (ab : ProbeAB) (pos : Position) (R : Z -> Z) (moves : list Z) :
  Forall (fun move => ep_candidate pos move = true) moves ->
  (forall move st, move ∈ moves -> success st <> 0 -> Inv st ->
     exists st',
       ab (do_move pos move) WDLLoss WDLWin st = Some (R move, st')
       /\ success st' <> 0 /\ Inv st') ->
  forall v1 st, success st <> 0 -> Inv st ->
    exists st',
      ep_loop ab pos moves v1 st
      = Some (Continue (foldr Z.max v1 (map (fun move => - R move) moves)) st')
      /\ success st' <> 0 /\ Inv st'.
Proof.
  intros Hcand Hrec.
  induction moves as [|move rest IH]; intros v1 st Hs Hinv.
  - by exists st.
  - apply Forall_cons in Hcand as [Hc Hcand].
    rewrite ep_loop_step by done.
    destruct (Hrec move st) as (st1 & -> & Hs1 & Hinv1); [left|done..|].
    simpl. destruct (Z.eqb_spec (success st1) 0) as [|_]; [done|].
    assert (IH' : forall v, exists st',
              ep_loop ab pos rest v st1
              = Some (Continue (foldr Z.max v (map (fun move => - R move) rest)) st')
              /\ success st' <> 0 /\ Inv st').
    { intros v. apply IH; [done| |done..].
      intros m st0 Hin. apply Hrec. by right. }
    pose proof (foldr_max_le_base v1 (map (fun move => - R move) rest)) as Hbase.
    destruct (Z.gtb_spec (- R move) v1).
    + destruct (IH' (- R move)) as (st' & -> & Hrest). exists st'.
      split; [|done]. do 2 f_equal.
      rewrite <- (foldr_max_absorb v1 (- R move)) by lia. done.
    + destruct (IH' v1) as (st' & -> & Hrest). exists st'.
      split; [|done]. do 2 f_equal. lia.
Qed.

(** [probe_wdl] returns [wdl_result]. *)
Lemma probe_wdl_answers (f : nat) (pos : Position) (st : TB) :
  (length (pieces_all pos) <= f)%nat ->
  (forall q, searched pos q ->
     table_answers tfuel tv Inv q
     /\ forall move, move ∈ ab_captures q \/ move ∈ ep_moves q ->
          (length (pieces_all (do_move q move)) < length (pieces_all q))%nat) ->
  Inv st ->
  exists st',
    probe_wdl (S f) tfuel pos st = Some (wdl_result tv f pos, st')
    /\ success st' <> 0 /\ Inv st'.
Proof.
  intros Hcount Hok Hinv.
  unfold probe_wdl, probe_wdl_with, wdl_result.
  destruct (probe_ab_answers f pos WDLLoss WDLWin (set_success 1 (tick st)))
    as (st1 & -> & Hs1 & Hinv1); [done..|by apply Inv_success, Inv_tick|].
  assert (Hs1' : success st1 <> 0).
  { destruct (ab_success_either f pos WDLLoss WDLWin); lia. }
  cbn [mbind option_bind]. destruct (epSquare pos =? SQ_NONE); [by exists st1|].
  destruct (Z.eqb_spec (success st1) 0) as [|_]; [done|].
  rewrite ep_loop_filter. change (filter _ _) with (ep_moves pos).
  destruct (ep_loop_best (probe_ab (S f) tfuel) pos
              (fun move => ab_result tv f (do_move pos move) WDLLoss WDLWin)
              (ep_moves pos) (ep_moves_candidates pos)) with (v1 := -3) (st := st1)
    as (st2 & -> & Hs2 & Hinv2); [|done..|].
  { intros move st0 Hin Hs0 Hinv0.
    destruct (Hok pos (searched_root pos)) as [_ Hshrink].
    specialize (Hshrink move (or_intror Hin)).
    destruct (probe_ab_answers f (do_move pos move) WDLLoss WDLWin st0)
      as (st' & -> & Hs' & Hinv'); [done|lia| |done..|].
    { intros q Hq. apply Hok. apply (searched_trans _ (do_move pos move)); [|done].
      by apply searched_ep; [constructor|]. }
    exists st'. split; [done|].
    split; [|done].
    destruct (ab_success_either f (do_move pos move) WDLLoss WDLWin); lia. }
  simpl. by exists st2.
Qed.
End SearchInv.

(** *** The search with every table loaded *)
Section Search.
Context `{Host} (tfuel : nat) (hash : HashTable) (table : list WDLEntry).

Local Notation "'tv'" := (table_value tfuel hash table).

Lemma ab_result_spec (f : nat) (pos : Position) (alpha beta : Z) :
  alpha < beta ->
  let W := wdl_minimax tv (S f) pos in
  let r := ab_result tv f pos alpha beta in
  (W <= alpha -> r = alpha) /\ (beta <= W -> beta <= r)
  /\ (alpha < W < beta -> r = W).
Proof. apply ab_result_bounds. Qed.

(** A ready table answers with its value and leaves the state alone. *)
Lemma probe_wdl_table_ready (pos : Position) (st : TB) :
  table_ready tfuel hash table pos ->
  WDLHash st = hash -> WDLTable st = table ->
  probe_wdl_table tfuel pos st = Some (tv pos, tick st).
Proof.
  intros Hready Hh Ht. unfold probe_wdl_table, table_value.
  case_bool_decide as Hkk; [done|].
  destruct Hready as [Hkk'|(ptr & entry & Hptr & Hentry & Hrdy & [[v s] Hprobe])]; [done|].
  change (WDLHash (tick st)) with (WDLHash st).
  change (WDLTable (tick st)) with (WDLTable st).
  rewrite Hh, Ht, Hptr. simpl. rewrite Hentry. simpl. rewrite Hrdy. simpl.
  rewrite list_insert_id by done.
  pose proof (probe_table_success tfuel host_mem pos entry WDLDraw 1 (success st)) as Hs.
  rewrite Hprobe in Hs. simpl in Hs.
  destruct (probe_table tfuel host_mem pos entry WDLDraw (success st))
    as [[v' s']|]; simpl in Hs; [|done].
  injection Hs as <-. simpl.
  rewrite Hprobe. simpl. do 2 f_equal.
  destruct st. unfold set_WDLTable, tick. simpl in *. by subst.
Qed.

Lemma ab_success_cases (f : nat) (pos : Position) (alpha beta : Z) :
  ab_success tv f pos alpha beta = 1 \/ ab_success tv f pos alpha beta = 2.
Proof. apply ab_success_either. Qed.

(** With the tables loaded the state keeps them as they are. *)
Lemma search_ok_answers (q : Position) :
  search_ok tfuel hash table q ->
  table_answers tfuel tv (fun st => WDLHash st = hash /\ WDLTable st = table) q
  /\ forall move, move ∈ ab_captures q \/ move ∈ ep_moves q ->
       (length (pieces_all (do_move q move)) < length (pieces_all q))%nat.
Proof.
  intros [Hready Hshrink]. split; [|done].
  intros st [Hh Ht]. exists (tick st).
  by rewrite (probe_wdl_table_ready q st).
Qed.

(** [probe_ab] returns [ab_result]: with enough fuel for the captures
    there can be, and every table on the way ready. *)
Lemma probe_ab_minimax (f : nat) :
  forall (pos : Position) (alpha beta : Z) (st : TB),
    alpha < beta -> (length (pieces_all pos) <= f)%nat ->
    (forall q, searched pos q -> search_ok tfuel hash table q) ->
    success st <> 0 -> WDLHash st = hash -> WDLTable st = table ->
    exists st',
      probe_ab (S f) tfuel pos alpha beta st = Some (ab_result tv f pos alpha beta, st')
      /\ success st' = ab_success tv f pos alpha beta
      /\ WDLHash st' = hash /\ WDLTable st' = table.
Proof.
  intros pos alpha beta st Hab Hcount Hok Hs Hh Ht.
  destruct (probe_ab_answers tfuel tv (fun st => WDLHash st = hash /\ WDLTable st = table)
              ltac:(done) ltac:(done) f pos alpha beta st)
    as (st' & Hrun & Hs' & Hh' & Ht'); [done|done| |done|done|by exists st'].
  intros q Hq. by apply search_ok_answers, Hok.
Qed.

(** [probe_wdl] returns [wdl_result]. *)
Lemma probe_wdl_minimax (f : nat) (pos : Position) (st : TB) :
  (length (pieces_all pos) <= f)%nat ->
  (forall q, searched pos q -> search_ok tfuel hash table q) ->
  WDLHash st = hash -> WDLTable st = table ->
  exists st',
    probe_wdl (S f) tfuel pos st = Some (wdl_result tv f pos, st')
    /\ success st' <> 0 /\ WDLHash st' = hash /\ WDLTable st' = table.
Proof.
  intros Hcount Hok Hh Ht.
  destruct (probe_wdl_answers tfuel tv (fun st => WDLHash st = hash /\ WDLTable st = table)
              ltac:(done) ltac:(done) f pos st)
    as (st' & Hrun & Hs' & Hh' & Ht'); [done| |done|by exists st'].
  intros q Hq. by apply search_ok_answers, Hok.
Qed.
End Search.

(** ** The search of a position and of its mirror *)

Lemma filter_map_iff {A} (P P' : A -> Prop) `{!forall x, Decision (P x)}
    `{!forall x, Decision (P' x)} (f : A -> A) (l : list A) :
  (forall x, x ∈ l -> (P' (f x) <-> P x)) ->
  filter P' (map f l) = map f (filter P l).
Proof.
  induction l as [|x l IH]; intros Hiff; [done|]. simpl.
  assert (Hx := Hiff x ltac:(left)).
  assert (IH' := IH (fun y Hy => Hiff y ltac:(by right))).
  destruct (decide (P x)).
  - rewrite !filter_cons_True by tauto. simpl. by rewrite IH'.
  - rewrite !filter_cons_False by tauto. done.
Qed.

Lemma bind_map_commute (f : Z -> Z) (g g' : Z -> list Z) (l : list Z) :
  (forall x, x ∈ l -> g' (f x) = map f (g x)) ->
  map f l ≫= g' = map f (l ≫= g).
Proof.
  induction l as [|x l IH]; intros Hg; [done|].
  change (map f (x :: l)) with (f x :: map f l).
  rewrite !bind_cons, map_app, Hg by left.
  f_equal. apply IH. intros y Hy. apply Hg. by right.
Qed.

Lemma existsb_perm_map (P P' : Z -> bool) (f : Z -> Z) (l l' : list Z) :
  l' ≡ₚ map f l -> (forall x, x ∈ l -> P' (f x) = P x) ->
  existsb P' l' = existsb P l.
Proof.
  intros Hp HP. apply eq_true_iff_eq. rewrite !existsb_exists. split.
  - intros (y & Hy & HPy). apply list_elem_of_In in Hy. rewrite Hp in Hy.
    change (map f l) with (f <$> l) in Hy.
    apply list_elem_of_fmap in Hy as (x & -> & Hx).
    exists x. split; [by apply list_elem_of_In|]. by rewrite <- HP.
  - intros (x & Hx & HPx). apply list_elem_of_In in Hx.
    exists (f x). split; [|by rewrite HP].
    apply list_elem_of_In. rewrite Hp.
    change (map f l) with (f <$> l). apply list_elem_of_fmap. by exists x.
Qed.

#[local] Instance Z_lt_antisymm : AntiSymm (=) Z.lt.
Proof. intros x y. lia. Qed.

Lemma flip_rank_map_twice (l : list Z) :
  map (fun s => Z.lxor s 56) (map (fun s => Z.lxor s 56) l) = l.
Proof.
  rewrite map_map. rewrite <- (map_id l) at 2.
  apply map_ext. intros s. apply flip_rank_twice.
Qed.

Lemma type_of_flip_piece (pc : Z) :
  pc = NO_PIECE \/ is_piece pc = true ->
  (negb (flip_piece pc =? NO_PIECE) && (type_of_piece (flip_piece pc) =? KING))
  = (negb (pc =? NO_PIECE) && (type_of_piece pc =? KING)).
Proof.
  intros Hpc.
  assert (Hr : 0 <= pc < 16) by (unfold is_piece, NO_PIECE in Hpc; lia).
  pose proof (range_forall 16
    (fun pc => implb ((pc =? NO_PIECE) || is_piece pc)
                 (Bool.eqb (negb (flip_piece pc =? NO_PIECE)
                            && (type_of_piece (flip_piece pc) =? KING))
                           (negb (pc =? NO_PIECE) && (type_of_piece pc =? KING))))
    eq_refl pc Hr) as H.
  rewrite implb_true_iff, orb_true_iff, Z.eqb_eq in H.
  by apply eqb_prop, H.
Qed.

Section Mirror.
Context `{Host} (mirror : Position -> Position) (mirror_move : Z -> Z).
Context (tfuel : nat) (hash : HashTable) (table : list WDLEntry).

Local Notation "'tv'" := (table_value tfuel hash table).
Local Notation "'ok'" := (mirrored mirror mirror_move tfuel hash table).

Lemma pieces_count_mirror (q : Position) :
  ok q -> length (pieces_all (mirror q)) = length (pieces_all q).
Proof.
  intros Hq.
  rewrite (pieces_all_mirror q (mirror q)) by apply Hq.
  apply length_map.
Qed.

(** Only the kings are left on the mirror when only they are left on the
    board. *)
Lemma bare_kings_mirror (q : Position) :
  ok q ->
  pieces_all (mirror q) = pieces_of_type (mirror q) KING
  <-> pieces_all q = pieces_of_type q KING.
Proof.
  intros Hq.
  pose proof (pieces_all_mirror q (mirror q) (mirrored_board _ _ _ _ _ _ Hq)
                (mirrored_board_ok _ _ _ _ _ _ Hq)) as Hall.
  assert (Hking : pieces_of_type (mirror q) KING
                  ≡ₚ map (fun s => Z.lxor s 56) (pieces_of_type q KING)).
  { apply squares_with_mirror; [apply Hq|].
    intros s Hs. apply type_of_flip_piece. by apply (mirrored_board_ok _ _ _ _ _ _ Hq). }
  split; intros Heq.
  - apply (StronglySorted_unique Z.lt); [apply squares_with_sorted..|].
    rewrite <- (flip_rank_map_twice (pieces_all q)),
      <- (flip_rank_map_twice (pieces_of_type q KING)).
    change (map ?f ?l) with (f <$> l). f_equiv.
    change (?f <$> ?l) with (map f l). by rewrite <- Hall, <- Hking, Heq.
  - apply (StronglySorted_unique Z.lt); [apply squares_with_sorted..|].
    by rewrite Hall, Hking, Heq.
Qed.

Lemma probe_flip_mirror (q : Position) (entry : WDLEntry) :
  ok q ->
  wdl_symmetric entry = true
  \/ (materialKey q =? wdl_key entry) = negb (materialKey (mirror q) =? wdl_key entry) ->
  (probe_flip q entry = 0 \/ probe_flip q entry = 1)
  /\ probe_flip (mirror q) entry = 1 - probe_flip q entry
  /\ probe_stm (mirror q) entry = probe_stm q entry.
Proof.
  intros Hq Hkey. unfold probe_flip, probe_stm. simpl.
  pose proof (mirrored_side _ _ _ _ _ _ Hq) as Hside.
  pose proof (mirrored_sideToMove _ _ _ _ _ _ Hq) as Hstm.
  unfold WHITE, BLACK in *.
  destruct (wdl_symmetric entry).
  - repeat split; [lia|done].
  - destruct Hkey as [|Hkey]; [done|]. rewrite Hkey, Hstm.
    destruct (materialKey (mirror q) =? wdl_key entry); simpl;
      destruct Hside as [-> | ->]; simpl; auto.
Qed.

(** The table says of the mirror what it says of the position. *)
Lemma table_value_mirror (q : Position) :
  ok q ->
  table_ready tfuel hash table q /\ table_ready tfuel hash table (mirror q)
  /\ tv (mirror q) = tv q.
Proof.
  intros Hq. unfold table_value, table_ready.
  pose proof (bare_kings_mirror q Hq) as Hkk.
  rewrite (bool_decide_ext _ _ Hkk).
  case_bool_decide as Hbare.
  - apply Hkk in Hbare as Hbare'. auto.
  - destruct (mirrored_table _ _ _ _ _ _ Hq)
      as [|(ptr & entry & Hptr & Hptr' & Hentry & Hrdy & Hkey & Hfit & Hsome)]; [done|].
    destruct (probe_flip_mirror q entry Hq Hkey) as (Hf & Hf' & Hstm).
    pose proof (probe_table_mirror tfuel host_mem q (mirror q) entry WDLDraw 1
                  (mirrored_board _ _ _ _ _ _ Hq) (mirrored_board_ok _ _ _ _ _ _ Hq)
                  Hf Hf' Hstm Hfit) as Hprobe.
    split; [right; by exists ptr, entry|].
    split; [right; exists ptr, entry; by rewrite Hprobe|].
    rewrite Hptr, Hptr'. simpl. rewrite Hentry. simpl. by rewrite Hprobe.
Qed.

Lemma ab_stack_seen (q : Position) (move : Z) :
  move ∈ ab_stack q -> move ∈ moves_seen q.
Proof. intros Hin. unfold moves_seen. rewrite !elem_of_app. auto. Qed.

Lemma generate_captures_seen (q : Position) (move : Z) :
  move ∈ generate_captures q -> move ∈ moves_seen q.
Proof. intros Hin. unfold moves_seen. rewrite !elem_of_app. auto. Qed.

Lemma generate_captures_mirror (q : Position) :
  ok q -> generate_captures (mirror q) ≡ₚ map mirror_move (generate_captures q).
Proof.
  intros Hq. unfold generate_captures.
  rewrite (mirrored_checkers _ _ _ _ _ _ Hq).
  destruct (checkersBB q =? 0); apply Hq.
Qed.

(** The stack of [probe_ab], under-promotions included. *)
Lemma ab_stack_mirror (q : Position) :
  ok q -> ab_stack (mirror q) ≡ₚ map mirror_move (ab_stack q).
Proof.
  intros Hq. unfold ab_stack.
  rewrite (mirrored_checkers _ _ _ _ _ _ Hq).
  destruct (checkersBB q =? 0); [|apply Hq].
  unfold add_underprom_caps.
  rewrite (mirrored_generate _ _ _ _ _ _ Hq CAPTURES).
  rewrite map_app. f_equiv.
  apply reflexive_eq, bind_map_commute.
  intros move Hin.
  destruct (mirrored_promotion _ _ _ _ _ _ Hq move Hin) as (Hr & Hto & Hty & Hunder).
  apply Forall_cons in Hunder as [H1 Hunder].
  apply Forall_cons in Hunder as [H2 Hunder].
  apply Forall_cons in Hunder as [H3 _].
  rewrite Hty, Hto.
  rewrite (piece_on_mirror q (mirror q)) by (apply Hq || by apply flip_rank_range).
  rewrite flip_rank_twice.
  pose proof (flip_piece_occupied (piece_on q (to_sq move))
                (proj1 (mirrored_board_ok _ _ _ _ _ _ Hq _ Hr))) as Hocc.
  rewrite Hocc.
  destruct (_ && _); [|done]. simpl. by rewrite H1, H2, H3.
Qed.

Lemma ab_candidate_mirror (q : Position) (move : Z) :
  ok q -> move ∈ moves_seen q ->
  ab_candidate (mirror q) (mirror_move move) = ab_candidate q move.
Proof.
  intros Hq Hin. unfold ab_candidate.
  destruct (mirrored_moves _ _ _ _ _ _ Hq move Hin) as (-> & -> & -> & _). done.
Qed.

Lemma ep_candidate_mirror (q : Position) (move : Z) :
  ok q -> move ∈ moves_seen q ->
  ep_candidate (mirror q) (mirror_move move) = ep_candidate q move.
Proof.
  intros Hq Hin. unfold ep_candidate.
  destruct (mirrored_moves _ _ _ _ _ _ Hq move Hin) as (-> & _ & -> & _). done.
Qed.

Lemma ab_captures_mirror (q : Position) :
  ok q -> ab_captures (mirror q) ≡ₚ map mirror_move (ab_captures q).
Proof.
  intros Hq. unfold ab_captures.
  rewrite (ab_stack_mirror q Hq).
  apply reflexive_eq, filter_map_iff.
  intros move Hin. by rewrite ab_candidate_mirror by (done || by apply ab_stack_seen).
Qed.

Lemma ep_moves_mirror (q : Position) :
  ok q -> ep_moves (mirror q) ≡ₚ map mirror_move (ep_moves q).
Proof.
  intros Hq. unfold ep_moves.
  rewrite (generate_captures_mirror q Hq).
  apply reflexive_eq, filter_map_iff.
  intros move Hin.
  by rewrite ep_candidate_mirror by (done || by apply generate_captures_seen).
Qed.

Lemma do_move_mirror (q : Position) (move : Z) :
  ok q -> move ∈ ab_captures q \/ move ∈ ep_moves q ->
  do_move (mirror q) (mirror_move move) = mirror (do_move q move).
Proof.
  intros Hq Hin. apply (mirrored_moves _ _ _ _ _ _ Hq).
  destruct Hin as [Hin|Hin]; apply list_elem_of_filter in Hin as [_ Hin].
  - by apply ab_stack_seen.
  - by apply generate_captures_seen.
Qed.

Lemma has_legal_non_ep_mirror (q : Position) :
  ok q ->
  has_legal_non_ep (mirror q) (generate_captures (mirror q))
  = has_legal_non_ep q (generate_captures q).
Proof.
  intros Hq. unfold has_legal_non_ep.
  rewrite (mirrored_checkers _ _ _ _ _ _ Hq). f_equal; [|f_equal].
  - apply (existsb_perm_map _ _ mirror_move); [by apply generate_captures_mirror|].
    intros move Hin.
    destruct (mirrored_moves _ _ _ _ _ _ Hq move (generate_captures_seen _ _ Hin))
      as (-> & _ & -> & _). done.
  - apply (existsb_perm_map _ _ mirror_move); [apply Hq|].
    intros move Hin. apply (mirrored_moves _ _ _ _ _ _ Hq).
    unfold moves_seen. rewrite !elem_of_app. auto.
Qed.

Section Searched.
Variable pos : Position.
Hypothesis Hok : forall q, searched pos q -> ok q.

(** The search of the mirror comes to the mirrors of the positions the
    search comes to. *)
Lemma searched_mirror (q' : Position) :
  searched (mirror pos) q' -> exists q, searched pos q /\ q' = mirror q.
Proof.
  induction 1 as [|q' move' _ (q & Hq & ->) Hin|q' move' _ (q & Hq & ->) Hin].
  - exists pos. split; [constructor|done].
  - rewrite (ab_captures_mirror q (Hok q Hq)) in Hin.
    change (map ?f ?l) with (f <$> l) in Hin.
    apply list_elem_of_fmap in Hin as (move & -> & Hin).
    exists (do_move q move). split; [by apply searched_capture|].
    apply do_move_mirror; [by apply Hok|by left].
  - rewrite (ep_moves_mirror q (Hok q Hq)) in Hin.
    change (map ?f ?l) with (f <$> l) in Hin.
    apply list_elem_of_fmap in Hin as (move & -> & Hin).
    exists (do_move q move). split; [by apply searched_ep|].
    apply do_move_mirror; [by apply Hok|by right].
Qed.

Lemma search_ok_position (q : Position) :
  searched pos q -> search_ok tfuel hash table q.
Proof.
  intros Hq. split; [by apply table_value_mirror, Hok|].
  apply (mirrored_shrinks _ _ _ _ _ _ (Hok q Hq)).
Qed.

Lemma search_ok_mirror (q' : Position) :
  searched (mirror pos) q' -> search_ok tfuel hash table q'.
Proof.
  intros Hq'. apply searched_mirror in Hq' as (q & Hq & ->).
  split; [by apply table_value_mirror, Hok|].
  intros move' Hin.
  assert (exists move, move' = mirror_move move
                       /\ (move ∈ ab_captures q \/ move ∈ ep_moves q))
    as (move & -> & Hmove).
  { destruct Hin as [Hin|Hin].
    - rewrite (ab_captures_mirror q (Hok q Hq)) in Hin.
      change (map ?f ?l) with (f <$> l) in Hin.
      apply list_elem_of_fmap in Hin as (move & -> & Hin). exists move. auto.
    - rewrite (ep_moves_mirror q (Hok q Hq)) in Hin.
      change (map ?f ?l) with (f <$> l) in Hin.
      apply list_elem_of_fmap in Hin as (move & -> & Hin). exists move. auto. }
  rewrite (do_move_mirror q move (Hok q Hq) Hmove).
  assert (Hchild : searched pos (do_move q move)).
  { destruct Hmove; [by apply searched_capture|by apply searched_ep]. }
  rewrite !pieces_count_mirror by (by apply Hok).
  by apply (mirrored_shrinks _ _ _ _ _ _ (Hok q Hq)).
Qed.

Lemma wdl_minimax_mirror (f : nat) :
  forall q, searched pos q -> wdl_minimax tv f (mirror q) = wdl_minimax tv f q.
Proof.
  induction f as [|f IH]; intros q Hq; simpl.
  - by apply table_value_mirror, Hok.
  - rewrite (proj2 (proj2 (table_value_mirror q (Hok q Hq)))).
    apply foldr_max_perm.
    rewrite (ab_captures_mirror q (Hok q Hq)), map_map.
    apply reflexive_eq, map_ext_in. intros move Hin.
    apply list_elem_of_In in Hin.
    rewrite (do_move_mirror q move (Hok q Hq)) by (by left).
    by rewrite IH by (by apply searched_capture).
Qed.

Lemma ab_best_mirror (f : nat) (q : Position) (alpha : Z) :
  searched pos q -> ab_best tv f (mirror q) alpha = ab_best tv f q alpha.
Proof.
  intros Hq. unfold ab_best. apply foldr_max_perm.
  rewrite (ab_captures_mirror q (Hok q Hq)), map_map.
  apply reflexive_eq, map_ext_in. intros move Hin.
  apply list_elem_of_In in Hin.
  rewrite (do_move_mirror q move (Hok q Hq)) by (by left).
  by rewrite wdl_minimax_mirror by (by apply searched_capture).
Qed.

Lemma ab_result_mirror (f : nat) (q : Position) (alpha beta : Z) :
  searched pos q -> ab_result tv f (mirror q) alpha beta = ab_result tv f q alpha beta.
Proof.
  intros Hq. unfold ab_result.
  by rewrite ab_best_mirror, (proj2 (proj2 (table_value_mirror q (Hok q Hq)))).
Qed.

Lemma wdl_result_mirror (f : nat) :
  wdl_result tv f (mirror pos) = wdl_result tv f pos.
Proof.
  pose proof (Hok pos (searched_root pos)) as Hpos.
  unfold wdl_result.
  rewrite (mirrored_epSquare _ _ _ _ _ _ Hpos).
  rewrite ab_result_mirror by constructor.
  destruct (epSquare pos =? SQ_NONE); [done|].
  unfold wdl_ep_combine. rewrite has_legal_non_ep_mirror by done.
  assert (ep_best tv f (mirror pos) = ep_best tv f pos) as ->; [|done].
  unfold ep_best. apply foldr_max_perm.
  rewrite (ep_moves_mirror pos Hpos), map_map.
  apply reflexive_eq, map_ext_in. intros move Hin.
  apply list_elem_of_In in Hin.
  rewrite (do_move_mirror pos move Hpos) by (by right).
  by rewrite ab_result_mirror by (by apply searched_ep; [constructor|]).
Qed.
End Searched.
End Mirror.

(** *** The search with tables that load on the way

    A table that is not loaded yet is loaded by the first probe that comes
    to it, and stays loaded.  The tables of the state then lie between
    [table], the ones the search starts with, and [loaded], and every probe
    answers as it would with [loaded]. *)
Section Loading.
Context `{Host} (tfuel : nat) (hash : HashTable) (table loaded : list WDLEntry).

Local Notation "'tv'" := (table_value tfuel hash loaded).
Local Notation "'between'" := (tables_between hash table loaded).

Lemma probe_wdl_table_loads (pos : Position) :
  table_ready tfuel hash loaded pos -> table_loads hash table loaded pos ->
  table_answers tfuel tv between pos.
Proof.
  intros Hready Hloads st [Hh Hbetween]. unfold probe_wdl_table, table_value.
  case_bool_decide as Hkk; [by exists (tick st)|].
  destruct Hready as [|(ptr & entry & Hptr & Hentry & Hrdy & [[v s] Hprobe])]; [done|].
  destruct Hloads as [|(ptr' & entry0 & entry' & Hptr' & Hentry0 & Hentry' & Hload)];
    [done|].
  rewrite Hptr in Hptr'. injection Hptr' as <-.
  rewrite Hentry in Hentry'. injection Hentry' as <-.
  change (WDLHash (tick st)) with (WDLHash st).
  change (WDLTable (tick st)) with (WDLTable st).
  change (success (tick st)) with (success st).
  rewrite Hh, Hptr. cbn [default mbind option_bind].
  assert (Hcur : exists cur,
    WDLTable st !! ptr = Some cur
    /\ (if ready cur then (cur, true)
        else
          let '(e, ok) :=
            WDLEntry_init cur
              (String.append (file_name pos (negb (wdl_key cur =? materialKey pos)))
                 ".rtbw") in
          (if ok then set_ready true e else e, ok)) = (entry, true)).
  { destruct (Hbetween ptr) as [Hcur|Hcur]; rewrite Hcur.
    - exists entry0. split; [done|]. unfold wdl_loaded in Hload.
      destruct (ready entry0); [by injection Hload as ->|].
      destruct (WDLEntry_init entry0 _) as [e okay]. destruct okay; [|done].
      by injection Hload as ->.
    - exists entry. split; [done|]. by rewrite Hrdy. }
  destruct Hcur as (cur & Hcur & Hstep). rewrite Hcur. cbn [mbind option_bind].
  rewrite Hstep. cbn [negb].
  change (success (set_WDLTable (<[ptr:=entry]> (WDLTable st)) (tick st)))
    with (success st).
  pose proof (probe_table_success tfuel host_mem pos entry WDLDraw 1 (success st)) as Hs.
  rewrite Hentry, Hprobe in *. cbn [fmap option_fmap option_map fst] in Hs.
  destruct (probe_table tfuel host_mem pos entry WDLDraw (success st))
    as [[v' s']|]; cbn [fmap option_fmap option_map fst] in Hs; [|done].
  injection Hs as <-. cbn [mbind option_bind default].
  rewrite Hprobe. cbn [mbind option_bind default from_option].
  eexists. split; [done|]. split; [|done]. split; [done|].
  intros p. cbn [WDLTable set_WDLTable].
  destruct (decide (p = ptr)) as [->|Hne].
  - right. rewrite Hentry. apply list_lookup_insert_eq.
    by apply lookup_lt_is_Some_1.
  - rewrite list_lookup_insert_ne by done. apply Hbetween.
Qed.

(** [probe_wdl] with tables that load on the way returns what it returns
    with the tables loaded. *)
Lemma probe_wdl_loading (f : nat) (pos : Position) (st : TB) :
  (length (pieces_all pos) <= f)%nat ->
  (forall q, searched pos q ->
     search_ok tfuel hash loaded q /\ table_loads hash table loaded q) ->
  between st ->
  exists st',
    probe_wdl (S f) tfuel pos st = Some (wdl_result tv f pos, st')
    /\ success st' <> 0 /\ between st'.
Proof.
  intros Hcount Hok Hst.
  apply (probe_wdl_answers tfuel tv between); [done|done|done| |done].
  intros q Hq. destruct (Hok q Hq) as [[Hready Hshrink] Hloads].
  split; [by apply probe_wdl_table_loads|done].
Qed.
End Loading.


(** ** A position and its mirror, probed

    The KRvKR position of [pos_KRvKR] with both tables loaded. *)

Lemma board_check_ok (pos : Position) : board_check pos = true -> board_ok pos.
Proof.
  intros Hc s Hs. unfold board_check in Hc.
  pose proof (squares_forall _ Hc s Hs) as H. simpl in H.
  apply andb_true_iff in H as [H1 H2].
  apply orb_true_iff in H1. rewrite Z.eqb_eq in H1. split; [done|].
  intros Hp. rewrite Hp in H2. simpl in H2.
  apply andb_true_iff in H2. lia.
Qed.

Lemma sorted_perm (l l' : list Z) :
  sort_by Z.ltb l = sort_by Z.ltb l' -> l ≡ₚ l'.
Proof. intros Heq. by rewrite <- (sort_by_perm Z.ltb l), Heq, sort_by_perm. Qed.

Lemma toy_table_fits_pieces (pos : Position) (entry : WDLEntry) (precomp : PairsData)
    (ns : list nat) (reps : list Z) :
  let pcs := map (fun s => Z.lxor (piece_on pos s) (probe_flip pos entry * 8))
                 (probe_others pos []) in
  let n := length pcs in
  let limit := if wdl_hasUniquePieces (wdl_piece_at entry (probe_stm pos entry))
               then 3%nat else 2%nat in
  wdl_hasPawns entry = false ->
  wdl_piece_precomp (wdl_piece_at entry (probe_stm pos entry)) = Some precomp ->
  sort_by Z.ltb pcs = sort_by Z.ltb (take n (pieces precomp)) ->
  groups_match precomp n 0 limit ns ->
  grouped (take n (pieces precomp)) (replicate limit 1%nat ++ ns) reps ->
  table_fits pos entry.
Proof.
  intros pcs n limit Hpawns Hpre Hsort Hg Hgrp. split.
  - simpl. by rewrite Hpawns.
  - intros lead precomp' Hlead Hpre'.
    unfold probe_leadPawns in Hlead. simpl in Hlead. rewrite Hpawns in Hlead.
    injection Hlead as <-.
    unfold probe_precomp in Hpre'. simpl in Hpre'. rewrite Hpawns, Hpre in Hpre'.
    injection Hpre' as <-.
    unfold bucket_fits. simpl. rewrite Hpawns.
    fold pcs. fold n.
    split; [done|]. split; [by apply sorted_perm|].
    exists ns, reps. done.
Qed.

Lemma searched_KRvKR (q : Position) :
  @searched host_KRvKR pos_KRvKR q -> q = pos_KRvKR \/ q = pos_KRvK_d8.
Proof.
  induction 1 as [|q move _ IH Hin|q move _ IH Hin]; [by left|..].
  - destruct IH as [-> | ->].
    + assert (@ab_captures host_KRvKR pos_KRvKR = [Rd1xd8]) as Hcap
        by (vm_compute; reflexivity).
      rewrite Hcap in Hin. apply list_elem_of_singleton in Hin as ->. by right.
    + assert (@ab_captures host_KRvKR pos_KRvK_d8 = []) as Hcap
        by (vm_compute; reflexivity).
      rewrite Hcap in Hin. by apply elem_of_nil in Hin.
  - destruct IH as [-> | ->].
    + assert (@ep_moves host_KRvKR pos_KRvKR = []) as Hcap
        by (vm_compute; reflexivity).
      rewrite Hcap in Hin. by apply elem_of_nil in Hin.
    + assert (@ep_moves host_KRvKR pos_KRvK_d8 = []) as Hcap
        by (vm_compute; reflexivity).
      rewrite Hcap in Hin. by apply elem_of_nil in Hin.
Qed.

Lemma mirrored_KRvKR (q : Position) :
  @searched host_KRvKR pos_KRvKR q ->
  @mirrored host_KRvKR toy_mirror toy_mirror_move 8 (WDLHash st_KRvKR)
    (WDLTable st_KRvKR) q.
Proof.
  intros Hq. apply searched_KRvKR in Hq as [-> | ->].
  - constructor.
    + reflexivity.
    + apply board_check_ok. vm_compute. reflexivity.
    + by left.
    + reflexivity.
    + reflexivity.
    + reflexivity.
    + intros T. destruct T; vm_compute; reflexivity.
    + intros move Hin.
      assert (@generate host_KRvKR CAPTURES pos_KRvKR = [Rd1xd8]) as Hgen
        by (vm_compute; reflexivity).
      rewrite Hgen in Hin. apply list_elem_of_singleton in Hin as ->.
      repeat split; try (vm_compute; congruence).
      repeat constructor.
    + intros move Hin.
      assert (@moves_seen host_KRvKR pos_KRvKR = [Rd1xd8; Rd1xd8]) as Hgen
        by (vm_compute; reflexivity).
      rewrite Hgen in Hin.
      assert (move = Rd1xd8) as ->.
      { apply elem_of_cons in Hin as [->|Hin]; [done|].
        by apply list_elem_of_singleton in Hin. }
      repeat split; vm_compute; reflexivity.
    + intros move Hin.
      assert (@ab_captures host_KRvKR pos_KRvKR = [Rd1xd8]) as Hcap
        by (vm_compute; reflexivity).
      assert (@ep_moves host_KRvKR pos_KRvKR = []) as Hep
        by (vm_compute; reflexivity).
      rewrite Hcap, Hep in Hin.
      destruct Hin as [Hin|Hin]; [|by apply elem_of_nil in Hin].
      apply list_elem_of_singleton in Hin as ->. vm_compute. lia.
    + right. eexists _, _.
      split; [vm_compute; reflexivity|].
      split; [vm_compute; reflexivity|].
      split; [vm_compute; reflexivity|].
      split; [reflexivity|].
      split; [left; reflexivity|].
      split.
      * eapply (toy_table_fits_pieces _ _ _ [1%nat] [6; 4; 14; 12]).
        -- reflexivity.
        -- vm_compute. reflexivity.
        -- vm_compute. reflexivity.
        -- vm_compute. repeat split; lia.
        -- split; [reflexivity|]. split; [|vm_compute; reflexivity].
           apply (bool_decide_unpack (NoDup [6; 4; 14; 12])). vm_compute. exact I.
      * vm_compute. eexists. reflexivity.
  - constructor.
    + reflexivity.
    + apply board_check_ok. vm_compute. reflexivity.
    + by right.
    + reflexivity.
    + reflexivity.
    + reflexivity.
    + intros T. destruct T; vm_compute; reflexivity.
    + intros move Hin.
      assert (@generate host_KRvKR CAPTURES pos_KRvK_d8 = []) as Hgen
        by (vm_compute; reflexivity).
      rewrite Hgen in Hin. by apply elem_of_nil in Hin.
    + intros move Hin.
      assert (@moves_seen host_KRvKR pos_KRvK_d8 = []) as Hgen
        by (vm_compute; reflexivity).
      rewrite Hgen in Hin. by apply elem_of_nil in Hin.
    + intros move Hin.
      assert (@ab_captures host_KRvKR pos_KRvK_d8 = []) as Hcap
        by (vm_compute; reflexivity).
      assert (@ep_moves host_KRvKR pos_KRvK_d8 = []) as Hep
        by (vm_compute; reflexivity).
      rewrite Hcap, Hep in Hin.
      destruct Hin as [Hin|Hin]; by apply elem_of_nil in Hin.
    + right. eexists _, _.
      split; [vm_compute; reflexivity|].
      split; [vm_compute; reflexivity|].
      split; [vm_compute; reflexivity|].
      split; [reflexivity|].
      split; [right; vm_compute; reflexivity|].
      split.
      * eapply (toy_table_fits_pieces _ _ _ [] [6; 4; 14]).
        -- reflexivity.
        -- vm_compute. reflexivity.
        -- vm_compute. reflexivity.
        -- vm_compute. lia.
        -- split; [reflexivity|]. split; [|vm_compute; reflexivity].
           apply (bool_decide_unpack (NoDup [6; 4; 14])). vm_compute. exact I.
      * vm_compute. eexists. reflexivity.
Qed.

Lemma searched_KRvKR_e1 (q : Position) :
  @searched host_KRvKR pos_KRvKR_e1 q -> q = pos_KRvKR_e1.
Proof.
  induction 1 as [|q move _ -> Hin|q move _ -> Hin]; [done|..].
  - assert (@ab_captures host_KRvKR pos_KRvKR_e1 = []) as Hcap
      by (vm_compute; reflexivity).
    rewrite Hcap in Hin. by apply elem_of_nil in Hin.
  - assert (@ep_moves host_KRvKR pos_KRvKR_e1 = []) as Hcap
      by (vm_compute; reflexivity).
    rewrite Hcap in Hin. by apply elem_of_nil in Hin.
Qed.

Lemma mirrored_KRvKR_e1 (q : Position) :
  @searched host_KRvKR pos_KRvKR_e1 q ->
  @mirrored host_KRvKR toy_mirror toy_mirror_move 8 (WDLHash st_KRvKR)
    (WDLTable st_KRvKR) q.
Proof.
  intros Hq. apply searched_KRvKR_e1 in Hq as ->.
  constructor.
  - reflexivity.
  - apply board_check_ok. vm_compute. reflexivity.
  - by left.
  - reflexivity.
  - reflexivity.
  - reflexivity.
  - intros T. destruct T; vm_compute; reflexivity.
  - intros move Hin.
    assert (@generate host_KRvKR CAPTURES pos_KRvKR_e1 = []) as Hgen
      by (vm_compute; reflexivity).
    rewrite Hgen in Hin. by apply elem_of_nil in Hin.
  - intros move Hin.
    assert (@moves_seen host_KRvKR pos_KRvKR_e1 = []) as Hgen
      by (vm_compute; reflexivity).
    rewrite Hgen in Hin. by apply elem_of_nil in Hin.
  - intros move Hin.
    assert (@ab_captures host_KRvKR pos_KRvKR_e1 = []) as Hcap
      by (vm_compute; reflexivity).
    assert (@ep_moves host_KRvKR pos_KRvKR_e1 = []) as Hep
      by (vm_compute; reflexivity).
    rewrite Hcap, Hep in Hin.
    destruct Hin as [Hin|Hin]; by apply elem_of_nil in Hin.
  - right. eexists _, _.
    split; [vm_compute; reflexivity|].
    split; [vm_compute; reflexivity|].
    split; [vm_compute; reflexivity|].
    split; [reflexivity|].
    split; [left; reflexivity|].
    split.
    + eapply (toy_table_fits_pieces _ _ _ [1%nat] [6; 4; 14; 12]).
      * reflexivity.
      * vm_compute. reflexivity.
      * vm_compute. reflexivity.
      * vm_compute. repeat split; lia.
      * split; [reflexivity|]. split; [|vm_compute; reflexivity].
        apply (bool_decide_unpack (NoDup [6; 4; 14; 12])). vm_compute. exact I.
    + vm_compute. eexists. reflexivity.
Qed.

(** The registry as [Tablebases::init] leaves it holds the two tables
    unloaded, under the keys they have once loaded; each loads when it is
    first probed, for a position as for its mirror. *)
Lemma registry_KRvKR :
  WDLHash tb_KRvKR = WDLHash st_KRvKR
  /\ map ready (WDLTable tb_KRvKR) = [false; false]
  /\ map ready (WDLTable st_KRvKR) = [true; true].
Proof. repeat split; vm_compute; reflexivity. Qed.

Lemma loads_KRvKR (q : Position) :
  q = pos_KRvKR_e1 \/ q = pos_KRvKR \/ q = pos_KRvK_d8 ->
  @table_loads host_KRvKR (WDLHash st_KRvKR) (WDLTable tb_KRvKR) (WDLTable st_KRvKR) q
  /\ @table_loads host_KRvKR (WDLHash st_KRvKR) (WDLTable tb_KRvKR) (WDLTable st_KRvKR)
       (toy_mirror q).
Proof.
  intros [-> | [-> | ->]]; split; right; eexists _, _, _;
    (split; [vm_compute; reflexivity|]);
    (split; [vm_compute; reflexivity|]);
    (split; vm_compute; reflexivity).
Qed.

(** The position with two captures, White Kc3, Rd1, Na5 against Ka8,
    Rd8, Nh1, with the three tables of its search installed and none of
    them loaded. *)
Lemma searched_KRNvKRN (q : Position) :
  @searched host_KRNvKRN pos_KRNvKRN q -> q = pos_KRNvKRN \/ q = pos_KRNvKN_d8 \/ q = pos_KRNvKR_h1.
Proof.
  induction 1 as [|q move _ IH Hin|q move _ IH Hin]; [by left|..].
  - destruct IH as [-> | [-> | ->]].
    + assert (@ab_captures host_KRNvKRN pos_KRNvKRN = [Rd1xd8; Rd1xh1]) as Hcap
        by (vm_compute; reflexivity).
      rewrite Hcap in Hin. apply elem_of_cons in Hin as [->|Hin]; [right; by left|].
      apply list_elem_of_singleton in Hin as ->. right. by right.
    + assert (@ab_captures host_KRNvKRN pos_KRNvKN_d8 = []) as Hcap by (vm_compute; reflexivity).
      rewrite Hcap in Hin. by apply elem_of_nil in Hin.
    + assert (@ab_captures host_KRNvKRN pos_KRNvKR_h1 = []) as Hcap by (vm_compute; reflexivity).
      rewrite Hcap in Hin. by apply elem_of_nil in Hin.
  - destruct IH as [-> | [-> | ->]].
    + assert (@ep_moves host_KRNvKRN pos_KRNvKRN = []) as Hcap by (vm_compute; reflexivity).
      rewrite Hcap in Hin. by apply elem_of_nil in Hin.
    + assert (@ep_moves host_KRNvKRN pos_KRNvKN_d8 = []) as Hcap by (vm_compute; reflexivity).
      rewrite Hcap in Hin. by apply elem_of_nil in Hin.
    + assert (@ep_moves host_KRNvKRN pos_KRNvKR_h1 = []) as Hcap by (vm_compute; reflexivity).
      rewrite Hcap in Hin. by apply elem_of_nil in Hin.
Qed.

Lemma mirrored_KRNvKRN (q : Position) :
  @searched host_KRNvKRN pos_KRNvKRN q ->
  @mirrored host_KRNvKRN toy_mirror toy_mirror_move 8 (WDLHash st_KRNvKRN) (WDLTable st_KRNvKRN) q.
Proof.
  intros Hq. apply searched_KRNvKRN in Hq as [-> | [-> | ->]].
  - constructor.
    + reflexivity.
    + apply board_check_ok. vm_compute. reflexivity.
    + by left.
    + reflexivity.
    + reflexivity.
    + reflexivity.
    + intros T. destruct T; vm_compute; try reflexivity; apply Permutation_swap.
    + intros move Hin.
      assert (@generate host_KRNvKRN CAPTURES pos_KRNvKRN = [Rd1xd8; Rd1xh1]) as Hgen
        by (vm_compute; reflexivity).
      rewrite Hgen in Hin.
      assert (move = Rd1xd8 \/ move = Rd1xh1) as [-> | ->].
      { apply elem_of_cons in Hin as [->|Hin]; [by left|].
        apply list_elem_of_singleton in Hin. by right. }
      all: repeat split; try (vm_compute; congruence); repeat constructor.
    + intros move Hin.
      assert (Hm : move = Rd1xd8 \/ move = Rd1xh1).
      { assert (@moves_seen host_KRNvKRN pos_KRNvKRN = [Rd1xd8; Rd1xh1; Rd1xd8; Rd1xh1]) as Hgen
          by (vm_compute; reflexivity).
        rewrite Hgen in Hin. repeat (apply elem_of_cons in Hin as [->|Hin]; [tauto|]).
        by apply elem_of_nil in Hin. }
      destruct Hm as [-> | ->]; repeat split; vm_compute; reflexivity.
    + intros move Hin.
      assert (@ab_captures host_KRNvKRN pos_KRNvKRN = [Rd1xd8; Rd1xh1]) as Hcap
        by (vm_compute; reflexivity).
      assert (@ep_moves host_KRNvKRN pos_KRNvKRN = []) as Hep by (vm_compute; reflexivity).
      rewrite Hcap, Hep in Hin.
      destruct Hin as [Hin|Hin]; [|by apply elem_of_nil in Hin].
      apply elem_of_cons in Hin as [->|Hin]; [vm_compute; lia|].
      apply list_elem_of_singleton in Hin as ->. vm_compute. lia.
    + right. eexists _, _.
      split; [vm_compute; reflexivity|].
      split; [vm_compute; reflexivity|].
      split; [vm_compute; reflexivity|].
      split; [reflexivity|].
      split; [left; reflexivity|].
      split.
      * eapply (toy_table_fits_pieces _ _ _ [1%nat; 1%nat; 1%nat] [6; 4; 2; 14; 12; 10]).
        -- reflexivity.
        -- vm_compute. reflexivity.
        -- vm_compute. reflexivity.
        -- vm_compute. repeat split; lia.
        -- split; [reflexivity|]. split; [|vm_compute; reflexivity].
           apply (bool_decide_unpack (NoDup [6; 4; 2; 14; 12; 10])). vm_compute. exact I.
      * vm_compute. eexists. reflexivity.
  - constructor.
    + reflexivity.
    + apply board_check_ok. vm_compute. reflexivity.
    + by right.
    + reflexivity.
    + reflexivity.
    + reflexivity.
    + intros T. destruct T; vm_compute; try reflexivity; apply Permutation_swap.
    + intros move Hin.
      assert (@generate host_KRNvKRN CAPTURES pos_KRNvKN_d8 = []) as Hgen by (vm_compute; reflexivity).
      rewrite Hgen in Hin. by apply elem_of_nil in Hin.
    + intros move Hin.
      assert (@moves_seen host_KRNvKRN pos_KRNvKN_d8 = []) as Hgen by (vm_compute; reflexivity).
      rewrite Hgen in Hin. by apply elem_of_nil in Hin.
    + intros move Hin.
      assert (@ab_captures host_KRNvKRN pos_KRNvKN_d8 = []) as Hcap by (vm_compute; reflexivity).
      assert (@ep_moves host_KRNvKRN pos_KRNvKN_d8 = []) as Hep by (vm_compute; reflexivity).
      rewrite Hcap, Hep in Hin.
      destruct Hin as [Hin|Hin]; by apply elem_of_nil in Hin.
    + right. eexists _, _.
      split; [vm_compute; reflexivity|].
      split; [vm_compute; reflexivity|].
      split; [vm_compute; reflexivity|].
      split; [reflexivity|].
      split; [right; vm_compute; reflexivity|].
      split.
      * eapply (toy_table_fits_pieces _ _ _ [1%nat; 1%nat] [6; 4; 2; 14; 10]).
        -- reflexivity.
        -- vm_compute. reflexivity.
        -- vm_compute. reflexivity.
        -- vm_compute. repeat split; lia.
        -- split; [reflexivity|]. split; [|vm_compute; reflexivity].
           apply (bool_decide_unpack (NoDup [6; 4; 2; 14; 10])). vm_compute. exact I.
      * vm_compute. eexists. reflexivity.
  - constructor.
    + reflexivity.
    + apply board_check_ok. vm_compute. reflexivity.
    + by right.
    + reflexivity.
    + reflexivity.
    + reflexivity.
    + intros T. destruct T; vm_compute; try reflexivity; apply Permutation_swap.
    + intros move Hin.
      assert (@generate host_KRNvKRN CAPTURES pos_KRNvKR_h1 = []) as Hgen by (vm_compute; reflexivity).
      rewrite Hgen in Hin. by apply elem_of_nil in Hin.
    + intros move Hin.
      assert (Hm : move = toy_mirror_move Rd1xh1 \/ move = toy_mirror_move Rd1xd8).
      { assert (@moves_seen host_KRNvKRN pos_KRNvKR_h1 = [toy_mirror_move Rd1xh1; toy_mirror_move Rd1xd8]) as Hgen by (vm_compute; reflexivity).
        rewrite Hgen in Hin. repeat (apply elem_of_cons in Hin as [->|Hin]; [tauto|]).
        by apply elem_of_nil in Hin. }
      destruct Hm as [-> | ->]; repeat split; vm_compute; reflexivity.
    + intros move Hin.
      assert (@ab_captures host_KRNvKRN pos_KRNvKR_h1 = []) as Hcap by (vm_compute; reflexivity).
      assert (@ep_moves host_KRNvKRN pos_KRNvKR_h1 = []) as Hep by (vm_compute; reflexivity).
      rewrite Hcap, Hep in Hin.
      destruct Hin as [Hin|Hin]; by apply elem_of_nil in Hin.
    + right. eexists _, _.
      split; [vm_compute; reflexivity|].
      split; [vm_compute; reflexivity|].
      split; [vm_compute; reflexivity|].
      split; [reflexivity|].
      split; [right; vm_compute; reflexivity|].
      split.
      * eapply (toy_table_fits_pieces _ _ _ [1%nat; 1%nat] [6; 4; 2; 14; 12]).
        -- reflexivity.
        -- vm_compute. reflexivity.
        -- vm_compute. reflexivity.
        -- vm_compute. repeat split; lia.
        -- split; [reflexivity|]. split; [|vm_compute; reflexivity].
           apply (bool_decide_unpack (NoDup [6; 4; 2; 14; 12])). vm_compute. exact I.
      * vm_compute. eexists. reflexivity.
Qed.

Lemma registry_KRNvKRN :
  WDLHash tb_KRNvKRN = WDLHash st_KRNvKRN
  /\ map ready (WDLTable tb_KRNvKRN) = [false; false; false]
  /\ map ready (WDLTable st_KRNvKRN) = [true; true; true].
Proof. repeat split; vm_compute; reflexivity. Qed.

Lemma loads_KRNvKRN (q : Position) :
  q = pos_KRNvKRN \/ q = pos_KRNvKN_d8 \/ q = pos_KRNvKR_h1 ->
  @table_loads host_KRNvKRN (WDLHash st_KRNvKRN) (WDLTable tb_KRNvKRN) (WDLTable st_KRNvKRN) q
  /\ @table_loads host_KRNvKRN (WDLHash st_KRNvKRN) (WDLTable tb_KRNvKRN) (WDLTable st_KRNvKRN) (toy_mirror q).
Proof.
  intros [-> | [-> | ->]]; split; right; eexists _, _, _;
    (split; [vm_compute; reflexivity|]);
    (split; [vm_compute; reflexivity|]);
    (split; vm_compute; reflexivity).
Qed.



(** ** The registry: [HashTable] *)

Lemma HashTable_clear_ok : HashTable_ok HashTable_clear.
Proof.
  split; [by unfold HashTable_clear; rewrite length_replicate|].
  apply Forall_replicate. exists []. simpl. repeat split; [lia|constructor].
Qed.

Lemma bucket_ok_length (b : list HashEntry) : bucket_ok b -> length b = HSHMAX.
Proof.
  intros (filled & -> & Hlen & _). rewrite length_app, length_replicate. lia.
Qed.

Lemma hash_index_range (k : Z) :
  is_key k -> (Z.to_nat (Z.shiftr k (64 - TBHASHBITS)) < Z.to_nat (2 ^ TBHASHBITS))%nat.
Proof.
  intros [Hlo Hhi]. unfold TBHASHBITS. rewrite Z.shiftr_div_pow2 by lia.
  apply Z2Nat.inj_lt; [apply Z.div_pos; lia|lia|].
  apply Z.div_lt_upper_bound; lia.
Qed.

Lemma hash_bucket_ok (t : HashTable) (k : Z) :
  HashTable_ok t -> is_key k -> bucket_ok (hash_bucket t k).
Proof.
  intros [Hlen Hall] Hk. unfold hash_bucket, HashTable.
  pose proof (hash_index_range k Hk) as Hi. rewrite <- Hlen in Hi.
  apply lookup_lt_is_Some_2 in Hi as [b Hb]. rewrite Hb. simpl.
  by eapply Forall_lookup_1.
Qed.

(** What [insert] does to one bucket. *)
Lemma HashTable_put_filled (filled rest : list HashEntry) (k : Z) (ptr : nat) :
  Forall (fun e => hash_ptr e <> None /\ hash_key e <> k) filled ->
  HashTable_put (filled ++ rest) k ptr = (filled ++.) <$> HashTable_put rest k ptr.
Proof.
  induction 1 as [|e filled [Hptr Hkey] _ IH]; simpl.
  - by destruct (HashTable_put rest k ptr).
  - destruct (hash_ptr e); [|done].
    destruct (Z.eqb_spec (hash_key e) k); [done|].
    rewrite IH. by destruct (HashTable_put rest k ptr).
Qed.

Lemma HashTable_find_filled (filled rest : list HashEntry) (k : Z) :
  Forall (fun e => hash_key e <> k) filled ->
  HashTable_find (filled ++ rest) k = HashTable_find rest k.
Proof.
  induction 1 as [|e filled Hkey _ IH]; simpl; [done|].
  by destruct (Z.eqb_spec (hash_key e) k).
Qed.

(** The first slot [insert] can use: free, or holding the key already. *)
Lemma bucket_split (b : list HashEntry) (k : Z) :
  (exists pre e post,
     b = pre ++ e :: post
     /\ Forall (fun e => hash_ptr e <> None /\ hash_key e <> k) pre
     /\ (hash_ptr e = None \/ hash_key e = k))
  \/ Forall (fun e => hash_ptr e <> None /\ hash_key e <> k) b.
Proof.
  induction b as [|e b IH]; [by right|].
  destruct (hash_ptr e) as [p|] eqn:Hp.
  - destruct (Z.eq_dec (hash_key e) k) as [Hk|Hk].
    + left. exists [], e, b. repeat split; [constructor|by right].
    + destruct IH as [(pre & e' & post & -> & Hpre & He')|Hall].
      * left. exists (e :: pre), e', post. repeat split; [|done].
        constructor; [|done]. split; [by rewrite Hp|done].
      * right. constructor; [|done]. split; [by rewrite Hp|done].
  - left. exists [], e, b. repeat split; [constructor|by left].
Qed.

Lemma HashTable_put_split (pre post : list HashEntry) (e : HashEntry) (k : Z) (ptr : nat) :
  Forall (fun e => hash_ptr e <> None /\ hash_key e <> k) pre ->
  hash_ptr e = None \/ hash_key e = k ->
  HashTable_put (pre ++ e :: post) k ptr = Some (pre ++ mkHashEntry k (Some ptr) :: post).
Proof.
  intros Hpre He. rewrite HashTable_put_filled by done. simpl.
  destruct (hash_ptr e); [|done].
  destruct He as [?| ->]; [done|]. by rewrite Z.eqb_refl.
Qed.

Lemma HashTable_put_full (b : list HashEntry) (k : Z) (ptr : nat) :
  Forall (fun e => hash_ptr e <> None /\ hash_key e <> k) b ->
  HashTable_put b k ptr = None.
Proof.
  intros Hall. rewrite <- (app_nil_r b). by rewrite HashTable_put_filled.
Qed.

Lemma HashTable_find_cleared (n : nat) (k : Z) :
  HashTable_find (replicate n (mkHashEntry 0 None)) k = None.
Proof.
  induction n as [|n IH]; [done|].
  change (HashTable_find (replicate (S n) (mkHashEntry 0 None)) k)
    with (if 0 =? k then None else HashTable_find (replicate n (mkHashEntry 0 None)) k).
  by destruct (0 =? k).
Qed.

Lemma HashTable_find_middle (pre post : list HashEntry) (e1 e2 : HashEntry) (k : Z) :
  hash_key e1 <> k -> hash_key e2 <> k ->
  HashTable_find (pre ++ e1 :: post) k = HashTable_find (pre ++ e2 :: post) k.
Proof.
  intros H1 H2. induction pre as [|e pre IH]; simpl.
  - by destruct (Z.eqb_spec (hash_key e1) k), (Z.eqb_spec (hash_key e2) k).
  - by rewrite IH.
Qed.

(** The two ways [insert] ends well: the key was there and its pointer is
    replaced, or the first cleared entry is taken. *)
Lemma HashTable_put_shape (filled : list HashEntry) (n : nat) (k : Z) (ptr : nat)
    (b' : list HashEntry) :
  Forall (fun e => hash_ptr e <> None) filled ->
  HashTable_put (filled ++ replicate n (mkHashEntry 0 None)) k ptr = Some b' ->
  (exists pre e post,
     filled = pre ++ e :: post /\ hash_key e = k
     /\ Forall (fun e => hash_key e <> k) pre
     /\ b' = (pre ++ mkHashEntry k (Some ptr) :: post) ++ replicate n (mkHashEntry 0 None))
  \/ (Forall (fun e => hash_key e <> k) filled
      /\ exists n', n = S n'
         /\ b' = (filled ++ [mkHashEntry k (Some ptr)]) ++ replicate n' (mkHashEntry 0 None)).
Proof.
  intros Hfilled. revert b'.
  induction Hfilled as [|e filled He _ IH]; intros b'; simpl.
  - destruct n as [|n']; simpl; [done|]. intros [= <-].
    right. split; [constructor|]. by exists n'.
  - destruct (hash_ptr e) as [p|] eqn:Hp; [|done].
    destruct (Z.eqb_spec (hash_key e) k) as [Hk|Hk].
    + intros [= <-]. left. exists [], e, filled. repeat split; [done|constructor].
    + intros Hput. apply bind_Some in Hput as (b & Hput & [= <-]).
      destruct (IH b Hput) as [(pre & e' & post & -> & Hk' & Hpre & ->)|(Hall & n' & -> & ->)].
      * left. exists (e :: pre), e', post. repeat split; [done|by constructor].
      * right. split; [by constructor|]. by exists n'.
Qed.

Lemma HashTable_put_spec (b b' : list HashEntry) (k : Z) (ptr : nat) :
  bucket_ok b ->
  HashTable_put b k ptr = Some b' ->
  bucket_ok b'
  /\ HashTable_find b' k = Some ptr
  /\ forall k', k' <> k -> HashTable_find b' k' = HashTable_find b k'.
Proof.
  intros (filled & -> & Hlen & Hfilled) Hput.
  apply HashTable_put_shape in Hput; [|done].
  destruct Hput as [(pre & e & post & -> & Hk & Hpre & ->)|(Hall & n' & Hn & ->)].
  - split; [|split].
    + exists (pre ++ mkHashEntry k (Some ptr) :: post). split; [|split].
      * f_equal. f_equal. rewrite !length_app. simpl. done.
      * revert Hlen. rewrite !length_app. simpl. lia.
      * apply Forall_app in Hfilled as [Hf1 Hf2]. apply Forall_app. split; [done|].
        apply Forall_cons in Hf2 as [_ Hf2]. by constructor.
    + rewrite <- !app_assoc, HashTable_find_filled by done. simpl.
      by rewrite Z.eqb_refl.
    + intros k' Hk'. rewrite <- !app_assoc. simpl.
      apply HashTable_find_middle; simpl; congruence.
  - split; [|split].
    + exists (filled ++ [mkHashEntry k (Some ptr)]). split; [|split].
      * f_equal. f_equal. rewrite length_app. simpl. lia.
      * rewrite length_app. simpl. lia.
      * apply Forall_app. split; [done|]. by repeat constructor.
    + rewrite <- !app_assoc, HashTable_find_filled by done. simpl.
      by rewrite Z.eqb_refl.
    + intros k' Hk'. rewrite Hn, <- !app_assoc. simpl.
      destruct (Z.eq_dec k' 0) as [->|H0].
      * clear Hall Hfilled Hlen Hn.
        induction filled as [|e filled IH]; simpl.
        -- destruct (Z.eqb_spec k 0); [done|]. apply HashTable_find_cleared.
        -- by rewrite IH.
      * apply HashTable_find_middle; simpl; congruence.
Qed.

Lemma HashTable_insert_inv (t t' : HashTable) (k : Z) (ptr : nat) :
  HashTable_insert t k ptr = Some t' ->
  exists (i : nat) b b',
    i = Z.to_nat (Z.shiftr k (64 - TBHASHBITS))
    /\ t !! i = Some b /\ hash_bucket t k = b
    /\ HashTable_put b k ptr = Some b' /\ t' = <[i := b']> t
    /\ hash_bucket t' k = b'.
Proof.
  unfold HashTable_insert. intros Hins.
  destruct (HashTable_put (hash_bucket t k) k ptr) as [b'|] eqn:Hput; [|done].
  cbn [mbind option_bind] in Hins. apply (inj Some) in Hins. subst t'.
  unfold hash_bucket, HashTable in *.
  destruct (t !! Z.to_nat (Z.shiftr k (64 - TBHASHBITS))) as [b|] eqn:Hb; [|done].
  cbn [default from_option id] in *.
  eexists _, b, b'. repeat split; [done|done|].
  rewrite list_lookup_insert_eq; [done|]. by eapply lookup_lt_Some.
Qed.

Lemma HashTable_insert_ok (t t' : HashTable) (k : Z) (ptr : nat) :
  HashTable_ok t -> HashTable_insert t k ptr = Some t' -> HashTable_ok t'.
Proof.
  intros [Hlen Hall] Hins.
  apply HashTable_insert_inv in Hins as (i & b & b' & _ & Hb & _ & Hput & -> & _).
  unfold HashTable_ok, HashTable in *.
  split; [by rewrite length_insert|].
  apply Forall_insert; [done|].
  eapply HashTable_put_spec; [|done]. by eapply Forall_lookup_1.
Qed.

Lemma HashTable_lookup_ok (t : HashTable) (k : Z) :
  HashTable_ok t -> HashTable_lookup t k = HashTable_find (hash_bucket t k) k.
Proof.
  intros [Hlen Hall]. unfold HashTable_lookup, hash_bucket, HashTable in *.
  destruct (t !! Z.to_nat (Z.shiftr k (64 - TBHASHBITS))) as [b|] eqn:Hb; [|done].
  cbn [default from_option id].
  rewrite take_ge; [done|].
  erewrite bucket_ok_length; [done|]. by eapply Forall_lookup_1.
Qed.

Lemma HashTable_insert_spec (t t' : HashTable) (k : Z) (ptr : nat) :
  HashTable_ok t ->
  HashTable_insert t k ptr = Some t' ->
  HashTable_lookup t' k = Some ptr
  /\ forall k', k' <> k -> HashTable_lookup t' k' = HashTable_lookup t k'.
Proof.
  intros Hok Hins.
  assert (Hok' : HashTable_ok t') by by eapply HashTable_insert_ok.
  apply HashTable_insert_inv in Hins as (i & b & b' & -> & Hb & _ & Hput & -> & Hb').
  assert (Hbok : bucket_ok b) by (destruct Hok as [_ Hall]; by eapply Forall_lookup_1).
  destruct (HashTable_put_spec b b' k ptr Hbok Hput) as (_ & Hfind & Hframe).
  split.
  - by rewrite HashTable_lookup_ok, Hb'.
  - intros k' Hk'. rewrite !HashTable_lookup_ok by done.
    unfold hash_bucket, HashTable in *.
    destruct (decide (Z.to_nat (Z.shiftr k' (64 - TBHASHBITS))
                      = Z.to_nat (Z.shiftr k (64 - TBHASHBITS)))) as [Heq|Hne].
    + rewrite Heq, list_lookup_insert_eq by by eapply lookup_lt_Some. rewrite Hb.
      cbn [default from_option id]. by apply Hframe.
    + by rewrite list_lookup_insert_ne.
Qed.

Lemma HashTable_insert_default_ok (t : HashTable) (k : Z) (ptr : nat) :
  HashTable_ok t -> HashTable_ok (default t (HashTable_insert t k ptr)).
Proof.
  intros Hok. destruct (HashTable_insert t k ptr) as [t'|] eqn:Hins; [|done].
  by eapply HashTable_insert_ok.
Qed.

Lemma hash_five_ok : HashTable_ok hash_five.
Proof.
  unfold hash_five. cbn [foldl].
  repeat apply HashTable_insert_default_ok. apply HashTable_clear_ok.
Qed.

(** X1: a key that [insert(key, ptr)] has stored is found by
    [operator[]] with the pointer it was stored with. *)
Theorem HashTable_insert_lookup (t t' : HashTable) (k : Z) (ptr : nat) :
  HashTable_ok t ->
  HashTable_insert t k ptr = Some t' ->
  HashTable_lookup t' k = Some ptr.
Proof.
  intros Hok Hins. by apply (HashTable_insert_spec t t' k ptr).
Qed.

Lemma HashTable_insert_lookup_witness :
  HashTable_lookup (default HashTable_clear (HashTable_insert HashTable_clear (2 ^ 60) 7))
                   (2 ^ 60) = Some 7%nat.
Proof.
  apply (HashTable_insert_lookup HashTable_clear _ (2 ^ 60) 7).
  - apply HashTable_clear_ok.
  - vm_compute. reflexivity.
Defined.

(** X2: [insert(key, ptr)] leaves what [operator[]] finds for every other
    key as it was, in the bucket of the key as in the others. *)
Theorem HashTable_insert_other (t t' : HashTable) (k k' : Z) (ptr : nat) :
  HashTable_ok t ->
  HashTable_insert t k ptr = Some t' ->
  k' <> k ->
  HashTable_lookup t' k' = HashTable_lookup t k'.
Proof.
  intros Hok Hins. by apply (HashTable_insert_spec t t' k ptr).
Qed.

Lemma HashTable_insert_other_witness :
  HashTable_lookup (default HashTable_clear (HashTable_insert hash_five 3 9)) 0
  = HashTable_lookup hash_five 0.
Proof.
  apply (HashTable_insert_other hash_five _ 3 0 9).
  - apply hash_five_ok.
  - vm_compute. reflexivity.
  - lia.
Defined.

(** X3: [insert(key, ptr)] gives up ("HSHMAX too low!") exactly when
    every entry of the key's bucket is taken by another key. *)
Theorem HashTable_insert_full (t : HashTable) (k : Z) (ptr : nat) :
  HashTable_insert t k ptr = None
  <-> Forall (fun e => hash_ptr e <> None /\ hash_key e <> k) (hash_bucket t k).
Proof.
  unfold HashTable_insert.
  destruct (bucket_split (hash_bucket t k) k)
    as [(pre & e & post & Hb & Hpre & He)|Hall].
  - rewrite Hb, HashTable_put_split by done. cbn [mbind option_bind]. split; [done|].
    intros Hall. apply Forall_app in Hall as [_ Hall].
    apply Forall_cons in Hall as [[Hp Hkey] _]. by destruct He.
  - by rewrite HashTable_put_full.
Qed.

(** ** The registry: [HashTable::insert(pieces)] and [Tablebases::init] *)

Lemma TB_clear_ok : registry_ok TB_clear.
Proof.
  split; [apply HashTable_clear_ok|].
  intros k ptr. simpl. rewrite HashTable_lookup_ok by apply HashTable_clear_ok.
  unfold hash_bucket, HashTable_clear, HashTable.
  match goal with |- context [?l !! ?i] => destruct (l !! i) as [b|] eqn:Hb end;
    cbn [default from_option id HashTable_find]; [|done].
  apply lookup_replicate in Hb as [-> _].
  by rewrite (HashTable_find_cleared HSHMAX).
Qed.

Section Registry.
Context `{Host}.

(** What registering one material whose file is there does. *)
Lemma register_table_inv (pcs : list Z) (st st' : TB) :
  file_exists (material_file pcs) = true ->
  register_table pcs st = Some st' ->
  let code := material_code pcs in
  let kw := materialKey (Position_set code WHITE) in
  let kb := materialKey (Position_set code BLACK) in
  exists h,
    HashTable_insert (WDLHash st) kw (length (WDLTable st)) = Some h
    /\ HashTable_insert h kb (length (WDLTable st)) = Some (WDLHash st')
    /\ WDLTable st' = WDLTable st ++ [WDLEntry_new (Position_set code WHITE) kw kb]
    /\ MaxCardinality st' = Z.max (MaxCardinality st) (Z.of_nat (length pcs))
    /\ DTZTable st' = DTZTable st /\ success st' = success st /\ calls st' = calls st.
Proof.
  intros Hfile. unfold register_table. rewrite Hfile. cbn [negb].
  intros Hreg. apply bind_Some in Hreg as (h & Hh & Hreg).
  apply bind_Some in Hreg as (h' & Hh' & [= <-]). by exists h.
Qed.

Lemma register_table_ok (pcs : list Z) (st st' : TB) :
  registry_ok st -> register_table pcs st = Some st' -> registry_ok st'.
Proof.
  intros [Hok Hptr] Hreg.
  destruct (file_exists (material_file pcs)) eqn:Hfile;
    [|unfold register_table in Hreg; rewrite Hfile in Hreg; by injection Hreg as <-].
  destruct (register_table_inv pcs st st' Hfile Hreg)
    as (h & Hh & Hh' & Htable & _).
  assert (Hokh : HashTable_ok h) by by eapply HashTable_insert_ok.
  destruct (HashTable_insert_spec _ _ _ _ Hok Hh) as [Hw Hw'].
  destruct (HashTable_insert_spec _ _ _ _ Hokh Hh') as [Hb Hb'].
  split; [by eapply HashTable_insert_ok|].
  intros k ptr. rewrite Htable, length_app. simpl.
  destruct (Z.eq_dec k (materialKey (Position_set (material_code pcs) BLACK)))
    as [->|Hkb]; [rewrite Hb; intros [= <-]; lia|].
  rewrite Hb' by done.
  destruct (Z.eq_dec k (materialKey (Position_set (material_code pcs) WHITE)))
    as [->|Hkw]; [rewrite Hw; intros [= <-]; lia|].
  rewrite Hw' by done. intros Hk. apply Hptr in Hk. lia.
Qed.

Lemma register_all_from_ok (materials : list (list Z)) (st : TB) :
  registry_ok st ->
  registry_ok (foldl (fun st pcs => default st (register_table pcs st)) st materials).
Proof.
  revert st. induction materials as [|pcs materials IH]; intros st Hok; [done|].
  simpl. apply IH.
  destruct (register_table pcs st) as [st'|] eqn:Hreg; [|done].
  by eapply register_table_ok.
Qed.

Lemma register_all_from_cardinality (materials : list (list Z)) (st : TB) (n : Z) :
  Forall (fun pcs => Z.of_nat (length pcs) <= n) materials ->
  0 <= MaxCardinality st <= n ->
  0 <= MaxCardinality
         (foldl (fun st pcs => default st (register_table pcs st)) st materials) <= n.
Proof.
  intros Hall. revert st. induction Hall as [|pcs materials Hpcs _ IH]; intros st Hst;
    [done|].
  simpl. apply IH.
  destruct (register_table pcs st) as [st'|] eqn:Hreg; [|done]. simpl.
  destruct (file_exists (material_file pcs)) eqn:Hfile;
    [|unfold register_table in Hreg; rewrite Hfile in Hreg; by injection Hreg as <-].
  destruct (register_table_inv pcs st st' Hfile Hreg) as (_ & _ & _ & _ & -> & _). lia.
Qed.

(** X4: when the WDL file of a material is there, [insert(pieces)] appends
    one entry to [WDLTable], and both material keys of the combination, the
    one with the first side White and the one with it Black, then find
    that entry. *)
Theorem register_table_found (pcs : list Z) (st st' : TB) :
  HashTable_ok (WDLHash st) ->
  file_exists (material_file pcs) = true ->
  register_table pcs st = Some st' ->
  length (WDLTable st') = S (length (WDLTable st))
  /\ HashTable_lookup (WDLHash st') (materialKey (Position_set (material_code pcs) WHITE))
     = Some (length (WDLTable st))
  /\ HashTable_lookup (WDLHash st') (materialKey (Position_set (material_code pcs) BLACK))
     = Some (length (WDLTable st)).
Proof.
  intros Hok Hfile Hreg.
  destruct (register_table_inv pcs st st' Hfile Hreg) as (h & Hh & Hh' & Htable & _).
  assert (Hokh : HashTable_ok h) by by eapply HashTable_insert_ok.
  destruct (HashTable_insert_spec _ _ _ _ Hok Hh) as [Hw Hw'].
  destruct (HashTable_insert_spec _ _ _ _ Hokh Hh') as [Hb Hb'].
  repeat split; [rewrite Htable, length_app; simpl; lia| |done].
  destruct (Z.eq_dec (materialKey (Position_set (material_code pcs) WHITE))
                     (materialKey (Position_set (material_code pcs) BLACK)))
    as [Heq|Hne]; [by rewrite Heq|].
  by rewrite Hb'.
Qed.

(** X5: the registry [Tablebases::init] builds is sound whatever files are
    there: no pointer of the hash is past the end of [WDLTable], and
    [MaxCardinality] is at most 6. *)
Theorem Tablebases_init_registry :
  (forall k ptr, HashTable_lookup (WDLHash Tablebases_init) k = Some ptr ->
                 is_Some (WDLTable Tablebases_init !! ptr))
  /\ 0 <= MaxCardinality Tablebases_init <= 6.
Proof.
  unfold Tablebases_init, register_all.
  pose proof (register_all_from_ok init_materials TB_clear TB_clear_ok) as [_ Hptr].
  assert (Hcheck : forallb (fun pcs => Z.of_nat (length pcs) <=? 6) init_materials = true)
    by by vm_compute.
  revert Hptr Hcheck. generalize init_materials. intros materials Hptr Hcheck.
  split.
  - intros k ptr Hk. apply lookup_lt_is_Some_2. by apply Hptr in Hk.
  - apply register_all_from_cardinality; [|simpl; lia].
    apply Forall_forall. intros pcs Hpcs.
    rewrite forallb_forall in Hcheck. apply Z.leb_le, Hcheck. by apply list_elem_of_In.
Qed.

(** X6: when the WDL file of no material combination is found,
    [Tablebases::init] registers nothing, whatever other files there are:
    the tables stay empty and [MaxCardinality] stays 0. *)
Theorem Tablebases_init_no_files :
  (forall pcs, pcs ∈ init_materials -> file_exists (material_file pcs) = false) ->
  Tablebases_init = TB_clear.
Proof.
  unfold Tablebases_init, register_all.
  generalize init_materials. intros materials.
  induction materials as [|pcs materials IH] using rev_ind; intros Hnone; [done|].
  rewrite foldl_app. simpl. rewrite IH.
  - unfold register_table. rewrite Hnone; [done|]. apply elem_of_app. right. by left.
  - intros pcs' Hin. apply Hnone. apply elem_of_app. by left.
Qed.

End Registry.

Lemma register_table_found_witness :
  length (WDLTable tb_KQvK) = 1%nat
  /\ HashTable_lookup (WDLHash tb_KQvK) (toy_key (board (toy_Position_set "KQK" WHITE)))
     = Some 0%nat
  /\ HashTable_lookup (WDLHash tb_KQvK) (toy_key (board (toy_Position_set "KQK" BLACK)))
     = Some 0%nat.
Proof.
  apply (@register_table_found host_KQvK [KING; QUEEN; KING] TB_clear tb_KQvK).
  - apply HashTable_clear_ok.
  - reflexivity.
  - by vm_compute.
Defined.

Lemma Tablebases_init_no_files_witness :
  @Tablebases_init (toy_host ["KQvK.rtbz"%string] []) = TB_clear.
Proof.
  apply (@Tablebases_init_no_files (toy_host ["KQvK.rtbz"%string] [])).
  intros pcs Hpcs.
  assert (Hcheck : forallb (fun pcs => negb (@file_exists (toy_host ["KQvK.rtbz"%string] [])
                                               (material_file pcs)))
                           init_materials = true) by (vm_compute; reflexivity).
  rewrite forallb_forall in Hcheck. apply negb_true_iff, Hcheck.
  by apply list_elem_of_In.
Defined.

(** ** [file_name] *)

Lemma flip_piece_make (pc c pt : Z) :
  pc = NO_PIECE \/ is_piece pc = true ->
  c = WHITE \/ c = BLACK -> 1 <= pt <= 6 ->
  (flip_piece pc =? make_piece c pt) = (pc =? make_piece (1 - c) pt).
Proof.
  intros Hpc Hc Hpt.
  assert (Hr : 0 <= pc < 16) by (unfold is_piece, NO_PIECE in Hpc; lia).
  pose proof (range_forall 16
    (fun pc => implb ((pc =? NO_PIECE) || is_piece pc)
      (forallb (fun pt =>
         Bool.eqb (flip_piece pc =? make_piece 0 pt) (pc =? make_piece 1 pt)
         && Bool.eqb (flip_piece pc =? make_piece 1 pt) (pc =? make_piece 0 pt))
       (seqZ 1 6)))
    eq_refl pc Hr) as Hall.
  rewrite implb_true_iff, orb_true_iff, Z.eqb_eq, forallb_forall in Hall.
  specialize (Hall Hpc pt). rewrite andb_true_iff in Hall.
  destruct Hall as [H0 H1]; [apply list_elem_of_In, elem_of_seqZ; lia|].
  unfold WHITE, BLACK in Hc. destruct Hc as [-> | ->]; by apply eqb_prop.
Qed.

Lemma piece_run_mirror (pos pos' : Position) (c pt : Z) :
  board pos' = mirror_board (board pos) -> board_ok pos ->
  c = WHITE \/ c = BLACK -> 1 <= pt <= 6 ->
  piece_run pos' c pt = piece_run pos (1 - c) pt.
Proof.
  intros Hb Hok Hc Hpt. unfold piece_run, pieces_of. do 2 f_equal.
  rewrite (squares_with_mirror pos pos' (fun pc => pc =? make_piece (1 - c) pt)
             (fun pc => pc =? make_piece c pt)); [apply length_map|done|].
  intros s Hs. apply flip_piece_make; [apply Hok, Hs|done..].
Qed.

Lemma side_name_mirror (pos pos' : Position) (c : Z) :
  board pos' = mirror_board (board pos) -> board_ok pos ->
  c = WHITE \/ c = BLACK ->
  side_name pos' c = side_name pos (1 - c).
Proof.
  intros Hb Hok Hc. unfold side_name. cbn [foldr].
  by rewrite !(piece_run_mirror pos pos') by (done || unfold KING, QUEEN, ROOK, BISHOP, KNIGHT, PAWN; lia).
Qed.

(** X7: the table name of the mirror of a position is the name of the
    position with the sides exchanged: [file_name] with [mirror] set names
    a position as [file_name] without it names its mirror. *)
Theorem file_name_mirror (pos pos' : Position) (mirror : bool) :
  board pos' = mirror_board (board pos) -> board_ok pos ->
  file_name pos' mirror = file_name pos (negb mirror).
Proof.
  intros Hb Hok. unfold file_name.
  rewrite !(side_name_mirror pos pos') by (done || auto).
  change (1 - WHITE) with BLACK. change (1 - BLACK) with WHITE.
  by destruct mirror.
Qed.

Lemma file_name_mirror_witness :
  file_name (toy_mirror pos_KQvKR) false = file_name pos_KQvKR true
  /\ file_name pos_KQvKR true = "KRvKQ"%string.
Proof.
  split; [|reflexivity].
  apply (file_name_mirror pos_KQvKR (toy_mirror pos_KQvKR) false); [reflexivity|].
  by apply board_check_ok.
Defined.

(** ** The decoder: [decompress_pairs] walks the dictionary *)

Lemma symbol_bytes_nonempty (f : nat) (m : Mem) (sp s : Z) (bs : list Z) :
  symbol_bytes f m sp s = Some bs -> (1 <= length bs)%nat.
Proof.
  revert s bs. induction f as [|f IH]; intros s bs; simpl; [done|].
  destruct (sympat_s2 m sp s =? 4095); [intros [= <-]; simpl; lia|].
  intros Hbs. apply bind_Some in Hbs as (l1 & H1 & Hbs).
  apply bind_Some in Hbs as (l2 & H2 & [= <-]).
  apply IH in H1. rewrite length_app. lia.
Qed.

Section Dictionary.
Variables (m : Mem) (sp : Z) (sl : list Z).
Hypothesis Hsl : forall s, 0 <= s < Z.of_nat (length sl) -> sym_ok m sp sl s.

(** As long as a symbol expands to at most 256 bytes, [symlen] holds the
    number of its bytes less one. *)
Lemma symbol_bytes_symlen (f : nat) (s : Z) (bs : list Z) :
  0 <= s < Z.of_nat (length sl) ->
  symbol_bytes f m sp s = Some bs -> (length bs <= 256)%nat ->
  vec_get sl s = Some (Z.of_nat (length bs) - 1).
Proof.
  revert s bs. induction f as [|f IH]; intros s bs Hs; simpl; [done|].
  destruct (Hsl s Hs) as [Hleaf Hpair].
  destruct (Z.eqb_spec (sympat_s2 m sp s) 4095) as [E|E].
  - intros [= <-] _. by rewrite Hleaf.
  - intros Hbs Hlen. apply bind_Some in Hbs as (b1 & H1 & Hbs).
    apply bind_Some in Hbs as (b2 & H2 & [= <-]).
    rewrite length_app in Hlen |- *.
    destruct (Hpair E) as (l1 & l2 & Hl1 & Hl2 & ->).
    pose proof (symbol_bytes_nonempty _ _ _ _ _ H1).
    pose proof (symbol_bytes_nonempty _ _ _ _ _ H2).
    assert (R1 : 0 <= sympat_s1 m sp s < Z.of_nat (length sl))
      by by apply vec_get_Some in Hl1 as [? _].
    assert (R2 : 0 <= sympat_s2 m sp s < Z.of_nat (length sl))
      by by apply vec_get_Some in Hl2 as [? _].
    rewrite (IH _ b1 R1 H1) in Hl1 by lia.
    rewrite (IH _ b2 R2 H2) in Hl2 by lia.
    injection Hl1 as <-. injection Hl2 as <-.
    f_equal. unfold u8. rewrite Z.mod_small; lia.
Qed.

Lemma expand_symbol_walk (d : PairsData) (f : nat) (s litidx : Z) (bs : list Z) :
  sympat d = sp -> symlen d = sl ->
  0 <= s < Z.of_nat (length sl) ->
  symbol_bytes f m sp s = Some bs -> (length bs <= 256)%nat ->
  0 <= litidx < Z.of_nat (length bs) ->
  exists leaf,
    expand_symbol f m d s litidx = Some leaf
    /\ bs !! Z.to_nat litidx = Some (load8 m (sp + 3 * leaf)).
Proof.
  intros Hsp Hsym. revert s litidx bs.
  induction f as [|f IH]; intros s litidx bs Hs Hbs Hlen Hidx; [done|].
  pose proof (symbol_bytes_symlen _ _ _ Hs Hbs Hlen) as Hsl_s.
  cbn [expand_symbol]. rewrite Hsym, Hsl_s. cbn [mbind option_bind].
  simpl in Hbs. destruct (Hsl s Hs) as [Hleaf Hpair].
  destruct (Z.eqb_spec (sympat_s2 m sp s) 4095) as [E|E].
  - injection Hbs as <-. simpl in *. exists s.
    replace litidx with 0 by lia. done.
  - apply bind_Some in Hbs as (b1 & H1 & Hbs).
    apply bind_Some in Hbs as (b2 & H2 & [= <-]).
    rewrite length_app in Hlen, Hidx |- *.
    pose proof (symbol_bytes_nonempty _ _ _ _ _ H1) as N1.
    pose proof (symbol_bytes_nonempty _ _ _ _ _ H2) as N2.
    destruct (Z.eqb_spec (Z.of_nat (length b1 + length b2) - 1) 0); [lia|].
    destruct (Hpair E) as (l1 & l2 & Hl1 & Hl2 & _).
    assert (R1 : 0 <= sympat_s1 m sp s < Z.of_nat (length sl))
      by by apply vec_get_Some in Hl1 as [? _].
    assert (R2 : 0 <= sympat_s2 m sp s < Z.of_nat (length sl))
      by by apply vec_get_Some in Hl2 as [? _].
    rewrite Hsp, (symbol_bytes_symlen f _ b1 R1 H1) by lia.
    cbn [mbind option_bind].
    destruct (Z.ltb_spec litidx (Z.of_nat (length b1) - 1 + 1)) as [Hlt|Hge].
    + destruct (IH _ litidx b1 R1 H1) as (leaf & Hrun & Hleaf'); [lia..|].
      exists leaf. split; [done|]. rewrite lookup_app_l by lia. done.
    + replace (s32 (litidx - (Z.of_nat (length b1) - 1 + 1)))
        with (litidx - Z.of_nat (length b1)) by (unfold s32; rewrite Z.mod_small; lia).
      destruct (IH _ (litidx - Z.of_nat (length b1)) b2 R2 H2)
        as (leaf & Hrun & Hleaf'); [lia..|].
      exists leaf. split; [done|]. rewrite lookup_app_r by lia.
      rewrite <- Hleaf'. f_equal. lia.
Qed.

End Dictionary.

(** X8: once [set_sizes] has parsed a header, the walk that ends
    [decompress_pairs] picks, for a symbol that expands to at most 256
    bytes, the byte at place [litidx] of its expansion: it stops at a leaf
    whose value is that byte. *)
Theorem expand_symbol_nth (fuel f : nat) (m : Mem) (d0 d : PairsData)
    (data0 tb_size data' : Z) (sym litidx : Z) (bs : list Z) :
  Z.land (load8 m data0) 128 = 0 ->
  set_sizes fuel m d0 data0 tb_size = Some (d, data') ->
  0 <= sym < Z.of_nat (length (symlen d)) ->
  symbol_bytes f m (sympat d) sym = Some bs -> (length bs <= 256)%nat ->
  0 <= litidx < Z.of_nat (length bs) ->
  exists leaf,
    expand_symbol f m d sym litidx = Some leaf
    /\ bs !! Z.to_nat litidx = Some (load8 m (sympat d + 3 * leaf)).
Proof.
  intros Hflag Hrun Hsym Hbs Hlen Hidx.
  destruct (set_sizes_parsed _ _ _ _ _ _ _ Hflag Hrun) as (_ & _ & _ & _ & Hok).
  by apply (expand_symbol_walk m (sympat d) (symlen d) Hok d f sym litidx bs).
Qed.

Lemma expand_symbol_nth_witness :
  exists leaf bs,
    symbol_bytes 16 (mem_of_bytes wrap_header) (sympat wrap_pairs) 8 = Some bs
    /\ length bs = 256%nat
    /\ expand_symbol 16 (mem_of_bytes wrap_header) wrap_pairs 8 200 = Some leaf
    /\ bs !! Z.to_nat 200
       = Some (load8 (mem_of_bytes wrap_header) (sympat wrap_pairs + 3 * leaf)).
Proof.
  destruct (expand_symbol_nth 16 16 (mem_of_bytes wrap_header) PairsData_new wrap_pairs
              0 1000 44 8 200 (replicate 256 7))
    as (leaf & Hrun & Hbyte);
    [reflexivity|reflexivity|simpl; lia|by vm_compute|by vm_compute|by vm_compute|].
  exists leaf, (replicate 256 7). repeat split; [by vm_compute|done..].
Defined.

(** ** The header parser: [set_sizes] *)

Lemma base_shift_length (minlen : Z) (b : list Z) :
  length (base_shift minlen b) = length b.
Proof. unfold base_shift. apply length_imap. Qed.

Lemma number2_range (m : Mem) (a : Z) : 0 <= number 2 LittleEndian m a < 2 ^ 16.
Proof.
  cbn [number]. pose proof (load8_range m a). pose proof (load8_range m (a + 1)). lia.
Qed.

(** X9: [set_sizes] returns the address just behind the header it has
    read, and the header takes an even number of bytes: 2 for a
    single-value table; otherwise 10 bytes, the [max_len - min_len + 1]
    offsets, the 16-bit number of symbols, 3 bytes for each symbol, and
    one more byte when the number of symbols is odd. *)
Theorem set_sizes_layout (fuel : nat) (m : Mem) (d d' : PairsData)
    (data0 tb_size data' : Z) :
  set_sizes fuel m d data0 tb_size = Some (d', data') ->
  (data' - data0) mod 2 = 0
  /\ (Z.land (load8 m data0) 128 <> 0 -> data' = data0 + 2)
  /\ (Z.land (load8 m data0) 128 = 0 ->
      sympat d' = data0 + 12 + 2 * (max_len d' - min_len d' + 1)
      /\ Z.of_nat (length (symlen d')) = number 2 LittleEndian m (sympat d' - 2)
      /\ data' = sympat d' + 3 * Z.of_nat (length (symlen d'))
                 + Z.of_nat (length (symlen d')) mod 2).
Proof.
  intros Hrun.
  destruct (Z.eq_dec (Z.land (load8 m data0) 128) 0) as [Hflag|Hflag].
  - cut (sympat d' = data0 + 12 + 2 * (max_len d' - min_len d' + 1)
         /\ Z.of_nat (length (symlen d')) = number 2 LittleEndian m (sympat d' - 2)
         /\ data' = sympat d' + 3 * Z.of_nat (length (symlen d'))
                    + Z.of_nat (length (symlen d')) mod 2).
    { intros (Hsp & Hn & Hd). split; [|by split].
      rewrite Hd, Hsp.
      pose proof (Z.mod_pos_bound (Z.of_nat (length (symlen d'))) 2 ltac:(lia)).
      rewrite (Z.div_mod (Z.of_nat (length (symlen d'))) 2) at 1 by lia.
      match goal with
      | |- ?x mod 2 = 0 =>
          replace x with ((6 + (max_len d' - min_len d' + 1)
                           + 3 * (Z.of_nat (length (symlen d')) / 2)
                           + 2 * (Z.of_nat (length (symlen d')) mod 2)) * 2) by lia
      end.
      apply Z.mod_mul. lia. }
    unfold set_sizes in Hrun.
    rewrite Hflag, Z.eqb_refl in Hrun. cbv beta zeta iota delta [negb] in Hrun.
    set (size := load8 m (data0 + 8) - load8 m (data0 + 9) + 1) in *.
    destruct (Z.ltb_spec size 0) as [|Hsize]; [done|].
    rewrite base_shift_length, base_halve_length, vec_resize_length in Hrun.
    rewrite !vec_resize_length in Hrun.
    apply bind_Some in Hrun as ([d2 tmp2] & Hloop & [= <- <-]).
    eapply symlen_loop_inv in Hloop as (E & [Hlen Hinv] & _ & Hl).
    + rewrite length_replicate in Hl. rewrite <- Hlen, Hl, E.
      cbn [sympat max_len min_len with_symlen].
      rewrite !Z2Nat.id by (done || apply number2_range).
      fold size. split; [lia|]. split; [f_equal; lia|].
      f_equal. change 1 with (Z.ones 1). by rewrite Z.land_ones.
    + split; [cbn [symlen]; by rewrite length_replicate, vec_resize_length|].
      intros s (t & Ht & Ht0). apply vec_get_Some in Ht as [_ Ht].
      apply lookup_replicate in Ht as [-> _]. done.
    + intros j Hj. lia.
  - unfold set_sizes in Hrun.
    destruct (Z.eqb_spec (Z.land (load8 m data0) 128) 0) as [|_]; [done|].
    cbn [negb] in Hrun. injection Hrun as <- <-.
    split; [|by split].
    replace (data0 + 2 - data0) with (1 * 2) by lia. apply Z.mod_mul. lia.
Qed.

Lemma set_sizes_layout_witness :
  (30 - 0) mod 2 = 0
  /\ (Z.land (load8 (mem_of_bytes huff_header) 0) 128 <> 0 -> 30 = 0 + 2)
  /\ (Z.land (load8 (mem_of_bytes huff_header) 0) 128 = 0 ->
      sympat huff_pairs = 0 + 12 + 2 * (max_len huff_pairs - min_len huff_pairs + 1)
      /\ Z.of_nat (length (symlen huff_pairs))
         = number 2 LittleEndian (mem_of_bytes huff_header) (sympat huff_pairs - 2)
      /\ 30 = sympat huff_pairs + 3 * Z.of_nat (length (symlen huff_pairs))
              + Z.of_nat (length (symlen huff_pairs)) mod 2).
Proof.
  apply (set_sizes_layout 16 (mem_of_bytes huff_header) PairsData_new huff_pairs 0 1000 30).
  reflexivity.
Defined.

(** ** The table lookups: [probe_wdl_table] and [probe_dtz_table] *)

Section Lookups.
Context `{Host}.

(** X10: [probe_wdl_table] writes to nothing but the WDL entry the
    material key of the position points to: the hash, the DTZ list and
    [MaxCardinality] are as before, [WDLTable] has as many entries as
    before and the same ones at every other place, and [*success] is as
    before or 0. *)
Theorem probe_wdl_table_frame (tfuel : nat) (pos : Position) (st st' : TB) (v : Z) :
  probe_wdl_table tfuel pos st = Some (v, st') ->
  WDLHash st' = WDLHash st /\ DTZTable st' = DTZTable st
  /\ MaxCardinality st' = MaxCardinality st
  /\ length (WDLTable st') = length (WDLTable st)
  /\ (success st' = success st \/ success st' = 0)
  /\ forall i, HashTable_lookup (WDLHash st) (materialKey pos) <> Some i ->
               WDLTable st' !! i = WDLTable st !! i.
Proof.
  unfold probe_wdl_table. cbn [WDLHash WDLTable tick success].
  case_bool_decide; [intros [= <- <-]; simpl; auto 10|].
  destruct (HashTable_lookup (WDLHash st) (materialKey pos)) as [ptr|];
    [|intros [= <- <-]; simpl; auto 10].
  intros Hrun. apply bind_Some in Hrun as (entry & Hentry & Hrun).
  match type of Hrun with
  | (let '(_, _) := ?l in _) = _ => destruct l as [entry' ok]
  end.
  assert (Hframe : forall i, Some ptr <> Some i ->
            <[ptr := entry']> (WDLTable st) !! i = WDLTable st !! i).
  { intros i Hi. apply list_lookup_insert_ne. congruence. }
  destruct ok; cbn [negb] in Hrun.
  - apply bind_Some in Hrun as ([v0 s0] & _ & [= <- <-]). simpl.
    rewrite length_insert. auto 10.
  - injection Hrun as <- <-. simpl. rewrite length_insert. auto 10.
Qed.

(** X11: a table is loaded once.  After a probe that did not fail, the
    same probe again gives the same value and changes nothing (the call
    counted apart): the entry is [ready] and [init] is not run again. *)
Theorem probe_wdl_table_again (tfuel : nat) (pos : Position) (st st1 : TB) (v : Z) :
  probe_wdl_table tfuel pos st = Some (v, st1) ->
  success st1 <> 0 ->
  probe_wdl_table tfuel pos st1 = Some (v, tick st1).
Proof.
  unfold probe_wdl_table. cbn [WDLHash WDLTable tick success].
  case_bool_decide as Hbare; [by intros [= <- <-]|].
  destruct (HashTable_lookup (WDLHash st) (materialKey pos)) as [ptr|] eqn:Hptr;
    [|by intros [= <- <-]].
  intros Hrun Hok. apply bind_Some in Hrun as (entry & Hentry & Hrun).
  match type of Hrun with
  | (let '(_, _) := ?l in _) = _ => destruct l as [entry' ok] eqn:Hload
  end.
  destruct ok; cbn [negb] in Hrun; [|by injection Hrun as <- <-].
  apply bind_Some in Hrun as ([v0 s0] & Hprobe & [= <- <-]).
  simpl (WDLHash _). simpl (success _) in *. simpl (WDLTable _).
  rewrite Hptr. cbn [mbind option_bind].
  rewrite list_lookup_insert_eq by by eapply lookup_lt_Some.
  assert (Hready : ready entry' = true).
  { destruct (ready entry) eqn:Hr; [by injection Hload as <-|].
    destruct (WDLEntry_init entry _) as [e1 ok1].
    injection Hload as <- ->. done. }
  cbn [mbind option_bind]. rewrite Hready.
  rewrite list_insert_insert_eq, Hprobe. done.
Qed.

Lemma splice_front_perm (k : Z) (rest seen : list DTZEntry) :
  splice_front k seen rest ≡ₚ seen ++ rest.
Proof.
  revert seen. induction rest as [|e rest IH]; intros seen; simpl.
  - by rewrite app_nil_r.
  - destruct (dtz_matches k e).
    + by rewrite Permutation_middle.
    + by rewrite IH, <- app_assoc.
Qed.

Lemma splice_front_found (k : Z) (rest seen : list DTZEntry) :
  existsb (dtz_matches k) rest = true ->
  front_differs k (splice_front k seen rest) = false.
Proof.
  revert seen. induction rest as [|e rest IH]; intros seen; simpl; [done|].
  destruct (dtz_matches k e) eqn:He; simpl; [by rewrite He|]. apply IH.
Qed.

Lemma front_differs_found (k : Z) (t : list DTZEntry) :
  front_differs k t = false -> existsb (dtz_matches k) t = true.
Proof.
  destruct t as [|e t]; simpl; [done|]. by destruct (dtz_matches k e).
Qed.

(** X12: when the DTZ list holds an entry of the position's material,
    [probe_dtz_table] makes no new one: the list holds the same entries
    afterwards, one of that material in front, and neither [WDLTable] nor
    the hash is touched. *)
Theorem probe_dtz_table_hit (tfuel : nat) (pos : Position) (wdl : Z) (st st' : TB)
    (r : Z) :
  existsb (dtz_matches (materialKey pos)) (DTZTable st) = true ->
  probe_dtz_table tfuel pos wdl st = Some (r, st') ->
  DTZTable st' ≡ₚ DTZTable st
  /\ front_differs (materialKey pos) (DTZTable st') = false
  /\ WDLTable st' = WDLTable st /\ WDLHash st' = WDLHash st.
Proof.
  intros Hin. unfold probe_dtz_table. cbn [DTZTable tick].
  set (k := materialKey pos) in *.
  assert (Hend : forall s : TB,
    DTZTable s ≡ₚ DTZTable st -> front_differs k (DTZTable s) = false ->
    WDLTable s = WDLTable st -> WDLHash s = WDLHash st ->
    (front ← head (DTZTable s);
     if dtz_baseAddress front =? 0 then Some (0, set_success 0 s)
     else '(v, s0) ← probe_table tfuel host_mem pos front wdl (success s);
          Some (s32 v, set_success s0 s)) = Some (r, st') ->
    DTZTable st' ≡ₚ DTZTable st
    /\ front_differs k (DTZTable st') = false
    /\ WDLTable st' = WDLTable st /\ WDLHash st' = WDLHash st).
  { intros s Hperm Hfront Hw Hh Hrun.
    apply bind_Some in Hrun as (front & _ & Hrun).
    destruct (dtz_baseAddress front =? 0); [by injection Hrun as <- <-|].
    by apply bind_Some in Hrun as ([v s0] & _ & [= <- <-]). }
  destruct (front_differs k (DTZTable st)) eqn:Hfront; [|by apply Hend].
  cbn [DTZTable set_DTZTable].
  rewrite (splice_front_found k (DTZTable st) []) by done.
  apply Hend; [|by apply splice_front_found|done..].
  apply (splice_front_perm k (DTZTable st) []).
Qed.

(** X13: only a probe that fails can leave the DTZ list longer than it
    found it and longer than 64 entries: when [probe_dtz_table] returns
    with [*success] not 0, the list is as long as before or, if that was
    less, at most 64 entries long. *)
Theorem probe_dtz_table_bound (tfuel : nat) (pos : Position) (wdl : Z) (st st' : TB)
    (r : Z) :
  probe_dtz_table tfuel pos wdl st = Some (r, st') ->
  success st' <> 0 ->
  (length (DTZTable st') <= Nat.max 64 (length (DTZTable st)))%nat.
Proof.
  unfold probe_dtz_table. cbn [DTZTable tick].
  set (k := materialKey pos).
  assert (Hend : forall s : TB,
    (length (DTZTable s) <= Nat.max 64 (length (DTZTable st)))%nat ->
    (front ← head (DTZTable s);
     if dtz_baseAddress front =? 0 then Some (0, set_success 0 s)
     else '(v, s0) ← probe_table tfuel host_mem pos front wdl (success s);
          Some (s32 v, set_success s0 s)) = Some (r, st') ->
    (length (DTZTable st') <= Nat.max 64 (length (DTZTable st)))%nat).
  { intros s Hs Hrun. apply bind_Some in Hrun as (front & _ & Hrun).
    destruct (dtz_baseAddress front =? 0); [by injection Hrun as <- <-|].
    by apply bind_Some in Hrun as ([v s0] & _ & [= <- <-]). }
  destruct (front_differs k (DTZTable st));
    [|intros Hrun _; eapply Hend; [|exact Hrun]; simpl; lia].
  cbn [DTZTable set_DTZTable WDLHash WDLTable].
  pose proof (splice_front_length k (DTZTable st) []) as Hsplice. simpl in Hsplice.
  destruct (front_differs k (splice_front k [] (DTZTable st)));
    [|intros Hrun _; eapply Hend; [|exact Hrun]; simpl; lia].
  destruct (HashTable_lookup _ k) as [ptr|]; [|by intros [= <- <-]].
  destruct (_ !! ptr) as [wdlEntry|]; [|done].
  match goal with
  | |- context [DTZEntry_init ?x ?f] => destruct (DTZEntry_init x f) as [e ok]
  end.
  destruct ok; cbn [negb DTZTable set_DTZTable]; [|by intros [= <- <-]].
  intros Hrun _. revert Hrun.
  destruct (Nat.ltb_spec 64 (length (e :: splice_front k [] (DTZTable st))))
    as [Hbig|Hsmall]; apply Hend; cbn [DTZTable set_DTZTable].
  - rewrite pop_back_length. simpl in *. lia.
  - simpl in *. lia.
Qed.

End Lookups.

Lemma probe_wdl_table_frame_witness :
  WDLHash st_KQvK_wdl_probed = WDLHash tb_KQvK_dtz
  /\ DTZTable st_KQvK_wdl_probed = DTZTable tb_KQvK_dtz
  /\ MaxCardinality st_KQvK_wdl_probed = MaxCardinality tb_KQvK_dtz
  /\ length (WDLTable st_KQvK_wdl_probed) = length (WDLTable tb_KQvK_dtz)
  /\ (success st_KQvK_wdl_probed = success tb_KQvK_dtz \/ success st_KQvK_wdl_probed = 0)
  /\ forall i, HashTable_lookup (WDLHash tb_KQvK_dtz) (materialKey pos_KQvK_wtm) <> Some i ->
               WDLTable st_KQvK_wdl_probed !! i = WDLTable tb_KQvK_dtz !! i.
Proof.
  apply (@probe_wdl_table_frame host_KQvK_dtz 8 pos_KQvK_wtm tb_KQvK_dtz
           st_KQvK_wdl_probed 2).
  by vm_compute.
Defined.

Lemma probe_wdl_table_again_witness :
  @probe_wdl_table host_KQvK_dtz 8 pos_KQvK_wtm st_KQvK_wdl_probed
  = Some (2, tick st_KQvK_wdl_probed).
Proof.
  apply (@probe_wdl_table_again host_KQvK_dtz 8 pos_KQvK_wtm tb_KQvK_dtz).
  - by vm_compute.
  - by vm_compute.
Defined.

Lemma probe_dtz_table_hit_witness :
  exists st',
    @probe_dtz_table host_KQvK_dtz 8 pos_KQvK_wtm WDLWin st_KQvK_dtz_probed = Some (2, st')
    /\ DTZTable st' ≡ₚ DTZTable st_KQvK_dtz_probed
    /\ front_differs (materialKey pos_KQvK_wtm) (DTZTable st') = false
    /\ WDLTable st' = WDLTable st_KQvK_dtz_probed
    /\ WDLHash st' = WDLHash st_KQvK_dtz_probed.
Proof.
  eexists. split; [by vm_compute|].
  apply (@probe_dtz_table_hit host_KQvK_dtz 8 pos_KQvK_wtm WDLWin st_KQvK_dtz_probed _ 2).
  - by vm_compute.
  - by vm_compute.
Defined.

Lemma probe_dtz_table_bound_witness :
  (length (DTZTable st_KQvK_dtz_probed) <= Nat.max 64 (length (DTZTable tb_KQvK_dtz)))%nat.
Proof.
  apply (@probe_dtz_table_bound host_KQvK_dtz 8 pos_KQvK_wtm WDLWin tb_KQvK_dtz
           st_KQvK_dtz_probed 2).
  - by vm_compute.
  - by vm_compute.
Defined.

(** ** The search: [probe_ab] and [probe_wdl] against the game value *)

Lemma foldr_max_range (lo hi a : Z) (l : list Z) :
  lo <= a <= hi -> Forall (fun x => lo <= x <= hi) l ->
  lo <= foldr Z.max a l <= hi.
Proof. intros Ha. induction 1 as [|x l Hx _ IH]; simpl; lia. Qed.

Section Value.
Context `{Host} (tfuel : nat) (hash : HashTable) (table : list WDLEntry).

Local Notation "'tv'" := (table_value tfuel hash table).

Lemma wdl_minimax_range (f : nat) (pos : Position) :
  (forall q, searched pos q -> -2 <= tv q <= 2) ->
  -2 <= wdl_minimax tv f pos <= 2.
Proof.
  revert pos. induction f as [|f IH]; intros pos Htv; simpl.
  - apply Htv. constructor.
  - apply foldr_max_range; [apply Htv; constructor|].
    apply Forall_forall. intros x Hx.
    change (map ?f ?l) with (f <$> l) in Hx.
    apply list_elem_of_fmap in Hx as (move & -> & Hmove).
    assert (-2 <= wdl_minimax tv f (do_move pos move) <= 2); [|lia].
    apply IH. intros q Hq. apply Htv.
    apply (searched_trans _ (do_move pos move)); [|done].
    by apply searched_capture; [constructor|].
Qed.

(** In the full window [probe_ab] returns the value itself. *)
Lemma ab_result_full (f : nat) (pos : Position) :
  (forall q, searched pos q -> -2 <= tv q <= 2) ->
  ab_result tv f pos WDLLoss WDLWin = wdl_minimax tv (S f) pos.
Proof.
  intros Htv. pose proof (wdl_minimax_range (S f) pos Htv) as HW.
  pose proof (Htv pos (searched_root pos)) as Ht.
  unfold ab_result, ab_best, WDLLoss, WDLWin in *. cbn [wdl_minimax] in *.
  set (vals := map _ (ab_captures pos)) in *.
  pose proof (foldr_max_swap (-2) (tv pos) vals) as Hswap.
  destruct (Z.leb_spec 2 (foldr Z.max (-2) vals)) as [Hcut|Hno].
  - pose proof (foldr_max_ge 2 (-2) (tv pos) vals ltac:(lia) Hcut). lia.
  - lia.
Qed.

Lemma wdl_result_range (f : nat) (pos : Position) :
  (forall q, searched pos q -> -2 <= tv q <= 2) ->
  -2 <= wdl_result tv f pos <= 2.
Proof.
  intros Htv. unfold wdl_result. rewrite ab_result_full by done.
  pose proof (wdl_minimax_range (S f) pos Htv) as HW.
  destruct (epSquare pos =? SQ_NONE); [done|].
  assert (Hep : -3 <= ep_best tv f pos <= 2).
  { unfold ep_best. apply foldr_max_range; [lia|].
    apply Forall_forall. intros x Hx.
    change (map ?f ?l) with (f <$> l) in Hx.
    apply list_elem_of_fmap in Hx as (move & -> & Hmove).
    assert (Hchild : forall q, searched (do_move pos move) q -> -2 <= tv q <= 2).
    { intros q Hq. apply Htv. apply (searched_trans _ (do_move pos move)); [|done].
      by apply searched_ep; [constructor|]. }
    rewrite ab_result_full by done.
    pose proof (wdl_minimax_range (S f) (do_move pos move) Hchild). lia. }
  unfold wdl_ep_combine.
  destruct (Z.gtb_spec (ep_best tv f pos) (-3)); [|done].
  destruct (_ >=? _); [lia|].
  destruct (_ =? 0); [|done].
  destruct (has_legal_non_ep _ _); lia.
Qed.

End Value.

Section SearchValue.
Context `{Host}.

(** X14: [probe_ab] is an alpha-beta search of the captures.  With every
    table on the way loaded and fuel for the captures there can be, its
    result stands to the minimax value [W] of the position (the best of
    the table value and of what the legal captures lead to) as a search in
    the window does: [alpha] when [W <= alpha], at least [beta] when
    [beta <= W], and [W] itself in between; it does not fail and leaves
    the tables as they are. *)
Theorem probe_ab_alpha_beta (f tfuel : nat) (pos : Position) (alpha beta : Z) (st : TB) :
  alpha < beta -> (length (pieces_all pos) <= f)%nat ->
  (forall q, searched pos q -> search_ok tfuel (WDLHash st) (WDLTable st) q) ->
  success st <> 0 ->
  exists r st',
    probe_ab (S f) tfuel pos alpha beta st = Some (r, st')
    /\ success st' <> 0 /\ WDLHash st' = WDLHash st /\ WDLTable st' = WDLTable st
    /\ (wdl_minimax (table_value tfuel (WDLHash st) (WDLTable st)) (S f) pos <= alpha ->
        r = alpha)
    /\ (beta <= wdl_minimax (table_value tfuel (WDLHash st) (WDLTable st)) (S f) pos ->
        beta <= r)
    /\ (alpha < wdl_minimax (table_value tfuel (WDLHash st) (WDLTable st)) (S f) pos < beta ->
        r = wdl_minimax (table_value tfuel (WDLHash st) (WDLTable st)) (S f) pos).
Proof.
  intros Hab Hcount Hok Hs.
  destruct (probe_ab_minimax tfuel (WDLHash st) (WDLTable st) f pos alpha beta st)
    as (st' & Hrun & Hs' & Hh' & Ht'); [done..|].
  eexists _, st'. split; [done|].
  split; [destruct (ab_success_cases tfuel (WDLHash st) (WDLTable st) f pos alpha beta); lia|].
  split; [done|]. split; [done|].
  by apply (ab_result_spec tfuel (WDLHash st) (WDLTable st) f pos alpha beta).
Qed.

(** X15: where no en passant capture is possible, [probe_wdl] returns the
    minimax value of the position over the legal captures, the values at
    the leaves being what the WDL tables hold: the best of the table value
    of the position and of the negated values of the positions its
    captures lead to. *)
Theorem probe_wdl_value (f tfuel : nat) (pos : Position) (st : TB) :
  (length (pieces_all pos) <= f)%nat ->
  (forall q, searched pos q ->
     search_ok tfuel (WDLHash st) (WDLTable st) q
     /\ -2 <= table_value tfuel (WDLHash st) (WDLTable st) q <= 2) ->
  epSquare pos = SQ_NONE ->
  exists st',
    probe_wdl (S f) tfuel pos st
    = Some (wdl_minimax (table_value tfuel (WDLHash st) (WDLTable st)) (S f) pos, st')
    /\ success st' <> 0.
Proof.
  intros Hcount Hok Hep.
  destruct (probe_wdl_minimax tfuel (WDLHash st) (WDLTable st) f pos st)
    as (st' & Hrun & Hs' & _); [done|by intros q Hq; apply Hok|done..|].
  exists st'. split; [|done]. rewrite Hrun. do 2 f_equal.
  unfold wdl_result. rewrite Hep, Z.eqb_refl.
  apply ab_result_full. by intros q Hq; apply Hok.
Qed.

(** X16: [probe_wdl] returns a [WDLScore]: with the tables on the way
    loaded and holding values from [WDLLoss] to [WDLWin], its result is in
    that range too, en passant or not, and [*success] is not 0. *)
Theorem probe_wdl_range (f tfuel : nat) (pos : Position) (st : TB) :
  (length (pieces_all pos) <= f)%nat ->
  (forall q, searched pos q ->
     search_ok tfuel (WDLHash st) (WDLTable st) q
     /\ -2 <= table_value tfuel (WDLHash st) (WDLTable st) q <= 2) ->
  exists v st',
    probe_wdl (S f) tfuel pos st = Some (v, st')
    /\ success st' <> 0 /\ WDLLoss <= v <= WDLWin.
Proof.
  intros Hcount Hok.
  destruct (probe_wdl_minimax tfuel (WDLHash st) (WDLTable st) f pos st)
    as (st' & Hrun & Hs' & _); [done|by intros q Hq; apply Hok|done..|].
  eexists _, st'. split; [done|]. split; [done|].
  apply wdl_result_range. by intros q Hq; apply Hok.
Qed.

End SearchValue.

Lemma search_ok_KRvKR (q : Position) :
  @searched host_KRvKR pos_KRvKR q ->
  @search_ok host_KRvKR 8 (WDLHash st_KRvKR) (WDLTable st_KRvKR) q
  /\ -2 <= @table_value host_KRvKR 8 (WDLHash st_KRvKR) (WDLTable st_KRvKR) q <= 2.
Proof.
  intros Hq. split.
  - by apply (@search_ok_position host_KRvKR toy_mirror toy_mirror_move 8 _ _
                pos_KRvKR mirrored_KRvKR).
  - apply searched_KRvKR in Hq as [-> | ->]; by vm_compute.
Qed.

Lemma probe_ab_alpha_beta_witness :
  exists r st',
    @probe_ab host_KRvKR 8 8 pos_KRvKR (-1) 1 st_KRvKR = Some (r, st')
    /\ success st' <> 0
    /\ WDLHash st' = WDLHash st_KRvKR /\ WDLTable st' = WDLTable st_KRvKR
    /\ (@wdl_minimax host_KRvKR
          (@table_value host_KRvKR 8 (WDLHash st_KRvKR) (WDLTable st_KRvKR)) 8 pos_KRvKR
        <= -1 -> r = -1)
    /\ (1 <= @wdl_minimax host_KRvKR
               (@table_value host_KRvKR 8 (WDLHash st_KRvKR) (WDLTable st_KRvKR)) 8 pos_KRvKR
        -> 1 <= r)
    /\ (-1 < @wdl_minimax host_KRvKR
               (@table_value host_KRvKR 8 (WDLHash st_KRvKR) (WDLTable st_KRvKR)) 8 pos_KRvKR
             < 1 ->
        r = @wdl_minimax host_KRvKR
              (@table_value host_KRvKR 8 (WDLHash st_KRvKR) (WDLTable st_KRvKR)) 8 pos_KRvKR).
Proof.
  apply (@probe_ab_alpha_beta host_KRvKR 7 8 pos_KRvKR (-1) 1 st_KRvKR).
  - lia.
  - vm_compute. lia.
  - intros q Hq. by apply search_ok_KRvKR.
  - by vm_compute.
Defined.

Lemma probe_wdl_value_witness :
  exists st',
    @probe_wdl host_KRvKR 8 8 pos_KRvKR st_KRvKR
    = Some (@wdl_minimax host_KRvKR
              (@table_value host_KRvKR 8 (WDLHash st_KRvKR) (WDLTable st_KRvKR)) 8 pos_KRvKR,
            st')
    /\ success st' <> 0.
Proof.
  apply (@probe_wdl_value host_KRvKR 7 8 pos_KRvKR st_KRvKR).
  - vm_compute. lia.
  - exact search_ok_KRvKR.
  - reflexivity.
Defined.

Lemma probe_wdl_range_witness :
  exists v st',
    @probe_wdl host_KRvKR 8 8 pos_KRvKR st_KRvKR = Some (v, st')
    /\ success st' <> 0 /\ WDLLoss <= v <= WDLWin.
Proof.
  apply (@probe_wdl_range host_KRvKR 7 8 pos_KRvKR st_KRvKR).
  - vm_compute. lia.
  - exact search_ok_KRvKR.
Defined.

(** ** The root probe on the WDL tables: [root_probe_wdl] *)

Lemma foldr_max_shift (b v : Z) (l : list Z) :
  foldr Z.max (Z.max b v) l = Z.max v (foldr Z.max b l).
Proof. induction l as [|x l IH]; simpl; lia. Qed.

Lemma foldr_max_attained (a : Z) (l : list Z) :
  l <> [] -> Forall (fun x => a <= x) l -> foldr Z.max a l ∈ l.
Proof.
  induction l as [|x l IH]; [done|]. intros _ Hall.
  apply Forall_cons in Hall as [Hx Hall]. simpl.
  destruct l as [|y l]; [simpl; replace (Z.max x a) with x by lia; left|].
  specialize (IH ltac:(done) Hall).
  destruct (Z.max_spec x (foldr Z.max a (y :: l))) as [[_ ->]|[_ ->]];
    [by right|left].
Qed.

Section RootWDL.
Context `{Host} (c : Values) (tfuel : nat).

(** The loop never drops, adds or reorders a root move. *)
Lemma wdl_moves_loop_moves (probe : Probe) (pos : Position) (todo : list RootMove) :
  forall done best st,
    match wdl_moves_loop probe pos done todo best st with
    | Some (inl (moves, st')) => map pv moves = map pv (done ++ todo) /\ success st' = 0
    | Some (inr (moves, _, _)) => map pv moves = map pv (done ++ todo)
    | None => True
    end.
Proof.
  induction todo as [|rm rest IH]; intros done best st; simpl.
  - by rewrite app_nil_r.
  - destruct (head (pv rm)) as [move|]; [|done]. simpl.
    destruct (probe _ st) as [[v st1]|]; [|done]. simpl.
    destruct (Z.eqb_spec (success st1) 0) as [Hs|_]; [done|].
    specialize (IH (done ++ [mkRootMove (pv rm) (- v)])
                   (if - v >? best then - v else best) st1).
    destruct (wdl_moves_loop _ _ _ _ _ _) as [[[moves st']|[[moves b] st']]|]; [| |done].
    + by rewrite <- app_assoc, !map_app in IH; rewrite !map_app.
    + by rewrite <- app_assoc, !map_app in IH; rewrite !map_app.
Qed.

(** X17: [root_probe_wdl] only filters.  The moves it leaves in
    [rootMoves] are root moves it was given, in their order; when it
    returns false all of them are still there and [*success] is 0 (the
    scores of some may have been overwritten); when it returns true all
    the moves left have the same score. *)
Theorem root_probe_wdl_moves (fuel : nat) (pos : Position) (rootMoves moves' : list RootMove)
    (score0 score' : Z) (st st' : TB) (ok : bool) :
  root_probe_wdl c fuel tfuel pos rootMoves score0 st = Some (ok, moves', score', st') ->
  map pv moves' `sublist_of` map pv rootMoves
  /\ (ok = false -> map pv moves' = map pv rootMoves /\ success st' = 0)
  /\ (ok = true -> exists best, Forall (fun rm => score rm = best) moves').
Proof.
  unfold root_probe_wdl. intros Hrun.
  apply bind_Some in Hrun as ([wdl st1] & _ & Hrun).
  destruct (Z.eqb_spec (success st1) 0) as [Hs|_].
  { injection Hrun as <- <- <- <-. done. }
  apply bind_Some in Hrun as (score1 & _ & Hrun).
  apply bind_Some in Hrun as (r & Hloop & Hrun).
  pose proof (wdl_moves_loop_moves (probe_wdl fuel tfuel) pos rootMoves [] WDLLoss st1)
    as Hmoves.
  rewrite Hloop in Hmoves. cbn [app] in Hmoves.
  destruct r as [[moves st2]|[[moves best] st2]]; injection Hrun as <- <- <- <-.
  - destruct Hmoves as [-> Hs]. done.
  - split; [|split; [done|]].
    + rewrite <- Hmoves. change (map pv ?l) with (pv <$> l).
      apply fmap_sublist, sublist_filter.
    + intros _. exists best. apply Forall_forall. intros rm Hrm.
      by apply list_elem_of_filter in Hrm as [? _].
Qed.

Context (hash : HashTable) (table : list WDLEntry).
Local Notation "'tv'" := (table_value tfuel hash table).

(** The loop with every table on the way loaded. *)
Lemma wdl_moves_loop_best (f : nat) (pos : Position) (todo : list RootMove) :
  Forall (fun rm =>
            exists move, head (pv rm) = Some move
              /\ (length (pieces_all (do_move pos move)) <= f)%nat
              /\ forall q, searched (do_move pos move) q ->
                   search_ok tfuel hash table q) todo ->
  forall done best st, WDLHash st = hash -> WDLTable st = table ->
    exists st',
      wdl_moves_loop (probe_wdl (S f) tfuel) pos done todo best st
      = Some (inr (done ++ map (fun rm => mkRootMove (pv rm)
                                  (- wdl_result tv f (do_move pos (root_move rm)))) todo,
                   foldr Z.max best
                     (map (fun rm => - wdl_result tv f (do_move pos (root_move rm))) todo),
                   st'))
      /\ WDLHash st' = hash /\ WDLTable st' = table.
Proof.
  induction 1 as [|rm rest (move & Hmove & Hcount & Hok) _ IH]; intros done best st Hh Ht.
  - exists st. simpl. by rewrite app_nil_r.
  - cbn [wdl_moves_loop]. rewrite Hmove. cbn [mbind option_bind].
    destruct (probe_wdl_minimax tfuel hash table f (do_move pos move) st)
      as (st1 & -> & Hs1 & Hh1 & Ht1); [done..|].
    cbn [mbind option_bind].
    destruct (Z.eqb_spec (success st1) 0) as [|_]; [done|].
    assert (Hrm : root_move rm = move) by (unfold root_move; by rewrite Hmove).
    cbn [map foldr]. rewrite Hrm.
    set (v := - wdl_result tv f (do_move pos move)).
    destruct (IH (done ++ [mkRootMove (pv rm) v]) (if v >? best then v else best) st1)
      as (st' & -> & Hh' & Ht'); [done..|].
    exists st'. split; [|done].
    replace (if v >? best then v else best) with (Z.max best v)
      by (destruct (Z.gtb_spec v best); lia).
    by rewrite <- app_assoc, foldr_max_shift.
Qed.

End RootWDL.

(** X18: with every table on the way loaded and holding values from -2
    to 2, [root_probe_wdl] returns true and leaves exactly the root moves
    that are best for the side to move: each root move is scored with the
    negated [probe_wdl] value of the position it leads to, and the moves
    whose score is the highest are kept; of a list that is not empty at
    least one move is left. *)
Theorem root_probe_wdl_best `{Host} (c : Values) (f tfuel : nat) (pos : Position)
    (rootMoves : list RootMove) (score0 : Z) (st : TB) :
  (length (pieces_all pos) <= f)%nat ->
  (forall q, searched pos q ->
     search_ok tfuel (WDLHash st) (WDLTable st) q
     /\ -2 <= table_value tfuel (WDLHash st) (WDLTable st) q <= 2) ->
  Forall (fun rm =>
            exists move, head (pv rm) = Some move
              /\ (length (pieces_all (do_move pos move)) <= f)%nat
              /\ forall q, searched (do_move pos move) q ->
                   search_ok tfuel (WDLHash st) (WDLTable st) q
                   /\ -2 <= table_value tfuel (WDLHash st) (WDLTable st) q <= 2)
         rootMoves ->
  exists moves' score' st',
    root_probe_wdl c (S f) tfuel pos rootMoves score0 st = Some (true, moves', score', st')
    /\ moves'
       = filter (fun rm => score rm
                           = foldr Z.max WDLLoss
                               (map (fun rm => - wdl_result
                                                   (table_value tfuel (WDLHash st) (WDLTable st))
                                                   f (do_move pos (root_move rm)))
                                    rootMoves))
           (map (fun rm => mkRootMove (pv rm)
                             (- wdl_result (table_value tfuel (WDLHash st) (WDLTable st))
                                  f (do_move pos (root_move rm))))
                rootMoves)
    /\ (rootMoves <> [] -> moves' <> []).
Proof.
  intros Hcount Hok Hmoves. unfold root_probe_wdl.
  set (hash := WDLHash st) in *. set (table := WDLTable st) in *.
  destruct (probe_wdl_minimax tfuel hash table f pos st)
    as (st1 & -> & Hs1 & Hh1 & Ht1); [done|by intros q Hq; apply Hok|done..|].
  cbn [mbind option_bind].
  destruct (Z.eqb_spec (success st1) 0) as [|_]; [done|].
  pose proof (wdl_result_range tfuel hash table f pos
                (fun q Hq => proj2 (Hok q Hq))) as Hrange.
  assert (Hscore : is_Some (vec_get (WDL_to_value c)
                              (wdl_result (table_value tfuel hash table) f pos + 2))).
  { unfold vec_get. destruct (Z.ltb_spec (wdl_result (table_value tfuel hash table) f pos + 2) 0);
      [lia|].
    apply lookup_lt_is_Some_2. simpl. lia. }
  destruct Hscore as [score1 ->]. cbn [mbind option_bind].
  destruct (wdl_moves_loop_best tfuel hash table f pos rootMoves) with (done := @nil RootMove)
    (best := WDLLoss) (st := st1) as (st' & -> & _); [|done..|].
  { eapply Forall_impl; [exact Hmoves|].
    intros rm (move & Hmove & Hc & Hq). exists move. split; [done|]. split; [done|].
    intros q Hsq. by apply Hq. }
  cbn [mbind option_bind app]. eexists _, score1, st'. split; [done|]. split; [done|].
  intros Hne.
  set (value := fun rm => - wdl_result (table_value tfuel hash table) f
                               (do_move pos (root_move rm))).
  assert (Hin : foldr Z.max WDLLoss (map value rootMoves) ∈ map value rootMoves).
  { apply foldr_max_attained; [by destruct rootMoves|].
    apply Forall_forall. intros x Hx.
    change (map ?f ?l) with (f <$> l) in Hx.
    apply list_elem_of_fmap in Hx as (rm & -> & Hrm).
    rewrite Forall_forall in Hmoves.
    destruct (Hmoves rm Hrm) as (move & Hmove & _ & Hq).
    pose proof (wdl_result_range tfuel hash table f (do_move pos move)
                  (fun q Hsq => proj2 (Hq q Hsq))) as Hr.
    unfold value, root_move. rewrite Hmove. simpl. unfold WDLLoss. lia. }
  change (map ?f ?l) with (f <$> l) in Hin.
  apply list_elem_of_fmap in Hin as (rm & Hbest & Hrm).
  intros Hnil.
  match type of Hnil with
  | ?l = [] => assert (Hkept : mkRootMove (pv rm) (value rm) ∈ l)
  end.
  { apply list_elem_of_filter. split; [by simpl|].
    change (map ?f ?l) with (f <$> l). apply list_elem_of_fmap. by exists rm. }
  rewrite Hnil in Hkept. by apply elem_of_nil in Hkept.
Qed.

Lemma searched_leaf `{Host} (q q' : Position) :
  ab_captures q = [] -> ep_moves q = [] -> searched q q' -> q' = q.
Proof.
  intros Hcap Hep. induction 1 as [|q' move _ -> Hin|q' move _ -> Hin]; [done|..].
  - rewrite Hcap in Hin. by apply elem_of_nil in Hin.
  - rewrite Hep in Hin. by apply elem_of_nil in Hin.
Qed.

Lemma search_ok_leaf `{Host} (tfuel : nat) (hash : HashTable) (table : list WDLEntry)
    (q : Position) :
  ab_captures q = [] -> ep_moves q = [] -> table_ready tfuel hash table q ->
  search_ok tfuel hash table q.
Proof.
  intros Hcap Hep Hready. split; [done|].
  intros move [Hin|Hin]; [rewrite Hcap in Hin|rewrite Hep in Hin];
    by apply elem_of_nil in Hin.
Qed.

Lemma search_ok_KRvKR_root :
  Forall (fun rm =>
            exists move, head (pv rm) = Some move
              /\ (length (pieces_all (@do_move host_KRvKR pos_KRvKR move)) <= 7)%nat
              /\ forall q, @searched host_KRvKR (@do_move host_KRvKR pos_KRvKR move) q ->
                   @search_ok host_KRvKR 8 (WDLHash st_KRvKR) (WDLTable st_KRvKR) q
                   /\ -2 <= @table_value host_KRvKR 8 (WDLHash st_KRvKR)
                               (WDLTable st_KRvKR) q <= 2)
         rootMoves_KRvKR.
Proof.
  assert (Hleaf : forall move,
    @ab_captures host_KRvKR (@do_move host_KRvKR pos_KRvKR move) = [] ->
    @ep_moves host_KRvKR (@do_move host_KRvKR pos_KRvKR move) = [] ->
    @table_ready host_KRvKR 8 (WDLHash st_KRvKR) (WDLTable st_KRvKR)
      (@do_move host_KRvKR pos_KRvKR move) ->
    -2 <= @table_value host_KRvKR 8 (WDLHash st_KRvKR) (WDLTable st_KRvKR)
            (@do_move host_KRvKR pos_KRvKR move) <= 2 ->
    forall q, @searched host_KRvKR (@do_move host_KRvKR pos_KRvKR move) q ->
      @search_ok host_KRvKR 8 (WDLHash st_KRvKR) (WDLTable st_KRvKR) q
      /\ -2 <= @table_value host_KRvKR 8 (WDLHash st_KRvKR) (WDLTable st_KRvKR) q <= 2).
  { intros move Hcap Hep Hready Hrange q Hq.
    apply (@searched_leaf host_KRvKR) in Hq as ->; [|done..].
    split; [by apply (@search_ok_leaf host_KRvKR)|done]. }
  repeat apply Forall_cons_2; [| |constructor].
  - exists Rd1e1. split; [done|]. split; [vm_compute; lia|].
    apply Hleaf; [by vm_compute..| |by vm_compute].
    right. eexists _, _. split; [by vm_compute|]. split; [by vm_compute|].
    split; [by vm_compute|]. vm_compute. by eexists.
  - exists Rd1xd8. split; [done|]. split; [vm_compute; lia|].
    apply Hleaf; [by vm_compute..| |by vm_compute].
    right. eexists _, _. split; [by vm_compute|]. split; [by vm_compute|].
    split; [by vm_compute|]. vm_compute. by eexists.
Qed.

Lemma root_probe_wdl_moves_witness :
  map pv [mkRootMove [Rd1xd8] 2] `sublist_of` map pv rootMoves_KRvKR
  /\ (true = false ->
      map pv [mkRootMove [Rd1xd8] 2] = map pv rootMoves_KRvKR
      /\ success st_KRvKR_root = 0)
  /\ (true = true -> exists best, Forall (fun rm => score rm = best) [mkRootMove [Rd1xd8] 2]).
Proof.
  apply (@root_probe_wdl_moves host_KRvKR values_SF 8 8 pos_KRvKR rootMoves_KRvKR
           [mkRootMove [Rd1xd8] 2] 0 31871 st_KRvKR st_KRvKR_root true).
  by vm_compute.
Defined.

Lemma root_probe_wdl_best_witness :
  exists moves' score' st',
    @root_probe_wdl host_KRvKR values_SF 8 8 pos_KRvKR rootMoves_KRvKR 0 st_KRvKR
    = Some (true, moves', score', st')
    /\ moves'
       = filter (fun rm => score rm
                           = foldr Z.max WDLLoss
                               (map (fun rm => - @wdl_result host_KRvKR
                                                   (@table_value host_KRvKR 8 (WDLHash st_KRvKR)
                                                      (WDLTable st_KRvKR))
                                                   7 (@do_move host_KRvKR pos_KRvKR (root_move rm)))
                                    rootMoves_KRvKR))
           (map (fun rm => mkRootMove (pv rm)
                             (- @wdl_result host_KRvKR
                                  (@table_value host_KRvKR 8 (WDLHash st_KRvKR)
                                     (WDLTable st_KRvKR))
                                  7 (@do_move host_KRvKR pos_KRvKR (root_move rm))))
                rootMoves_KRvKR)
    /\ (rootMoves_KRvKR <> [] -> moves' <> []).
Proof.
  apply (@root_probe_wdl_best host_KRvKR values_SF 7 8 pos_KRvKR rootMoves_KRvKR 0 st_KRvKR).
  - vm_compute. lia.
  - exact search_ok_KRvKR.
  - exact search_ok_KRvKR_root.
Defined.

(** ** The entry of a material: [WDLEntry::WDLEntry] *)

Lemma filter_length_split {A} (P P1 P2 : A -> Prop) `{!forall x, Decision (P x)}
    `{!forall x, Decision (P1 x)} `{!forall x, Decision (P2 x)} (l : list A) :
  (forall x, x ∈ l -> (P x <-> P1 x \/ P2 x) /\ ~ (P1 x /\ P2 x)) ->
  length (filter P l) = (length (filter P1 l) + length (filter P2 l))%nat.
Proof.
  induction l as [|x l IH]; intros Hl; [done|].
  rewrite !filter_cons.
  destruct (Hl x ltac:(left)) as [Hiff Hdisj].
  specialize (IH (fun y Hy => Hl y ltac:(by right))).
  destruct (decide (P x)), (decide (P1 x)), (decide (P2 x)); simpl; rewrite ?IH; tauto || lia.
Qed.

Lemma pawns_by_colour (pos : Position) :
  board_ok pos ->
  length (pieces_of_type pos PAWN)
  = (length (pieces_of pos WHITE PAWN) + length (pieces_of pos BLACK PAWN))%nat.
Proof.
  intros Hok. unfold pieces_of_type, pieces_of, squares_with.
  apply filter_length_split. intros s Hs. apply elem_of_seqZ in Hs.
  destruct (Hok s ltac:(lia)) as [Hpc _].
  assert (Hr : 0 <= piece_on pos s < 16) by (unfold is_piece, NO_PIECE in Hpc; lia).
  pose proof (range_forall 16
    (fun pc => Bool.eqb (negb (pc =? NO_PIECE) && (type_of_piece pc =? PAWN))
                        ((pc =? make_piece WHITE PAWN) || (pc =? make_piece BLACK PAWN))
               && negb ((pc =? make_piece WHITE PAWN) && (pc =? make_piece BLACK PAWN)))
    eq_refl (piece_on pos s) Hr) as Hall.
  apply andb_true_iff in Hall as [Heq Hdisj]. apply eqb_prop in Heq.
  split.
  - rewrite Heq, orb_true_iff. done.
  - intros [H1 H2]. rewrite H1, H2 in Hdisj. done.
Qed.

(** X19: the leading colour of a table with pawns.  In the entry the
    constructor makes for a position with pawns, [pawnCount[0]] and
    [pawnCount[1]] add up to the number of pawns, the leading side has at
    least one pawn, and it has no more pawns than the other side unless
    the other side has none. *)
Theorem WDLEntry_new_leading (pos : Position) (kw kb : Z) :
  board_ok pos ->
  wdl_hasPawns (WDLEntry_new pos kw kb) = true ->
  pawnCount (WDLEntry_new pos kw kb) 0 + pawnCount (WDLEntry_new pos kw kb) 1
  = Z.of_nat (length (pieces_of_type pos PAWN))
  /\ 1 <= pawnCount (WDLEntry_new pos kw kb) 0
  /\ (pawnCount (WDLEntry_new pos kw kb) 1 = 0
      \/ pawnCount (WDLEntry_new pos kw kb) 0 <= pawnCount (WDLEntry_new pos kw kb) 1).
Proof.
  intros Hok. pose proof (pawns_by_colour pos Hok) as Hsum.
  unfold WDLEntry_new. cbn [wdl_hasPawns pawnCount WDLEntry_TBEntry wdl_pawnCount].
  case_bool_decide as Hnone; [done|]. intros _. cbn [negb].
  assert (Hsome : (1 <= length (pieces_of_type pos PAWN))%nat).
  { destruct (pieces_of_type pos PAWN); [done|simpl; lia]. }
  rewrite Hsum in Hsome |- *.
  destruct (Z.eqb_spec (Z.of_nat (length (pieces_of pos BLACK PAWN))) 0) as [Hb|Hb];
    cbn [orb].
  - simpl. lia.
  - destruct (Z.eqb_spec (Z.of_nat (length (pieces_of pos WHITE PAWN))) 0) as [Hw|Hw];
      cbn [negb andb]; [simpl; lia|].
    destruct (Z.geb_spec (Z.of_nat (length (pieces_of pos BLACK PAWN)))
                         (Z.of_nat (length (pieces_of pos WHITE PAWN)))); simpl; lia.
Qed.

Lemma WDLEntry_new_leading_witness :
  pawnCount (WDLEntry_new pos_KPPvKP 1 2) 0 + pawnCount (WDLEntry_new pos_KPPvKP 1 2) 1
  = Z.of_nat (length (pieces_of_type pos_KPPvKP PAWN))
  /\ 1 <= pawnCount (WDLEntry_new pos_KPPvKP 1 2) 0
  /\ (pawnCount (WDLEntry_new pos_KPPvKP 1 2) 1 = 0
      \/ pawnCount (WDLEntry_new pos_KPPvKP 1 2) 0
         <= pawnCount (WDLEntry_new pos_KPPvKP 1 2) 1).
Proof.
  apply (WDLEntry_new_leading pos_KPPvKP 1 2).
  - by apply board_check_ok.
  - reflexivity.
Defined.

(** ** The sign of a DTZ value: [probe_dtz_no_ep] *)

Lemma decompress_pairs_range (fuel : nat) (m : Mem) (d : PairsData) (idx v : Z) :
  pairs_byte (Some d) = true ->
  decompress_pairs fuel m d idx = Some v -> 0 <= v < 256.
Proof.
  intros Hd. unfold decompress_pairs.
  destruct (idxbits d =? 0); [intros [= <-]; simpl in Hd; lia|].
  intros Hrun.
  apply bind_Some in Hrun as ([l1 b1] & _ & Hrun).
  apply bind_Some in Hrun as ([l2 b2] & _ & Hrun).
  apply bind_Some in Hrun as ([sym l3] & _ & Hrun).
  apply bind_Some in Hrun as (leaf & _ & [= <-]). apply load8_range.
Qed.

Lemma map_score_DTZ_range (m : Mem) (entry : DTZEntry) (f value wdl score : Z) :
  0 <= value < 256 ->
  map_score_DTZ m entry f value wdl = Some score -> 0 <= score <= 510.
Proof.
  intros Hv. unfold map_score_DTZ. intros Hrun.
  apply bind_Some in Hrun as (value' & Hval & Hrun).
  assert (Hv' : 0 <= value' < 256).
  { destruct (negb _); [|by injection Hval as <-].
    apply bind_Some in Hval as (w & _ & Hval).
    apply bind_Some in Hval as (i & _ & [= <-]). apply load8_range. }
  destruct (_ || _); injection Hrun as <-; [|lia].
  rewrite s32_small; lia.
Qed.

Lemma dtz_precomp_byte (entry : DTZEntry) (stm tbFile : Z) :
  dtz_entry_ok entry = true -> pairs_byte (probe_precomp entry stm tbFile) = true.
Proof.
  unfold dtz_entry_ok, probe_precomp. intros Hok.
  apply andb_true_iff in Hok as [Hpiece Hfiles].
  cbn [hasPawns pawn_precomp piece_precomp DTZEntry_TBEntry].
  destruct (dtz_hasPawns entry); [|done].
  unfold dtz_file_at.
  destruct (dtz_pawn_file entry !! Z.to_nat tbFile) as [file|] eqn:Hfile; [|done].
  rewrite forallb_forall in Hfiles. apply Hfiles.
  apply list_elem_of_In. by eapply list_elem_of_lookup_2.
Qed.

Lemma probe_table_dtz_range (fuel : nat) (m : Mem) (pos : Position) (entry : DTZEntry)
    (wdl s v s' : Z) :
  dtz_entry_ok entry = true ->
  probe_table fuel m pos entry wdl s = Some (v, s') -> 0 <= s32 v <= 510.
Proof.
  intros Hok. unfold probe_table. intros Hrun.
  apply bind_Some in Hrun as (lead & _ & Hrun).
  destruct (is_DTZEntry && _); [injection Hrun as <- <-; by vm_compute|].
  pose proof (dtz_precomp_byte entry (probe_stm pos entry)
                (probe_tbFile entry (probe_lead_squares pos entry lead)) Hok) as Hpre.
  apply bind_Some in Hrun as (precomp & Hprecomp & Hrun). rewrite Hprecomp in Hpre.
  apply bind_Some in Hrun as (idx & _ & Hrun).
  apply bind_Some in Hrun as (value & Hvalue & Hrun).
  apply bind_Some in Hrun as (score & Hscore & [= <- <-]).
  apply decompress_pairs_range in Hvalue; [|done].
  apply (map_score_DTZ_range m entry _ value wdl score Hvalue) in Hscore.
  unfold u64. rewrite Z.mod_small by lia. rewrite s32_small; lia.
Qed.

Section Sign.
Context `{Host}.

Lemma probe_dtz_table_range (tfuel : nat) (pos : Position) (wdl : Z) (st st' : TB) (r : Z) :
  Forall (fun e => dtz_entry_ok e = true) (DTZTable st') ->
  probe_dtz_table tfuel pos wdl st = Some (r, st') -> 0 <= r.
Proof.
  intros Hok. unfold probe_dtz_table. cbn [DTZTable tick].
  set (k := materialKey pos).
  assert (Hend : forall s : TB,
    (front ← head (DTZTable s);
     if dtz_baseAddress front =? 0 then Some (0, set_success 0 s)
     else '(v, s0) ← probe_table tfuel host_mem pos front wdl (success s);
          Some (s32 v, set_success s0 s)) = Some (r, st') ->
    0 <= r).
  { intros s Hrun. apply bind_Some in Hrun as (front & Hfront & Hrun).
    destruct (dtz_baseAddress front =? 0); [by injection Hrun as <- <-|].
    apply bind_Some in Hrun as ([v s0] & Hprobe & [= <- <-]).
    cbn [DTZTable set_success] in Hok.
    apply (probe_table_dtz_range tfuel host_mem pos front wdl (success s) v s0); [|done].
    destruct (DTZTable s) as [|e t]; [done|]. injection Hfront as ->.
    by apply Forall_cons in Hok as [? _]. }
  destruct (front_differs k (DTZTable st)); [|by apply Hend].
  cbn [DTZTable set_DTZTable WDLHash WDLTable].
  destruct (front_differs k (splice_front k [] (DTZTable st))); [|by apply Hend].
  destruct (HashTable_lookup _ k) as [ptr|]; [|by intros [= <- <-]].
  destruct (_ !! ptr) as [wdlEntry|]; [|done].
  match goal with
  | |- context [DTZEntry_init ?x ?f] => destruct (DTZEntry_init x f) as [e ok]
  end.
  destruct ok; cbn [negb DTZTable set_DTZTable]; [|by intros [= <- <-]].
  destruct (64 <? _)%nat; by apply Hend.
Qed.

Lemma pawn_loop_return (ab : ProbeAB) (pos : Position) (moves : list Z) (wdl : Z) :
  forall st v st',
    pawn_loop ab pos moves wdl st = Some (Return v st') ->
    success st' = 0 \/ v = 1 \/ v = 101.
Proof.
  induction moves as [|move rest IH]; intros st v st'; simpl; [done|].
  destruct (_ || _); [apply IH|].
  intros Hrun. apply bind_Some in Hrun as ([r st1] & _ & Hrun). simpl in Hrun.
  destruct (Z.eqb_spec (success st1) 0); [injection Hrun as <- <-; by left|].
  destruct (- r =? wdl); [|by eapply IH].
  injection Hrun as <- <-. right. destruct (- r =? WDLWin); auto.
Qed.

Lemma win_loop_positive (dtz : Probe) (pos : Position) (moves : list Z) :
  forall best st flow,
    0 < best ->
    win_loop dtz pos moves best st = Some flow ->
    match flow with
    | Return _ st' => success st' = 0
    | Continue best' _ => 0 < best'
    end.
Proof.
  induction moves as [|move rest IH]; intros best st flow Hbest; simpl.
  - by intros [= <-].
  - destruct (_ || _); [by apply IH|].
    intros Hrun. apply bind_Some in Hrun as ([r st1] & _ & Hrun). simpl in Hrun.
    destruct (Z.eqb_spec (success st1) 0); [by injection Hrun as <-|].
    destruct (Z.gtb_spec (- r) 0); simpl in Hrun;
      [destruct (- r + 1 <? best)|]; eapply IH; try exact Hrun; lia.
Qed.

Lemma loss_loop_negative (ab : ProbeAB) (dtz : Probe) (pos : Position) (moves : list Z)
    (wdl : Z) :
  forall best st flow,
    best < 0 ->
    loss_loop ab dtz pos moves wdl best st = Some flow ->
    match flow with
    | Return _ st' => success st' = 0
    | Continue best' _ => best' < 0
    end.
Proof.
  induction moves as [|move rest IH]; intros best st flow Hbest; simpl.
  - by intros [= <-].
  - destruct (negb _); [by apply IH|].
    intros Hrun. apply bind_Some in Hrun as ([v st1] & _ & Hrun). simpl in Hrun.
    destruct (Z.eqb_spec (success st1) 0); [by injection Hrun as <-|].
    destruct (Z.ltb_spec v best); eapply IH; try exact Hrun; lia.
Qed.

(** X20: a DTZ value has the sign of the WDL value.  When
    [probe_dtz_no_ep] returns with [*success] not 0, what it returns is
    positive, zero or negative as the WDL value its first [probe_ab] call
    found is; the entries of the DTZ list are taken to be sound (a byte in
    each [min_len]). *)
Theorem probe_dtz_no_ep_sign (fuel tfuel : nat) (pos : Position) (st st' : TB) (r : Z) :
  probe_dtz_no_ep fuel tfuel pos st = Some (r, st') ->
  success st' <> 0 ->
  Forall (fun e => dtz_entry_ok e = true) (DTZTable st') ->
  exists wdl st1,
    probe_ab fuel tfuel pos WDLLoss WDLWin (tick st) = Some (wdl, st1)
    /\ Z.sgn r = Z.sgn wdl.
Proof.
  unfold probe_dtz_no_ep, probe_dtz_no_ep_with. intros Hrun Hs Hok.
  apply bind_Some in Hrun as ([wdl st1] & Hab & Hrun). exists wdl, st1.
  split; [done|]. simpl in Hrun.
  destruct (Z.eqb_spec (success st1) 0); [by injection Hrun as <- <-|].
  destruct (Z.eqb_spec wdl WDLDraw) as [->|Hdraw]; [by injection Hrun as <- <-|].
  unfold WDLDraw in Hdraw.
  destruct (Z.eqb_spec (success st1) 2) as [Hs2|_].
  { injection Hrun as <- <-.
    destruct (probe_ab_success2 _ _ _ _ _ _ _ _ Hab Hs2); unfold WDLWin in *;
      destruct (wdl =? 2); lia. }
  assert (Hphase : forall stack s,
    dtz_table_phase (probe_ab fuel tfuel) (probe_dtz (fuel - 1) tfuel) tfuel pos wdl stack s
    = Some (r, st') -> Z.sgn r = Z.sgn wdl).
  { intros stack s. unfold dtz_table_phase. intros Hphase.
    apply bind_Some in Hphase as ([r0 s1] & Htable & Hphase). simpl in Hphase.
    destruct (Z.geb_spec (success s1) 0).
    - injection Hphase as <- <-.
      apply probe_dtz_table_range in Htable; [|done].
      destruct (negb _), (Z.geb_spec wdl 0); lia.
    - destruct (Z.gtb_spec wdl 0).
      + apply bind_Some in Hphase as (flow & Hloop & Hphase).
        apply win_loop_positive in Hloop; [|lia].
        destruct flow; injection Hphase as <- <-; [done|lia].
      + apply bind_Some in Hphase as (flow & Hloop & Hphase).
        apply loss_loop_negative in Hloop; [|lia].
        destruct flow; injection Hphase as <- <-; [done|lia]. }
  destruct (Z.gtb_spec wdl 0); [|by eapply Hphase].
  apply bind_Some in Hrun as (flow & Hloop & Hrun).
  destruct flow as [v s|[] s]; [|by eapply Hphase].
  injection Hrun as <- <-.
  apply pawn_loop_return in Hloop as [?|[-> | ->]]; [done|lia..].
Qed.

End Sign.

Lemma probe_dtz_no_ep_sign_witness :
  exists wdl st1,
    @probe_ab host_KQvK_dtz 2 8 pos_KQvK_wtm WDLLoss WDLWin (tick tb_KQvK_dtz)
    = Some (wdl, st1)
    /\ Z.sgn 3 = Z.sgn wdl.
Proof.
  apply (@probe_dtz_no_ep_sign host_KQvK_dtz 2 8 pos_KQvK_wtm tb_KQvK_dtz
           st_KQvK_dtz_no_ep 3).
  - by vm_compute.
  - by vm_compute.
  - apply Forall_forall. intros e He.
    assert (Hall : forallb dtz_entry_ok (DTZTable st_KQvK_dtz_no_ep) = true)
      by by vm_compute.
    rewrite forallb_forall in Hall. apply Hall. by apply list_elem_of_In.
Defined.

(** ** [probe_table] and the mirror *)

(** X21: [probe_table] reads the same value for a position and for its
    mirror (the board turned upside down, the colours exchanged, the
    other side to move), for a WDL entry as for a DTZ entry: the entry is
    symmetric, or one of the two positions has the key of the entry and
    the other has not, so that exactly one of them is probed through
    [flipColor] and [flipSquares]. *)
Theorem probe_table_mirror_invariant {Entry : Type} `{TBEntry Entry} (fuel : nat) (m : Mem)
    (pos pos' : Position) (entry : Entry) (wdl success : Z) :
  board pos' = mirror_board (board pos) -> board_ok pos ->
  sideToMove pos = WHITE \/ sideToMove pos = BLACK ->
  sideToMove pos' = 1 - sideToMove pos ->
  symmetric entry = true
  \/ (materialKey pos =? key entry) = negb (materialKey pos' =? key entry) ->
  table_fits pos entry ->
  probe_table fuel m pos' entry wdl success = probe_table fuel m pos entry wdl success.
Proof.
  intros Hb Hok Hside Hstm Hkey Hfit.
  apply probe_table_mirror; [done|done| | | |done];
    unfold probe_flip, probe_stm, WHITE, BLACK in *.
  - destruct (symmetric entry); [lia|].
    destruct (materialKey pos =? key entry); simpl; auto.
  - destruct (symmetric entry); [lia|].
    destruct Hkey as [|Hkey]; [done|]. rewrite Hkey.
    by destruct (materialKey pos' =? key entry).
  - destruct (symmetric entry); [done|].
    destruct Hkey as [|Hkey]; [done|]. rewrite Hkey, Hstm.
    destruct (materialKey pos' =? key entry); simpl;
      destruct Hside as [-> | ->]; simpl; auto.
Qed.

Lemma probe_table_mirror_invariant_witness :
  probe_table 8 (@host_mem host_KRvKR) (toy_mirror pos_KRvKR_e1) entry_KRvKR WDLDraw 1
  = probe_table 8 (@host_mem host_KRvKR) pos_KRvKR_e1 entry_KRvKR WDLDraw 1
  /\ probe_table 8 (@host_mem host_KRvKR) pos_KRvKR_e1 entry_KRvKR WDLDraw 1 = Some (2, 1).
Proof.
  split; [|by vm_compute].
  apply probe_table_mirror_invariant.
  - reflexivity.
  - by apply board_check_ok.
  - by left.
  - reflexivity.
  - by left.
  - eapply (toy_table_fits_pieces _ _ _ [1%nat] [6; 4; 14; 12]).
    + reflexivity.
    + vm_compute. reflexivity.
    + vm_compute. reflexivity.
    + vm_compute. repeat split; lia.
    + split; [reflexivity|]. split; [|vm_compute; reflexivity].
      apply (bool_decide_unpack (NoDup [6; 4; 14; 12])). vm_compute. exact I.
Defined.

(** ** The tables [Tablebases::init] computes: [Binomial] *)

Lemma Binomial_fill_0 (n : nat) : Binomial_fill 0 n = 1.
Proof.
  induction n as [|n IH]; [done|]. cbn [Binomial_fill].
  change (0 <? 6)%nat with true. change (0 <=? S n)%nat with true.
  change (0 <? S n)%nat with true. cbn [andb]. by rewrite IH.
Qed.

Lemma Binomial_fill_gt (k n : nat) : (n < k)%nat -> Binomial_fill k n = 0.
Proof.
  intros Hlt. destruct n as [|n]; cbn [Binomial_fill]; [by destruct k; [lia|]|].
  destruct (Nat.leb_spec k (S n)); [lia|]. by rewrite andb_false_r.
Qed.

Lemma Binomial_fill_pascal (k n : nat) :
  (k < 5)%nat ->
  Binomial_fill (S k) (S n) = Binomial_fill k n + Binomial_fill (S k) n.
Proof.
  intros Hk. cbn [Binomial_fill].
  destruct (Nat.ltb_spec (S k) 6); [|lia].
  destruct (Nat.leb_spec (S k) (S n)); cbn [andb].
  - destruct (Nat.ltb_spec (S k) (S n)); [done|].
    rewrite (Binomial_fill_gt (S k) n) by lia. done.
  - rewrite (Binomial_fill_gt k n), (Binomial_fill_gt (S k) n) by lia. done.
Qed.

Lemma Binomial_fill_nonneg (k n : nat) : 0 <= Binomial_fill k n.
Proof.
  revert k. induction n as [|n IH]; intros k; cbn [Binomial_fill].
  - destruct k; lia.
  - destruct (_ && _); [|lia].
    pose proof (IH k). destruct k as [|k]; [|pose proof (IH k)];
      destruct (_ <? _)%nat; lia.
Qed.

Lemma Binomial_fill_mono (k n : nat) :
  (k < 6)%nat -> Binomial_fill k n <= Binomial_fill k (S n).
Proof.
  intros Hk. destruct k as [|k]; [by rewrite !Binomial_fill_0|].
  rewrite Binomial_fill_pascal by lia.
  pose proof (Binomial_fill_nonneg k n). lia.
Qed.

(** The rows of the triangle in closed form. *)
Lemma Binomial_fill_rows (n : nat) :
  let x := Z.of_nat n in
  Binomial_fill 1 n = x
  /\ 2 * Binomial_fill 2 n = x * (x - 1)
  /\ 6 * Binomial_fill 3 n = x * (x - 1) * (x - 2)
  /\ 24 * Binomial_fill 4 n = x * (x - 1) * (x - 2) * (x - 3)
  /\ 120 * Binomial_fill 5 n = x * (x - 1) * (x - 2) * (x - 3) * (x - 4).
Proof.
  induction n as [|n (IH1 & IH2 & IH3 & IH4 & IH5)]; [done|].
  cbv zeta in *. rewrite !Binomial_fill_pascal, Binomial_fill_0 by lia.
  rewrite Nat2Z.inj_succ. set (x := Z.of_nat n) in *.
  repeat split; nia.
Qed.

Lemma Binomial_facts (k n : Z) :
  0 <= k < 6 -> 0 <= n < 64 ->
  0 <= Binomial k n
  /\ Binomial 0 n = 1
  /\ (n < k -> Binomial k n = 0)
  /\ (k < 5 -> n < 63 -> Binomial (k + 1) (n + 1) = Binomial k n + Binomial (k + 1) n)
  /\ (n < 63 -> Binomial k n <= Binomial k (n + 1)).
Proof.
  intros Hk Hn.
  assert (Hin : forall k n, 0 <= k < 6 -> 0 <= n < 64 ->
            Binomial k n = Binomial_fill (Z.to_nat k) (Z.to_nat n)).
  { intros k' n' Hk' Hn'. unfold Binomial.
    destruct (Z.leb_spec 0 k'), (Z.ltb_spec k' 6), (Z.leb_spec 0 n'), (Z.ltb_spec n' 64);
      try lia. done. }
  rewrite !Hin by lia. repeat split.
  - apply Binomial_fill_nonneg.
  - apply Binomial_fill_0.
  - intros Hlt. apply Binomial_fill_gt. lia.
  - intros H5 H63. rewrite !Hin by lia.
    replace (Z.to_nat (k + 1)) with (S (Z.to_nat k)) by lia.
    replace (Z.to_nat (n + 1)) with (S (Z.to_nat n)) by lia.
    apply Binomial_fill_pascal. lia.
  - intros H63. rewrite !Hin by lia.
    replace (Z.to_nat (n + 1)) with (S (Z.to_nat n)) by lia.
    apply Binomial_fill_mono. lia.
Qed.

(** X22: the table [Binomial] that [Tablebases::init] fills by Pascal's
    triangle holds the binomial coefficients: [Binomial[k][n]] times
    [k!] is [n (n - 1) ... (n - k + 1)], for [k < 6] and [n < 64]; in
    particular the entries with [k > n], which the loop leaves alone, are
    0. *)
Theorem Binomial_closed_form (k n : Z) :
  0 <= k < 6 -> 0 <= n < 64 ->
  Binomial k n * foldr Z.mul 1 (seqZ 1 k)
  = foldr Z.mul 1 (map (fun i => n - i) (seqZ 0 k)).
Proof.
  intros Hk Hn. unfold Binomial.
  destruct (Z.leb_spec 0 k), (Z.ltb_spec k 6), (Z.leb_spec 0 n), (Z.ltb_spec n 64);
    try lia. cbn [andb].
  destruct (Binomial_fill_rows (Z.to_nat n)) as (R1 & R2 & R3 & R4 & R5).
  cbv zeta in *. rewrite Z2Nat.id in * by lia.
  assert (Hcases : k = 0 \/ k = 1 \/ k = 2 \/ k = 3 \/ k = 4 \/ k = 5) by lia.
  set (m := Z.to_nat n) in *.
  destruct Hcases as [-> | [-> | [-> | [-> | [-> | ->]]]]];
    repeat match goal with
           | |- context [seqZ ?a ?b] =>
               let l := eval vm_compute in (seqZ a b) in change (seqZ a b) with l
           | |- context [Z.to_nat ?a] =>
               let v := eval vm_compute in (Z.to_nat a) in change (Z.to_nat a) with v
           end;
    cbn [map foldr]; rewrite ?Binomial_fill_0; lia.
Qed.

Lemma Binomial_closed_form_witness :
  Binomial 3 10 * foldr Z.mul 1 (seqZ 1 3)
  = foldr Z.mul 1 (map (fun i => 10 - i) (seqZ 0 3))
  /\ Binomial 3 10 = 120.
Proof.
  split; [|reflexivity].
  apply (Binomial_closed_form 3 10); lia.
Defined.

(** ** The encoder: the index of one group of like pieces *)

Lemma Binomial_mono (k a b : Z) :
  0 <= k < 6 -> 0 <= a <= b -> b < 64 -> Binomial k a <= Binomial k b.
Proof.
  intros Hk Hab Hb.
  replace b with (a + Z.of_nat (Z.to_nat (b - a))) in * by lia.
  induction (Z.to_nat (b - a)) as [|d IH]; [by rewrite Z.add_0_r|].
  rewrite Nat2Z.inj_succ in *.
  destruct (Binomial_facts k (a + Z.of_nat d)) as (_ & _ & _ & _ & Hstep); [lia..|].
  replace (a + Z.succ (Z.of_nat d)) with (a + Z.of_nat d + 1) by lia.
  specialize (IH ltac:(lia) ltac:(lia)). specialize (Hstep ltac:(lia)). lia.
Qed.

Lemma Binomial_small (k n : Z) : 0 <= k < 6 -> 0 <= n < 64 -> Binomial k n < 2 ^ 32.
Proof.
  intros Hk Hn. unfold Binomial.
  destruct (Z.leb_spec 0 k), (Z.ltb_spec k 6), (Z.leb_spec 0 n), (Z.ltb_spec n 64);
    try lia. cbn [andb].
  destruct (Binomial_fill_rows (Z.to_nat n)) as (R1 & R2 & R3 & R4 & R5).
  cbv zeta in *. rewrite Z2Nat.id in * by lia.
  set (m := Z.to_nat n) in *.
  assert (Hcases : k = 0 \/ k = 1 \/ k = 2 \/ k = 3 \/ k = 4 \/ k = 5) by lia.
  assert (B2 : n * (n - 1) <= 64 * 64) by nia.
  assert (B3 : n * (n - 1) * (n - 2) <= 64 * 64 * 64) by nia.
  assert (B4 : n * (n - 1) * (n - 2) * (n - 3) <= 64 * 64 * 64 * 64) by nia.
  assert (B5 : n * (n - 1) * (n - 2) * (n - 3) * (n - 4) <= 64 * 64 * 64 * 64 * 64) by nia.
  destruct Hcases as [-> | [-> | [-> | [-> | [-> | ->]]]]];
    repeat match goal with
           | |- context [Z.to_nat ?a] =>
               let v := eval vm_compute in (Z.to_nat a) in change (Z.to_nat a) with v
           end;
    rewrite ?Binomial_fill_0; lia.
Qed.

(** How many of a list of different squares can lie in a range. *)
Lemma NoDup_range_length (l : list Z) (a b : Z) :
  NoDup l -> Forall (fun x => a <= x < b) l -> Z.of_nat (length l) <= Z.max 0 (b - a).
Proof.
  intros Hnd Hall.
  assert (Hsub : l ⊆+ seqZ a (b - a)).
  { apply NoDup_submseteq; [done|]. intros x Hx.
    rewrite Forall_forall in Hall. apply elem_of_seqZ. specialize (Hall x Hx). lia. }
  apply submseteq_length in Hsub. rewrite length_seqZ in Hsub. lia.
Qed.

Lemma filter_all {A} (l : list A) : filter (fun _ => True) l = l.
Proof. induction l as [|x l IH]; [done|]. by rewrite filter_cons_True, IH. Qed.

(** The inner loop that counts the squares below [sq]. *)
Lemma adjust_filter (lead : list Z) (sq : Z) :
  foldr (fun q n => n + Z.b2z (sq >? q)) 0 lead
  = Z.of_nat (length (filter (fun q => q < sq) lead)).
Proof.
  induction lead as [|q lead IH]; [done|]. cbn [foldr]. rewrite IH, filter_cons.
  destruct (Z.gtb_spec sq q), (decide (q < sq)); simpl; lia.
Qed.

Section GroupRank.
Variables (lead : list Z) (lo hi : Z).
Hypothesis Hnd : NoDup lead.
Hypothesis Hrange : Forall (fun q => lo <= q < hi) lead.

Local Notation "'rank'" :=
  (fun sq => sq - Z.of_nat (length (filter (fun q => q < sq) lead)) - lo).

Lemma rank_nonneg (sq : Z) : lo <= sq -> 0 <= rank sq.
Proof.
  intros Hsq.
  pose proof (NoDup_range_length (filter (fun q => q < sq) lead) lo sq
                (NoDup_filter _ _ Hnd)) as Hlen.
  specialize (Hlen ltac:(
    apply Forall_forall; intros x Hx; apply list_elem_of_filter in Hx as [? Hx];
    rewrite Forall_forall in Hrange; specialize (Hrange x Hx); lia)).
  cbv beta. lia.
Qed.

Lemma rank_increasing (sq sq' : Z) :
  sq ∉ lead -> sq < sq' -> rank sq < rank sq'.
Proof.
  intros Hout Hlt.
  assert (Hsplit : length (filter (fun q => q < sq') lead)
                   = (length (filter (fun q => (q < sq)%Z) lead)
                      + length (filter (fun q => (sq < q < sq')%Z) lead))%nat).
  { apply filter_length_split. intros x Hx.
    assert (x <> sq) by (by intros ->). lia. }
  pose proof (NoDup_range_length (filter (fun q => sq < q < sq') lead) (sq + 1) sq'
                (NoDup_filter _ _ Hnd)) as Hlen.
  specialize (Hlen ltac:(
    apply Forall_forall; intros x Hx; apply list_elem_of_filter in Hx as [? Hx]; lia)).
  cbv beta. lia.
Qed.

Lemma rank_below (sq : Z) :
  sq ∉ lead -> sq < hi -> rank sq < hi - lo - Z.of_nat (length lead).
Proof.
  intros Hout Hsq.
  assert (Hsplit : length (filter (fun q => True) lead)
                   = (length (filter (fun q => (q < sq)%Z) lead)
                      + length (filter (fun q => (sq < q)%Z) lead))%nat).
  { apply filter_length_split. intros x Hx.
    assert (x <> sq) by (by intros ->). lia. }
  rewrite filter_all in Hsplit.
  pose proof (NoDup_range_length (filter (fun q => sq < q) lead) (sq + 1) hi
                (NoDup_filter _ _ Hnd)) as Hlen.
  specialize (Hlen ltac:(
    apply Forall_forall; intros x Hx; apply list_elem_of_filter in Hx as [? Hx];
    rewrite Forall_forall in Hrange; specialize (Hrange x Hx); lia)).
  cbv beta. lia.
Qed.

End GroupRank.

Section GroupIndex.
Variables (pawns : bool) (lead group rest : list Z).

Local Notation "'lo'" := (if pawns then 8 else 0).
Local Notation "'width'" := (if pawns then 48 else 64).
Local Notation "'squares'" := (lead ++ group ++ rest).
Local Notation "'rank'" :=
  (fun sq => sq - Z.of_nat (length (filter (fun q => q < sq) lead)) - lo).

Hypothesis Hnd : NoDup (lead ++ group).
Hypothesis Hrange : Forall (fun q => lo <= q < lo + width) (lead ++ group).
Hypothesis Hsorted : StronglySorted Z.lt group.
Hypothesis Hlead : (0 < length lead)%nat.
Hypothesis Hcount : (length group <= 5)%nat.

Lemma group_rank_range (x : Z) :
  x ∈ group -> 0 <= rank x < width - Z.of_nat (length lead).
Proof.
  intros Hx.
  apply NoDup_app in Hnd as (Hl & Hdisj & _).
  apply Forall_app in Hrange as [Hrl Hrg].
  rewrite Forall_forall in Hrg. specialize (Hrg x Hx).
  split.
  - apply (rank_nonneg lead lo (lo + width) Hl Hrl). lia.
  - pose proof (rank_below lead lo (lo + width) Hl Hrl x) as Hb.
    cbv beta in Hb. specialize (Hb ltac:(intros Hin; by apply (Hdisj x)) ltac:(lia)).
    lia.
Qed.

Lemma encode_group_inv (done todo : list Z) :
  group = done ++ todo ->
  forall s p,
    -1 <= p < width - Z.of_nat (length lead) ->
    Forall (fun x => p < rank x) todo ->
    0 <= s <= Binomial (Z.of_nat (length done)) (p + 1) - 1 ->
    0 <= encode_group squares (length lead) (length lead + length done) (length todo) pawns s
      <= Binomial (Z.of_nat (length group)) (width - Z.of_nat (length lead)) - 1.
Proof.
  assert (Hw : 0 <= width - Z.of_nat (length lead) < 64).
  { pose proof (NoDup_range_length (lead ++ group) lo (lo + width) Hnd Hrange) as Hlen.
    rewrite length_app in Hlen. destruct pawns; lia. }
  revert done. induction todo as [|x todo IH]; intros done Hsplit s p Hp Hall Hs.
  - rewrite app_nil_r in Hsplit. subst done. cbn [encode_group length].
    pose proof (Binomial_mono (Z.of_nat (length group)) (p + 1)
                  (width - Z.of_nat (length lead)) ltac:(lia) ltac:(lia) ltac:(lia)).
    lia.
  - assert (Hlen : length group = (length done + S (length todo))%nat)
      by (by rewrite Hsplit, length_app).
    assert (Hx : x ∈ group)
      by (rewrite Hsplit; apply elem_of_app; right; left).
    destruct (group_rank_range x Hx) as [Hr0 Hr1].
    apply Forall_cons in Hall as [Hpx Hall]. cbv beta in Hpx.
    cbn [encode_group length].
    assert (Hat : sq_at squares (length lead + length done) = x).
    { unfold sq_at. rewrite Hsplit, <- !app_assoc.
      rewrite lookup_app_r by lia.
      replace (length lead + length done - length lead)%nat with (length done) by lia.
      change ((x :: todo) ++ rest) with (x :: todo ++ rest).
      by rewrite list_lookup_middle. }
    rewrite Hat, take_app_length, adjust_filter.
    replace (length lead + length done - length lead + 1)%nat
      with (S (length done)) by lia.
    set (c := x - Z.of_nat (length (filter (fun q => q < x) lead)) - lo) in *.
    destruct (Binomial_facts (Z.of_nat (length done)) c) as (Hn0 & _ & _ & Hpascal & _);
      [lia..|].
    destruct (Binomial_facts (Z.of_nat (S (length done))) c) as (Hn1 & _); [lia..|].
    specialize (Hpascal ltac:(lia) ltac:(lia)).
    replace (Z.of_nat (length done) + 1) with (Z.of_nat (S (length done))) in Hpascal
      by lia.
    pose proof (Binomial_mono (Z.of_nat (length done)) (p + 1) c
                  ltac:(lia) ltac:(lia) ltac:(lia)) as Hmono.
    pose proof (Binomial_small (Z.of_nat (length done)) c ltac:(lia) ltac:(lia)).
    pose proof (Binomial_small (Z.of_nat (S (length done))) c ltac:(lia) ltac:(lia)).
    unfold u64. rewrite Z.mod_small by lia.
    specialize (IH (done ++ [x]) ltac:(by rewrite <- app_assoc)
                   (s + Binomial (Z.of_nat (S (length done))) c) c).
    rewrite length_app in IH. cbn [length] in IH.
    replace (S (length lead + length done))
      with (length lead + (length done + 1))%nat by lia.
    apply IH.
    + lia.
    + apply Forall_forall. intros y Hy. cbv beta.
      apply NoDup_app in Hnd as (Hl & Hdisj & _).
      apply Forall_app in Hrange as [Hrl Hrg].
      apply (rank_increasing lead lo Hl x y).
      * intros Hin. by apply (Hdisj x).
      * rewrite Hsplit in Hsorted.
        apply StronglySorted_app_1_r in Hsorted.
        apply StronglySorted_inv in Hsorted as [_ Hlt].
        rewrite Forall_forall in Hlt. by apply Hlt.
    + replace (Z.of_nat (length done + 1)) with (Z.of_nat (S (length done))) by lia.
      lia.
Qed.

End GroupIndex.

(** X23: the index of a group of like pieces is below the number of
    ways to place them.  For a group of at most five different squares in
    ascending order, behind [next >= 1] squares already placed (all
    different, on the board, or on ranks 2 to 7 for pawns), the sum
    [encode_remaining] computes for the group is at least 0 and less than
    [Binomial[count][64 - next]] (for pawns [Binomial[count][48 - next]]),
    the factor [set_factors] gives the group. *)
Theorem encode_group_bound (pawns : bool) (lead group rest : list Z) :
  NoDup (lead ++ group) ->
  Forall (fun q => (if pawns then 8 else 0) <= q < (if pawns then 56 else 64))
         (lead ++ group) ->
  StronglySorted Z.lt group ->
  (0 < length lead)%nat -> (length group <= 5)%nat ->
  0 <= encode_group (lead ++ group ++ rest) (length lead) (length lead) (length group)
         pawns 0
    < Binomial (Z.of_nat (length group))
        ((if pawns then 48 else 64) - Z.of_nat (length lead)).
Proof.
  intros Hnd Hrange Hsorted Hlead Hcount.
  pose proof (encode_group_inv pawns lead group rest Hnd) as Hinv.
  specialize (Hinv ltac:(
    eapply Forall_impl; [exact Hrange|]; intros q Hq; cbv beta in Hq |- *;
    destruct pawns; lia) Hsorted Hlead Hcount [] group eq_refl 0 (-1)).
  cbn [length] in Hinv. rewrite Nat.add_0_r in Hinv.
  destruct Hinv as [H0 H1]; [| |by vm_compute|lia].
  - assert (Z.of_nat (length lead) + Z.of_nat (length group) <= (if pawns then 48 else 64)).
    { pose proof (NoDup_range_length (lead ++ group) (if pawns then 8 else 0)
                    (if pawns then 56 else 64) Hnd Hrange) as Hlen.
      rewrite length_app in Hlen. destruct pawns; lia. }
    destruct group; [simpl in *; destruct pawns; lia|simpl in *; lia].
  - apply Forall_forall. intros x Hx.
    destruct (group_rank_range pawns lead group Hnd) with (x := x) as [Hr _]; [|done..|lia].
    eapply Forall_impl; [exact Hrange|]. intros q Hq. cbv beta in Hq |- *.
    destruct pawns; lia.
Qed.

Lemma encode_group_bound_witness :
  0 <= encode_group ([4; 60] ++ [10; 17; 33] ++ [0]) 2 2 3 false 0 < Binomial 3 (64 - 2)
  /\ encode_group ([4; 60] ++ [10; 17; 33] ++ [0]) 2 2 3 false 0 = 5089.
Proof.
  split; [|by vm_compute].
  apply (encode_group_bound false [4; 60] [10; 17; 33] [0]).
  - apply (bool_decide_unpack (NoDup [4; 60; 10; 17; 33])). vm_compute. exact I.
  - repeat constructor; lia.
  - repeat constructor; lia.
  - simpl. lia.
  - simpl. lia.
Defined.

(** ** The layout of a table: [set_norms] *)

Lemma norm_run_spec (pcs : list Z) (pc : Z) (count : nat) :
  forall j,
    0 <= norm_run pcs pc j count <= Z.of_nat count
    /\ (forall t, 0 <= t < norm_run pcs pc j count -> table_at pcs (j + t) = pc)
    /\ (norm_run pcs pc j count < Z.of_nat count ->
        table_at pcs (j + norm_run pcs pc j count) <> pc).
Proof.
  induction count as [|c IH]; intros j; cbn [norm_run].
  - repeat split; lia.
  - destruct (Z.eqb_spec (table_at pcs j) pc) as [Heq|Hne].
    + destruct (IH (j + 1)) as (Hr & Hrun & Hend). repeat split; try lia.
      * intros t Ht. destruct (Z.eq_dec t 0) as [->|]; [by rewrite Z.add_0_r|].
        replace (j + t) with (j + 1 + (t - 1)) by lia. apply Hrun. lia.
      * intros Hlt. replace (j + (1 + norm_run pcs pc (j + 1) c))
          with (j + 1 + norm_run pcs pc (j + 1) c) by lia.
        apply Hend. lia.
    + repeat split; try lia. intros _. by rewrite Z.add_0_r.
Qed.

Lemma table_at_vec_set (v v' : list Z) (i x j : Z) :
  vec_set v i x = Some v' ->
  table_at v' j = if j =? i then x else table_at v j.
Proof.
  intros Hset. pose proof (vec_set_Some _ _ _ _ Hset) as [Hi ->].
  unfold table_at. destruct (Z.ltb_spec j 0); [by destruct (Z.eqb_spec j i); [lia|]|].
  destruct (Z.eqb_spec j i) as [->|Hne].
  - rewrite list_lookup_insert_eq by lia. done.
  - rewrite list_lookup_insert_ne by lia. done.
Qed.

Lemma vec_set_is_Some (v : list Z) (i x : Z) :
  0 <= i < Z.of_nat (length v) -> is_Some (vec_set v i x).
Proof.
  intros Hi. unfold vec_set.
  destruct (Z.leb_spec 0 i), (Z.ltb_spec i (Z.of_nat (length v))); try lia. by eexists.
Qed.

Lemma set_norms_loop_spec (num : Z) (fuel : nat) :
  forall d i,
    length (norm d) = 6%nat -> 0 <= i -> num <= 6 ->
    (forall j, i <= j -> table_at (norm d) j = 0) ->
    (Z.to_nat (num - i) <= fuel)%nat ->
    exists d',
      set_norms_loop fuel d num i = Some d'
      /\ pieces d' = pieces d /\ factor d' = factor d /\ length (norm d') = 6%nat
      /\ (forall j, j < i -> table_at (norm d') j = table_at (norm d) j)
      /\ Forall (maximal_run (pieces d) (norm d') num) (group_starts fuel (norm d') num i)
      /\ (i <= num ->
          i + foldr (fun g acc => table_at (norm d') g + acc) 0
                (group_starts fuel (norm d') num i) = num).
Proof.
  induction fuel as [|f IH]; intros d i Hlen Hi Hnum Hzero Hfuel.
  - exists d. cbn [set_norms_loop group_starts].
    destruct (Z.ltb_spec i num); [lia|]. repeat split; try done. simpl. lia.
  - cbn [set_norms_loop group_starts].
    destruct (Z.ltb_spec i num) as [Hlt|Hge];
      [|exists d; repeat split; try done; simpl; lia].
    assert (Hget : vec_get (norm d) i = Some 0).
    { unfold vec_get. destruct (Z.ltb_spec i 0); [lia|].
      destruct (lookup_lt_is_Some_2 (norm d) (Z.to_nat i) ltac:(lia)) as [x Hx].
      rewrite Hx. f_equal. specialize (Hzero i ltac:(lia)).
      unfold table_at in Hzero. destruct (Z.ltb_spec i 0); [lia|]. by rewrite Hx in Hzero. }
    rewrite Hget. cbn [mbind option_bind].
    set (run := norm_run (pieces d) (table_at (pieces d) i) i (Z.to_nat (num - i))).
    destruct (norm_run_spec (pieces d) (table_at (pieces d) i) (Z.to_nat (num - i)) i)
      as (Hr & Hrun & Hend). fold run in Hr, Hrun, Hend.
    assert (Hr1 : 1 <= run).
    { unfold run. destruct (Z.to_nat (num - i)) as [|c] eqn:Hc; [lia|].
      cbn [norm_run]. rewrite Z.eqb_refl.
      destruct (norm_run_spec (pieces d) (table_at (pieces d) i) c (i + 1)) as (? & _). lia. }
    replace (u8 (0 + run)) with run by (unfold u8; rewrite Z.mod_small; lia).
    destruct (vec_set_is_Some (norm d) i run ltac:(lia)) as [v Hset]. rewrite Hset.
    cbn [mbind option_bind].
    pose proof (fun j => table_at_vec_set _ _ _ _ j Hset) as Hv.
    destruct (IH (with_norm d v) (i + run)) as (d' & Hloop & Hp & Hf & Hl & Hkeep & Hruns & Hsum).
    + cbn [norm with_norm]. by erewrite vec_set_length.
    + lia.
    + done.
    + intros j Hj. cbn [norm with_norm]. rewrite Hv.
      destruct (Z.eqb_spec j i); [lia|]. apply Hzero. lia.
    + lia.
    + cbn [norm with_norm pieces factor] in *.
      assert (Hat : table_at (norm d') i = run).
      { rewrite Hkeep by lia. rewrite Hv. by rewrite Z.eqb_refl. }
      exists d'. rewrite Hat. repeat split; try done.
      * intros j Hj. rewrite Hkeep by lia. rewrite Hv.
        destruct (Z.eqb_spec j i); [lia|done].
      * constructor; [|done]. unfold maximal_run. rewrite Hat.
        repeat split; [lia|lia|done|]. intros Hlt'. apply Hend. lia.
      * intros _. cbn [foldr]. rewrite Hat. specialize (Hsum ltac:(lia)). lia.
Qed.

(** X24: [set_norms] cuts the piece list into runs.  On a fresh
    [PairsData] with [pawns[0] + pawns[1] <= num <= 6] it leaves
    [norm[0] = pawns[0]] (when that is not 0), [norm[pawns[0]] = pawns[1]]
    (when that is not 0), and from slot [pawns[0] + pawns[1]] on a chain
    of groups that ends exactly at [num]: each [norm[i]] at the start [i]
    of a group is the length of the longest run of pieces equal to
    [pieces[i]] that starts there, and the next group starts right behind
    it. *)
Theorem set_norms_runs (fuel : nat) (d : PairsData) (num p0 p1 : Z) :
  norm d = replicate 6 0 ->
  0 <= p0 -> 0 <= p1 -> p0 + p1 <= num <= 6 -> (Z.to_nat num <= fuel)%nat ->
  exists d',
    set_norms fuel d num [p0; p1] = Some d'
    /\ pieces d' = pieces d
    /\ (0 < p0 -> table_at (norm d') 0 = p0)
    /\ (0 < p1 -> table_at (norm d') p0 = p1)
    /\ Forall (maximal_run (pieces d) (norm d') num)
              (group_starts fuel (norm d') num (p0 + p1))
    /\ p0 + p1 + foldr (fun g acc => table_at (norm d') g + acc) 0
                   (group_starts fuel (norm d') num (p0 + p1)) = num.
Proof.
  intros Hfresh Hp0 Hp1 Hnum Hfuel. unfold set_norms.
  change (table_at [p0; p1] 0) with p0. change (table_at [p0; p1] 1) with p1.
  rewrite Hfresh.
  destruct (vec_set (replicate 6 0) 0 p0) as [v0|] eqn:Hset0; [|done].
  cbn [mbind option_bind].
  pose proof (fun j => table_at_vec_set _ _ _ _ j Hset0) as Hv0.
  pose proof (vec_set_length _ _ _ _ Hset0) as Hl0. rewrite length_replicate in Hl0.
  assert (Hz : forall j, table_at (replicate 6 0) j = 0).
  { intros j. unfold table_at. destruct (j <? 0); [done|].
    destruct (replicate 6 0 !! Z.to_nat j) eqn:Hj; [|done].
    by apply lookup_replicate in Hj as [-> _]. }
  assert (exists v1, (if negb (p1 =? 0) then vec_set v0 p0 p1 else Some v0) = Some v1
                     /\ length v1 = 6%nat
                     /\ forall j, table_at v1 j
                                  = if (j =? p0) && negb (p1 =? 0) then p1
                                    else if j =? 0 then p0 else 0)
    as (v1 & -> & Hl1 & Hv1).
  { destruct (Z.eqb_spec p1 0) as [->|Hne]; cbn [negb].
    - exists v0. split; [done|]. split; [done|]. intros j. rewrite andb_false_r, Hv0.
      by rewrite Hz.
    - destruct (vec_set_is_Some v0 p0 p1 ltac:(lia)) as [v1 Hset1].
      exists v1. split; [done|]. split; [by erewrite vec_set_length|].
      intros j. rewrite (table_at_vec_set _ _ _ _ _ Hset1), Hv0, Hz, andb_true_r. done. }
  cbn [mbind option_bind].
  destruct (set_norms_loop_spec num fuel (with_norm d v1) (p0 + p1))
    as (d' & Hloop & Hp & _ & _ & Hkeep & Hruns & Hsum); [done|lia|lia| |lia|].
  { intros j Hj. cbn [norm with_norm]. rewrite Hv1.
    destruct (Z.eqb_spec j p0), (Z.eqb_spec p1 0), (Z.eqb_spec j 0); simpl; lia. }
  cbn [norm with_norm pieces] in *.
  exists d'. split; [done|]. split; [done|]. repeat split; [| |done|lia].
  - intros H0. rewrite Hkeep, Hv1 by lia.
    destruct (Z.eqb_spec 0 p0); [lia|]. done.
  - intros H1. rewrite Hkeep, Hv1 by lia. rewrite Z.eqb_refl.
    destruct (Z.eqb_spec p1 0); [lia|]. done.
Qed.

Lemma set_norms_runs_witness :
  exists d',
    set_norms 8 pairs_KRRvKB 5 [3; 0] = Some d'
    /\ pieces d' = pieces pairs_KRRvKB
    /\ (0 < 3 -> table_at (norm d') 0 = 3)
    /\ (0 < 0 -> table_at (norm d') 3 = 0)
    /\ Forall (maximal_run (pieces pairs_KRRvKB) (norm d') 5)
              (group_starts 8 (norm d') 5 (3 + 0))
    /\ 3 + 0 + foldr (fun g acc => table_at (norm d') g + acc) 0
                 (group_starts 8 (norm d') 5 (3 + 0)) = 5.
Proof.
  apply (set_norms_runs 8 pairs_KRRvKB 5 3 0); [reflexivity|lia|lia|lia|simpl; lia].
Defined.

(** ** The layout of a table: [set_factors] *)

Lemma radix_product_perm (l l' : list (Z * Z)) :
  l ≡ₚ l' -> radix_product l = radix_product l'.
Proof.
  intros Hp. unfold radix_product.
  apply (foldr_permutation (=) (fun sr acc => snd sr * acc) 1); [|done].
  intros j1 a1 j2 a2 b _ _ _. lia.
Qed.

Lemma index_of_perm (dig : Z -> Z) (fac : list Z) (l l' : list (Z * Z)) :
  l ≡ₚ l' -> index_of dig fac l = index_of dig fac l'.
Proof.
  intros Hp. unfold index_of.
  apply (foldr_permutation (=) (fun sr acc => dig (fst sr) * table_at fac (fst sr) + acc) 0);
    [|done].
  intros j1 a1 j2 a2 b _ _ _. lia.
Qed.

Lemma radix_product_pos (l : list (Z * Z)) :
  Forall (fun sr => 1 <= snd sr) l -> 1 <= radix_product l.
Proof. induction 1 as [|sr l Hsr _ IH]; simpl; [lia|nia]. Qed.

Lemma index_of_frame (dig : Z -> Z) (fac fac' : list Z) (l : list (Z * Z)) :
  (forall slot, slot ∈ map fst l -> table_at fac' slot = table_at fac slot) ->
  index_of dig fac' l = index_of dig fac l.
Proof.
  induction l as [|sr l IH]; intros Hsame; [done|]. cbn [index_of foldr].
  fold (index_of dig fac' l). fold (index_of dig fac l).
  rewrite Hsame by (simpl; left). rewrite IH; [done|].
  intros slot Hslot. apply Hsame. simpl. by right.
Qed.

(** One place of the index: [factor[slot] = size; size *= radix]. *)
Lemma factor_step (slot radix size : Z) (slots rest : list (Z * Z)) (fac : list Z) :
  slots ≡ₚ (slot, radix) :: rest ->
  NoDup (map fst slots) ->
  Forall (fun sr => 0 <= fst sr < 6 /\ 1 <= snd sr) slots ->
  1 <= size -> size * radix_product slots < 2 ^ 64 ->
  length fac = 6%nat ->
  exists fac1,
    vec_set fac slot size = Some fac1 /\ length fac1 = 6%nat
    /\ u64 (size * radix) = size * radix
    /\ NoDup (map fst rest)
    /\ Forall (fun sr => 0 <= fst sr < 6 /\ 1 <= snd sr) rest
    /\ 1 <= size * radix
    /\ size * radix * radix_product rest < 2 ^ 64
    /\ forall fac' size',
         size' = size * radix * radix_product rest ->
         (forall s, s ∉ map fst rest -> table_at fac' s = table_at fac1 s) ->
         (forall dig, Forall (fun sr => 0 <= dig (fst sr) < snd sr) rest ->
            0 <= index_of dig fac' rest <= size' - size * radix) ->
         (forall dig, (size * radix | index_of dig fac' rest)) ->
         (forall dig dig',
            Forall (fun sr => 0 <= dig (fst sr) < snd sr) rest ->
            Forall (fun sr => 0 <= dig' (fst sr) < snd sr) rest ->
            index_of dig fac' rest = index_of dig' fac' rest ->
            Forall (fun sr => dig (fst sr) = dig' (fst sr)) rest) ->
         size' = size * radix_product slots
         /\ (forall s, s ∉ map fst slots -> table_at fac' s = table_at fac s)
         /\ (forall dig, Forall (fun sr => 0 <= dig (fst sr) < snd sr) slots ->
              0 <= index_of dig fac' slots <= size' - size)
         /\ (forall dig, (size | index_of dig fac' slots))
         /\ forall dig dig',
              Forall (fun sr => 0 <= dig (fst sr) < snd sr) slots ->
              Forall (fun sr => 0 <= dig' (fst sr) < snd sr) slots ->
              index_of dig fac' slots = index_of dig' fac' slots ->
              Forall (fun sr => dig (fst sr) = dig' (fst sr)) slots.
Proof.
  intros Hperm Hnodup Hrange Hsize Hfits Hlen.
  rewrite (radix_product_perm _ _ Hperm) in Hfits. rewrite Hperm in Hnodup, Hrange.
  cbn [map fst] in Hnodup. apply NoDup_cons in Hnodup as [Hfresh Hnodup].
  apply Forall_cons in Hrange as [[Hslot Hradix] Hrange]. cbn [fst snd] in *.
  assert (Hrest : 1 <= radix_product rest).
  { apply radix_product_pos. eapply Forall_impl; [exact Hrange|]. by intros sr [_ ?]. }
  change (radix_product ((slot, radix) :: rest)) with (radix * radix_product rest) in Hfits.
  destruct (vec_set_is_Some fac slot size) as [fac1 Hset]; [lia|].
  exists fac1. split; [done|]. split; [by rewrite (vec_set_length _ _ _ _ Hset)|].
  assert (Hsr : 1 <= size * radix) by nia.
  assert (Hlt : size * radix < 2 ^ 64) by nia.
  split; [unfold u64; apply Z.mod_small; lia|].
  do 2 (split; [done|]). split; [done|]. split; [lia|].
  intros fac' size' -> Hframe Hidx Hdiv Hinj.
  pose proof (fun j => table_at_vec_set _ _ _ _ j Hset) as Hget.
  assert (Hcons : forall dig, index_of dig fac' slots
                              = dig slot * size + index_of dig fac' rest).
  { intros dig. rewrite (index_of_perm _ _ _ _ Hperm).
    change (index_of dig fac' ((slot, radix) :: rest))
      with (dig slot * table_at fac' slot + index_of dig fac' rest).
    rewrite Hframe by done. by rewrite Hget, Z.eqb_refl. }
  split; [rewrite (radix_product_perm _ _ Hperm);
          change (radix_product ((slot, radix) :: rest)) with (radix * radix_product rest); lia|].
  split; [|split; [|split]].
  - intros s Hs. rewrite Hperm in Hs. cbn [map fst] in Hs.
    apply not_elem_of_cons in Hs as [Hne Hs].
    rewrite Hframe by done. rewrite Hget. by destruct (Z.eqb_spec s slot).
  - intros dig Hdig. rewrite Hperm in Hdig.
    apply Forall_cons in Hdig as [Hd Hdig]. cbn [fst snd] in Hd.
    rewrite Hcons. specialize (Hidx dig Hdig). nia.
  - intros dig. rewrite Hcons. destruct (Hdiv dig) as [q ->].
    exists (dig slot + q * radix). lia.
  - intros dig dig' Hdig Hdig' Heq. rewrite Hperm in Hdig, Hdig' |- *.
    apply Forall_cons in Hdig as [Hd Hdig]. apply Forall_cons in Hdig' as [Hd' Hdig'].
    cbn [fst snd] in Hd, Hd'. rewrite !Hcons in Heq.
    destruct (Hdiv dig) as [q Hq]. destruct (Hdiv dig') as [q' Hq'].
    assert (Hcancel : dig slot + q * radix = dig' slot + q' * radix) by nia.
    assert (Hsame : dig slot = dig' slot).
    { rewrite <- (Z.mod_small (dig slot) radix), <- (Z.mod_small (dig' slot) radix) by lia.
      rewrite <- (Z_mod_plus_full (dig slot) q radix), Hcancel.
      apply Z_mod_plus_full. }
    apply Forall_cons. split; [done|].
    apply Hinj; [done..|]. rewrite Hsame in Heq. lia.
Qed.

Section FactorsLoop.
Variables (pfactor num order0 order1 : Z) (nm : list Z).
Hypothesis Horder : order0 <> order1.

Local Notation "'pending'" := (pending_slots pfactor nm).

Lemma set_factors_loop_done (fuel : nat) (d : PairsData) (k i n size : Z) :
  num <= i -> k <> order0 -> k <> order1 ->
  set_factors_loop fuel pfactor d num order0 order1 k i n size = Some (d, size).
Proof.
  intros Hi H0 H1.
  destruct fuel; cbn [set_factors_loop];
    destruct (Z.ltb_spec i num), (Z.eqb_spec k order0), (Z.eqb_spec k order1);
    done || lia.
Qed.

Lemma set_factors_loop_spec (fuel : nat) :
  forall (p0 p1 : bool) (gs : list Z) (slots : list (Z * Z)) (d : PairsData) (k i size : Z),
  slots ≡ₚ pending p0 p1 gs ->
  norm d = nm -> length (factor d) = 6%nat ->
  group_chain nm num i gs ->
  NoDup (map fst slots) ->
  Forall (fun sr => 0 <= fst sr < 6 /\ 1 <= snd sr) slots ->
  1 <= size -> size * radix_product slots < 2 ^ 64 ->
  (if p0
   then k <= order0
        /\ order0 - k <= Z.of_nat (length gs) + (if p1 && (order1 <? order0) then 1 else 0)
   else order0 < k) ->
  (if p1
   then k <= order1
        /\ order1 - k <= Z.of_nat (length gs) + (if p0 && (order0 <? order1) then 1 else 0)
   else order1 < k \/ k + Z.of_nat (length gs) + (if p0 then 1 else 0) < order1) ->
  (length slots <= fuel)%nat ->
  exists d' size',
    set_factors_loop fuel pfactor d num order0 order1 k i (64 - i) size = Some (d', size')
    /\ norm d' = nm /\ length (factor d') = 6%nat
    /\ size' = size * radix_product slots
    /\ (forall slot, slot ∉ map fst slots -> table_at (factor d') slot = table_at (factor d) slot)
    /\ (forall dig, Forall (fun sr => 0 <= dig (fst sr) < snd sr) slots ->
         0 <= index_of dig (factor d') slots <= size' - size)
    /\ (forall dig, (size | index_of dig (factor d') slots))
    /\ forall dig dig',
         Forall (fun sr => 0 <= dig (fst sr) < snd sr) slots ->
         Forall (fun sr => 0 <= dig' (fst sr) < snd sr) slots ->
         index_of dig (factor d') slots = index_of dig' (factor d') slots ->
         Forall (fun sr => dig (fst sr) = dig' (fst sr)) slots.
Proof.
  assert (Hdone : forall fuel p0 p1 gs slots d k i size,
    slots ≡ₚ pending p0 p1 gs -> norm d = nm -> length (factor d) = 6%nat ->
    p0 = false -> p1 = false -> gs = [] -> num <= i -> k <> order0 -> k <> order1 ->
    exists d' size',
      set_factors_loop fuel pfactor d num order0 order1 k i (64 - i) size = Some (d', size')
      /\ norm d' = nm /\ length (factor d') = 6%nat
      /\ size' = size * radix_product slots
      /\ (forall slot, slot ∉ map fst slots ->
            table_at (factor d') slot = table_at (factor d) slot)
      /\ (forall dig, Forall (fun sr => 0 <= dig (fst sr) < snd sr) slots ->
           0 <= index_of dig (factor d') slots <= size' - size)
      /\ (forall dig, (size | index_of dig (factor d') slots))
      /\ forall dig dig',
           Forall (fun sr => 0 <= dig (fst sr) < snd sr) slots ->
           Forall (fun sr => 0 <= dig' (fst sr) < snd sr) slots ->
           index_of dig (factor d') slots = index_of dig' (factor d') slots ->
           Forall (fun sr => dig (fst sr) = dig' (fst sr)) slots).
  { intros fuel' p0 p1 gs slots d k i size Hperm Hnm Hlen -> -> -> Hi Hk0 Hk1.
    apply Permutation_nil_r in Hperm as ->.
    exists d, size. rewrite set_factors_loop_done by done.
    repeat split; try done; cbn; try lia. intros _. apply Z.divide_0_r. }
  induction fuel as [|fuel IH];
    intros p0 p1 gs slots d k i size Hperm Hnm Hlen Hchain Hnodup Hrange Hsize Hfits H0 H1 Hfuel.
  { destruct slots; [|simpl in Hfuel; lia].
    symmetry in Hperm. apply Permutation_nil_r in Hperm.
    destruct p0; [done|]. destruct p1; [done|]. destruct gs; [|done].
    cbn [group_chain length] in *.
    apply (Hdone 0%nat false false [] [] d k i size); try done; lia. }
  destruct (Z.eqb_spec k order0) as [Hk0|Hk0];
    [|destruct (Z.eqb_spec k order1) as [Hk1|Hk1]; [|destruct (Z.ltb_spec i num) as [Hi|Hi]]].
  - destruct p0; [|lia].
    assert (Hp : slots ≡ₚ (0, pfactor) :: pending false p1 gs) by (by rewrite Hperm).
    destruct (factor_step _ _ _ _ _ _ Hp Hnodup Hrange Hsize Hfits Hlen)
      as (fac1 & Hset & Hlen1 & Hu & Hnd' & Hr' & Hs' & Hf' & Hfin).
    cbn [set_factors_loop].
    destruct (Z.eqb_spec k order0); [|done]. rewrite orb_true_r. cbn [orb].
    rewrite Hset. cbn [mbind option_bind]. rewrite Hu.
    destruct (IH false p1 gs (pending false p1 gs) (with_factor d fac1) (k + 1) i
                (size * pfactor)) as (d' & size' & Hrun & Hnm' & Hlen' & Hsz & Hframe & Hidx & Hdiv & Hinj);
      try done; try lia.
    + destruct p1; [|lia]. destruct (Z.ltb_spec order0 order1); cbn [andb] in *; lia.
    + rewrite Hp in Hfuel. simpl in Hfuel. lia.
    + exists d', size'. split; [done|]. split; [done|]. split; [done|].
      by apply Hfin.
  - destruct p1; [|destruct p0; lia].
    assert (Hp : slots ≡ₚ (table_at nm 0,
                            Binomial (table_at nm (table_at nm 0)) (48 - table_at nm 0))
                          :: pending p0 false gs).
    { rewrite Hperm. unfold pending_slots. destruct p0; cbn [app]; [apply perm_swap|done]. }
    destruct (factor_step _ _ _ _ _ _ Hp Hnodup Hrange Hsize Hfits Hlen)
      as (fac1 & Hset & Hlen1 & Hu & Hnd' & Hr' & Hs' & Hf' & Hfin).
    cbn [set_factors_loop].
    destruct (Z.eqb_spec k order0); [done|]. destruct (Z.eqb_spec k order1); [|done].
    rewrite orb_true_r. rewrite Hnm, Hset. cbn [mbind option_bind]. rewrite Hu.
    destruct (IH p0 false gs (pending p0 false gs) (with_factor d fac1) (k + 1) i
                (size * Binomial (table_at nm (table_at nm 0)) (48 - table_at nm 0)))
      as (d' & size' & Hrun & Hnm' & Hlen' & Hsz & Hframe & Hidx & Hdiv & Hinj);
      try done; try lia.
    + destruct p0; [|lia]. destruct (Z.ltb_spec order1 order0); cbn [andb] in *; lia.
    + rewrite Hp in Hfuel. simpl in Hfuel. lia.
    + exists d', size'. split; [done|]. split; [done|]. split; [done|].
      by apply Hfin.
  - destruct gs as [|g gs]; cbn [group_chain] in Hchain; [lia|].
    destruct Hchain as (-> & _ & Hchain).
    assert (Hp : slots ≡ₚ (i, Binomial (table_at nm i) (64 - i)) :: pending p0 p1 gs).
    { rewrite Hperm. unfold pending_slots. cbn [map].
      rewrite !app_assoc. symmetry. apply Permutation_middle. }
    destruct (factor_step _ _ _ _ _ _ Hp Hnodup Hrange Hsize Hfits Hlen)
      as (fac1 & Hset & Hlen1 & Hu & Hnd' & Hr' & Hs' & Hf' & Hfin).
    cbn [set_factors_loop].
    destruct (Z.eqb_spec k order0); [done|]. destruct (Z.eqb_spec k order1); [done|].
    destruct (Z.ltb_spec i num); [|lia]. cbn [orb].
    rewrite Hnm, Hset. cbn [mbind option_bind]. rewrite Hu.
    replace (64 - i - table_at nm i) with (64 - (i + table_at nm i)) by lia.
    cbn [length] in *.
    destruct (IH p0 p1 gs (pending p0 p1 gs) (with_factor d fac1) (k + 1)
                (i + table_at nm i) (size * Binomial (table_at nm i) (64 - i)))
      as (d' & size' & Hrun & Hnm' & Hlen' & Hsz & Hframe & Hidx & Hdiv & Hinj);
      try done; try lia.
    + destruct p0; lia.
    + destruct p1; [lia|]. destruct p0; lia.
    + rewrite Hp in Hfuel. simpl in Hfuel. lia.
    + exists d', size'. split; [done|]. split; [done|]. split; [done|].
      by apply Hfin.
  - destruct gs as [|g gs]; cbn [group_chain] in Hchain; [|lia].
    cbn [length] in *.
    assert (p0 = false) as ->.
    { destruct p0; [|done]. destruct p1; cbn [andb] in *; [|lia].
      destruct (Z.ltb_spec order1 order0), (Z.ltb_spec order0 order1); lia. }
    assert (p1 = false) as -> by (destruct p1; cbn [andb] in *; [lia|done]).
    apply (Hdone (S fuel) false false [] slots d k i size); try done; lia.
Qed.

End FactorsLoop.

(** X25: [set_factors] lays the index of a table out as a mixed-radix
    number.  When the [order] nibbles place the leading group and the pawns
    of the second side among the groups, every slot lies in [factor] and the
    product of the radices fits 64 bits, the size it returns is the product
    of the radices of the groups, and with the factors it stores every
    choice of one digit below the radix of each group gives an index below
    that size, different choices giving different indices. *)
Theorem set_factors_mixed_radix (fuel : nat) (pfactor : Z) (d : PairsData)
    (num order0 order1 : Z) (starts : list Z) :
  length (factor d) = 6%nat ->
  group_chain (norm d) num
    (if order1 <? 15
     then table_at (norm d) 0 + table_at (norm d) (table_at (norm d) 0)
     else table_at (norm d) 0) starts ->
  NoDup (map fst (factor_slots pfactor (norm d) order1 starts)) ->
  Forall (fun sr => 0 <= fst sr < 6 /\ 1 <= snd sr)
         (factor_slots pfactor (norm d) order1 starts) ->
  radix_product (factor_slots pfactor (norm d) order1 starts) < 2 ^ 64 ->
  order0 <> order1 ->
  0 <= order0 <= Z.of_nat (length starts)
                 + (if (order1 <? 15) && (order1 <? order0) then 1 else 0) ->
  (order1 < 15 ->
   0 <= order1 <= Z.of_nat (length starts) + (if order0 <? order1 then 1 else 0)) ->
  (length starts + 2 <= fuel)%nat ->
  exists d' size,
    set_factors fuel pfactor d num [order0; order1] = Some (d', size)
    /\ norm d' = norm d
    /\ size = radix_product (factor_slots pfactor (norm d) order1 starts)
    /\ (forall dig,
          Forall (fun sr => 0 <= dig (fst sr) < snd sr)
                 (factor_slots pfactor (norm d) order1 starts) ->
          0 <= index_of dig (factor d') (factor_slots pfactor (norm d) order1 starts) < size)
    /\ forall dig dig',
         Forall (fun sr => 0 <= dig (fst sr) < snd sr)
                (factor_slots pfactor (norm d) order1 starts) ->
         Forall (fun sr => 0 <= dig' (fst sr) < snd sr)
                (factor_slots pfactor (norm d) order1 starts) ->
         index_of dig (factor d') (factor_slots pfactor (norm d) order1 starts)
         = index_of dig' (factor d') (factor_slots pfactor (norm d) order1 starts) ->
         Forall (fun sr => dig (fst sr) = dig' (fst sr))
                (factor_slots pfactor (norm d) order1 starts).
Proof.
  intros Hlen Hchain Hnodup Hrange Hfits Horder H0 H1 Hfuel.
  set (slots := factor_slots pfactor (norm d) order1 starts) in *.
  assert (Hslots : slots ≡ₚ pending_slots pfactor (norm d) true (order1 <? 15) starts) by done.
  assert (Hcount : (length slots <= 6)%nat).
  { pose proof (NoDup_range_length (map fst slots) 0 6 Hnodup) as Hle.
    rewrite length_map in Hle. enough (Z.of_nat (length slots) <= Z.max 0 (6 - 0)) by lia.
    apply Hle. apply Forall_fmap. eapply Forall_impl; [exact Hrange|]. by intros sr [? _]. }
  assert (Hstarts : (length starts < length slots)%nat).
  { unfold slots, factor_slots. cbn [length]. rewrite length_app, length_map. lia. }
  unfold set_factors. change (table_at [order0; order1] 0) with order0.
  change (table_at [order0; order1] 1) with order1.
  set (i := if order1 <? 15 then _ else _) in *.
  destruct (set_factors_loop_spec pfactor num order0 order1 (norm d) Horder fuel
              true (order1 <? 15) starts slots d 0 i 1)
    as (d' & size & Hrun & Hnm & _ & Hsz & _ & Hidx & _ & Hinj); try done; try lia.
  - destruct (Z.ltb_spec order1 15); [cbn [andb]; lia|]. right. lia.
  - unfold slots, factor_slots in *. cbn [length] in *.
    rewrite length_app, length_map in *. destruct (order1 <? 15); cbn [length] in *; lia.
  - exists d', size. split; [done|]. split; [done|]. split; [lia|]. split; [|done].
    intros dig Hdig. specialize (Hidx dig Hdig). lia.
Qed.

Lemma set_factors_mixed_radix_witness :
  exists d' size,
    set_factors 8 31332 normed_KRRvKB 5 [1; 15] = Some (d', size)
    /\ size = 57337560
    /\ 0 <= index_of (fun s => if s =? 0 then 31331 else 1829) (factor d')
                     [(0, 31332); (3, 1830)] < size.
Proof.
  assert (Hlen : length (factor normed_KRRvKB) = 6%nat) by reflexivity.
  assert (Hchain : group_chain (norm normed_KRRvKB) 5 3 [3])
    by (vm_compute; repeat split; reflexivity || discriminate).
  assert (Hnodup : NoDup (map fst [(0, 31332); (3, 1830)])).
  { apply (bool_decide_unpack (NoDup [0; 3])). vm_compute. exact I. }
  assert (Hrange : Forall (fun sr => 0 <= fst sr < 6 /\ 1 <= snd sr)
                          [(0, 31332); (3, 1830)]).
  { repeat apply Forall_cons_2; [vm_compute; repeat split; discriminate..|apply Forall_nil_2]. }
  assert (Hfits : radix_product [(0, 31332); (3, 1830)] < 2 ^ 64) by (vm_compute; reflexivity).
  assert (Horder : 1 <> 15) by lia.
  assert (H0 : 0 <= 1 <= Z.of_nat (length [3]) + (if (15 <? 15) && (15 <? 1) then 1 else 0))
    by (vm_compute; split; discriminate).
  assert (H1 : 15 < 15 ->
               0 <= 15 <= Z.of_nat (length [3]) + (if 1 <? 15 then 1 else 0)) by lia.
  assert (Hfuel : (length [3] + 2 <= 8)%nat) by (vm_compute; lia).
  destruct (set_factors_mixed_radix 8 31332 normed_KRRvKB 5 1 15 [3]
              Hlen Hchain Hnodup Hrange Hfits Horder H0 H1 Hfuel)
    as (d' & size & Hrun & _ & Hsz & Hidx & _).
  exists d', size. split; [exact Hrun|]. split; [exact Hsz|].
  apply (Hidx (fun s => if s =? 0 then 31331 else 1829)).
  repeat apply Forall_cons_2; [vm_compute; split; reflexivity || discriminate..|apply Forall_nil_2].
Defined.

(** ** The encoder: the index of the leading pieces *)

Lemma square_coords (s : Z) :
  0 <= s < 64 ->
  s = 8 * rank_of s + file_of s /\ 0 <= file_of s <= 7 /\ 0 <= rank_of s <= 7.
Proof.
  intros Hs.
  pose proof (squares_forall
    (fun s => (s =? 8 * rank_of s + file_of s) && (0 <=? file_of s) && (file_of s <=? 7)
              && (0 <=? rank_of s) && (rank_of s <=? 7)) eq_refl s Hs) as H.
  repeat (apply andb_true_iff in H as [H ?]). lia.
Qed.

Lemma flip_file_coords (s : Z) :
  0 <= s < 64 ->
  0 <= Z.lxor s 7 < 64
  /\ file_of (Z.lxor s 7) = 7 - file_of s /\ rank_of (Z.lxor s 7) = rank_of s.
Proof.
  intros Hs.
  pose proof (squares_forall
    (fun s => (0 <=? Z.lxor s 7) && (Z.lxor s 7 <? 64)
              && (file_of (Z.lxor s 7) =? 7 - file_of s)
              && (rank_of (Z.lxor s 7) =? rank_of s)) eq_refl s Hs) as H.
  repeat (apply andb_true_iff in H as [H ?]). lia.
Qed.

Lemma flip_rank_coords (s : Z) :
  0 <= s < 64 ->
  0 <= Z.lxor s 56 < 64
  /\ file_of (Z.lxor s 56) = file_of s /\ rank_of (Z.lxor s 56) = 7 - rank_of s.
Proof.
  intros Hs.
  pose proof (squares_forall
    (fun s => (0 <=? Z.lxor s 56) && (Z.lxor s 56 <? 64)
              && (file_of (Z.lxor s 56) =? file_of s)
              && (rank_of (Z.lxor s 56) =? 7 - rank_of s)) eq_refl s Hs) as H.
  repeat (apply andb_true_iff in H as [H ?]). lia.
Qed.

Lemma flip_diagonal_coords (s : Z) :
  0 <= s < 64 ->
  let t := Z.land (Z.lor (Z.shiftr s 3) (Z.shiftl s 3)) 63 in
  0 <= t < 64 /\ file_of t = rank_of s /\ rank_of t = file_of s.
Proof.
  intros Hs.
  pose proof (squares_forall
    (fun s => let t := Z.land (Z.lor (Z.shiftr s 3) (Z.shiftl s 3)) 63 in
              (0 <=? t) && (t <? 64) && (file_of t =? rank_of s)
              && (rank_of t =? file_of s)) eq_refl s Hs) as H.
  cbv zeta in *. repeat (apply andb_true_iff in H as [H ?]). lia.
Qed.

Lemma Map_ranges (s : Z) :
  0 <= s < 64 ->
  (off_A1H8 s < 0 -> 0 <= MapB1H1H7 s <= 27)
  /\ (off_A1H8 s < 0 -> file_of s <= 3 -> rank_of s <= 3 -> 0 <= MapA1D1D4 s <= 5).
Proof.
  intros Hs.
  pose proof (squares_forall
    (fun s => (negb (off_A1H8 s <? 0) || ((0 <=? MapB1H1H7 s) && (MapB1H1H7 s <=? 27)))
              && (negb ((off_A1H8 s <? 0) && (file_of s <=? 3) && (rank_of s <=? 3))
                  || ((0 <=? MapA1D1D4 s) && (MapA1D1D4 s <=? 5)))) eq_refl s Hs) as H.
  apply andb_true_iff in H as [H1 H2]. split.
  - intros Hoff. lia.
  - intros Hoff Hf Hr. lia.
Qed.

Lemma KK_idx_range (a b : Z) :
  0 <= a < 64 -> 0 <= b < 64 ->
  file_of a <= 3 -> rank_of a <= 3 -> off_A1H8 a <= 0 ->
  king_zone a b = false -> (off_A1H8 a = 0 -> off_A1H8 b <= 0) ->
  0 <= KK_idx (MapA1D1D4 a) b <= 461.
Proof.
  intros Ha Hb Hf Hr Hoff Hzone Hdiag.
  pose proof (squares_forall2
    (fun a b => negb ((file_of a <=? 3) && (rank_of a <=? 3) && (off_A1H8 a <=? 0)
                      && negb (king_zone a b)
                      && (negb (off_A1H8 a =? 0) || (off_A1H8 b <=? 0)))
                || ((0 <=? KK_idx (MapA1D1D4 a) b) && (KK_idx (MapA1D1D4 a) b <=? 461)))
    eq_refl a b Ha Hb) as H.
  cbv beta in H. rewrite Hzone in H. lia.
Qed.

(** The diagonal loop leaves the list as it is or mirrors all of it in the
    diagonal (a square on the diagonal is its own mirror image), and the
    first of the leading squares that is off the diagonal ends below it. *)
Lemma diagonal_flip_cases (limit : nat) (l : list Z) :
  forall i : nat,
  Forall (fun s => 0 <= s < 64) l ->
  (diagonal_flip limit i [] l = l
   \/ diagonal_flip limit i [] l
      = map (fun q => Z.land (Z.lor (Z.shiftr q 3) (Z.shiftl q 3)) 63) l)
  /\ forall k : nat, (i + k < limit)%nat ->
       (forall j : nat, (j < k)%nat -> off_A1H8 (sq_at (diagonal_flip limit i [] l) j) = 0) ->
       off_A1H8 (sq_at (diagonal_flip limit i [] l) k) <= 0.
Proof.
  induction l as [|s rest IH]; intros i Hall.
  - split; [by left|]. intros k _ _. by destruct k.
  - apply Forall_cons in Hall as [Hs Hall].
    destruct (square_coords s Hs) as (Hc & Hf & Hr).
    destruct (flip_diagonal_coords s Hs) as (Ht & Htf & Htr). cbv zeta in Ht, Htf, Htr.
    destruct (square_coords _ Ht) as (Htc & _ & _).
    cbn [diagonal_flip].
    destruct (Z.eqb_spec (off_A1H8 s) 0) as [Hon|Hoff]; unfold off_A1H8 in *.
    + rewrite diagonal_flip_done. cbn [app].
      destruct (IH (S i) Hall) as [Hshape Hlow]. split.
      * cbn [map]. replace (Z.land _ 63) with s by lia.
        destruct Hshape as [-> | ->]; [by left|by right].
      * intros [|k] Hk Hzero; [unfold sq_at, off_A1H8; cbn; lia|].
        apply (Hlow k); [lia|]. intros j Hj. apply (Hzero (S j)). lia.
    + fold (off_A1H8 s).
      destruct ((off_A1H8 s >? 0) && (i <? limit)%nat) eqn:Hflip; unfold off_A1H8 in *;
        cbn [app].
      * split; [by right|].
        intros [|k] Hk Hzero.
        -- unfold sq_at, off_A1H8. cbn [map lookup list_lookup default]. unfold id.
           apply andb_true_iff in Hflip as [Hflip _]. lia.
        -- specialize (Hzero 0%nat ltac:(lia)).
           unfold sq_at, off_A1H8 in Hzero. cbn [map lookup list_lookup default] in Hzero. unfold id in Hzero. lia.
      * split; [by left|].
        intros [|k] Hk Hzero.
        -- unfold sq_at, off_A1H8. cbn [lookup list_lookup default]. unfold id.
           destruct (Nat.ltb_spec i limit); [|lia]. rewrite andb_true_r in Hflip. lia.
        -- specialize (Hzero 0%nat ltac:(lia)).
           unfold sq_at, off_A1H8 in Hzero. cbn [lookup list_lookup default] in Hzero. unfold id in Hzero. lia.
Qed.

(** The three flips are symmetries of the board: they keep squares on the
    board and apart, and two kings next to each other stay so. *)
Lemma flip_symmetry (g : Z -> Z) :
  g = (fun s => s) \/ g = (fun s => Z.lxor s 7) \/ g = (fun s => Z.lxor s 56)
  \/ g = (fun q => Z.land (Z.lor (Z.shiftr q 3) (Z.shiftl q 3)) 63) ->
  (forall s, 0 <= s < 64 -> 0 <= g s < 64)
  /\ (forall s s', 0 <= s < 64 -> 0 <= s' < 64 -> g s = g s' -> s = s')
  /\ (forall s s', 0 <= s < 64 -> 0 <= s' < 64 -> king_zone (g s) (g s') = king_zone s s').
Proof.
  assert (Hcoords : forall g,
    (forall s, 0 <= s < 64 ->
       0 <= g s < 64
       /\ ((file_of (g s) = file_of s \/ file_of (g s) = 7 - file_of s)
           /\ (rank_of (g s) = rank_of s \/ rank_of (g s) = 7 - rank_of s)
           \/ file_of (g s) = rank_of s /\ rank_of (g s) = file_of s)) ->
    (forall s s', 0 <= s < 64 -> 0 <= s' < 64 ->
       (file_of (g s) = file_of s /\ file_of (g s') = file_of s'
        \/ file_of (g s) = 7 - file_of s /\ file_of (g s') = 7 - file_of s')
       /\ (rank_of (g s) = rank_of s /\ rank_of (g s') = rank_of s'
           \/ rank_of (g s) = 7 - rank_of s /\ rank_of (g s') = 7 - rank_of s')
       \/ (file_of (g s) = rank_of s /\ rank_of (g s) = file_of s)
          /\ file_of (g s') = rank_of s' /\ rank_of (g s') = file_of s') ->
    (forall s, 0 <= s < 64 -> 0 <= g s < 64)
    /\ (forall s s', 0 <= s < 64 -> 0 <= s' < 64 -> g s = g s' -> s = s')
    /\ (forall s s', 0 <= s < 64 -> 0 <= s' < 64 ->
          king_zone (g s) (g s') = king_zone s s')).
  { intros g' H1 H2. split; [intros s Hs; by apply H1|]. split.
    - intros s s' Hs Hs' Heq.
      destruct (square_coords s Hs) as (Hc & ? & ?).
      destruct (square_coords s' Hs') as (Hc' & ? & ?).
      specialize (H2 _ _ Hs Hs'). rewrite Heq in H2. lia.
    - intros s s' Hs Hs'. specialize (H2 _ _ Hs Hs'). unfold king_zone.
      assert (Habs : forall a b, Z.abs (7 - a - (7 - b)) = Z.abs (a - b)) by lia.
      destruct H2 as [[[[-> ->]|[-> ->]] [[-> ->]|[-> ->]]]|[[-> ->] [-> ->]]];
        rewrite ?Habs; [done..|apply andb_comm]. }
  intros [-> | [-> | [-> | ->]]]; apply Hcoords.
  - intros s Hs. split; [done|]. left. by split; left.
  - intros s s' _ _. left. by split; left.
  - intros s Hs. destruct (flip_file_coords s Hs) as (? & ? & ?).
    split; [done|]. left. split; [by right|by left].
  - intros s s' Hs Hs'. destruct (flip_file_coords s Hs) as (? & ? & ?).
    destruct (flip_file_coords s' Hs') as (? & ? & ?).
    left. split; [by right|by left].
  - intros s Hs. destruct (flip_rank_coords s Hs) as (? & ? & ?).
    split; [done|]. left. split; [by left|by right].
  - intros s s' Hs Hs'. destruct (flip_rank_coords s Hs) as (? & ? & ?).
    destruct (flip_rank_coords s' Hs') as (? & ? & ?).
    left. split; [by left|by right].
  - intros s Hs. destruct (flip_diagonal_coords s Hs) as (? & ? & ?).
    split; [done|]. by right.
  - intros s s' Hs Hs'. destruct (flip_diagonal_coords s Hs) as (? & ? & ?).
    destruct (flip_diagonal_coords s' Hs') as (? & ? & ?). by right.
Qed.

(** X26: the index of the leading pieces of a pawnless table is below the
    factor [get_pfactor] gives them.  For different squares on the board
    (and, where only the two kings lead, kings that do not stand next to
    each other), after the horizontal, the vertical and the diagonal flip
    of [probe_table] the index of the leading pieces is at least 0 and
    below 31332 for three unique pieces, below 462 for the two kings. *)
Theorem encode_pieces_bound (hasUniquePieces : bool) (squares : list Z) :
  Forall (fun s => 0 <= s < 64) squares -> NoDup squares ->
  ((if hasUniquePieces then 3 else 2) <= length squares)%nat ->
  (hasUniquePieces = false -> king_zone (sq_at squares 0) (sq_at squares 1) = false) ->
  let squares1 :=
    if file_of (sq_at squares 0) >? FILE_D
    then map (fun s => Z.lxor s 7) squares else squares in
  let squares2 :=
    if rank_of (sq_at squares1 0) >? RANK_4
    then map (fun s => Z.lxor s 56) squares1 else squares1 in
  let squares3 := diagonal_flip (if hasUniquePieces then 3 else 2) 0 [] squares2 in
  0 <= fst (encode_pieces hasUniquePieces squares3) < get_pfactor_piece hasUniquePieces.
Proof.
  intros Hall Hnd Hlen Hking. cbv zeta.
  set (limit := if hasUniquePieces then 3%nat else 2%nat) in *.
  assert (Hid : forall l : list Z, l = map (fun s => s) l) by (intros l; by rewrite map_id).
  (* the horizontal flip *)
  assert (H1 : exists g1,
    (g1 = (fun s => s) \/ g1 = (fun s => Z.lxor s 7))
    /\ (if file_of (sq_at squares 0) >? FILE_D
        then map (fun s => Z.lxor s 7) squares else squares) = map g1 squares
    /\ forall s, 0 <= s < 64 -> s = sq_at squares 0 ->
         file_of (g1 s) <= 3 /\ rank_of (g1 s) = rank_of s).
  { unfold FILE_D. destruct (Z.gtb_spec (file_of (sq_at squares 0)) 3).
    - exists (fun s => Z.lxor s 7). split; [by right|]. split; [done|].
      intros s Hs ->. destruct (flip_file_coords _ Hs) as (_ & -> & ->). lia.
    - exists (fun s => s). split; [by left|]. split; [apply Hid|].
      intros s Hs ->. lia. }
  destruct H1 as (g1 & Hg1 & -> & Hhead1).
  assert (Hsym1 := flip_symmetry g1 ltac:(tauto)). destruct Hsym1 as (Hr1 & Hi1 & Hk1).
  (* the vertical flip *)
  assert (H2 : exists g2,
    (g2 = (fun s => s) \/ g2 = (fun s => Z.lxor s 56))
    /\ (if rank_of (sq_at (map g1 squares) 0) >? RANK_4
        then map (fun s => Z.lxor s 56) (map g1 squares) else map g1 squares)
       = map g2 (map g1 squares)
    /\ forall s, 0 <= s < 64 -> s = sq_at (map g1 squares) 0 ->
         file_of (g2 s) = file_of s /\ rank_of (g2 s) <= 3).
  { unfold RANK_4. destruct (Z.gtb_spec (rank_of (sq_at (map g1 squares) 0)) 3).
    - exists (fun s => Z.lxor s 56). split; [by right|]. split; [done|].
      intros s Hs ->. destruct (flip_rank_coords _ Hs) as (_ & -> & ->). lia.
    - exists (fun s => s). split; [by left|]. split; [apply Hid|].
      intros s Hs ->. lia. }
  destruct H2 as (g2 & Hg2 & -> & Hhead2).
  assert (Hsym2 := flip_symmetry g2 ltac:(tauto)). destruct Hsym2 as (Hr2 & Hi2 & Hk2).
  (* the diagonal flip *)
  assert (Hall2 : Forall (fun s => 0 <= s < 64) (map g2 (map g1 squares))).
  { apply Forall_fmap, Forall_fmap. eapply Forall_impl; [exact Hall|].
    intros s Hs. cbn. by apply Hr2, Hr1. }
  destruct (diagonal_flip_cases limit _ 0%nat Hall2) as [Hshape Hlow].
  assert (H3 : exists g3,
    (g3 = (fun s => s)
     \/ g3 = (fun q => Z.land (Z.lor (Z.shiftr q 3) (Z.shiftl q 3)) 63))
    /\ diagonal_flip limit 0 [] (map g2 (map g1 squares)) = map g3 (map g2 (map g1 squares))).
  { destruct Hshape as [Hshape|Hshape].
    - exists (fun s => s). split; [by left|]. rewrite Hshape. apply Hid.
    - eexists. split; [by right|]. exact Hshape. }
  destruct H3 as (g3 & Hg3 & Hflip).
  assert (Hsym3 := flip_symmetry g3 ltac:(tauto)). destruct Hsym3 as (Hr3 & Hi3 & Hk3).
  rewrite Hflip in *. clear Hflip Hshape.
  (* the leading squares *)
  destruct squares as [|a0 [|b0 rest]];
    [subst limit; destruct hasUniquePieces; simpl in Hlen; lia..|].
  apply Forall_cons in Hall as [Ha0 Hall]. apply Forall_cons in Hall as [Hb0 Hall].
  apply NoDup_cons in Hnd as [Hab Hnd]. apply NoDup_cons in Hnd as [Hbc Hnd].
  cbn [map] in *.
  change (sq_at (a0 :: b0 :: rest) 0) with a0 in *.
  change (sq_at (a0 :: b0 :: rest) 1) with b0 in *.
  change (sq_at (g1 a0 :: g1 b0 :: map g1 rest) 0) with (g1 a0) in *.
  destruct (Hhead1 a0 Ha0 eq_refl) as [Hf1 Hrk1].
  destruct (Hhead2 (g1 a0) (Hr1 _ Ha0) eq_refl) as [Hf2 Hrk2].
  set (a := g3 (g2 (g1 a0))) in *. set (b := g3 (g2 (g1 b0))) in *.
  assert (Ha : 0 <= a < 64) by (by apply Hr3, Hr2, Hr1).
  assert (Hb : 0 <= b < 64) by (by apply Hr3, Hr2, Hr1).
  assert (Hne : a <> b).
  { intros Heq. apply Hi3, Hi2, Hi1 in Heq; try done; auto.
    subst b0. apply Hab. by left. }
  assert (Htri : file_of a <= 3 /\ rank_of a <= 3).
  { subst a. destruct Hg3 as [-> | ->]; [lia|].
    destruct (flip_diagonal_coords (g2 (g1 a0))) as (_ & -> & ->); [by apply Hr2, Hr1|]. lia. }
  pose proof (Hlow 0%nat) as Hlow0. pose proof (Hlow 1%nat) as Hlow1.
  pose proof (Hlow 2%nat) as Hlow2. clear Hlow.
  unfold encode_pieces, get_pfactor_piece. subst limit.
  destruct hasUniquePieces.
  - destruct rest as [|c0 rest]; [simpl in Hlen; lia|].
    apply Forall_cons in Hall as [Hc0 Hall].
    cbn [map] in *. set (c := g3 (g2 (g1 c0))) in *.
    set (tl := map g3 (map g2 (map g1 rest))) in *.
    change (sq_at (a :: b :: c :: tl) 0) with a in *.
    change (sq_at (a :: b :: c :: tl) 1) with b in *.
    change (sq_at (a :: b :: c :: tl) 2) with c in *.
    assert (Hc : 0 <= c < 64) by (by apply Hr3, Hr2, Hr1).
    assert (Hac : a <> c).
    { intros Heq. apply Hi3, Hi2, Hi1 in Heq; try done; auto.
      subst c0. apply Hab. right. by left. }
    assert (Hbc' : b <> c).
    { intros Heq. apply Hi3, Hi2, Hi1 in Heq; try done; auto.
      subst c0. apply Hbc. by left. }
    specialize (Hlow0 ltac:(lia) ltac:(intros j Hj; lia)).
    assert (Hlow1' : off_A1H8 a = 0 -> off_A1H8 b <= 0).
    { intros Hz. apply Hlow1; [lia|]. intros [|j] Hj; [done|lia]. }
    assert (Hlow2' : off_A1H8 a = 0 -> off_A1H8 b = 0 -> off_A1H8 c <= 0).
    { intros Hz Hz'. apply Hlow2; [lia|]. intros [|[|j]] Hj; [done|done|lia]. }
    clear Hlow1 Hlow2.
    destruct (square_coords a Ha) as (Hca & ? & ?).
    destruct (square_coords b Hb) as (Hcb & ? & ?).
    destruct (square_coords c Hc) as (Hcc & ? & ?).
    destruct (Map_ranges a Ha) as [_ HmA]. destruct (Map_ranges b Hb) as [HmB _].
    destruct (Map_ranges c Hc) as [HmC _].
    unfold off_A1H8 in *. cbn [fst].
    destruct (Z.gtb_spec b a), (Z.gtb_spec c a), (Z.gtb_spec c b); cbn [Z.b2z];
      destruct (Z.eqb_spec (rank_of a - file_of a) 0); cbn [negb];
      try (destruct (Z.eqb_spec (rank_of b - file_of b) 0); cbn [negb]);
      try (destruct (Z.eqb_spec (rank_of c - file_of c) 0); cbn [negb]);
      (unfold u64; rewrite Z.mod_small; lia).
  - set (tl := map g3 (map g2 (map g1 rest))) in *.
    change (sq_at (a :: b :: tl) 0) with a in *.
    change (sq_at (a :: b :: tl) 1) with b in *.
    specialize (Hlow0 ltac:(lia) ltac:(intros j Hj; lia)).
    assert (Hlow1' : off_A1H8 a = 0 -> off_A1H8 b <= 0).
    { intros Hz. apply Hlow1; [lia|]. intros [|j] Hj; [done|lia]. }
    assert (Hzone : king_zone a b = false).
    { subst a b. rewrite Hk3, Hk2, Hk1; auto. }
    pose proof (KK_idx_range a b Ha Hb (proj1 Htri) (proj2 Htri) Hlow0 Hzone Hlow1').
    cbn [fst]. unfold u64. rewrite Z.mod_small; lia.
Qed.

Lemma encode_pieces_bound_witness :
  0 <= fst (encode_pieces true [3; 4; 59]) < get_pfactor_piece true
  /\ fst (encode_pieces true [3; 4; 59]) = 2 * 63 * 62 + 3 * 62 + 57.
Proof.
  split; [|reflexivity].
  assert (Hall : Forall (fun s => 0 <= s < 64) [4; 3; 60])
    by (repeat apply Forall_cons_2; [lia..|apply Forall_nil_2]).
  assert (Hnd : NoDup [4; 3; 60]).
  { apply (bool_decide_unpack (NoDup [4; 3; 60])). vm_compute. exact I. }
  assert (Hlen : ((if true then 3 else 2) <= length [4; 3; 60])%nat) by (simpl; lia).
  assert (Hking : true = false -> king_zone (sq_at [4; 3; 60] 0) (sq_at [4; 3; 60] 1) = false)
    by discriminate.
  exact (encode_pieces_bound true [4; 3; 60] Hall Hnd Hlen Hking).
Defined.
